(** * "New Yale" sparse storage (ext/nmatrix/storage/yale.cpp)

    A shallow embedding of the storage engine of yale.cpp: the two parallel
    arrays A and IJA of a YALE_STORAGE, the searches over a row's column
    indices, single-cell reads and writes, insertion with and without a
    resize, whole-matrix equality, the element-wise engine, the cast copy and
    the bridge from the old Yale triples.

    Conventions of the embedding.
    - A C array is a total function from positions to cells together with the
      allocated length it is accessed under: a read or a write outside
      [0, length) is undefined behaviour in C and is the outcome [Fault] here.
      Memory returned by ALLOC_N is not initialised: every allocating
      function takes the content the fresh block happens to hold as an
      argument ([junk_ija], [junk_a]).
    - Integers are in Z and the conversions of the machine types are written
      out: [to_itype] for a store into an IType object, [isum] for the sum of
      two IType operands, [to_int], [to_uint] and [to_size_t].
    - Value kinds are restricted to the fixed-width integer kinds; a store of
      one kind into another is [to_dtype].
    - The functions are templates over the index type IType and the value
      types; the dispatch tables at the end of yale.cpp instantiate IType at
      the storage's [itype] field and the value types at the [dtype] fields,
      so the embedding reads them from the storage.
    - rb_raise is the outcome [Raise]; a loop that has not finished when its
      fuel is spent is [OutOfFuel].
    - printf and fprintf calls are left out. *)

From Stdlib Require Import ZArith Lia List Bool Ascii.
Import ListNotations.
Local Open Scope Z_scope.

(* ================================================================== *)
(** * Part I: the model *)
(* ================================================================== *)

(** ** Outcomes of a call *)

Inductive exn : Type := ArgError | NoMemError | NotImpError.

Inductive outcome (A : Type) : Type :=
| Ok (x : A)
| Raise (e : exn)
| Fault
| OutOfFuel.

Arguments Ok {A} x.
Arguments Raise {A} e.
Arguments Fault {A}.
Arguments OutOfFuel {A}.

Definition bind {A B : Type} (m : outcome A) (k : A -> outcome B) : outcome B :=
  match m with
  | Ok x => k x
  | Raise e => Raise e
  | Fault => Fault
  | OutOfFuel => OutOfFuel
  end.

Notation "x <- m ;; k" := (bind m (fun x => k))
  (at level 61, m at next level, right associativity).
Notation "' pat <- m ;; k" := (bind m (fun x => match x with pat => k end))
  (at level 61, pat pattern, m at next level, right associativity).

(** ** Machine integers *)

Inductive itype_t : Type := UINT8 | UINT16 | UINT32 | UINT64.

Definition itype_bits (it : itype_t) : Z :=
  match it with UINT8 => 8 | UINT16 => 16 | UINT32 => 32 | UINT64 => 64 end.

Definition IMOD (it : itype_t) : Z := 2 ^ itype_bits it.

(** Conversion to IType (a store into the IJA array, an IType parameter or
    local). *)
Definition to_itype (it : itype_t) (x : Z) : Z := x mod IMOD it.

(** [left + right] on two IType operands: uint8 and uint16 are promoted to
    int, where the sum is exact; uint32 and uint64 sums wrap. *)
Definition isum (it : itype_t) (x y : Z) : Z :=
  if itype_bits it <? 32 then x + y else (x + y) mod IMOD it.

Definition to_int (x : Z) : Z := (x + 2 ^ 31) mod 2 ^ 32 - 2 ^ 31.
Definition to_uint (x : Z) : Z := x mod 2 ^ 32.
Definition to_size_t (x : Z) : Z := x mod 2 ^ 64.

Definition itype_rank (it : itype_t) : Z :=
  match it with UINT8 => 0 | UINT16 => 1 | UINT32 => 2 | UINT64 => 3 end.

(** ** Value kinds *)

Inductive dtype_t : Type := BYTE | INT8 | INT16 | INT32 | INT64.

Definition dtype_eqb (d e : dtype_t) : bool :=
  match d, e with
  | BYTE, BYTE | INT8, INT8 | INT16, INT16 | INT32, INT32 | INT64, INT64 => true
  | _, _ => false
  end.

Definition dtype_bits (d : dtype_t) : Z :=
  match d with BYTE => 8 | INT8 => 8 | INT16 => 16 | INT32 => 32 | INT64 => 64 end.

Definition dtype_min (d : dtype_t) : Z :=
  match d with BYTE => 0 | _ => - 2 ^ (dtype_bits d - 1) end.

Definition dtype_max (d : dtype_t) : Z :=
  match d with BYTE => 255 | _ => 2 ^ (dtype_bits d - 1) - 1 end.

(** Conversion of an integer value to the kind [d]. *)
Definition to_dtype (d : dtype_t) (v : Z) : Z :=
  (v - dtype_min d) mod 2 ^ dtype_bits d + dtype_min d.

Definition in_dtype (d : dtype_t) (v : Z) : bool :=
  (dtype_min d <=? v) && (v <=? dtype_max d).

(** ** Arrays *)

Definition array : Type := Z -> Z.

Definition upd (m : array) (i v : Z) : array :=
  fun k => if k =? i then v else m k.

(** The array holding the elements of [l], for writing inputs down. *)
Definition of_list (l : list Z) : array :=
  fun k => if k <? 0 then 0 else nth (Z.to_nat k) l 0.

Definition in_bounds (len i : Z) : bool := (0 <=? i) && (i <? len).

Definition rd (len : Z) (m : array) (i : Z) : outcome Z :=
  if in_bounds len i then Ok (m i) else Fault.

Definition wr (len : Z) (m : array) (i v : Z) : outcome array :=
  if in_bounds len i then Ok (upd m i v) else Fault.

(** ** Loops *)

(** [for (i = lo; i < hi; ++i) body], for a body that leaves [i] and [hi]
    alone. *)
Fixpoint for_n {St : Type} (n : nat) (i : Z) (body : Z -> St -> outcome St)
  (st : St) : outcome St :=
  match n with
  | O => Ok st
  | S n' => st' <- body i st ;; for_n n' (i + 1) body st'
  end.

Definition for_range {St : Type} (lo hi : Z) (body : Z -> St -> outcome St)
  (st : St) : outcome St :=
  for_n (Z.to_nat (hi - lo)) lo body st.

(** The same loop with a body that may return from the function: [None]
    goes on, [Some r] returns [r]. *)
Fixpoint find_n {R : Type} (n : nat) (i : Z) (body : Z -> outcome (option R))
  : outcome (option R) :=
  match n with
  | O => Ok None
  | S n' =>
      r <- body i ;;
      match r with
      | Some x => Ok (Some x)
      | None => find_n n' (i + 1) body
      end
  end.

Definition find_range {R : Type} (lo hi : Z) (body : Z -> outcome (option R))
  : outcome (option R) :=
  find_n (Z.to_nat (hi - lo)) lo body.

(** ** The storage *)

Record YALE_STORAGE : Type := mkYale {
  dtype : dtype_t;
  dim : Z;
  shape0 : Z;       (* shape[0]: rows *)
  shape1 : Z;       (* shape[1]: columns *)
  itype : itype_t;
  ndnz : Z;
  capacity : Z;     (* allocated length of both arrays *)
  ija : array;
  a : array
}.

Record SLICE : Type := mkSlice {
  coords0 : Z;
  coords1 : Z;
  single : bool
}.

Definition set_ija (s : YALE_STORAGE) (m : array) : YALE_STORAGE :=
  mkYale (dtype s) (dim s) (shape0 s) (shape1 s) (itype s) (ndnz s)
         (capacity s) m (a s).

Definition set_a (s : YALE_STORAGE) (m : array) : YALE_STORAGE :=
  mkYale (dtype s) (dim s) (shape0 s) (shape1 s) (itype s) (ndnz s)
         (capacity s) (ija s) m.

Definition set_ndnz (s : YALE_STORAGE) (n : Z) : YALE_STORAGE :=
  mkYale (dtype s) (dim s) (shape0 s) (shape1 s) (itype s) n
         (capacity s) (ija s) (a s).

Definition rd_ija (s : YALE_STORAGE) (i : Z) : outcome Z :=
  rd (capacity s) (ija s) i.

Definition rd_a (s : YALE_STORAGE) (i : Z) : outcome Z :=
  rd (capacity s) (a s) i.

(** Two index kinds are the same kind. *)
Definition itype_eqb (x y : itype_t) : bool := itype_rank x =? itype_rank y.

(** sizeof(IType) *)
Definition itype_bytes (it : itype_t) : Z := itype_bits it / 8.

(** Byte [b] of a block whose elements are of the kind [it], the least
    significant byte of an element first. *)
Definition byte_at (it : itype_t) (m : array) (b : Z) : Z :=
  (m (b / itype_bytes it) / 2 ^ (8 * (b mod itype_bytes it))) mod 256.

(** The unsigned integer held by the [n] bytes from byte [b] on. *)
Fixpoint bytes_value (n : nat) (it : itype_t) (m : array) (b : Z) : Z :=
  match n with
  | O => 0
  | S n' => byte_at it m b + 256 * bytes_value n' it m (b + 1)
  end.

(** [reinterpret_cast<IType*>(s->ija)[i]] for the index kind [it] of a
    template instance: the IJA block of [s] holds [capacity s] elements of
    the kind [itype s]. Read as that kind the block gives its elements; read
    as another kind it gives the bytes that lie at element [i] of the kind
    read, and the read is outside the block when those bytes are. *)
Definition rd_ija_as (it : itype_t) (s : YALE_STORAGE) (i : Z) : outcome Z :=
  if itype_eqb it (itype s) then rd_ija s i
  else if (0 <=? i)
          && ((i + 1) * itype_bytes it <=? capacity s * itype_bytes (itype s))
  then Ok (bytes_value (Z.to_nat (itype_bytes it)) (itype s) (ija s)
             (i * itype_bytes it))
  else Fault.

(** get_size: [ija[shape[0]]] as a size_t. *)
Definition get_size (s : YALE_STORAGE) : outcome Z :=
  rd_ija s (shape0 s).

(** max_size *)
Definition max_size (s : YALE_STORAGE) : Z :=
  let result := to_size_t (to_size_t (shape0 s * shape1 s) + 1) in
  if shape0 s >? shape1 s
  then to_size_t (result + to_size_t (shape0 s - shape1 s))
  else result.

(** ** Utility: the two binary searches *)

(** binary_search: the position of [key] in [ija[left..right]], or -1. The
    result is an int. *)
Fixpoint binary_search (fuel : nat) (s : YALE_STORAGE) (left right key : Z)
  : outcome Z :=
  match fuel with
  | O => OutOfFuel
  | S fuel' =>
      if left >? right then Ok (-1)
      else
        let mid := to_itype (itype s) (isum (itype s) left right / 2) in
        mid_j <- rd_ija s mid ;;
        if mid_j =? key then Ok (to_int mid)
        else if mid_j >? key
        then binary_search fuel' s left (to_itype (itype s) (mid - 1)) key
        else binary_search fuel' s (to_itype (itype s) (mid + 1)) right key
  end.

(** insert_search: the position of [key], or the position where it goes;
    the flag is [*found]. *)
Fixpoint insert_search (fuel : nat) (s : YALE_STORAGE) (left right key : Z)
  : outcome (Z * bool) :=
  match fuel with
  | O => OutOfFuel
  | S fuel' =>
      if left >? right then Ok (left, false)
      else
        let mid := to_itype (itype s) (isum (itype s) left right / 2) in
        mid_j <- rd_ija s mid ;;
        if mid_j =? key then Ok (mid, true)
        else if mid_j >? key
        then insert_search fuel' s left (to_itype (itype s) (mid - 1)) key
        else insert_search fuel' s (to_itype (itype s) (mid + 1)) right key
  end.

(** ** Accessors *)

(** ref: the position in A of the cell at the slice's coordinates. *)
Definition ref (fuel : nat) (s : YALE_STORAGE) (slice : SLICE) : outcome Z :=
  if negb (single slice) then Raise NotImpError
  else if coords0 slice =? coords1 slice then Ok (coords0 slice)
  else
    lo <- rd_ija s (coords0 slice) ;;
    hi <- rd_ija s (coords0 slice + 1) ;;
    if lo =? hi then Ok (shape0 s)
    else
      pos <- binary_search fuel s lo (to_itype (itype s) (hi - 1))
               (to_itype (itype s) (coords1 slice)) ;;
      if pos =? -1 then Ok (shape0 s)
      else
        c <- rd_ija s pos ;;
        if c =? coords1 slice then Ok pos else Ok (shape0 s).

(** What the caller reads through the pointer [ref] returns. *)
Definition ref_value (fuel : nat) (s : YALE_STORAGE) (slice : SLICE)
  : outcome Z :=
  pos <- ref fuel s slice ;; rd_a s pos.

(** ** Row Store: insertion and resize *)

Section Insertion.

(** Where yale.h is the only place that says it: [GROWTH_CONSTANT] is a
    floating constant of yale.h; [grow c] stands for the size_t that
    [c * GROWTH_CONSTANT] converts to. *)
Variable grow : Z -> Z.

(** The content of the blocks ALLOC_N hands out. *)
Variables junk_ija junk_a : array.

(** One pass of a copy loop: [dst_ija[i + off] = src_ija[i]] and, unless
    [struct_only], [dst_a[i + off] = src_a[i]]. The state is the pair of
    destination arrays. *)
Definition copy_slot (src : YALE_STORAGE) (dst_len off : Z)
  (struct_only : bool) (i : Z) (st : array * array) : outcome (array * array) :=
  let '(new_ija, new_a) := st in
  x <- rd_ija src i ;;
  new_ija' <- wr dst_len new_ija (i + off) x ;;
  if struct_only then Ok (new_ija', new_a)
  else
    v <- rd_a src i ;;
    new_a' <- wr dst_len new_a (i + off) v ;;
    Ok (new_ija', new_a').

(** vector_insert_resize *)
Definition vector_insert_resize (s : YALE_STORAGE) (current_size pos n : Z)
  (struct_only : bool) : outcome (ascii * YALE_STORAGE) :=
  let new_capacity := grow (capacity s) in
  let max_capacity := max_size s in
  new_capacity <-
    (if new_capacity >? max_capacity
     then if to_size_t (current_size + n) >? max_capacity
          then Raise NoMemError
          else Ok max_capacity
     else Ok new_capacity) ;;
  let new_capacity :=
    if new_capacity <? to_size_t (current_size + n)
    then to_size_t (current_size + n) else new_capacity in
  (* Copy all values prior to the insertion site *)
  st <- for_range 0 pos
          (copy_slot s new_capacity 0 struct_only)
          (junk_ija, junk_a) ;;
  (* Copy all values subsequent to the insertion site, leaving room *)
  st <- for_range pos (to_size_t (current_size - pos + n - 1))
          (copy_slot s new_capacity n struct_only) st ;;
  Ok ("i"%char,
      mkYale (dtype s) (dim s) (shape0 s) (shape1 s) (itype s) (ndnz s)
             new_capacity (fst st) (snd st)).

(** The tail shift of vector_insert when no resize is needed: pass [i] moves
    the slot [size-1-i] to [size+n-1-i]. *)
Definition shift_slot (len size n : Z) (struct_only : bool)
  (i : Z) (st : array * array) : outcome (array * array) :=
  let '(ija, a) := st in
  x <- rd len ija (size - 1 - i) ;;
  ija' <- wr len ija (size + n - 1 - i) x ;;
  if struct_only then Ok (ija', a)
  else
    v <- rd len a (size - 1 - i) ;;
    a' <- wr len a (size + n - 1 - i) v ;;
    Ok (ija', a').

(** Writing the new keys (and values) into the gap. *)
Definition put_slot (it : itype_t) (len pos : Z) (j val : array)
  (struct_only : bool) (i : Z) (st : array * array) : outcome (array * array) :=
  let '(ija, a) := st in
  ija' <- wr len ija (pos + i) (to_itype it (j i)) ;;
  if struct_only then Ok (ija', a)
  else
    a' <- wr len a (pos + i) (val i) ;;
    Ok (ija', a').

(** vector_insert: [n] keys [j[0..n)] (and values [val[0..n)]) go to the
    positions [pos .. pos+n). *)
Definition vector_insert (s : YALE_STORAGE) (pos : Z) (j val : array) (n : Z)
  (struct_only : bool) : outcome (ascii * YALE_STORAGE) :=
  if pos <? shape0 s then Raise ArgError
  else
    size <- get_size s ;;
    s1 <-
      (if to_size_t (size + n) >? capacity s
       then
         '(_, s') <- vector_insert_resize s size pos n struct_only ;;
         Ok s'
       else
         st <- for_range 0 (to_size_t (size - pos))
                 (shift_slot (capacity s) size n struct_only)
                 (ija s, a s) ;;
         Ok (set_a (set_ija s (fst st)) (snd st))) ;;
    (* Now insert the new values. *)
    st <- for_range 0 n
            (put_slot (itype s1) (capacity s1) pos j val struct_only)
            (ija s1, a s1) ;;
    Ok ("i"%char, set_a (set_ija s1 (fst st)) (snd st)).

(** increment_ia_after: [ija[i+1 .. ija_size] += n], every operand an IType. *)
Definition increment_ia_after (s : YALE_STORAGE) (ija_size i n : Z)
  : outcome YALE_STORAGE :=
  let it := itype s in
  let ija_size := to_itype it ija_size in
  let i := to_itype it (i + 1) in
  if ija_size + 1 =? IMOD it then
    (* i <= ija_size holds of every IType value: the loop does not end *)
    OutOfFuel
  else
    m <- for_range i (ija_size + 1)
           (fun k m =>
              x <- rd (capacity s) m k ;;
              wr (capacity s) m k (to_itype it (x + to_itype it n)))
           (ija s) ;;
    Ok (set_ija s m).

(** set: the result is the tag ('r' replaced, 'i' inserted) and the storage
    after the call. *)
Definition set (fuel : nat) (s : YALE_STORAGE) (slice : SLICE) (v : Z)
  : outcome (ascii * YALE_STORAGE) :=
  let row := coords0 slice in
  let col := coords1 slice in
  if row =? col then
    a' <- wr (capacity s) (a s) row v ;;
    Ok ("r"%char, set_a s a')
  else
    lo <- rd_ija s row ;;
    hi <- rd_ija s (row + 1) ;;
    if lo =? hi then
      (* empty row *)
      '(ins_type, s1) <- vector_insert s lo (fun _ => col) (fun _ => v) 1 false ;;
      s2 <- increment_ia_after s1 (shape0 s1) row 1 ;;
      Ok (ins_type, set_ndnz s2 (to_size_t (ndnz s2 + 1)))
    else
      '(pos, found) <- insert_search fuel s lo (to_itype (itype s) (hi - 1))
                         (to_itype (itype s) col) ;;
      if found then
        ija' <- wr (capacity s) (ija s) pos (to_itype (itype s) col) ;;
        a' <- wr (capacity s) (a s) pos v ;;
        Ok ("r"%char, set_a (set_ija s ija') a')
      else
        '(ins_type, s1) <- vector_insert s pos (fun _ => col) (fun _ => v) 1 false ;;
        s2 <- increment_ia_after s1 (shape0 s1) row 1 ;;
        Ok (ins_type, set_ndnz s2 (to_size_t (ndnz s2 + 1))).

End Insertion.

(** ** Tests: whole-matrix equality *)

(** The reads a comparison performs, in order: which array, which
    position. *)
Inductive access : Type :=
| LeftA (i : Z)
| RightA (i : Z)
| LeftIJA (i : Z)
| RightIJA (i : Z).

Definition traced (A : Type) : Type := (list access * outcome A)%type.

Definition tret {A : Type} (x : A) : traced A := ([], Ok x).

Definition tbind {A B : Type} (m : traced A) (k : A -> traced B) : traced B :=
  match snd m with
  | Ok x => let r := k x in (fst m ++ fst r, snd r)
  | Raise e => (fst m, Raise e)
  | Fault => (fst m, Fault)
  | OutOfFuel => (fst m, OutOfFuel)
  end.

Notation "x <~ m ;; k" := (tbind m (fun x => k))
  (at level 61, m at next level, right associativity).

Definition trd (tag : Z -> access) (len : Z) (m : array) (i : Z) : traced Z :=
  ([tag i], rd len m i).

(** A read of [rij[i]], where [rij] is the IJA block of the right operand
    cast to the index kind [it] of the left one. *)
Definition trd_rij (it : itype_t) (r : YALE_STORAGE) (i : Z) : traced Z :=
  ([RightIJA i], rd_ija_as it r i).

(** The locals of ndrow_eqeq_ndrow. *)
Record merge_state : Type := mkMerge {
  l_ija : Z;
  r_ija : Z;
  l_ja : Z;
  r_ja : Z;
  ja : Z;
  l_no_more : bool;
  r_no_more : bool
}.

(** One pass of the while loop of ndrow_eqeq_ndrow: [inr b] is [return b],
    [inl st] the locals at the end of the pass. *)
Definition ndrow_step (l r : YALE_STORAGE) (l_ija_next r_ija_next : Z)
  (st : merge_state) : traced (merge_state + bool) :=
  let it := itype l in
  if l_ja st =? r_ja st then
    rv <~ trd RightA (capacity r) (a r) (r_ija st) ;;
    lv <~ trd LeftA (capacity l) (a l) (l_ija st) ;;
    if negb (rv =? lv) then tret (inr false)
    else
      let l_ija' := to_itype it (l_ija st + 1) in
      let r_ija' := to_itype it (r_ija st + 1) in
      lp <~ (if l_ija' <? l_ija_next
             then x <~ trd LeftIJA (capacity l) (ija l) l_ija' ;;
                  tret (x, l_no_more st)
             else tret (l_ja st, true)) ;;
      rp <~ (if r_ija' <? r_ija_next
             then x <~ trd_rij it r r_ija' ;;
                  tret (x, r_no_more st)
             else tret (r_ja st, true)) ;;
      tret (inl (mkMerge l_ija' r_ija' (fst lp) (fst rp)
                         (Z.min (fst lp) (fst rp)) (snd lp) (snd rp)))
  else if l_no_more st || (ja st <? l_ja st) then
    rv <~ trd RightA (capacity r) (a r) (r_ija st) ;;
    if negb (rv =? 0) then tret (inr false)
    else
      let r_ija' := to_itype it (r_ija st + 1) in
      if r_ija' <? r_ija_next then
        x <~ trd_rij it r r_ija' ;;
        tret (inl (mkMerge (l_ija st) r_ija' (l_ja st) x
                           (Z.min (l_ja st) x) (l_no_more st) (r_no_more st)))
      else
        tret (inl (mkMerge (l_ija st) r_ija' (l_ja st) (r_ja st) (ja st)
                           true (r_no_more st)))
  else if r_no_more st || (ja st <? r_ja st) then
    lv <~ trd LeftA (capacity l) (a l) (l_ija st) ;;
    if negb (lv =? 0) then tret (inr false)
    else
      let l_ija' := to_itype it (l_ija st + 1) in
      if l_ija' <? l_ija_next then
        x <~ trd LeftIJA (capacity l) (ija l) l_ija' ;;
        tret (inl (mkMerge l_ija' (r_ija st) x (r_ja st)
                           (Z.min x (r_ja st)) (l_no_more st) (r_no_more st)))
      else
        tret (inl (mkMerge l_ija' (r_ija st) (l_ja st) (r_ja st) (ja st)
                           true (r_no_more st)))
  else
    (* "Unhandled in eqeq": a message, and the loop goes on *)
    tret (inl st).

Fixpoint ndrow_loop (fuel : nat) (l r : YALE_STORAGE)
  (l_ija_next r_ija_next : Z) (st : merge_state) : traced bool :=
  match fuel with
  | O => ([], OutOfFuel)
  | S fuel' =>
      if l_no_more st && r_no_more st then tret true
      else
        x <~ ndrow_step l r l_ija_next r_ija_next st ;;
        match x with
        | inr b => tret b
        | inl st' => ndrow_loop fuel' l r l_ija_next r_ija_next st'
        end
  end.

(** ndrow_eqeq_ndrow, with the reads it performs. *)
Definition ndrow_eqeq_ndrow (fuel : nat) (l r : YALE_STORAGE)
  (l_ija l_ija_next r_ija r_ija_next : Z) : traced bool :=
  l_ja <~ trd LeftIJA (capacity l) (ija l) l_ija ;;
  r_ja <~ trd_rij (itype l) r r_ija ;;
  ndrow_loop fuel l r l_ija_next r_ija_next
    (mkMerge l_ija r_ija l_ja r_ja (Z.min l_ja r_ja) false false).

(** ndrow_is_empty *)
Definition ndrow_is_empty (s : YALE_STORAGE) (ija ija_next : Z) : outcome bool :=
  if ija =? ija_next then Ok true
  else
    r <- find_range ija ija_next
           (fun p => v <- rd_a s p ;;
                     Ok (if negb (v =? 0) then Some false else None)) ;;
    Ok (match r with Some b => b | None => true end).

(** The body of the row loop of eqeq: [Some false] is [return false]. *)
Definition eqeq_row (fuel : nat) (left right : YALE_STORAGE) (i : Z)
  : outcome (option bool) :=
  l_ija <- rd_ija left i ;;
  l_ija_next <- rd_ija left (i + 1) ;;
  r_ija <- rd_ija_as (itype left) right i ;;
  r_ija_next <- rd_ija_as (itype left) right (i + 1) ;;
  le <- ndrow_is_empty left l_ija l_ija_next ;;
  if le then
    re <- ndrow_is_empty right r_ija r_ija_next ;;
    Ok (if negb re then Some false else None)
  else
    re <- ndrow_is_empty right r_ija r_ija_next ;;
    if re then Ok (Some false)
    else
      b <- snd (ndrow_eqeq_ndrow fuel left right l_ija l_ija_next
                  r_ija r_ija_next) ;;
      Ok (if negb b then Some false else None).

(** eqeq *)
Definition eqeq (fuel : nat) (left right : YALE_STORAGE) : outcome bool :=
  d <- find_range 0 (shape0 left)
         (fun index =>
            lv <- rd_a left index ;;
            rv <- rd_a right index ;;
            Ok (if negb (lv =? rv) then Some false else None)) ;;
  match d with
  | Some b => Ok b
  | None =>
      r <- find_range 0 (shape0 left) (eqeq_row fuel left right) ;;
      Ok (match r with Some b => b | None => true end)
  end.

(** ** Lifecycle, copying and casting, the old-Yale bridge *)

Section Lifecycle.

(** nm_yale_storage_itype_by_shape is declared in yale.h and defined outside
    yale.cpp: the index kind a shape asks for. *)
Variable itype_by_shape : Z -> Z -> itype_t.

(** NM_YALE_MINIMUM is a macro of yale.h: the least capacity of a storage. *)
Variable NM_YALE_MINIMUM : YALE_STORAGE -> Z.

(** The content of the blocks ALLOC_N hands out. *)
Variables junk_ija junk_a : array.

(** alloc: the basic struct; capacity, IJA and A are set by the caller (until
    then the record holds capacity 0 and the blocks to come). *)
Definition alloc (dt : dtype_t) (rows cols : Z) (dim : Z) (min_itype : itype_t)
  : YALE_STORAGE :=
  let it := itype_by_shape rows cols in
  let it := if itype_rank it <? itype_rank min_itype then min_itype else it in
  mkYale dt dim rows cols it 0 0 junk_ija junk_a.

(** nm_yale_storage_create *)
Definition nm_yale_storage_create (dt : dtype_t) (rows cols : Z) (dim : Z)
  (init_capacity : Z) (min_itype : itype_t) : outcome YALE_STORAGE :=
  if negb (dim =? 2) then Raise NotImpError
  else
    let s := alloc dt rows cols dim min_itype in
    let max_capacity := max_size s in
    let cap :=
      if init_capacity <? NM_YALE_MINIMUM s then NM_YALE_MINIMUM s
      else if init_capacity >? max_capacity then max_capacity
      else init_capacity in
    Ok (mkYale (dtype s) (dim) (shape0 s) (shape1 s) (itype s) (ndnz s)
               cap junk_ija junk_a).

(** copy_alloc_struct: a new struct with the IJA entries below the size
    copied; [new_size] is not used by the function. *)
Definition copy_alloc_struct (rhs : YALE_STORAGE) (new_dtype : dtype_t)
  (new_capacity new_size : Z) : outcome YALE_STORAGE :=
  size <- get_size rhs ;;
  m <- for_range 0 size
         (fun i m => x <- rd_ija rhs i ;; wr new_capacity m i x)
         junk_ija ;;
  Ok (mkYale new_dtype (dim rhs) (shape0 rhs) (shape1 rhs) (itype rhs)
             (ndnz rhs) new_capacity m junk_a).

(** cast_copy *)
Definition cast_copy (rhs : YALE_STORAGE) (new_dtype : dtype_t)
  : outcome YALE_STORAGE :=
  size <- get_size rhs ;;
  lhs <- copy_alloc_struct rhs new_dtype (capacity rhs) size ;;
  if dtype_eqb (dtype rhs) new_dtype then
    (* memcpy of [size] elements *)
    m <- for_range 0 size
           (fun i m => v <- rd_a rhs i ;; wr (capacity lhs) m i v)
           (a lhs) ;;
    Ok (set_a lhs m)
  else
    m <- for_range 0 size
           (fun i m => v <- rd_a rhs i ;;
                       wr (capacity lhs) m i (to_dtype new_dtype v))
           (a lhs) ;;
    Ok (set_a lhs m).

(** The first pass of create_from_old_yale: the count of entries off the
    diagonal. *)
Definition count_ndnz (rows : Z) (ir jr : array) : outcome Z :=
  for_range 0 rows
    (fun i ndnz =>
       for_range (ir i) (ir (i + 1))
         (fun p ndnz => Ok (if negb (i =? jr p) then ndnz + 1 else ndnz))
         ndnz)
    0.

(** One pass of the inner loop of the second pass: the entry [p] of row [i]
    goes to the diagonal or to the position [pp]. *)
Definition fill_entry (dt : dtype_t) (cap : Z) (jr ar : array)
  (i p : Z) (st : Z * array * array) : outcome (Z * array * array) :=
  let '(pp, ijl, al) := st in
  if i =? jr p then
    al' <- wr cap al i (to_dtype dt (ar p)) ;;
    Ok (pp, ijl, al')
  else
    ijl' <- wr cap ijl pp (jr p) ;;
    al' <- wr cap al pp (to_dtype dt (ar p)) ;;
    Ok (pp + 1, ijl', al').

(** One pass of the outer loop: the state is [p], then [pp], IJA and A. *)
Definition fill_row (it : itype_t) (dt : dtype_t) (cap : Z) (ir jr ar : array)
  (i : Z) (st : Z * (Z * array * array)) : outcome (Z * (Z * array * array)) :=
  let '(p, (pp, ijl, al)) := st in
  ijl' <- wr cap ijl i (to_itype it pp) ;;
  st' <- for_range p (ir (i + 1)) (fill_entry dt cap jr ar i) (pp, ijl', al) ;;
  Ok (Z.max p (ir (i + 1)), st').

(** create_from_old_yale: [ir], [jr] and [ar] are the IA, JA and A vectors
    of the old Yale format; the values are stored as the kind [dt]. *)
Definition create_from_old_yale (dt : dtype_t) (rows cols : Z)
  (ir jr ar : array) : outcome YALE_STORAGE :=
  ndnz <- count_ndnz rows ir jr ;;
  let s := alloc dt rows cols 2 UINT8 in
  let cap := rows + ndnz + 1 in
  (* set the diagonal to zero *)
  al <- for_range 0 rows (fun index al => wr cap al index 0) junk_a ;;
  '(_, (pp, ijl, al)) <-
     for_range 0 rows (fill_row (itype s) dt cap ir jr ar)
       (ir 0, (rows + 1, junk_ija, al)) ;;
  ijl <- wr cap ijl rows (to_itype (itype s) pp) ;;
  al <- wr cap al rows 0 ;;
  Ok (mkYale dt 2 rows cols (itype s) ndnz cap ijl al).

End Lifecycle.

(** ** Math: the element-wise engine *)

(** The operators of ewop_t that are not comparisons. *)
Inductive ewop_t : Type := EW_ADD | EW_SUB | EW_MUL | EW_DIV | EW_MOD.

Definition is_EW_MUL (op : ewop_t) : bool :=
  match op with EW_MUL => true | _ => false end.

Section Elementwise.

Variable itype_by_shape : Z -> Z -> itype_t.
Variable NM_YALE_MINIMUM : YALE_STORAGE -> Z.
Variables junk_ija junk_a : array.

(** ew_op_switch is defined outside yale.cpp: the value of [l op r] in the
    kind of the operands. *)
Variable ew_op_switch : ewop_t -> Z -> Z -> Z.

(** The locals of the row loop of ew_op that a pass changes: the three
    indices, then the IJA and A arrays of the destination. *)
Record ew_state : Type := mkEw {
  la_index : Z;
  ra_index : Z;
  da_index : Z;
  d_ija : array;
  d_a : array
}.

(** [if (tmp_result != 0) { da[da_index] = tmp_result;
    YALE_IJ(dest)[da_index] = col; ++da_index; }], where [da] is the A array
    of the destination re-based by [off] and [col] the read of the column. *)
Definition ew_emit (dcap drows off : Z) (tmp_result : Z) (col : outcome Z)
  (st : ew_state) : outcome ew_state :=
  if negb (tmp_result =? 0) then
    da' <- wr dcap (d_a st) (off + da_index st) tmp_result ;;
    c <- col ;;
    dj' <- wr dcap (d_ija st) (drows + 1 + da_index st) c ;;
    Ok (mkEw (la_index st) (ra_index st) (to_uint (da_index st + 1)) dj' da')
  else Ok st.

(** The entry of the left operand at [la_index] against the zero. *)
Definition ew_left_only (op : ewop_t) (left : YALE_STORAGE) (dcap drows off : Z)
  (st : ew_state) : outcome ew_state :=
  lv <- rd_a left (off + la_index st) ;;
  ew_emit dcap drows off (ew_op_switch op lv 0)
    (rd_ija left (shape0 left + 1 + la_index st)) st.

(** The zero against the entry of the right operand at [ra_index]. *)
Definition ew_right_only (op : ewop_t) (it : itype_t) (right : YALE_STORAGE)
  (dcap drows off : Z) (st : ew_state) : outcome ew_state :=
  rv <- rd_a right (off + ra_index st) ;;
  ew_emit dcap drows off (ew_op_switch op 0 rv)
    (rd_ija_as it right (shape0 right + 1 + ra_index st)) st.

Definition ew_next_left (st : ew_state) : ew_state :=
  mkEw (to_uint (la_index st + 1)) (ra_index st) (da_index st) (d_ija st) (d_a st).

Definition ew_next_right (st : ew_state) : ew_state :=
  mkEw (la_index st) (to_uint (ra_index st + 1)) (da_index st) (d_ija st) (d_a st).

(** [while (la_index < la_row_max and ra_index < ra_row_max)] *)
Fixpoint ew_merge (fuel : nat) (op : ewop_t) (left right : YALE_STORAGE)
  (dcap drows off la_row_max ra_row_max : Z) (st : ew_state) : outcome ew_state :=
  match fuel with
  | O => OutOfFuel
  | S fuel' =>
      if (la_index st <? la_row_max) && (ra_index st <? ra_row_max) then
        lj <- rd_ija left (shape0 left + 1 + la_index st) ;;
        rj <- rd_ija_as (itype left) right (shape0 right + 1 + ra_index st) ;;
        st' <-
          (if lj =? rj then
             lv <- rd_a left (off + la_index st) ;;
             rv <- rd_a right (off + ra_index st) ;;
             st1 <- ew_emit dcap drows off (ew_op_switch op lv rv)
                      (rd_ija left (shape0 left + 1 + la_index st)) st ;;
             Ok (ew_next_right (ew_next_left st1))
           else if lj <? rj then
             st1 <- (if negb (is_EW_MUL op)
                     then ew_left_only op left dcap drows off st else Ok st) ;;
             Ok (ew_next_left st1)
           else
             st1 <- (if negb (is_EW_MUL op)
                     then ew_right_only op (itype left) right dcap drows off st
                     else Ok st) ;;
             Ok (ew_next_right st1)) ;;
        ew_merge fuel' op left right dcap drows off la_row_max ra_row_max st'
      else Ok st
  end.

(** [while (la_index < la_row_max)] and [while (ra_index < ra_row_max)]: the
    entries one side has left. *)
Fixpoint ew_rest_left (fuel : nat) (op : ewop_t) (left : YALE_STORAGE)
  (dcap drows off la_row_max : Z) (st : ew_state) : outcome ew_state :=
  match fuel with
  | O => OutOfFuel
  | S fuel' =>
      if la_index st <? la_row_max then
        st1 <- ew_left_only op left dcap drows off st ;;
        ew_rest_left fuel' op left dcap drows off la_row_max (ew_next_left st1)
      else Ok st
  end.

Fixpoint ew_rest_right (fuel : nat) (op : ewop_t) (it : itype_t)
  (right : YALE_STORAGE) (dcap drows off ra_row_max : Z) (st : ew_state)
  : outcome ew_state :=
  match fuel with
  | O => OutOfFuel
  | S fuel' =>
      if ra_index st <? ra_row_max then
        st1 <- ew_right_only op it right dcap drows off st ;;
        ew_rest_right fuel' op it right dcap drows off ra_row_max
          (ew_next_right st1)
      else Ok st
  end.

(** One pass of the row loop of ew_op; [off] is a_index_offset. *)
Definition ew_row (fuel : nat) (op : ewop_t) (left right : YALE_STORAGE)
  (dit : itype_t) (dcap drows off : Z) (row_index : Z) (st : ew_state)
  : outcome ew_state :=
  l_end <- rd_ija left (row_index + 1) ;;
  r_end <- rd_ija_as (itype left) right (row_index + 1) ;;
  let la_row_max := to_uint (l_end - off) in
  let ra_row_max := to_uint (r_end - off) in
  dj <- wr dcap (d_ija st) row_index
          (to_itype dit (to_uint (da_index st + off))) ;;
  let st := mkEw (la_index st) (ra_index st) (da_index st) dj (d_a st) in
  st <- ew_merge fuel op left right dcap drows off la_row_max ra_row_max st ;;
  st <- (if negb (is_EW_MUL op) then
           st1 <- ew_rest_left fuel op left dcap drows off la_row_max st ;;
           ew_rest_right fuel op (itype left) right dcap drows off ra_row_max st1
         else Ok st) ;;
  Ok (mkEw la_row_max ra_row_max (da_index st) (d_ija st) (d_a st)).

(** ew_op: both operands hold values of the kind [dt]. *)
Definition ew_op (fuel : nat) (op : ewop_t) (left right : YALE_STORAGE)
  (dt : dtype_t) : outcome YALE_STORAGE :=
  let rows := shape0 left in
  let cols := shape1 left in
  let init_capacity :=
    Z.min (to_size_t (to_size_t (ndnz left + ndnz right) + rows))
          (to_size_t (rows * cols)) in
  dest <- nm_yale_storage_create itype_by_shape NM_YALE_MINIMUM junk_ija junk_a
            dt rows cols 2 init_capacity (itype left) ;;
  let dcap := capacity dest in
  (* Calculate diagonal values. *)
  da <- for_range 0 rows
          (fun k da =>
             lv <- rd_a left k ;;
             rv <- rd_a right k ;;
             wr dcap da k (ew_op_switch op lv rv))
          (a dest) ;;
  (* Set the zero representation seperator. *)
  da <- wr dcap da rows 0 ;;
  let a_index_offset := to_uint (rows + 1) in
  st <- for_range 0 rows
          (ew_row fuel op left right (itype dest) dcap rows a_index_offset)
          (mkEw 0 0 0 (ija dest) da) ;;
  (* Set the last row's right bound. *)
  dj <- wr dcap (d_ija st) rows
          (to_itype (itype dest) (to_uint (da_index st + a_index_offset))) ;;
  let ndnz' := da_index st in
  (* the capacity is set, and both arrays are resized to it *)
  Ok (mkYale dt 2 rows cols (itype dest) ndnz' (rows + ndnz' + 1) dj (d_a st)).

End Elementwise.

(** ** Well-formed storages *)

Fixpoint all_n (n : nat) (i : Z) (P : Z -> bool) : bool :=
  match n with
  | O => true
  | S n' => P i && all_n n' (i + 1) P
  end.

Definition all_range (lo hi : Z) (P : Z -> bool) : bool :=
  all_n (Z.to_nat (hi - lo)) lo P.

(** Row [i]: its range is well ordered, and the column indices in it are
    columns of the matrix, off the diagonal and strictly increasing. *)
Definition row_ok (s : YALE_STORAGE) (i : Z) : bool :=
  (ija s i <=? ija s (i + 1)) &&
  all_range (ija s i) (ija s (i + 1))
    (fun p =>
       (0 <=? ija s p) && (ija s p <? shape1 s) && negb (ija s p =? i) &&
       ((p + 1 =? ija s (i + 1)) || (ija s p <? ija s (p + 1)))).

(** The invariants of the data model: a shape of at least 1 x 1, the first
    row starting right after the diagonal and the zero slot, ordered row
    pointers, ordered rows, a size within the capacity, and an index kind
    that can represent every position and every column. *)
Definition well_formed (s : YALE_STORAGE) : bool :=
  (1 <=? shape0 s) && (1 <=? shape1 s) &&
  (ija s 0 =? shape0 s + 1) &&
  all_range 0 (shape0 s) (row_ok s) &&
  (ija s (shape0 s) <=? capacity s) &&
  (capacity s <? IMOD (itype s)) &&
  (shape1 s <? IMOD (itype s)).

(** Every used cell of A holds a value of the value kind of the storage. *)
Definition cells_typed (s : YALE_STORAGE) : bool :=
  all_range 0 (ija s (shape0 s)) (fun q => in_dtype (dtype s) (a s q)).

(** binary_search returns positions as an int. *)
Definition positions_fit_int (s : YALE_STORAGE) : Prop := capacity s < 2 ^ 31.

(** [col] is stored in the off-diagonal range of [row] at position [p]. *)
Definition stored_at (s : YALE_STORAGE) (row col p : Z) : Prop :=
  ija s row <= p < ija s (row + 1) /\ ija s p = col.

(** [m] is strictly increasing on [lo, hi). *)
Definition sorted_range (m : array) (lo hi : Z) : Prop :=
  forall p q, lo <= p -> p < q -> q < hi -> m p < m q.

(** The invariants of [well_formed] as propositions. *)
Record wf_facts (s : YALE_STORAGE) : Prop := mkWfFacts {
  wf_rows : 1 <= shape0 s;
  wf_cols : 1 <= shape1 s;
  wf_ija0 : ija s 0 = shape0 s + 1;
  wf_mono : forall i, 0 <= i < shape0 s -> ija s i <= ija s (i + 1);
  wf_col : forall i p, 0 <= i < shape0 s -> ija s i <= p < ija s (i + 1) ->
             0 <= ija s p < shape1 s /\ ija s p <> i;
  wf_next : forall i p, 0 <= i < shape0 s -> ija s i <= p ->
              p + 1 < ija s (i + 1) -> ija s p < ija s (p + 1);
  wf_size : ija s (shape0 s) <= capacity s;
  wf_cap_itype : capacity s < IMOD (itype s);
  wf_cols_itype : shape1 s < IMOD (itype s)
}.

(** ** Invariants of the row loop of ew_op under EW_MUL *)

(** The end of row [i] of the destination while the loop is at row [k]: the
    next row pointer when it has been written, the write position
    otherwise. *)
Definition ew_next_ptr (off : Z) (st : ew_state) (k i : Z) : Z :=
  if i + 1 <? k then d_ija st (i + 1) else off + da_index st.

(** The entry at position [p] of row [i] of the destination comes from a
    column both operands store in row [i], and is their non-zero product. *)
Definition ew_entry_ok (ew_op_switch : ewop_t -> Z -> Z -> Z)
  (left right : YALE_STORAGE) (dj da : array) (i p : Z) : Prop :=
  exists pl pr,
    stored_at left i (dj p) pl /\ stored_at right i (dj p) pr /\
    da p = ew_op_switch EW_MUL (a left pl) (a right pr) /\ da p <> 0.

Definition ew_rows_inv (ew_op_switch : ewop_t -> Z -> Z -> Z)
  (left right : YALE_STORAGE) (off k : Z) (st : ew_state) : Prop :=
  la_index st = ija left k - off /\
  ra_index st = ija right k - off /\
  0 <= da_index st <= la_index st /\
  (forall i, 0 <= i < k ->
     off <= d_ija st i <= ew_next_ptr off st k i /\
     ew_next_ptr off st k i <= off + da_index st) /\
  (forall i p, 0 <= i < k -> d_ija st i <= p < ew_next_ptr off st k i ->
     ew_entry_ok ew_op_switch left right (d_ija st) (d_a st) i p).

(** ** The old Yale triples as a matrix *)

(** The first position of [jr[p .. p+n)] that holds [key]. *)
Fixpoint scan_n (n : nat) (jr : array) (p key : Z) : option Z :=
  match n with
  | O => None
  | S n' => if jr p =? key then Some p else scan_n n' jr (p + 1) key
  end.

(** The value of the cell (i, j) of the matrix the triples [ir], [jr],
    [ar] stand for: the value stored for column [j] in row [i], or zero. *)
Definition old_yale_get (ir jr ar : array) (i j : Z) : Z :=
  match scan_n (Z.to_nat (ir (i + 1) - ir i)) jr (ir i) j with
  | Some p => ar p
  | None => 0
  end.

(** Row [i] of the triples: an ordered range of columns of the matrix,
    strictly increasing. *)
Definition old_row_ok (cols : Z) (ir jr : array) (i : Z) : bool :=
  (ir i <=? ir (i + 1)) &&
  all_range (ir i) (ir (i + 1))
    (fun p => (0 <=? jr p) && (jr p <? cols) &&
              ((p + 1 =? ir (i + 1)) || (jr p <? jr (p + 1)))).

Definition valid_old_yale (rows cols : Z) (ir jr : array) : bool :=
  (1 <=? rows) && (1 <=? cols) && (0 <=? ir 0) &&
  all_range 0 rows (old_row_ok cols ir jr).

(** The conditions of [valid_old_yale] as propositions. *)
Record old_facts (rows cols : Z) (ir jr : array) : Prop := mkOldFacts {
  old_rows : 1 <= rows;
  old_cols : 1 <= cols;
  old_ir0 : 0 <= ir 0;
  old_mono : forall i, 0 <= i < rows -> ir i <= ir (i + 1);
  old_col : forall i p, 0 <= i < rows -> ir i <= p < ir (i + 1) -> 0 <= jr p < cols;
  old_sorted : forall i, 0 <= i < rows -> sorted_range jr (ir i) (ir (i + 1))
}.

(** The number of positions of [lo, lo+n) that satisfy [P]. *)
Fixpoint count_n (n : nat) (lo : Z) (P : Z -> bool) : Z :=
  match n with
  | O => 0
  | S n' => count_n n' lo P + (if P (lo + Z.of_nat n') then 1 else 0)
  end.

Definition count_range (lo hi : Z) (P : Z -> bool) : Z :=
  count_n (Z.to_nat (hi - lo)) lo P.

(** The entries off the diagonal among the positions [ir i, p) of row [i],
    and in the rows before row [k]. *)
Definition nd_row (ir jr : array) (i p : Z) : Z :=
  count_range (ir i) p (fun q => negb (i =? jr q)).

Fixpoint nd_before_n (ir jr : array) (k : nat) : Z :=
  match k with
  | O => 0
  | S k' => nd_before_n ir jr k' + nd_row ir jr (Z.of_nat k') (ir (Z.of_nat k' + 1))
  end.

Definition nd_before (ir jr : array) (k : Z) : Z := nd_before_n ir jr (Z.to_nat k).

(** The position create_from_old_yale gives the entry [q] of row [i], when
    the entry is off the diagonal. *)
Definition old_slot (rows : Z) (ir jr : array) (i q : Z) : Z :=
  rows + 1 + nd_before ir jr i + nd_row ir jr i q.

(** The layout of the storage create_from_old_yale builds from valid
    triples. *)
Definition bridge_layout (dt : dtype_t) (rows cols : Z) (ir jr ar : array)
  (s : YALE_STORAGE) : Prop :=
  shape0 s = rows /\ shape1 s = cols /\
  capacity s = rows + nd_before ir jr rows + 1 /\
  dtype s = dt /\ ndnz s = nd_before ir jr rows /\
  (forall i, 0 <= i <= rows -> ija s i = rows + 1 + nd_before ir jr i) /\
  (forall i q, 0 <= i < rows -> ir i <= q < ir (i + 1) -> jr q <> i ->
     ija s (old_slot rows ir jr i q) = jr q /\
     a s (old_slot rows ir jr i q) = to_dtype dt (ar q)) /\
  (forall i, 0 <= i < rows -> a s i = to_dtype dt (old_yale_get ir jr ar i i)) /\
  a s rows = 0.

(** ** Concrete inputs *)

(** GROWTH_CONSTANT as 1.5: the capacity times 1.5, truncated. *)
Definition ex_grow (c : Z) : Z := c * 3 / 2.

(** An index kind for small shapes, the least capacity [2 * rows + 1], and
    the element-wise operators on integers. *)
Definition ex_itype_by_shape (rows cols : Z) : itype_t := UINT8.

Definition ex_yale_minimum (s : YALE_STORAGE) : Z := shape0 s * 2 + 1.

Definition ex_ew_op_switch (op : ewop_t) (l r : Z) : Z :=
  match op with
  | EW_ADD => l + r
  | EW_SUB => l - r
  | EW_MUL => l * r
  | EW_DIV => l / r
  | EW_MOD => l mod r
  end.

(** A fresh block that holds zeros. *)
Definition zeros : array := fun _ => 0.

(** The cells of both arrays, position by position up to the capacity. *)
Definition dump (s : YALE_STORAGE) : list Z * list Z :=
  (map (fun k => ija s (Z.of_nat k)) (seq 0 (Z.to_nat (capacity s))),
   map (fun k => a s (Z.of_nat k)) (seq 0 (Z.to_nat (capacity s)))).

(** The cells of the shape of [s], row by row. *)
Definition cells (s : YALE_STORAGE) : list (Z * Z) :=
  flat_map
    (fun i => map (fun j => (Z.of_nat i, Z.of_nat j))
                  (seq 0 (Z.to_nat (shape1 s))))
    (seq 0 (Z.to_nat (shape0 s))).

Definition outcome_eqb (x y : outcome Z) : bool :=
  match x, y with
  | Ok u, Ok v => u =? v
  | _, _ => false
  end.

(** The cells at which two storages read differently. *)
Definition differing_cells (fuel : nat) (l r : YALE_STORAGE) : list (Z * Z) :=
  filter
    (fun c =>
       negb (outcome_eqb (ref_value fuel l (mkSlice (fst c) (snd c) true))
                         (ref_value fuel r (mkSlice (fst c) (snd c) true))))
    (cells l).

(** 3 x 3, capacity equal to the size:
    [[1 7 0] [9 2 0] [0 0 3]]. *)
Definition ex3 : YALE_STORAGE :=
  mkYale INT32 2 3 3 UINT8 2 6
    (of_list [4; 5; 6; 6; 1; 0]) (of_list [1; 2; 3; 0; 7; 9]).

(** [ex3] after set(0, 1) <- 42. *)
Definition ex3_replaced : YALE_STORAGE :=
  match set ex_grow zeros zeros 10 ex3 (mkSlice 0 1 true) 42 with
  | Ok (_, s) => s
  | _ => ex3
  end.

(** 3 x 3, capacity equal to the size:
    [[1 7 0] [9 2 4] [0 0 3]]. *)
Definition ex_full : YALE_STORAGE :=
  mkYale INT32 2 3 3 UINT8 3 7
    (of_list [4; 5; 7; 7; 1; 0; 2]) (of_list [1; 2; 3; 0; 7; 9; 4]).

(** Two 2 x 4 storages that differ at the cell (0, 3) only; both store an
    explicit zero at (1, 0):
    [[5 7 0 9] [0 6 0 0]] and [[5 7 0 0] [0 6 0 0]]. *)
Definition eqL : YALE_STORAGE :=
  mkYale INT32 2 2 4 UINT8 3 6
    (of_list [3; 5; 6; 1; 3; 0]) (of_list [5; 6; 0; 7; 9; 0]).

Definition eqR : YALE_STORAGE :=
  mkYale INT32 2 2 4 UINT8 2 5
    (of_list [3; 4; 5; 1; 0]) (of_list [5; 6; 0; 7; 0]).

(** Two 1 x 4 storages, [[5 7 0 9]] and [[5 7 0 0]], the second with an
    explicit zero at (0, 2). *)
Definition eqL1 : YALE_STORAGE :=
  mkYale INT32 2 1 4 UINT8 2 4 (of_list [2; 4; 1; 3]) (of_list [5; 0; 7; 9]).

Definition eqR1 : YALE_STORAGE :=
  mkYale INT32 2 1 4 UINT8 2 4 (of_list [2; 4; 1; 2]) (of_list [5; 0; 7; 0]).

(** Two 2 x 4 operands for ew_op: they share column 1 in row 0 and no
    column in row 1:
    [[1 2 0 3] [4 1 0 0]] and [[1 5 6 0] [0 1 7 0]]. *)
Definition ewL : YALE_STORAGE :=
  mkYale INT32 2 2 4 UINT8 3 6
    (of_list [3; 5; 6; 1; 3; 0]) (of_list [1; 1; 0; 2; 3; 4]).

Definition ewR : YALE_STORAGE :=
  mkYale INT32 2 2 4 UINT8 3 6
    (of_list [3; 5; 6; 1; 2; 2]) (of_list [1; 1; 0; 5; 6; 7]).

Definition ew_product : YALE_STORAGE :=
  match ew_op ex_itype_by_shape ex_yale_minimum zeros zeros ex_ew_op_switch
          10 EW_MUL ewL ewR INT32 with
  | Ok s => s
  | _ => ewL
  end.

(** Old-Yale triples of the 2 x 3 matrix [[5 0 6] [7 0 0]], and the same
    with 300 in place of 6. *)
Definition old_ir : array := of_list [0; 2; 3].
Definition old_jr : array := of_list [0; 2; 0].
Definition old_ar : array := of_list [5; 6; 7].
Definition old_ar_wide : array := of_list [5; 300; 7].

(** [ex3] in blocks of capacity 9. *)
Definition ex3_room : YALE_STORAGE :=
  mkYale INT32 2 3 3 UINT8 2 9
    (of_list [4; 5; 6; 6; 1; 0]) (of_list [1; 2; 3; 0; 7; 9]).

(** The destination nm_yale_storage_create hands ew_op for [ewL] and
    [ewR]. *)
Definition ew_dest0 : YALE_STORAGE :=
  match nm_yale_storage_create ex_itype_by_shape ex_yale_minimum zeros zeros
          INT32 2 4 2 8 UINT8 with
  | Ok s => s
  | _ => ewL
  end.

(* ================================================================== *)
(** * Part I, continued: the rest of the engine *)
(* ================================================================== *)

(** ** Iteration over the stored entries *)

(** The body of yale_each_stored_with_indices: the triples [(v, i, j)]
    handed to rb_yield_values, in the order of the calls. First the
    diagonal, then the off-diagonal entries row by row. *)
Definition each_diagonal (s : YALE_STORAGE) (k : Z) (yielded : list (Z * Z * Z))
  : outcome (list (Z * Z * Z)) :=
  v <- rd_a s k ;;
  Ok (yielded ++ [(v, k, k)]).

Definition each_nd_row (s : YALE_STORAGE) (i : Z) (yielded : list (Z * Z * Z))
  : outcome (list (Z * Z * Z)) :=
  p <- rd_ija s i ;;
  next_p <- rd_ija s (i + 1) ;;
  for_range p next_p
    (fun p yielded =>
       j <- rd_ija s p ;;
       v <- rd_a s p ;;
       Ok (yielded ++ [(v, i, j)]))
    yielded.

Definition yale_each_stored_with_indices (s : YALE_STORAGE)
  : outcome (list (Z * Z * Z)) :=
  yielded <- for_range 0 (shape0 s) (each_diagonal s) [] ;;
  for_range 0 (shape0 s) (each_nd_row s) yielded.

(** nm_yale_enumerator_length: the length the enumerator reports when the
    iteration is asked for without a block. *)
Definition nm_yale_enumerator_length (s : YALE_STORAGE) : outcome Z :=
  get_size s.

(** The integers [lo, lo + n). *)
Fixpoint zrange (lo : Z) (n : nat) : list Z :=
  match n with
  | O => []
  | S n' => lo :: zrange (lo + 1) n'
  end.

(** ** The C accessor of the element-wise engine *)

(** The operator handed to nm_yale_storage_ew_op: one of the operators
    below NUM_NONCOMP_EWOPS, or a comparison. *)
Inductive ewop_request : Type :=
| Noncomp (op : ewop_t)
| Comparison.

Section ElementwiseAccessor.

Variable itype_by_shape : Z -> Z -> itype_t.
Variable NM_YALE_MINIMUM : YALE_STORAGE -> Z.
Variables junk_ija junk_a : array.
Variable ew_op_switch : ewop_t -> Z -> Z -> Z.

(** The table Upcast of the data-type module: the common kind of two
    value kinds. *)
Variable Upcast : dtype_t -> dtype_t -> dtype_t.

(** [p->field] on a pointer that may be NULL. *)
Definition deref {A : Type} (p : option YALE_STORAGE) (field : YALE_STORAGE -> A)
  : outcome A :=
  match p with
  | Some s => Ok (field s)
  | None => Fault
  end.

(** nm_yale_storage_ew_op. [new_l] and [new_r] are NULL until an operand is
    cast; the table of ew_op instances is indexed with [new_l->itype]. *)
Definition nm_yale_storage_ew_op (fuel : nat) (op : ewop_request)
  (left right : YALE_STORAGE) : outcome YALE_STORAGE :=
  if negb (dtype_eqb (dtype left) (dtype right)) then
    let new_dtype := Upcast (dtype left) (dtype right) in
    new_l <- (if negb (dtype_eqb (dtype left) new_dtype)
              then l' <- cast_copy junk_ija junk_a left new_dtype ;; Ok (Some l')
              else Ok None) ;;
    new_r <- (if negb (dtype_eqb (dtype right) new_dtype)
              then r' <- cast_copy junk_ija junk_a right new_dtype ;; Ok (Some r')
              else Ok None) ;;
    match op with
    | Noncomp op' =>
        _ <- deref new_l itype ;;
        casted_l <- (if dtype_eqb (dtype left) new_dtype then Ok left
                     else deref new_l (fun s => s)) ;;
        casted_r <- (if dtype_eqb (dtype right) new_dtype then Ok right
                     else deref new_r (fun s => s)) ;;
        ew_op itype_by_shape NM_YALE_MINIMUM junk_ija junk_a ew_op_switch
          fuel op' casted_l casted_r new_dtype
    | Comparison => Raise NotImpError
    end
  else
    match op with
    | Noncomp op' =>
        ew_op itype_by_shape NM_YALE_MINIMUM junk_ija junk_a ew_op_switch
          fuel op' left right (dtype left)
    | Comparison => Raise NotImpError
    end.

End ElementwiseAccessor.

(** ** Storages laid out by emission in row-major order *)

(** get and ew_op build their destination by visiting the cells off the
    diagonal in row-major order and emitting a slot for those a test [E]
    selects. [emit_before E cols k] is the number of slots emitted in the
    rows before [k], and [emit_slot E rows cols i j] the position of the
    slot of the cell (i, j). *)
Fixpoint emit_before_n (E : Z -> Z -> bool) (cols : Z) (k : nat) : Z :=
  match k with
  | O => 0
  | S k' => emit_before_n E cols k' + count_range 0 cols (E (Z.of_nat k'))
  end.

Definition emit_before (E : Z -> Z -> bool) (cols k : Z) : Z :=
  emit_before_n E cols (Z.to_nat k).

Definition emit_slot (E : Z -> Z -> bool) (rows cols i j : Z) : Z :=
  rows + 1 + emit_before E cols i + count_range 0 j (E i).

(** The storage [s] holds, off the diagonal, exactly the cells [E] selects,
    with the values [V]. *)
Definition emitted_layout (E : Z -> Z -> bool) (V : Z -> Z -> Z)
  (rows cols : Z) (s : YALE_STORAGE) : Prop :=
  shape0 s = rows /\ shape1 s = cols /\
  (forall i, 0 <= i <= rows -> ija s i = rows + 1 + emit_before E cols i) /\
  (forall i j, 0 <= i < rows -> 0 <= j < cols -> E i j = true ->
     ija s (emit_slot E rows cols i j) = j /\
     a s (emit_slot E rows cols i j) = V i j).

(** ** Initialisation and slicing by copy *)

(** How a call of get ends when it does not end in one of the outcomes of
    [exn]: it returns the new storage, or raises nm_eStorageTypeError with
    the capacity it asked for and the capacity it was given. *)
Inductive get_result : Type :=
| Sliced (ns : YALE_STORAGE)
| StorageTypeError (request_capacity allowed : Z).

Section Slicing.

Variable itype_by_shape : Z -> Z -> itype_t.
Variable NM_YALE_MINIMUM : YALE_STORAGE -> Z.
Variables junk_ija junk_a : array.

(** clear_diagonal_and_zero is a template of yale.h and not part of
    yale.cpp. *)
Variable clear_diagonal_and_zero : YALE_STORAGE -> outcome YALE_STORAGE.

(** init, at the index type [it] of the instance. *)
Definition init (it : itype_t) (s : YALE_STORAGE) : outcome YALE_STORAGE :=
  let IA_INIT := to_itype it (shape0 s + 1) in
  m <- for_range 0 IA_INIT (fun i m => wr (capacity s) m i IA_INIT) (ija s) ;;
  clear_diagonal_and_zero (set_ija s m).

(** nm_yale_storage_init *)
Definition nm_yale_storage_init (s : YALE_STORAGE) : outcome YALE_STORAGE :=
  init (itype s) s.

(** The search of get for the column [l] in the row [k] of the source: the
    first position of the row that holds [l]. *)
Definition get_find (storage : YALE_STORAGE) (k l : Z) : outcome (option Z) :=
  lo <- rd_ija storage k ;;
  hi <- rd_ija storage (k + 1) ;;
  find_range lo hi
    (fun c => x <- rd_ija storage c ;; Ok (if x =? l then Some c else None)).

(** The first pass of get at the cell (i, j) of the slice. *)
Definition get_count_cell (storage : YALE_STORAGE) (off0 off1 : Z)
  (i j : Z) (ndnz : Z) : outcome Z :=
  let k := to_size_t (i + off0) in
  let l := to_size_t (j + off1) in
  if j =? i then Ok ndnz
  else if k =? l then
    v <- rd_a storage k ;;
    Ok (if negb (v =? 0) then to_size_t (ndnz + 1) else ndnz)
  else
    c <- get_find storage k l ;;
    Ok (match c with Some _ => to_size_t (ndnz + 1) | None => ndnz end).

(** The second pass of get at the cell (i, j) of the slice. The state is
    [ija], [val] and the two arrays of the destination. *)
Definition get_copy_cell (storage : YALE_STORAGE) (it : itype_t)
  (dcap rows : Z) (off0 off1 : Z) (i j : Z) (st : Z * Z * array * array)
  : outcome (Z * Z * array * array) :=
  let '(ija, val, dst_ija, dst_a) := st in
  let k := to_size_t (i + off0) in
  let l := to_size_t (j + off1) in
  found <-
    (if k =? l then
       v <- rd_a storage k ;;
       Ok (if negb (v =? 0) then Some v else None)
     else
       c <- get_find storage k l ;;
       match c with
       | Some c => v <- rd_a storage c ;; Ok (Some v)
       | None => Ok None
       end) ;;
  match found with
  | None => Ok st
  | Some val =>
      if i =? j then
        dst_a <- wr dcap dst_a i val ;;
        Ok (ija, val, dst_ija, dst_a)
      else
        dst_ija <- wr dcap dst_ija ija (to_itype it j) ;;
        dst_a <- wr dcap dst_a ija val ;;
        let ija := to_size_t (ija + 1) in
        dst_ija <- for_range (i + 1) (rows + 1)
                     (fun c m => wr dcap m c (to_itype it ija)) dst_ija ;;
        Ok (ija, val, dst_ija, dst_a)
  end.

(** get: the slice of [lengths0] x [lengths1] cells at the coordinates of
    [slice], as a new storage ([lengths0] and [lengths1] are the lengths
    field of the slice). *)
Definition get (storage : YALE_STORAGE) (slice : SLICE) (lengths0 lengths1 : Z)
  : outcome get_result :=
  let off0 := coords0 slice in
  let off1 := coords1 slice in
  (* Calc ndnz for the destination *)
  ndnz <- for_range 0 lengths0
            (fun i ndnz =>
               for_range 0 lengths1 (get_count_cell storage off0 off1 i) ndnz)
            0 ;;
  let request_capacity := to_size_t (to_size_t (lengths0 + ndnz) + 1) in
  ns <- nm_yale_storage_create itype_by_shape NM_YALE_MINIMUM junk_ija junk_a
          (dtype storage) lengths0 lengths1 2 request_capacity (itype storage) ;;
  if capacity ns <? request_capacity
  then Ok (StorageTypeError request_capacity (capacity ns))
  else
    (* Initialize the A and IJA arrays *)
    ns <- init (itype storage) ns ;;
    val <- rd_a storage (shape0 storage) ;;
    st <- for_range 0 lengths0
            (fun i st =>
               for_range 0 lengths1
                 (get_copy_cell storage (itype storage) (capacity ns) lengths0
                    off0 off1 i) st)
            (to_size_t (lengths0 + 1), val, ija ns, a ns) ;;
    let '(ija, _, dst_ija, dst_a) := st in
    dst_ija <- wr (capacity ns) dst_ija lengths0 (to_itype (itype storage) ija) ;;
    Ok (Sliced (mkYale (dtype ns) (dim ns) (shape0 ns) (shape1 ns) (itype ns)
                       ndnz (capacity ns) dst_ija dst_a)).

End Slicing.

(** What the embedding asks of clear_diagonal_and_zero: on a storage with
    room for the diagonal and the zero slot it returns, the cells
    [0 .. shape[0]] of A hold zero afterwards and nothing else is
    changed. *)
Definition clears_diagonal (cdz : YALE_STORAGE -> outcome YALE_STORAGE) : Prop :=
  forall s, 0 <= shape0 s < capacity s ->
  exists m,
    cdz s = Ok (set_a s m) /\
    (forall k, 0 <= k <= shape0 s -> m k = 0) /\
    (forall k, ~ 0 <= k <= shape0 s -> m k = a s k).

(** The value get finds for the cell (k, l) of the source, if it finds
    one: a diagonal value that is not zero, or the value stored for the
    column. *)
Definition src_found (s : YALE_STORAGE) (k l : Z) : option Z :=
  if k =? l then (if a s k =? 0 then None else Some (a s k))
  else
    match scan_n (Z.to_nat (ija s (k + 1) - ija s k)) (ija s) (ija s k) l with
    | Some c => Some (a s c)
    | None => None
    end.

(** The cells of the slice at the offset ([off0], [off1]) that get gives a
    slot off the diagonal of the destination, and the value it copies for
    a cell. *)
Definition slice_emits (s : YALE_STORAGE) (off0 off1 : Z) (i j : Z) : bool :=
  negb (j =? i) &&
  match src_found s (i + off0) (j + off1) with Some _ => true | None => false end.

Definition slice_value (s : YALE_STORAGE) (off0 off1 : Z) (i j : Z) : Z :=
  match src_found s (i + off0) (j + off1) with Some v => v | None => 0 end.

(** The state of the second pass of get when it reaches the cell (i, j). *)
Definition get_inv (s : YALE_STORAGE) (off0 off1 len0 len1 : Z) (i j : Z)
  (st : Z * Z * array * array) : Prop :=
  let '(pos, _, dj, da) := st in
  let E := slice_emits s off0 off1 in
  pos = emit_slot E len0 len1 i j /\
  (forall c, 0 <= c <= i -> dj c = len0 + 1 + emit_before E len1 c) /\
  (forall c, i < c <= len0 -> dj c = pos) /\
  (forall i' j', 0 <= i' -> 0 <= j' < len1 ->
     i' < i \/ (i' = i /\ j' < j) -> E i' j' = true ->
     dj (emit_slot E len0 len1 i' j') = j' /\
     da (emit_slot E len0 len1 i' j') = slice_value s off0 off1 i' j') /\
  (forall c, 0 <= c < len0 ->
     da c = if ((c <? i) && (c <? len1)) || ((c =? i) && (c <? j))
            then slice_value s off0 off1 c c else 0) /\
  da len0 = 0.

(** A clear_diagonal_and_zero for examples: zeros written into
    [a[0 .. shape[0]]]. *)
Definition ex_clear_diagonal_and_zero (s : YALE_STORAGE) : outcome YALE_STORAGE :=
  m <- for_range 0 (shape0 s + 1) (fun i m => wr (capacity s) m i 0) (a s) ;;
  Ok (set_a s m).

(** The slice of [ex_full] at (1, 0) of 2 x 3 cells: [[9 2 4] [0 0 3]]. *)
Definition ex_slice : YALE_STORAGE :=
  match get ex_itype_by_shape ex_yale_minimum zeros zeros
          ex_clear_diagonal_and_zero ex_full (mkSlice 1 0 false) 2 3 with
  | Ok (Sliced ns) => ns
  | _ => ex_full
  end.


(** [ex3] with its values held as INT8, and an Upcast for examples: the
    kind with the larger maximum. *)
Definition ex3_narrow : YALE_STORAGE :=
  mkYale INT8 2 3 3 UINT8 2 6
    (of_list [4; 5; 6; 6; 1; 0]) (of_list [1; 2; 3; 0; 7; 9]).

Definition ex_Upcast (l r : dtype_t) : dtype_t :=
  if dtype_max l <? dtype_max r then r else l.

(** ** The cells the element-wise engine emits *)

(** The value the row [i] of [s] stores off the diagonal for the column
    [j], if it stores one. *)
Definition nd_found (s : YALE_STORAGE) (i j : Z) : option Z :=
  match scan_n (Z.to_nat (ija s (i + 1) - ija s i)) (ija s) (ija s i) j with
  | Some c => Some (a s c)
  | None => None
  end.

(** The column at the position [p] of row [i], or the column count when
    [p] is the end of the row. *)
Definition col_at (s : YALE_STORAGE) (i p : Z) : Z :=
  if p <? ija s (i + 1) then ija s p else shape1 s.

Section ElementwiseCells.

Variable ew_op_switch : ewop_t -> Z -> Z -> Z.

(** What the row loop of ew_op computes for the cell (i, j) off the
    diagonal: the operator on the two stored values, on one stored value
    and the zero (not under EW_MUL), or nothing when neither operand
    stores the cell. *)
Definition ew_value (op : ewop_t) (left right : YALE_STORAGE) (i j : Z)
  : option Z :=
  match nd_found left i j, nd_found right i j with
  | Some l, Some r => Some (ew_op_switch op l r)
  | Some l, None => if is_EW_MUL op then None else Some (ew_op_switch op l 0)
  | None, Some r => if is_EW_MUL op then None else Some (ew_op_switch op 0 r)
  | None, None => None
  end.

(** The cells that get a slot of the destination, and the value a cell
    reads as. *)
Definition ew_emits (op : ewop_t) (left right : YALE_STORAGE) (i j : Z) : bool :=
  negb (j =? i) &&
  match ew_value op left right i j with
  | Some v => negb (v =? 0)
  | None => false
  end.

Definition ew_cell (op : ewop_t) (left right : YALE_STORAGE) (i j : Z) : Z :=
  match ew_value op left right i j with Some v => v | None => 0 end.

(** The least column the two sides have left in row [i]. *)
Definition ew_frontier (left right : YALE_STORAGE) (i : Z) (st : ew_state) : Z :=
  Z.min (col_at left i (shape0 left + 1 + la_index st))
        (col_at right i (shape0 left + 1 + ra_index st)).

(** The state of the row loop of ew_op inside row [i]: [dcap] is the
    capacity of the destination and [D] its A array before the row loop. *)
Definition ew_inv (op : ewop_t) (left right : YALE_STORAGE) (dcap : Z)
  (D : array) (i : Z) (st : ew_state) : Prop :=
  let rows := shape0 left in
  let cols := shape1 left in
  let E := ew_emits op left right in
  let c := ew_frontier left right i st in
  ija left i <= rows + 1 + la_index st <= ija left (i + 1) /\
  ija right i <= rows + 1 + ra_index st <= ija right (i + 1) /\
  (forall q, ija left i <= q < rows + 1 + la_index st -> ija left q < c) /\
  (forall q, ija right i <= q < rows + 1 + ra_index st -> ija right q < c) /\
  0 <= da_index st /\
  rows + 1 + da_index st = emit_slot E rows cols i c /\
  rows + 1 + da_index st <= dcap /\
  (forall k, 0 <= k <= i -> d_ija st k = rows + 1 + emit_before E cols k) /\
  (forall i' j', 0 <= i' -> 0 <= j' < cols ->
     i' < i \/ (i' = i /\ j' < c) -> E i' j' = true ->
     d_ija st (emit_slot E rows cols i' j') = j' /\
     d_a st (emit_slot E rows cols i' j') = ew_cell op left right i' j') /\
  (forall k, 0 <= k <= rows -> d_a st k = D k).

(** The state of the row loop between the rows, before row [i]. *)
Definition ew_between (op : ewop_t) (left right : YALE_STORAGE) (dcap : Z)
  (D : array) (i : Z) (st : ew_state) : Prop :=
  let rows := shape0 left in
  let cols := shape1 left in
  let E := ew_emits op left right in
  rows + 1 + la_index st = ija left i /\
  rows + 1 + ra_index st = ija right i /\
  0 <= da_index st /\
  da_index st = emit_before E cols i /\
  rows + 1 + da_index st <= dcap /\
  (forall k, 0 <= k < i -> d_ija st k = rows + 1 + emit_before E cols k) /\
  (forall i' j', 0 <= i' < i -> 0 <= j' < cols -> E i' j' = true ->
     d_ija st (emit_slot E rows cols i' j') = j' /\
     d_a st (emit_slot E rows cols i' j') = ew_cell op left right i' j') /\
  (forall k, 0 <= k <= rows -> d_a st k = D k).

End ElementwiseCells.

(** Two 2 x 3 operands for ew_op that share no column:
    [[1 2 3] [0 1 0]] and [[1 0 0] [4 1 0]], and the destination
    nm_yale_storage_create hands ew_op for them. *)
Definition ewA : YALE_STORAGE :=
  mkYale INT32 2 2 3 UINT8 2 5 (of_list [3; 5; 5; 1; 2]) (of_list [1; 1; 0; 2; 3]).

Definition ewB : YALE_STORAGE :=
  mkYale INT32 2 2 3 UINT8 1 4 (of_list [3; 3; 4; 0]) (of_list [1; 1; 0; 4]).

Definition ew_short_dest0 : YALE_STORAGE :=
  match nm_yale_storage_create ex_itype_by_shape ex_yale_minimum zeros zeros
          INT32 2 3 2 5 UINT8 with
  | Ok s => s
  | _ => ewA
  end.

(** ** The Ruby methods of YaleFunctions *)

(** What a method hands back to Ruby: an Array, one value, or the
    exception rb_eRangeError. *)
Inductive rb_result (VALUE : Type) : Type :=
| RbArray (ary : list VALUE)
| RbValue (v : VALUE)
| RbRangeError.

Arguments RbArray {VALUE} ary.
Arguments RbValue {VALUE} v.
Arguments RbRangeError {VALUE}.

Section YaleFunctions.

Variable grow : Z -> Z.
Variables junk_ija junk_a : array.

(** Ruby values and the conversions of the interpreter and of the
    data-type module, all outside yale.cpp. An optional argument that is
    not given, or is nil, is [None]. *)
Variable VALUE : Type.
Variable Qnil : VALUE.
Variable FIX2INT : VALUE -> Z.
Variable INT2FIX : Z -> VALUE.
Variable rubyobj_from_cval : Z -> dtype_t -> VALUE.
Variable rubyobj_from_cval_by_itype : Z -> itype_t -> VALUE.
Variable rubyval_to_cval : VALUE -> dtype_t -> Z.

(** [rb_ary_push(ary, Qnil)] for [i] from [size] to the capacity. *)
Definition push_nils (s : YALE_STORAGE) (size : Z) (ary : list VALUE)
  : outcome (list VALUE) :=
  for_range size (capacity s) (fun _ ary => Ok (ary ++ [Qnil])) ary.

(** nm_size *)
Definition nm_size (s : YALE_STORAGE) : outcome VALUE :=
  x <- rd_ija s (shape0 s) ;;
  Ok (rubyobj_from_cval_by_itype x (itype s)).

(** nm_a *)
Definition nm_a (s : YALE_STORAGE) (idx : option VALUE)
  : outcome (rb_result VALUE) :=
  size <- get_size s ;;
  match idx with
  | None =>
      vals <- for_range 0 size
                (fun i vals =>
                   v <- rd_a s i ;; Ok (vals ++ [rubyobj_from_cval v (dtype s)]))
                [] ;;
      ary <- push_nils s size vals ;;
      Ok (RbArray ary)
  | Some idx =>
      let index := to_size_t (FIX2INT idx) in
      if index >=? size then Ok RbRangeError
      else v <- rd_a s index ;; Ok (RbValue (rubyobj_from_cval v (dtype s)))
  end.

(** nm_d *)
Definition nm_d (s : YALE_STORAGE) (idx : option VALUE)
  : outcome (rb_result VALUE) :=
  match idx with
  | None =>
      vals <- for_range 0 (shape0 s)
                (fun i vals =>
                   v <- rd_a s i ;; Ok (vals ++ [rubyobj_from_cval v (dtype s)]))
                [] ;;
      Ok (RbArray vals)
  | Some idx =>
      let index := to_size_t (FIX2INT idx) in
      if index >=? shape0 s then Ok RbRangeError
      else v <- rd_a s index ;; Ok (RbValue (rubyobj_from_cval v (dtype s)))
  end.

(** nm_lu *)
Definition nm_lu (s : YALE_STORAGE) : outcome (rb_result VALUE) :=
  size <- get_size s ;;
  vals <- for_range 0 (to_size_t (size - shape0 s - 1))
            (fun i vals =>
               v <- rd_a s (shape0 s + 1 + i) ;;
               Ok (vals ++ [rubyobj_from_cval v (dtype s)]))
            [] ;;
  ary <- push_nils s size vals ;;
  Ok (RbArray ary).

(** nm_ia *)
Definition nm_ia (s : YALE_STORAGE) : outcome (rb_result VALUE) :=
  vals <- for_range 0 (shape0 s + 1)
            (fun i vals =>
               x <- rd_ija s i ;;
               Ok (vals ++ [rubyobj_from_cval_by_itype x (itype s)]))
            [] ;;
  Ok (RbArray vals).

(** nm_ja *)
Definition nm_ja (s : YALE_STORAGE) : outcome (rb_result VALUE) :=
  size <- get_size s ;;
  vals <- for_range 0 (to_size_t (size - shape0 s - 1))
            (fun i vals =>
               x <- rd_ija s (shape0 s + 1 + i) ;;
               Ok (vals ++ [rubyobj_from_cval_by_itype x (itype s)]))
            [] ;;
  ary <- push_nils s size vals ;;
  Ok (RbArray ary).

(** nm_ija *)
Definition nm_ija (s : YALE_STORAGE) (idx : option VALUE)
  : outcome (rb_result VALUE) :=
  size <- get_size s ;;
  match idx with
  | None =>
      vals <- for_range 0 size
                (fun i vals =>
                   x <- rd_ija s i ;;
                   Ok (vals ++ [rubyobj_from_cval_by_itype x (itype s)]))
                [] ;;
      ary <- push_nils s size vals ;;
      Ok (RbArray ary)
  | Some idx =>
      let index := to_size_t (FIX2INT idx) in
      if index >=? size then Ok RbRangeError
      else x <- rd_ija s index ;;
           Ok (RbValue (rubyobj_from_cval_by_itype x (itype s)))
  end.

(** c_increment_ia_after and the C accessors in front of vector_insert and
    increment_ia_after: they pick the instance of the index kind. *)
Definition c_increment_ia_after (s : YALE_STORAGE) (ija_size i n : Z)
  : outcome YALE_STORAGE :=
  increment_ia_after s ija_size i n.

Definition nm_yale_storage_vector_insert (s : YALE_STORAGE) (pos : Z)
  (js vals : array) (n : Z) (struct_only : bool)
  : outcome (ascii * YALE_STORAGE) :=
  vector_insert grow junk_ija junk_a s pos js vals n struct_only.

Definition nm_yale_storage_increment_ia_after (s : YALE_STORAGE)
  (ija_size i n : Z) : outcome YALE_STORAGE :=
  c_increment_ia_after s ija_size i n.

(** nm_vector_insert: the row [i_], the columns [jv], the values [vv] and
    the optional position [pos_]. The result is the position after the
    insertion and the storage. *)
Definition nm_vector_insert (s : YALE_STORAGE) (i_ : VALUE) (jv vv : list VALUE)
  (pos_ : option VALUE) : outcome (VALUE * YALE_STORAGE) :=
  let len := Z.of_nat (length jv) in
  let vvlen := Z.of_nat (length vv) in
  if negb (len =? vvlen) then Raise ArgError
  else
    let i := to_size_t (FIX2INT i_) in
    pos_ <- match pos_ with
            | None => x <- rd_ija s i ;; Ok (rubyobj_from_cval_by_itype x (itype s))
            | Some p => Ok p
            end ;;
    let pos := to_size_t (FIX2INT pos_) in
    let j := fun idx => to_size_t (FIX2INT (nth (Z.to_nat idx) jv Qnil)) in
    let vals := fun idx => rubyval_to_cval (nth (Z.to_nat idx) vv Qnil) (dtype s) in
    '(ins_type, s1) <- nm_yale_storage_vector_insert s pos j vals len false ;;
    s2 <- nm_yale_storage_increment_ia_after s1 (shape0 s1) i len ;;
    let s3 := set_ndnz s2 (to_size_t (ndnz s2 + len)) in
    Ok (INT2FIX (to_size_t (pos + len)), s3).

End YaleFunctions.

(* ================================================================== *)
(** * Part II: the proofs *)
(* ================================================================== *)

(** ** Outcomes, conversions, arrays *)

Lemma bind_Ok {A B : Type} (m : outcome A) (k : A -> outcome B) (y : B) :
  bind m k = Ok y -> exists x, m = Ok x /\ k x = Ok y.
Proof. destruct m; simpl; intros H; try discriminate. eauto. Qed.

(** From [H : (x <- m ;; k) = Ok y] to [m = Ok x] and [H : k x = Ok y]. *)
Ltac inv_bind H :=
  let x := fresh "x" in
  let Hx := fresh "Hx" in
  apply bind_Ok in H; destruct H as [x [Hx H]].

Tactic Notation "bind_inv" hyp(H) "as" ident(x) ident(Hx) :=
  apply bind_Ok in H; destruct H as [x [Hx H]].

Lemma IMOD_ge (it : itype_t) : 256 <= IMOD it.
Proof. destruct it; unfold IMOD; simpl; lia. Qed.

Lemma to_itype_small (it : itype_t) (x : Z) :
  0 <= x < IMOD it -> to_itype it x = x.
Proof. intros H. unfold to_itype. apply Z.mod_small. exact H. Qed.

Lemma isum_small (it : itype_t) (x y : Z) :
  0 <= x + y -> x + y < 2 ^ 32 -> isum it x y = x + y.
Proof.
  intros H0 H1. unfold isum. destruct (itype_bits it <? 32) eqn:E; [reflexivity|].
  apply Z.mod_small. split; [exact H0|].
  destruct it; unfold IMOD; simpl in *; try discriminate; lia.
Qed.

Lemma to_int_small (x : Z) : - 2 ^ 31 <= x < 2 ^ 31 -> to_int x = x.
Proof. intros H. unfold to_int. rewrite Z.mod_small; lia. Qed.

Lemma to_uint_small (x : Z) : 0 <= x < 2 ^ 32 -> to_uint x = x.
Proof. intros H. unfold to_uint. apply Z.mod_small. exact H. Qed.

Lemma to_size_t_small (x : Z) : 0 <= x < 2 ^ 64 -> to_size_t x = x.
Proof. intros H. unfold to_size_t. apply Z.mod_small. exact H. Qed.

Lemma in_bounds_true (len i : Z) : in_bounds len i = true <-> 0 <= i < len.
Proof. unfold in_bounds. rewrite andb_true_iff, Z.leb_le, Z.ltb_lt. tauto. Qed.

Lemma rd_ok (len : Z) (m : array) (i : Z) :
  0 <= i < len -> rd len m i = Ok (m i).
Proof.
  intros H. unfold rd. apply in_bounds_true in H. rewrite H. reflexivity.
Qed.

Lemma rd_Ok_inv (len : Z) (m : array) (i v : Z) :
  rd len m i = Ok v -> 0 <= i < len /\ v = m i.
Proof.
  unfold rd. destruct (in_bounds len i) eqn:E; intros H; [|discriminate].
  apply in_bounds_true in E. inversion H. auto.
Qed.

Lemma itype_eqb_refl (it : itype_t) : itype_eqb it it = true.
Proof. unfold itype_eqb. apply Z.eqb_refl. Qed.

(** A block read as its own index kind gives its elements. *)
Lemma rd_ija_as_same (it : itype_t) (s : YALE_STORAGE) (i : Z) :
  itype s = it -> rd_ija_as it s i = rd_ija s i.
Proof.
  intros <-. unfold rd_ija_as. rewrite itype_eqb_refl. reflexivity.
Qed.

Lemma wr_ok (len : Z) (m : array) (i v : Z) :
  0 <= i < len -> wr len m i v = Ok (upd m i v).
Proof.
  intros H. unfold wr. apply in_bounds_true in H. rewrite H. reflexivity.
Qed.

Lemma wr_Ok_inv (len : Z) (m m' : array) (i v : Z) :
  wr len m i v = Ok m' -> 0 <= i < len /\ m' = upd m i v.
Proof.
  unfold wr. destruct (in_bounds len i) eqn:E; intros H; [|discriminate].
  apply in_bounds_true in E. inversion H. auto.
Qed.

Lemma upd_same (m : array) (i v : Z) : upd m i v i = v.
Proof. unfold upd. rewrite Z.eqb_refl. reflexivity. Qed.

Lemma upd_other (m : array) (i v k : Z) : k <> i -> upd m i v k = m k.
Proof. intros H. unfold upd. apply Z.eqb_neq in H. rewrite H. reflexivity. Qed.

(** ** Loops *)

Lemma for_n_total {St : Type} (I : Z -> St -> Prop) (body : Z -> St -> outcome St)
  (n : nat) (i : Z) (st : St) :
  I i st ->
  (forall k st0, i <= k < i + Z.of_nat n -> I k st0 ->
     exists st1, body k st0 = Ok st1 /\ I (k + 1) st1) ->
  exists st', for_n n i body st = Ok st' /\ I (i + Z.of_nat n) st'.
Proof.
  revert i st. induction n as [|n IH]; intros i st Hi Hstep.
  - exists st. split; [reflexivity|]. replace (i + Z.of_nat 0) with i by lia. exact Hi.
  - destruct (Hstep i st) as [st1 [Hb H1]]; [lia|exact Hi|].
    destruct (IH (i + 1) st1 H1) as [st' [Hf H']].
    + intros k st0 Hk. apply Hstep. lia.
    + exists st'. split.
      * simpl. rewrite Hb. simpl. exact Hf.
      * replace (i + Z.of_nat (S n)) with (i + 1 + Z.of_nat n) by lia. exact H'.
Qed.

Lemma for_range_total {St : Type} (I : Z -> St -> Prop)
  (body : Z -> St -> outcome St) (lo hi : Z) (st : St) :
  lo <= hi ->
  I lo st ->
  (forall k st0, lo <= k < hi -> I k st0 ->
     exists st1, body k st0 = Ok st1 /\ I (k + 1) st1) ->
  exists st', for_range lo hi body st = Ok st' /\ I hi st'.
Proof.
  intros Hle Hi Hstep. unfold for_range.
  destruct (for_n_total I body (Z.to_nat (hi - lo)) lo st Hi) as [st' [Hf H']].
  - intros k st0 Hk. apply Hstep. lia.
  - exists st'. split; [exact Hf|].
    replace (lo + Z.of_nat (Z.to_nat (hi - lo))) with hi in H' by lia. exact H'.
Qed.

Lemma for_n_inv {St : Type} (I : Z -> St -> Prop) (body : Z -> St -> outcome St)
  (n : nat) (i : Z) (st st' : St) :
  for_n n i body st = Ok st' ->
  I i st ->
  (forall k st0 st1, i <= k < i + Z.of_nat n -> I k st0 ->
     body k st0 = Ok st1 -> I (k + 1) st1) ->
  I (i + Z.of_nat n) st'.
Proof.
  revert i st. induction n as [|n IH]; intros i st Hf Hi Hstep.
  - simpl in Hf. inversion Hf. subst. replace (i + Z.of_nat 0) with i by lia. exact Hi.
  - simpl in Hf. apply bind_Ok in Hf. destruct Hf as [st1 [Hb Hf]].
    replace (i + Z.of_nat (S n)) with (i + 1 + Z.of_nat n) by lia.
    apply (IH (i + 1) st1 Hf).
    + apply (Hstep i st st1); [lia|exact Hi|exact Hb].
    + intros k st0 st2 Hk. apply Hstep. lia.
Qed.

Lemma for_range_inv {St : Type} (I : Z -> St -> Prop)
  (body : Z -> St -> outcome St) (lo hi : Z) (st st' : St) :
  lo <= hi ->
  for_range lo hi body st = Ok st' ->
  I lo st ->
  (forall k st0 st1, lo <= k < hi -> I k st0 ->
     body k st0 = Ok st1 -> I (k + 1) st1) ->
  I hi st'.
Proof.
  intros Hle Hf Hi Hstep. unfold for_range in Hf.
  replace hi with (lo + Z.of_nat (Z.to_nat (hi - lo))) by lia.
  apply (for_n_inv I body _ lo st st' Hf Hi).
  intros k st0 st1 Hk. apply Hstep. lia.
Qed.

Lemma for_range_empty {St : Type} (body : Z -> St -> outcome St) (lo hi : Z) (st : St) :
  hi <= lo -> for_range lo hi body st = Ok st.
Proof.
  intros H. unfold for_range. replace (Z.to_nat (hi - lo)) with O by lia. reflexivity.
Qed.

Lemma all_n_spec (n : nat) (i : Z) (P : Z -> bool) :
  all_n n i P = true <-> (forall k, i <= k < i + Z.of_nat n -> P k = true).
Proof.
  revert i. induction n as [|n IH]; intros i; simpl.
  - split; [intros _ k Hk; lia|reflexivity].
  - rewrite andb_true_iff, IH. split.
    + intros [H0 H1] k Hk. destruct (Z.eq_dec k i) as [->|Hne]; [exact H0|].
      apply H1. lia.
    + intros H. split; [apply H; lia|]. intros k Hk. apply H. lia.
Qed.

Lemma all_range_spec (lo hi : Z) (P : Z -> bool) :
  all_range lo hi P = true <-> (forall k, lo <= k < hi -> P k = true).
Proof.
  unfold all_range. rewrite all_n_spec. split; intros H k Hk; apply H; lia.
Qed.

(** ** What a well-formed storage gives *)

Lemma well_formed_facts (s : YALE_STORAGE) :
  well_formed s = true -> wf_facts s.
Proof.
  unfold well_formed. rewrite !andb_true_iff.
  intros [[[[[[H1 H2] H3] H4] H5] H6] H7].
  rewrite all_range_spec in H4.
  assert (Hrow : forall i, 0 <= i < shape0 s ->
            ija s i <= ija s (i + 1) /\
            forall p, ija s i <= p < ija s (i + 1) ->
              (0 <= ija s p < shape1 s /\ ija s p <> i) /\
              (p + 1 < ija s (i + 1) -> ija s p < ija s (p + 1))).
  { intros i Hi. specialize (H4 i Hi). unfold row_ok in H4.
    rewrite andb_true_iff, all_range_spec in H4. destruct H4 as [Ha Hb].
    split; [lia|]. intros p Hp. specialize (Hb p Hp).
    rewrite !andb_true_iff, orb_true_iff, negb_true_iff in Hb.
    destruct Hb as [[[Hb1 Hb2] Hb3] Hb4].
    apply Z.eqb_neq in Hb3. split; [lia|].
    intros Hlt. destruct Hb4 as [Hb4|Hb4]; lia. }
  constructor; try lia.
  - intros i Hi. apply (Hrow i Hi).
  - intros i p Hi Hp. apply (Hrow i Hi). exact Hp.
  - intros i p Hi Hp1 Hp2. apply (Hrow i Hi); lia.
Qed.

(** Row pointers are ordered across rows, start after the zero slot and end
    within the size. *)
Lemma wf_mono_le (s : YALE_STORAGE) :
  wf_facts s -> forall i j, 0 <= i -> i <= j -> j <= shape0 s -> ija s i <= ija s j.
Proof.
  intros W i j Hi Hij Hj.
  assert (H : forall n : nat, i + Z.of_nat n <= shape0 s -> ija s i <= ija s (i + Z.of_nat n)).
  { induction n as [|n IH]; intros Hn.
    - replace (i + Z.of_nat 0) with i by lia. lia.
    - replace (i + Z.of_nat (S n)) with (i + Z.of_nat n + 1) by lia.
      pose proof (wf_mono s W (i + Z.of_nat n)). lia. }
  specialize (H (Z.to_nat (j - i))).
  replace (i + Z.of_nat (Z.to_nat (j - i))) with j in H by lia. apply H. lia.
Qed.

Lemma wf_row_bounds (s : YALE_STORAGE) :
  wf_facts s -> forall i, 0 <= i < shape0 s ->
  shape0 s + 1 <= ija s i /\ ija s i <= ija s (i + 1) /\ ija s (i + 1) <= capacity s.
Proof.
  intros W i Hi.
  pose proof (wf_mono_le s W 0 i). pose proof (wf_mono_le s W (i + 1) (shape0 s)).
  pose proof (wf_mono s W i Hi). pose proof (wf_ija0 s W). pose proof (wf_size s W).
  lia.
Qed.

Lemma wf_sorted (s : YALE_STORAGE) :
  wf_facts s -> forall i, 0 <= i < shape0 s ->
  sorted_range (ija s) (ija s i) (ija s (i + 1)).
Proof.
  intros W i Hi p q Hp Hpq Hq.
  assert (H : forall n : nat, p + 1 + Z.of_nat n < ija s (i + 1) ->
            ija s p < ija s (p + 1 + Z.of_nat n)).
  { induction n as [|n IH]; intros Hn.
    - replace (p + 1 + Z.of_nat 0) with (p + 1) by lia.
      apply (wf_next s W i); lia.
    - replace (p + 1 + Z.of_nat (S n)) with (p + 1 + Z.of_nat n + 1) by lia.
      pose proof (wf_next s W i (p + 1 + Z.of_nat n)). lia. }
  specialize (H (Z.to_nat (q - p - 1))).
  replace (p + 1 + Z.of_nat (Z.to_nat (q - p - 1))) with q in H by lia.
  apply H. lia.
Qed.

(** ** Index Search *)

Lemma mid_between (left right : Z) :
  left <= right -> left <= (left + right) / 2 <= right.
Proof.
  intros H. split.
  - apply Z.div_le_lower_bound; lia.
  - apply Z.div_le_upper_bound; lia.
Qed.

(** binary_search over a strictly increasing range returns the position of
    the key when the range holds it, and -1 when it does not. *)
Lemma binary_search_spec (s : YALE_STORAGE) (key : Z) (fuel : nat) :
  capacity s < 2 ^ 31 -> capacity s < IMOD (itype s) ->
  forall left right,
  1 <= left -> left <= right + 1 -> right < capacity s ->
  sorted_range (ija s) left (right + 1) ->
  right - left + 1 < Z.of_nat fuel ->
  (forall p, left <= p <= right -> ija s p = key ->
     binary_search fuel s left right key = Ok p) /\
  ((forall p, left <= p <= right -> ija s p <> key) ->
     binary_search fuel s left right key = Ok (-1)).
Proof.
  intros Hint Himod.
  induction fuel as [|fuel IH]; intros left right Hl Hlr Hr Hs Hf; [lia|].
  simpl. destruct (left >? right) eqn:E.
  - apply Z.gtb_lt in E. split; [intros p Hp; lia|reflexivity].
  - assert (Hle : left <= right) by (destruct (Z.gtb_spec left right); [discriminate|lia]).
    pose proof (mid_between left right Hle) as Hmid.
    rewrite isum_small by lia.
    set (mid := (left + right) / 2) in *.
    rewrite to_itype_small by lia.
    unfold rd_ija. rewrite rd_ok by lia. simpl.
    rewrite !to_itype_small by lia.
    destruct (ija s mid =? key) eqn:Ek.
    + apply Z.eqb_eq in Ek. rewrite to_int_small by lia. split.
      * intros p Hp Hk. f_equal.
        destruct (Z.lt_trichotomy p mid) as [Hlt|[Heq|Hgt]]; [|lia|].
        -- pose proof (Hs p mid). lia.
        -- pose proof (Hs mid p). lia.
      * intros Hno. exfalso. apply (Hno mid); [lia|exact Ek].
    + apply Z.eqb_neq in Ek. destruct (ija s mid >? key) eqn:Eg.
      * assert (Hg : key < ija s mid) by (destruct (Z.gtb_spec (ija s mid) key); [lia|discriminate]).
        destruct (IH left (mid - 1)) as [IH1 IH2]; try lia.
        { intros p q Hp Hpq Hq. apply Hs; lia. }
        split.
        -- intros p Hp Hk. apply IH1; [|exact Hk].
           destruct (Z.lt_trichotomy p mid) as [Hlt|[Heq|Hgt]]; [lia|subst; lia|].
           pose proof (Hs mid p). lia.
        -- intros Hno. apply IH2. intros p Hp. apply Hno. lia.
      * assert (Hg : ija s mid < key) by (destruct (Z.gtb_spec (ija s mid) key); [discriminate|lia]).
        destruct (IH (mid + 1) right) as [IH1 IH2]; try lia.
        { intros p q Hp Hpq Hq. apply Hs; lia. }
        split.
        -- intros p Hp Hk. apply IH1; [|exact Hk].
           destruct (Z.lt_trichotomy p mid) as [Hlt|[Heq|Hgt]]; [|subst; lia|lia].
           pose proof (Hs p mid). lia.
        -- intros Hno. apply IH2. intros p Hp. apply Hno. lia.
Qed.

(** insert_search over a strictly increasing range: the position of the
    key and [true] when the range holds it; otherwise [false] and the first
    position whose column is larger (the end of the range when none is). *)
Lemma insert_search_spec (s : YALE_STORAGE) (key : Z) (fuel : nat) :
  capacity s < 2 ^ 31 -> capacity s < IMOD (itype s) ->
  forall left right,
  1 <= left -> left <= right + 1 -> right < capacity s ->
  sorted_range (ija s) left (right + 1) ->
  right - left + 1 < Z.of_nat fuel ->
  exists pos found,
    insert_search fuel s left right key = Ok (pos, found) /\
    left <= pos <= right + 1 /\
    (found = true -> pos <= right /\ ija s pos = key) /\
    (found = false ->
       (forall p, left <= p < pos -> ija s p < key) /\
       (forall p, pos <= p <= right -> key < ija s p)).
Proof.
  intros Hint Himod.
  induction fuel as [|fuel IH]; intros left right Hl Hlr Hr Hs Hf; [lia|].
  simpl. destruct (left >? right) eqn:E.
  - apply Z.gtb_lt in E. exists left, false. split; [reflexivity|].
    split; [lia|]. split; [discriminate|]. intros _. split; intros p Hp; lia.
  - assert (Hle : left <= right) by (destruct (Z.gtb_spec left right); [discriminate|lia]).
    pose proof (mid_between left right Hle) as Hmid.
    rewrite isum_small by lia.
    set (mid := (left + right) / 2) in *.
    rewrite to_itype_small by lia.
    unfold rd_ija. rewrite rd_ok by lia. simpl.
    rewrite !to_itype_small by lia.
    destruct (ija s mid =? key) eqn:Ek.
    + apply Z.eqb_eq in Ek. exists mid, true. split; [reflexivity|].
      split; [lia|]. split; [intros _; split; [lia|exact Ek]|discriminate].
    + apply Z.eqb_neq in Ek. destruct (ija s mid >? key) eqn:Eg.
      * assert (Hg : key < ija s mid) by (destruct (Z.gtb_spec (ija s mid) key); [lia|discriminate]).
        destruct (IH left (mid - 1)) as [pos [found [He [Hp [Ht Hn]]]]]; try lia.
        { intros p q Hp Hpq Hq. apply Hs; lia. }
        exists pos, found. split; [exact He|]. split; [lia|]. split.
        -- intros Hfd. destruct (Ht Hfd). split; [lia|assumption].
        -- intros Hfd. destruct (Hn Hfd) as [Hn1 Hn2]. split; [exact Hn1|].
           intros p Hpp. destruct (Z.le_gt_cases p (mid - 1)) as [Hc|Hc].
           ++ apply Hn2. lia.
           ++ destruct (Z.eq_dec p mid) as [->|Hne]; [exact Hg|].
              pose proof (Hs mid p). lia.
      * assert (Hg : ija s mid < key) by (destruct (Z.gtb_spec (ija s mid) key); [discriminate|lia]).
        destruct (IH (mid + 1) right) as [pos [found [He [Hp [Ht Hn]]]]]; try lia.
        { intros p q Hp Hpq Hq. apply Hs; lia. }
        exists pos, found. split; [exact He|]. split; [lia|]. split.
        -- exact Ht.
        -- intros Hfd. destruct (Hn Hfd) as [Hn1 Hn2]. split; [|exact Hn2].
           intros p Hpp. destruct (Z.le_gt_cases (mid + 1) p) as [Hc|Hc].
           ++ apply Hn1. lia.
           ++ destruct (Z.eq_dec p mid) as [->|Hne]; [exact Hg|].
              pose proof (Hs p mid). lia.
Qed.


Lemma range_find_dec (m : array) (key lo hi : Z) :
  (exists p, lo <= p < hi /\ m p = key) \/ (forall p, lo <= p < hi -> m p <> key).
Proof.
  assert (H : forall n : nat,
            (exists p, lo <= p < lo + Z.of_nat n /\ m p = key) \/
            (forall p, lo <= p < lo + Z.of_nat n -> m p <> key)).
  { induction n as [|n [[p [Hp Hk]]|IH]].
    - right. intros p Hp. lia.
    - left. exists p. split; [lia|exact Hk].
    - destruct (Z.eq_dec (m (lo + Z.of_nat n)) key) as [He|Hne].
      + left. exists (lo + Z.of_nat n). split; [lia|exact He].
      + right. intros p Hp.
        destruct (Z.eq_dec p (lo + Z.of_nat n)) as [->|Hd]; [exact Hne|].
        apply IH. lia. }
  destruct (Z.le_gt_cases hi lo) as [Hle|Hgt].
  - right. intros p Hp. lia.
  - specialize (H (Z.to_nat (hi - lo))).
    replace (lo + Z.of_nat (Z.to_nat (hi - lo))) with hi in H by lia. exact H.
Qed.

(** ** Accessors: ref *)

(** A column is stored at one position of a row at most. *)
Lemma stored_at_unique (s : YALE_STORAGE) (row col p q : Z) :
  wf_facts s -> 0 <= row < shape0 s ->
  stored_at s row col p -> stored_at s row col q -> p = q.
Proof.
  intros W Hrow [Hp Hk] [Hq Hqk].
  destruct (Z.lt_trichotomy p q) as [Hlt|[Heq|Hgt]]; [|exact Heq|].
  - pose proof (wf_sorted s W row Hrow p q). lia.
  - pose proof (wf_sorted s W row Hrow q p). lia.
Qed.

(** The three ways ref ends on a well-formed storage. *)
Lemma ref_slot_cases (fuel : nat) (s : YALE_STORAGE) (row col : Z) :
  wf_facts s ->
  positions_fit_int s ->
  0 <= row < shape0 s ->
  0 <= col < shape1 s ->
  capacity s < Z.of_nat fuel ->
  exists pos,
    ref fuel s (mkSlice row col true) = Ok pos /\
    0 <= pos < capacity s /\
    ((row = col /\ pos = row) \/
     (row <> col /\ stored_at s row col pos) \/
     (row <> col /\ pos = shape0 s /\ forall p, ~ stored_at s row col p)).
Proof.
  intros W Hint Hrow Hcol Hfuel.
  pose proof (wf_row_bounds s W row Hrow) as [Hb1 [Hb2 Hb3]].
  pose proof (wf_cap_itype s W) as Hci. pose proof (wf_cols_itype s W) as Hcc.
  unfold positions_fit_int in Hint.
  unfold ref. simpl.
  destruct (row =? col) eqn:Erc.
  - apply Z.eqb_eq in Erc. exists row. split; [reflexivity|].
    split; [lia|]. left. split; [exact Erc|reflexivity].
  - apply Z.eqb_neq in Erc.
    unfold rd_ija. rewrite !rd_ok by lia. simpl.
    destruct (ija s row =? ija s (row + 1)) eqn:Ee.
    + apply Z.eqb_eq in Ee. exists (shape0 s). split; [reflexivity|].
      split; [lia|]. right. right. split; [exact Erc|]. split; [reflexivity|].
      intros p [Hp _]. lia.
    + apply Z.eqb_neq in Ee.
      rewrite !to_itype_small by lia.
      destruct (binary_search_spec s col fuel Hint Hci (ija s row) (ija s (row + 1) - 1))
        as [Hfound Habsent]; try lia.
      { replace (ija s (row + 1) - 1 + 1) with (ija s (row + 1)) by lia.
        apply wf_sorted; assumption. }
      destruct (range_find_dec (ija s) col (ija s row) (ija s (row + 1)))
        as [[p [Hp Hk]]|Hno].
      * rewrite (Hfound p) by (try lia; exact Hk). simpl.
        assert (Hp1 : (p =? -1) = false) by (apply Z.eqb_neq; lia).
        rewrite Hp1. fold (rd_ija s p). unfold rd_ija. rewrite rd_ok by lia. simpl.
        rewrite Hk, Z.eqb_refl.
        exists p. split; [reflexivity|]. split; [lia|].
        right. left. split; [exact Erc|]. split; assumption.
      * rewrite Habsent by (intros p Hp; apply Hno; lia). simpl.
        exists (shape0 s). split; [reflexivity|]. split; [lia|].
        right. right. split; [exact Erc|]. split; [reflexivity|].
        intros p [Hp Hk]. apply (Hno p Hp Hk).
Qed.


(** ref reads the storage through its capacity, index kind, row count and
    IJA cells only. *)
Lemma binary_search_ext (s1 s2 : YALE_STORAGE) (key : Z) (fuel : nat) :
  capacity s1 = capacity s2 -> itype s1 = itype s2 ->
  (forall q, ija s1 q = ija s2 q) ->
  forall left right,
  binary_search fuel s1 left right key = binary_search fuel s2 left right key.
Proof.
  intros Hc Hi Hq. induction fuel as [|fuel IH]; intros left right; [reflexivity|].
  simpl. unfold rd_ija. rewrite Hc, Hi. unfold rd.
  destruct (left >? right); [reflexivity|].
  destruct (in_bounds _ _); [|reflexivity]. simpl. rewrite Hq.
  destruct (_ =? key); [reflexivity|].
  destruct (_ >? key); apply IH.
Qed.

Lemma ref_ext (s1 s2 : YALE_STORAGE) (fuel : nat) (slice : SLICE) :
  capacity s1 = capacity s2 -> itype s1 = itype s2 -> shape0 s1 = shape0 s2 ->
  (forall q, ija s1 q = ija s2 q) ->
  ref fuel s1 slice = ref fuel s2 slice.
Proof.
  intros Hc Hi Hs Hq. unfold ref, rd_ija, rd. rewrite Hc, Hi, Hs.
  destruct (negb (single slice)); [reflexivity|].
  destruct (_ =? _); [reflexivity|].
  destruct (in_bounds _ (coords0 slice)); [|reflexivity]. simpl.
  destruct (in_bounds _ (coords0 slice + 1)); [|reflexivity]. simpl.
  rewrite !Hq. destruct (_ =? _); [reflexivity|].
  rewrite (binary_search_ext s1 s2) by assumption.
  destruct (binary_search _ _ _ _ _) as [pos| | |]; try reflexivity. simpl.
  destruct (pos =? -1); [reflexivity|].
  destruct (in_bounds _ pos); [|reflexivity]. simpl. rewrite Hq. reflexivity.
Qed.

(** Two rows whose off-diagonal ranges share a position are the same row. *)
Lemma wf_row_unique (s : YALE_STORAGE) :
  wf_facts s -> forall i j p, 0 <= i < shape0 s -> 0 <= j < shape0 s ->
  ija s i <= p < ija s (i + 1) -> ija s j <= p < ija s (j + 1) -> i = j.
Proof.
  intros W i j p Hi Hj Hpi Hpj.
  destruct (Z.lt_trichotomy i j) as [Hlt|[Heq|Hgt]]; [|exact Heq|].
  - pose proof (wf_mono_le s W (i + 1) j). lia.
  - pose proof (wf_mono_le s W (j + 1) i). lia.
Qed.

(** ** Row Store: set *)


Lemma vector_insert_tag (grow : Z -> Z) (junk_ija junk_a : array)
  (s : YALE_STORAGE) (pos : Z) (j val : array) (n : Z) (struct_only : bool)
  (c : ascii) (s' : YALE_STORAGE) :
  vector_insert grow junk_ija junk_a s pos j val n struct_only = Ok (c, s') ->
  c = "i"%char.
Proof.
  unfold vector_insert. destruct (pos <? shape0 s); [discriminate|].
  intros H. inv_bind H. inv_bind H. inv_bind H. inversion H. reflexivity.
Qed.

(** What a call of set that returns 'r' did: the target is a diagonal cell
    or a stored one, and the call wrote the value at its slot. *)
Lemma set_replaced_inv (grow : Z -> Z) (junk_ija junk_a : array)
  (fuel : nat) (s s' : YALE_STORAGE) (row col v : Z) :
  well_formed s = true ->
  positions_fit_int s ->
  0 <= row < shape0 s ->
  0 <= col < shape1 s ->
  capacity s < Z.of_nat fuel ->
  set grow junk_ija junk_a fuel s (mkSlice row col true) v = Ok ("r"%char, s') ->
  exists pos,
    ((row = col /\ pos = row) \/ (row <> col /\ stored_at s row col pos)) /\
    shape0 s' = shape0 s /\ shape1 s' = shape1 s /\
    dtype s' = dtype s /\ itype s' = itype s /\
    ndnz s' = ndnz s /\ capacity s' = capacity s /\
    (forall q, ija s' q = ija s q) /\
    (forall q, a s' q = upd (a s) pos v q).
Proof.
  intros Hwf Hint Hrow Hcol Hfuel Hset.
  pose proof (well_formed_facts s Hwf) as W.
  pose proof (wf_row_bounds s W row Hrow) as [Hb1 [Hb2 Hb3]].
  pose proof (wf_cap_itype s W) as Hci. pose proof (wf_cols_itype s W) as Hcc.
  unfold set in Hset. simpl in Hset. unfold positions_fit_int in Hint.
  destruct (row =? col) eqn:Erc.
  - apply Z.eqb_eq in Erc. exists row.
    inv_bind Hset. apply wr_Ok_inv in Hx. destruct Hx as [_ ->].
    inversion Hset. subst s'. simpl.
    split; [left; split; [exact Erc|reflexivity]|]. repeat split; reflexivity.
  - apply Z.eqb_neq in Erc.
    unfold rd_ija in Hset. rewrite !rd_ok in Hset by lia. simpl in Hset.
    destruct (ija s row =? ija s (row + 1)) eqn:Ee.
    + inv_bind Hset. destruct x as [c s1].
      apply vector_insert_tag in Hx. subst c.
      inv_bind Hset. inversion Hset.
    + apply Z.eqb_neq in Ee.
      rewrite !to_itype_small in Hset by lia.
      destruct (insert_search_spec s col fuel Hint Hci (ija s row) (ija s (row + 1) - 1))
        as [p [found [Hins [Hp [Hfound _]]]]]; try lia.
      { replace (ija s (row + 1) - 1 + 1) with (ija s (row + 1)) by lia.
        apply wf_sorted; assumption. }
      rewrite Hins in Hset. simpl in Hset. destruct found.
      * destruct (Hfound eq_refl) as [Hp' Hk].
        exists p. rewrite !wr_ok in Hset by lia. simpl in Hset.
        inversion Hset. subst s'. simpl.
        split; [right; split; [exact Erc|split; [lia|exact Hk]]|].
        repeat split; try reflexivity.
        intros q. unfold upd. destruct (q =? p) eqn:Eq; [|reflexivity].
        apply Z.eqb_eq in Eq. subst q. symmetry. exact Hk.
      * inv_bind Hset. destruct x as [c s1].
        apply vector_insert_tag in Hx. subst c.
        inv_bind Hset. inversion Hset.
Qed.


(** ** Copying and casting *)

Lemma to_dtype_id (d : dtype_t) (v : Z) :
  in_dtype d v = true -> to_dtype d v = v.
Proof.
  unfold in_dtype, to_dtype. rewrite andb_true_iff, Z.leb_le, Z.leb_le.
  intros [H1 H2]. rewrite Z.mod_small; [lia|].
  destruct d; unfold dtype_min, dtype_max, dtype_bits in *; simpl in *; lia.
Qed.

(** A loop that copies the first [n] cells of [src] into [dst0], each
    through [f]. *)
Lemma copy_loop (f : Z -> Z) (src_len : Z) (src : array) (dst_len : Z)
  (dst0 : array) (n : Z) :
  0 <= n -> n <= src_len -> n <= dst_len ->
  exists m,
    for_range 0 n (fun i m => v <- rd src_len src i ;; wr dst_len m i (f v)) dst0
      = Ok m /\
    (forall q, 0 <= q < n -> m q = f (src q)) /\
    (forall q, ~ 0 <= q < n -> m q = dst0 q).
Proof.
  intros Hn Hs Hd.
  destruct (for_range_total
              (fun k m => (forall q, 0 <= q < k -> m q = f (src q)) /\
                          (forall q, ~ 0 <= q < k -> m q = dst0 q))
              (fun i m => v <- rd src_len src i ;; wr dst_len m i (f v))
              0 n dst0 Hn) as [m [Hm [H1 H2]]].
  - split; [intros q Hq; lia|reflexivity].
  - intros k m Hk [I1 I2]. exists (upd m k (f (src k))).
    rewrite rd_ok by lia. simpl. rewrite wr_ok by lia.
    split; [reflexivity|]. split.
    + intros q Hq. destruct (Z.eq_dec q k) as [->|Hne].
      * apply upd_same.
      * rewrite upd_other by exact Hne. apply I1. lia.
    + intros q Hq. rewrite upd_other by lia. apply I2. lia.
  - exists m. split; [exact Hm|]. split; assumption.
Qed.

(** C9. cast_copy on a well-formed storage whose cells hold values of its
    kind returns a storage built on the fresh blocks, with the shape, index
    kind, ndnz, capacity and size of the source and the new value kind;
    below the size its IJA cells are the source's and its A cells the
    source's values converted to the new kind; from the size on both arrays
    are what the allocation left. The source is an argument that the result
    does not contain: it is not changed. *)
Theorem cast_copy_spec (junk_ija junk_a : array) (rhs : YALE_STORAGE)
  (new_dtype : dtype_t) :
  well_formed rhs = true ->
  cells_typed rhs = true ->
  exists lhs,
    cast_copy junk_ija junk_a rhs new_dtype = Ok lhs /\
    shape0 lhs = shape0 rhs /\ shape1 lhs = shape1 rhs /\ dim lhs = dim rhs /\
    itype lhs = itype rhs /\ ndnz lhs = ndnz rhs /\
    capacity lhs = capacity rhs /\ dtype lhs = new_dtype /\
    get_size lhs = get_size rhs /\
    (forall q, 0 <= q < ija rhs (shape0 rhs) -> ija lhs q = ija rhs q) /\
    (forall q, 0 <= q < ija rhs (shape0 rhs) ->
       a lhs q = to_dtype new_dtype (a rhs q)) /\
    (forall q, ~ 0 <= q < ija rhs (shape0 rhs) ->
       ija lhs q = junk_ija q /\ a lhs q = junk_a q).
Proof.
  intros Hwf Htyped.
  unfold cells_typed in Htyped. rewrite all_range_spec in Htyped.
  pose proof (well_formed_facts rhs Hwf) as W.
  pose proof (wf_rows rhs W) as Hrows. pose proof (wf_ija0 rhs W) as H0.
  pose proof (wf_size rhs W) as Hsz.
  pose proof (wf_mono_le rhs W 0 (shape0 rhs)) as Hmono.
  set (size := ija rhs (shape0 rhs)) in *.
  assert (Hsize : shape0 rhs + 1 <= size <= capacity rhs) by lia.
  assert (Hget : get_size rhs = Ok size).
  { unfold get_size, rd_ija. rewrite rd_ok by lia. reflexivity. }
  destruct (copy_loop (fun v => v) (capacity rhs) (ija rhs) (capacity rhs) junk_ija size)
    as [mi [Hmi [Hi1 Hi2]]]; try lia.
  unfold cast_copy. rewrite Hget. simpl.
  unfold copy_alloc_struct. rewrite Hget. simpl.
  unfold rd_ija at 1. rewrite Hmi. simpl.
  destruct (dtype_eqb (dtype rhs) new_dtype) eqn:Ed.
  - destruct (copy_loop (fun v => v) (capacity rhs) (a rhs) (capacity rhs) junk_a size)
      as [ma [Hma [Ha1 Ha2]]]; try lia.
    unfold rd_a at 1. rewrite Hma. simpl.
    eexists. split; [reflexivity|]. simpl.
    repeat (split; [reflexivity|]).
    split.
    { unfold get_size, rd_ija. simpl. rewrite !rd_ok by lia. f_equal. apply Hi1. lia. }
    split; [exact Hi1|]. split.
    + intros q Hq. rewrite Ha1 by exact Hq.
      assert (new_dtype = dtype rhs) by (destruct (dtype rhs), new_dtype; try discriminate; reflexivity).
      subst new_dtype. symmetry. apply to_dtype_id. apply Htyped. exact Hq.
    + intros q Hq. split; [apply Hi2|apply Ha2]; exact Hq.
  - destruct (copy_loop (to_dtype new_dtype) (capacity rhs) (a rhs) (capacity rhs) junk_a size)
      as [ma [Hma [Ha1 Ha2]]]; try lia.
    unfold rd_a at 1. rewrite Hma. simpl.
    eexists. split; [reflexivity|]. simpl.
    repeat (split; [reflexivity|]).
    split.
    { unfold get_size, rd_ija. simpl. rewrite !rd_ok by lia. f_equal. apply Hi1. lia. }
    split; [exact Hi1|]. split; [exact Ha1|].
    intros q Hq. split; [apply Hi2|apply Ha2]; exact Hq.
Qed.

(** ** The element-wise engine under multiplication *)

Section ElementwiseMul.

Variable itype_by_shape : Z -> Z -> itype_t.
Variable NM_YALE_MINIMUM : YALE_STORAGE -> Z.
Variables junk_ija junk_a : array.
Variable ew_op_switch : ewop_t -> Z -> Z -> Z.
Variables left right : YALE_STORAGE.
Variables dcap drows : Z.

(** Both operands have the index kind of the template instance. *)
Hypothesis Hkind : itype right = itype left.

Let off := drows + 1.

(** What a pass of the merge emits. *)
Lemma ew_emit_inv (tmp : Z) (col : outcome Z) (st st' : ew_state) :
  ew_emit dcap drows off tmp col st = Ok st' ->
  (tmp = 0 /\ st' = st) \/
  (tmp <> 0 /\ exists c, col = Ok c /\
     st' = mkEw (la_index st) (ra_index st) (to_uint (da_index st + 1))
                (upd (d_ija st) (off + da_index st) c)
                (upd (d_a st) (off + da_index st) tmp)).
Proof.
  unfold ew_emit. destruct (tmp =? 0) eqn:E; simpl; intros H.
  - left. apply Z.eqb_eq in E. inversion H. auto.
  - right. apply Z.eqb_neq in E. split; [exact E|].
    bind_inv H as da' Hda. apply wr_Ok_inv in Hda. destruct Hda as [_ ->].
    bind_inv H as c Hc. exists c. split; [exact Hc|].
    bind_inv H as dj' Hdj. apply wr_Ok_inv in Hdj. destruct Hdj as [_ ->].
    inversion H. reflexivity.
Qed.

(** The entries the merge loop adds under EW_MUL: each sits at a column
    that both operands store in the part of the row still to be merged, and
    holds the non-zero product of the two values; what was emitted before
    stays. *)
Lemma ew_merge_mul_inv (la_row_max ra_row_max : Z) (fuel : nat) :
  shape0 left = drows -> shape0 right = drows ->
  la_row_max < 2 ^ 31 -> ra_row_max < 2 ^ 31 ->
  forall st st',
  ew_merge ew_op_switch fuel EW_MUL left right dcap drows off
    la_row_max ra_row_max st = Ok st' ->
  0 <= la_index st <= la_row_max -> 0 <= ra_index st <= ra_row_max ->
  0 <= da_index st <= la_index st ->
  da_index st <= da_index st' /\
  da_index st' - da_index st <= la_row_max - la_index st /\
  (forall q, q < off + da_index st ->
     d_ija st' q = d_ija st q /\ d_a st' q = d_a st q) /\
  (forall p, off + da_index st <= p < off + da_index st' ->
     exists pl pr,
       off + la_index st <= pl < off + la_row_max /\
       off + ra_index st <= pr < off + ra_row_max /\
       ija left pl = d_ija st' p /\ ija right pr = d_ija st' p /\
       d_a st' p = ew_op_switch EW_MUL (a left pl) (a right pr) /\
       d_a st' p <> 0).
Proof.
  intros Hl Hr Hlm Hrm.
  induction fuel as [|fuel IH]; intros st st' H Hla Hra Hda; [discriminate|].
  simpl in H.
  destruct ((la_index st <? la_row_max) && (ra_index st <? ra_row_max)) eqn:Ec.
  2:{ inversion H. subst st'. split; [lia|]. split; [lia|].
      split; [intros; split; reflexivity|]. intros p Hp. lia. }
  apply andb_true_iff in Ec. destruct Ec as [Ec1 Ec2].
  apply Z.ltb_lt in Ec1. apply Z.ltb_lt in Ec2.
  rewrite (rd_ija_as_same _ _ _ Hkind) in H.
  bind_inv H as lj Hx. apply rd_Ok_inv in Hx. destruct Hx as [Hlb Hlj].
  bind_inv H as rj Hx. apply rd_Ok_inv in Hx. destruct Hx as [Hrb Hrj].
  bind_inv H as st1 Hstep.
  rewrite Hl in Hlj. rewrite Hr in Hrj. fold off in Hlj, Hrj.
  destruct (lj =? rj) eqn:Ej.
  - (* the same column on both sides *)
    apply Z.eqb_eq in Ej.
    bind_inv Hstep as lv Hx. apply rd_Ok_inv in Hx. destruct Hx as [_ Hlv].
    bind_inv Hstep as rv Hx. apply rd_Ok_inv in Hx. destruct Hx as [_ Hrv].
    bind_inv Hstep as st0 Hx. inversion Hstep. subst st1. clear Hstep.
    apply ew_emit_inv in Hx.
    destruct Hx as [[Ht ->]|[Ht [c [Hc ->]]]].
    + destruct (IH _ _ H) as [I1 [I2 [I3 I4]]];
        simpl; rewrite ?to_uint_small by lia; try lia.
      simpl in *. rewrite ?to_uint_small in * by lia.
      split; [lia|]. split; [lia|]. split; [exact I3|].
      intros p Hp. destruct (I4 p Hp) as [pl [pr [P1 [P2 P3]]]].
      exists pl, pr. split; [lia|]. split; [lia|]. exact P3.
    + apply rd_Ok_inv in Hc. destruct Hc as [_ Hc]. rewrite Hl in Hc. fold off in Hc.
      destruct (IH _ _ H) as [I1 [I2 [I3 I4]]];
        simpl; rewrite ?to_uint_small by lia; try lia.
      simpl in *. rewrite ?to_uint_small in * by lia.
      split; [lia|]. split; [lia|]. split.
      * intros q Hq. destruct (I3 q) as [J1 J2]; [lia|].
        rewrite J1, J2, !upd_other by lia. split; reflexivity.
      * intros p Hp. destruct (Z.eq_dec p (off + da_index st)) as [->|Hne].
        -- exists (off + la_index st), (off + ra_index st).
           destruct (I3 (off + da_index st)) as [J1 J2]; [lia|].
           rewrite J1, J2, !upd_same.
           split; [lia|]. split; [lia|].
           split; [congruence|]. split; [congruence|].
           split; [congruence|]. exact Ht.
        -- destruct (I4 p) as [pl [pr [P1 [P2 P3]]]]; [lia|].
           exists pl, pr. split; [lia|]. split; [lia|]. exact P3.
  - (* a column on one side only: nothing is emitted *)
    destruct (lj <? rj) eqn:Elt; simpl in Hstep; inversion Hstep; subst st1; clear Hstep;
      destruct (IH _ _ H) as [I1 [I2 [I3 I4]]];
        simpl; rewrite ?to_uint_small by lia; try lia;
      simpl in *; rewrite ?to_uint_small in * by lia;
      (split; [lia|]; split; [lia|]; split; [exact I3|]);
      intros p Hp; destruct (I4 p Hp) as [pl [pr [P1 [P2 P3]]]];
      exists pl, pr; (split; [lia|]; split; [lia|]; exact P3).
Qed.

(** A pass of the row loop keeps the invariant. *)
Lemma ew_row_mul_inv (fuel : nat) (dit : itype_t) (k : Z) (st st' : ew_state) :
  wf_facts left -> wf_facts right ->
  shape0 left = drows -> shape0 right = drows ->
  capacity left < 2 ^ 31 -> capacity right < 2 ^ 31 ->
  capacity left < IMOD dit ->
  0 <= k < drows ->
  ew_row ew_op_switch fuel EW_MUL left right dit dcap drows off k st = Ok st' ->
  ew_rows_inv ew_op_switch left right off k st ->
  ew_rows_inv ew_op_switch left right off (k + 1) st'.
Proof.
  intros Wl Wr Hl Hr Hli Hri Hdit Hk H [Ila [Ira [Ida [Iptr Ient]]]].
  assert (Hkl : 0 <= k < shape0 left) by lia.
  assert (Hkr : 0 <= k < shape0 right) by lia.
  pose proof (wf_row_bounds left Wl k Hkl) as [Bl1 [Bl2 Bl3]].
  pose proof (wf_row_bounds right Wr k Hkr) as [Br1 [Br2 Br3]].
  rewrite Hl in Bl1. rewrite Hr in Br1. fold off in Bl1, Br1.
  unfold ew_row in H. rewrite (rd_ija_as_same _ _ _ Hkind) in H.
  bind_inv H as l_end Hx. apply rd_Ok_inv in Hx. destruct Hx as [_ ->].
  bind_inv H as r_end Hx. apply rd_Ok_inv in Hx. destruct Hx as [_ ->].
  rewrite !to_uint_small in H by lia.
  rewrite to_itype_small in H by lia.
  bind_inv H as dj Hx. apply wr_Ok_inv in Hx. destruct Hx as [_ ->].
  bind_inv H as st2 Hm. simpl in H. inversion H. subst st'. clear H.
  apply ew_merge_mul_inv in Hm; simpl; try lia.
  simpl in Hm. destruct Hm as [M1 [M2 [M3 M4]]].
  unfold ew_rows_inv. simpl.
  split; [reflexivity|]. split; [reflexivity|]. split; [lia|].
  assert (Hframe : forall q, q < off + da_index st -> q <> k ->
            d_ija st2 q = d_ija st q /\ d_a st2 q = d_a st q).
  { intros q Hq Hne. destruct (M3 q Hq) as [J1 J2].
    rewrite J1, J2, upd_other by exact Hne. split; reflexivity. }
  assert (Hk2 : d_ija st2 k = da_index st + off).
  { destruct (M3 k) as [J1 _]; [unfold off; lia|]. rewrite J1. apply upd_same. }
  assert (Hnext : forall i, 0 <= i < k ->
            ew_next_ptr off (mkEw (ija left (k + 1) - off) (ija right (k + 1) - off)
                              (da_index st2) (d_ija st2) (d_a st2)) (k + 1) i
            = ew_next_ptr off st k i).
  { intros i Hi. unfold ew_next_ptr. simpl.
    destruct (i + 1 <? k + 1) eqn:E1; [|apply Z.ltb_ge in E1; lia].
    destruct (i + 1 <? k) eqn:E2.
    - apply Z.ltb_lt in E2. apply Hframe; unfold off; lia.
    - apply Z.ltb_ge in E2. replace (i + 1) with k by lia. lia. }
  split.
  - intros i Hi. destruct (Z.eq_dec i k) as [->|Hne].
    + unfold ew_next_ptr. simpl.
      destruct (k + 1 <? k + 1) eqn:E1; [apply Z.ltb_lt in E1; lia|]. lia.
    + rewrite Hnext by lia. destruct (Iptr i) as [P1 P2]; [lia|].
      destruct (Hframe i) as [J1 _]; [unfold off; lia|lia|]. rewrite J1. lia.
  - intros i p Hi Hp. destruct (Z.eq_dec i k) as [->|Hne].
    + unfold ew_next_ptr in Hp. simpl in Hp.
      destruct (k + 1 <? k + 1) eqn:E1; [apply Z.ltb_lt in E1; lia|].
      rewrite Hk2 in Hp.
      destruct (M4 p) as [pl [pr [P1 [P2 [P3 [P4 [P5 P6]]]]]]]; [lia|].
      exists pl, pr. unfold stored_at.
      split; [split; [lia|exact P3]|]. split; [split; [lia|exact P4]|].
      split; assumption.
    + rewrite Hnext in Hp by lia. destruct (Iptr i) as [P1 P2]; [lia|].
      destruct (Hframe i) as [J1 _]; [unfold off; lia|lia|]. rewrite J1 in Hp.
      destruct (Ient i p) as [pl [pr [E1 [E2 [E3 E4]]]]]; [lia|lia|].
      destruct (Hframe p) as [J2 J3]; [lia|unfold off in *; lia|].
      exists pl, pr. rewrite J2, J3.
      split; [exact E1|]. split; [exact E2|]. split; assumption.
Qed.

End ElementwiseMul.

Section ElementwiseMulTotal.

Variable ew_op_switch : ewop_t -> Z -> Z -> Z.
Variables left right : YALE_STORAGE.
Variables dcap drows : Z.

Hypothesis Hkind : itype right = itype left.

Local Abbreviation off := (drows + 1).

(** The merge loop under EW_MUL runs to its end when the ranges lie within
    the operands, the destination has room for the left range, and the fuel
    covers what is left of both ranges. *)
Lemma ew_merge_mul_total (la_row_max ra_row_max : Z) (fuel : nat) :
  shape0 left = drows -> shape0 right = drows -> 0 <= drows ->
  la_row_max < 2 ^ 31 -> ra_row_max < 2 ^ 31 ->
  off + la_row_max <= capacity left ->
  off + ra_row_max <= capacity right ->
  off + la_row_max <= dcap ->
  forall st,
  0 <= la_index st -> 0 <= ra_index st ->
  0 <= da_index st <= la_index st ->
  Z.max 0 (la_row_max - la_index st) + Z.max 0 (ra_row_max - ra_index st)
    < Z.of_nat fuel ->
  exists st',
    ew_merge ew_op_switch fuel EW_MUL left right dcap drows off
      la_row_max ra_row_max st = Ok st'.
Proof.
  intros Hl Hr Hd Hlm Hrm Hlc Hrc Hdc.
  induction fuel as [|fuel IH]; intros st Hla Hra Hda Hf; [lia|].
  simpl.
  destruct ((la_index st <? la_row_max) && (ra_index st <? ra_row_max)) eqn:Ec;
    [|eexists; reflexivity].
  apply andb_true_iff in Ec. destruct Ec as [Ec1 Ec2].
  apply Z.ltb_lt in Ec1. apply Z.ltb_lt in Ec2.
  rewrite (rd_ija_as_same _ _ _ Hkind).
  unfold rd_ija, rd_a. rewrite Hl, Hr. rewrite !rd_ok by lia. simpl bind.
  destruct (_ =? _) eqn:Ej.
  - unfold ew_emit.
    destruct (negb (_ =? 0)).
    + rewrite !wr_ok by lia. simpl bind. rewrite !wr_ok by lia. simpl bind.
      apply IH; simpl; rewrite ?to_uint_small by lia; lia.
    + simpl bind. apply IH; simpl; rewrite ?to_uint_small by lia; lia.
  - destruct (_ <? _) eqn:Elt; simpl bind;
      apply IH; simpl; rewrite ?to_uint_small by lia; lia.
Qed.

End ElementwiseMulTotal.

Lemma itype_rank_IMOD (it1 it2 : itype_t) :
  itype_rank it1 <= itype_rank it2 -> IMOD it1 <= IMOD it2.
Proof. destruct it1, it2; unfold IMOD; simpl; lia. Qed.



(** ** The old-Yale bridge *)

Lemma count_range_empty (lo hi : Z) (P : Z -> bool) :
  hi <= lo -> count_range lo hi P = 0.
Proof.
  intros H. unfold count_range. replace (Z.to_nat (hi - lo)) with O by lia. reflexivity.
Qed.

Lemma count_range_step (lo hi : Z) (P : Z -> bool) :
  lo <= hi ->
  count_range lo (hi + 1) P = count_range lo hi P + (if P hi then 1 else 0).
Proof.
  intros H. unfold count_range.
  replace (Z.to_nat (hi + 1 - lo)) with (S (Z.to_nat (hi - lo))) by lia.
  simpl. replace (lo + Z.of_nat (Z.to_nat (hi - lo))) with hi by lia. reflexivity.
Qed.

Lemma count_range_mono (lo : Z) (P : Z -> bool) (p q : Z) :
  lo <= p -> p <= q -> 0 <= count_range lo p P <= count_range lo q P.
Proof.
  intros Hp Hpq.
  assert (H0 : forall n : nat, 0 <= count_range lo (lo + Z.of_nat n) P).
  { induction n as [|n IH].
    - rewrite count_range_empty by lia. lia.
    - replace (lo + Z.of_nat (S n)) with (lo + Z.of_nat n + 1) by lia.
      rewrite count_range_step by lia. destruct (P _); lia. }
  assert (H1 : forall n : nat, count_range lo p P <= count_range lo (p + Z.of_nat n) P).
  { induction n as [|n IH].
    - replace (p + Z.of_nat 0) with p by lia. lia.
    - replace (p + Z.of_nat (S n)) with (p + Z.of_nat n + 1) by lia.
      rewrite count_range_step by lia. destruct (P _); lia. }
  split.
  - specialize (H0 (Z.to_nat (p - lo))).
    replace (lo + Z.of_nat (Z.to_nat (p - lo))) with p in H0 by lia. exact H0.
  - specialize (H1 (Z.to_nat (q - p))).
    replace (p + Z.of_nat (Z.to_nat (q - p))) with q in H1 by lia. exact H1.
Qed.

Lemma count_range_le_len (lo : Z) (P : Z -> bool) (p : Z) :
  lo <= p -> count_range lo p P <= p - lo.
Proof.
  intros Hp.
  assert (H : forall n : nat, count_range lo (lo + Z.of_nat n) P <= Z.of_nat n).
  { induction n as [|n IH].
    - rewrite count_range_empty by lia. lia.
    - replace (lo + Z.of_nat (S n)) with (lo + Z.of_nat n + 1) by lia.
      rewrite count_range_step by lia. destruct (P _); lia. }
  specialize (H (Z.to_nat (p - lo))).
  replace (lo + Z.of_nat (Z.to_nat (p - lo))) with p in H by lia. lia.
Qed.

Lemma count_range_strict (lo : Z) (P : Z -> bool) (p q : Z) :
  lo <= p -> p < q -> P p = true -> count_range lo p P < count_range lo q P.
Proof.
  intros Hp Hpq HP.
  pose proof (count_range_mono lo P (p + 1) q).
  rewrite count_range_step in H by lia. rewrite HP in H. lia.
Qed.

(** The position with a given rank among those that satisfy [P]. *)
Lemma count_range_find (lo hi : Z) (P : Z -> bool) (n : Z) :
  0 <= n < count_range lo hi P ->
  exists q, lo <= q < hi /\ P q = true /\ count_range lo q P = n.
Proof.
  intros Hn.
  assert (Hlo : lo < hi).
  { destruct (Z.lt_ge_cases lo hi) as [H|H]; [exact H|].
    rewrite count_range_empty in Hn by lia. lia. }
  assert (H : forall m : nat, n < count_range lo (lo + Z.of_nat m) P ->
            exists q, lo <= q < lo + Z.of_nat m /\ P q = true /\ count_range lo q P = n).
  { induction m as [|m IH]; intros Hm.
    - rewrite count_range_empty in Hm by lia. lia.
    - replace (lo + Z.of_nat (S m)) with (lo + Z.of_nat m + 1) in Hm by lia.
      rewrite count_range_step in Hm by lia.
      destruct (Z.lt_ge_cases n (count_range lo (lo + Z.of_nat m) P)) as [Hlt|Hge].
      + destruct (IH Hlt) as [q [Hq [HP Hc]]]. exists q. split; [lia|]. split; assumption.
      + destruct (P (lo + Z.of_nat m)) eqn:EP; [|lia].
        exists (lo + Z.of_nat m). split; [lia|]. split; [exact EP|]. lia. }
  specialize (H (Z.to_nat (hi - lo))).
  replace (lo + Z.of_nat (Z.to_nat (hi - lo))) with hi in H by lia.
  apply H. lia.
Qed.

Lemma nd_before_0 (ir jr : array) : nd_before ir jr 0 = 0.
Proof. reflexivity. Qed.

Lemma nd_before_step (ir jr : array) (k : Z) :
  0 <= k ->
  nd_before ir jr (k + 1) = nd_before ir jr k + nd_row ir jr k (ir (k + 1)).
Proof.
  intros Hk. unfold nd_before.
  replace (Z.to_nat (k + 1)) with (S (Z.to_nat k)) by lia. simpl.
  replace (Z.of_nat (Z.to_nat k)) with k by lia. reflexivity.
Qed.

Lemma valid_old_yale_facts (rows cols : Z) (ir jr : array) :
  valid_old_yale rows cols ir jr = true -> old_facts rows cols ir jr.
Proof.
  unfold valid_old_yale. rewrite !andb_true_iff, all_range_spec.
  intros [[[H1 H2] H3] H4].
  assert (Hrow : forall i, 0 <= i < rows ->
            ir i <= ir (i + 1) /\
            forall p, ir i <= p < ir (i + 1) ->
              0 <= jr p < cols /\ (p + 1 < ir (i + 1) -> jr p < jr (p + 1))).
  { intros i Hi. specialize (H4 i Hi). unfold old_row_ok in H4.
    rewrite andb_true_iff, all_range_spec in H4. destruct H4 as [Ha Hb].
    split; [lia|]. intros p Hp. specialize (Hb p Hp).
    rewrite !andb_true_iff, orb_true_iff in Hb.
    destruct Hb as [[Hb1 Hb2] Hb3]. split; [lia|].
    intros Hlt. destruct Hb3 as [Hb3|Hb3]; lia. }
  constructor; try lia.
  - intros i Hi. apply (Hrow i Hi).
  - intros i p Hi Hp. apply (Hrow i Hi). exact Hp.
  - intros i Hi p q Hp Hpq Hq.
    assert (H : forall n : nat, p + 1 + Z.of_nat n < ir (i + 1) ->
              jr p < jr (p + 1 + Z.of_nat n)).
    { induction n as [|n IH]; intros Hn.
      - replace (p + 1 + Z.of_nat 0) with (p + 1) by lia. apply (Hrow i Hi); lia.
      - replace (p + 1 + Z.of_nat (S n)) with (p + 1 + Z.of_nat n + 1) by lia.
        assert (jr (p + 1 + Z.of_nat n) < jr (p + 1 + Z.of_nat n + 1))
          by (apply (Hrow i Hi); lia).
        lia. }
    specialize (H (Z.to_nat (q - p - 1))).
    replace (p + 1 + Z.of_nat (Z.to_nat (q - p - 1))) with q in H by lia.
    apply H. lia.
Qed.

Lemma nd_before_mono (rows cols : Z) (ir jr : array) :
  old_facts rows cols ir jr ->
  forall i, 0 <= i < rows ->
  0 <= nd_before ir jr i <= nd_before ir jr (i + 1) /\
  nd_before ir jr (i + 1) <= ir (i + 1) - ir 0.
Proof.
  intros V.
  assert (H : forall n : nat, Z.of_nat n < rows ->
            0 <= nd_before ir jr (Z.of_nat n)
              <= nd_before ir jr (Z.of_nat n + 1) /\
            nd_before ir jr (Z.of_nat n + 1) <= ir (Z.of_nat n + 1) - ir 0 /\
            nd_before ir jr (Z.of_nat n) <= ir (Z.of_nat n) - ir 0).
  { induction n as [|n IH]; intros Hn.
    - change (Z.of_nat 0) with 0 in *.
      rewrite (nd_before_step ir jr 0) by lia. rewrite nd_before_0.
      pose proof (old_mono _ _ _ _ V 0).
      pose proof (count_range_mono (ir 0) (fun q => negb (0 =? jr q)) (ir 0) (ir (0 + 1))).
      pose proof (count_range_le_len (ir 0) (fun q => negb (0 =? jr q)) (ir (0 + 1))).
      unfold nd_row. lia.
    - destruct IH as [I1 [I2 I3]]; [lia|].
      replace (Z.of_nat (S n)) with (Z.of_nat n + 1) by lia.
      rewrite (nd_before_step ir jr (Z.of_nat n + 1)) by lia.
      set (k := Z.of_nat n + 1) in *.
      pose proof (old_mono _ _ _ _ V k).
      pose proof (count_range_mono (ir k) (fun q => negb (k =? jr q)) (ir k) (ir (k + 1))).
      pose proof (count_range_le_len (ir k) (fun q => negb (k =? jr q)) (ir (k + 1))).
      unfold nd_row. lia. }
  intros i Hi. specialize (H (Z.to_nat i)).
  replace (Z.of_nat (Z.to_nat i)) with i in H by lia.
  destruct H as [H1 [H2 H3]]; [lia|]. lia.
Qed.

(** The first pass counts the entries off the diagonal. *)
Lemma count_ndnz_spec (rows cols : Z) (ir jr : array) :
  old_facts rows cols ir jr ->
  count_ndnz rows ir jr = Ok (nd_before ir jr rows).
Proof.
  intros V. unfold count_ndnz.
  destruct (for_range_total (fun k n => n = nd_before ir jr k)
              (fun i ndnz =>
                 for_range (ir i) (ir (i + 1))
                   (fun p ndnz => Ok (if negb (i =? jr p) then ndnz + 1 else ndnz))
                   ndnz)
              0 rows 0) as [n [Hn Hv]].
  - pose proof (old_rows _ _ _ _ V). lia.
  - reflexivity.
  - intros k n0 Hk ->.
    destruct (for_range_total (fun p n => n = nd_before ir jr k + nd_row ir jr k p)
                (fun p ndnz => Ok (if negb (k =? jr p) then ndnz + 1 else ndnz))
                (ir k) (ir (k + 1)) (nd_before ir jr k)) as [n [Hn Hv]].
    + apply (old_mono _ _ _ _ V). exact Hk.
    + unfold nd_row. rewrite count_range_empty by lia. lia.
    + intros p n1 Hp ->. eexists. split; [reflexivity|].
      unfold nd_row. rewrite count_range_step by lia.
      destruct (negb (k =? jr p)); lia.
    + exists n. split; [exact Hn|]. rewrite nd_before_step by lia. exact Hv.
  - rewrite Hn, Hv. reflexivity.
Qed.

Lemma scan_n_snoc (n : nat) (jr : array) (lo key : Z) :
  scan_n (S n) jr lo key =
  match scan_n n jr lo key with
  | Some q => Some q
  | None => if jr (lo + Z.of_nat n) =? key then Some (lo + Z.of_nat n) else None
  end.
Proof.
  revert lo. induction n as [|n IH]; intros lo.
  - simpl. replace (lo + 0) with lo by lia. reflexivity.
  - change (scan_n (S (S n)) jr lo key)
      with (if jr lo =? key then Some lo else scan_n (S n) jr (lo + 1) key).
    rewrite IH. simpl scan_n at 2.
    destruct (jr lo =? key); [reflexivity|].
    replace (lo + 1 + Z.of_nat n) with (lo + Z.of_nat (S n)) by lia. reflexivity.
Qed.

Lemma scan_n_Some (n : nat) (jr : array) (lo key q : Z) :
  scan_n n jr lo key = Some q -> lo <= q < lo + Z.of_nat n /\ jr q = key.
Proof.
  revert lo. induction n as [|n IH]; intros lo H; [discriminate|].
  simpl in H. destruct (jr lo =? key) eqn:E.
  - inversion H. subst q. apply Z.eqb_eq in E. split; [lia|exact E].
  - apply IH in H. split; [lia|apply H].
Qed.

Lemma scan_n_None (n : nat) (jr : array) (lo key : Z) :
  scan_n n jr lo key = None -> forall q, lo <= q < lo + Z.of_nat n -> jr q <> key.
Proof.
  revert lo. induction n as [|n IH]; intros lo H q Hq; [lia|].
  simpl in H. destruct (jr lo =? key) eqn:E; [discriminate|].
  apply Z.eqb_neq in E. destruct (Z.eq_dec q lo) as [->|Hne]; [exact E|].
  apply (IH (lo + 1) H). lia.
Qed.

(** The cell of the triples at a stored column. *)
Lemma old_yale_get_stored (rows cols : Z) (ir jr ar : array) (i q : Z) :
  old_facts rows cols ir jr -> 0 <= i < rows -> ir i <= q < ir (i + 1) ->
  old_yale_get ir jr ar i (jr q) = ar q.
Proof.
  intros V Hi Hq. unfold old_yale_get.
  destruct (scan_n _ jr (ir i) (jr q)) as [q'|] eqn:E.
  - apply scan_n_Some in E. destruct E as [Hq' Hk]. f_equal.
    destruct (Z.lt_trichotomy q' q) as [Hlt|[Heq|Hgt]]; [|exact Heq|].
    + pose proof (old_sorted _ _ _ _ V i Hi q' q). lia.
    + pose proof (old_sorted _ _ _ _ V i Hi q q'). lia.
  - exfalso. apply (scan_n_None _ _ _ _ E q); [lia|reflexivity].
Qed.

Lemma old_yale_get_absent (ir jr ar : array) (i j : Z) :
  (forall q, ir i <= q < ir (i + 1) -> jr q <> j) ->
  old_yale_get ir jr ar i j = 0.
Proof.
  intros H. unfold old_yale_get.
  destruct (scan_n _ jr (ir i) j) as [q'|] eqn:E; [|reflexivity].
  apply scan_n_Some in E. destruct E as [Hq' Hk]. exfalso. apply (H q'); [lia|exact Hk].
Qed.

Lemma to_dtype_0 (d : dtype_t) : to_dtype d 0 = 0.
Proof. destruct d; reflexivity. Qed.

Section Bridge.

Variable dt : dtype_t.
Variables rows cols : Z.
Variables ir jr ar : array.
Variable cap : Z.

Hypothesis V : old_facts rows cols ir jr.
Hypothesis Hcap : cap = rows + nd_before ir jr rows + 1.

Local Abbreviation slot := (old_slot rows ir jr).

Lemma nd_before_le (i j : Z) :
  0 <= i -> i <= j -> j <= rows -> nd_before ir jr i <= nd_before ir jr j.
Proof.
  intros Hi Hij Hj.
  assert (H : forall n : nat, i + Z.of_nat n <= rows ->
            nd_before ir jr i <= nd_before ir jr (i + Z.of_nat n)).
  { induction n as [|n IH]; intros Hn.
    - replace (i + Z.of_nat 0) with i by lia. lia.
    - replace (i + Z.of_nat (S n)) with (i + Z.of_nat n + 1) by lia.
      pose proof (nd_before_mono rows cols ir jr V (i + Z.of_nat n)). lia. }
  specialize (H (Z.to_nat (j - i))).
  replace (i + Z.of_nat (Z.to_nat (j - i))) with j in H by lia. apply H. lia.
Qed.

Lemma slot_bounds (i q : Z) :
  0 <= i < rows -> ir i <= q < ir (i + 1) -> jr q <> i ->
  rows + 1 + nd_before ir jr i <= slot i q /\
  slot i q < rows + 1 + nd_before ir jr (i + 1) /\
  slot i q < cap.
Proof.
  intros Hi Hq Hne. unfold old_slot, nd_row.
  pose proof (count_range_mono (ir i) (fun x => negb (i =? jr x)) q q).
  pose proof (count_range_strict (ir i) (fun x => negb (i =? jr x)) q (ir (i + 1))) as Hs.
  assert (Hq' : negb (i =? jr q) = true) by (apply negb_true_iff, Z.eqb_neq; lia).
  rewrite (nd_before_step ir jr i) by lia. unfold nd_row.
  pose proof (nd_before_le (i + 1) rows).
  pose proof (nd_before_step ir jr i). unfold nd_row in *. lia.
Qed.

(** The inner loop of the second pass over row [i]. *)
Lemma fill_entries_spec (i : Z) (ijl0 al0 : array) :
  0 <= i < rows ->
  exists ijl al,
    for_range (ir i) (ir (i + 1)) (fill_entry dt cap jr ar i)
      (rows + 1 + nd_before ir jr i, ijl0, al0)
      = Ok (rows + 1 + nd_before ir jr (i + 1), ijl, al) /\
    (forall q, ir i <= q < ir (i + 1) -> jr q <> i ->
       ijl (slot i q) = jr q /\ al (slot i q) = to_dtype dt (ar q)) /\
    (forall x, x < rows + 1 + nd_before ir jr i -> ijl x = ijl0 x) /\
    (forall x, x < rows + 1 + nd_before ir jr i -> x <> i -> al x = al0 x) /\
    al i = match scan_n (Z.to_nat (ir (i + 1) - ir i)) jr (ir i) i with
           | Some q => to_dtype dt (ar q)
           | None => al0 i
           end.
Proof.
  intros Hi.
  pose proof (old_mono _ _ _ _ V i Hi) as Hmono.
  pose proof (nd_before_mono rows cols ir jr V i Hi) as Hnd.
  pose proof (nd_before_le (i + 1) rows) as Hle.
  pose proof (old_rows _ _ _ _ V) as Hrows.
  destruct (for_range_total
    (fun p (st : Z * array * array) =>
       let '(pp, ijl, al) := st in
       pp = slot i p /\
       (forall q, ir i <= q < p -> jr q <> i ->
          ijl (slot i q) = jr q /\ al (slot i q) = to_dtype dt (ar q)) /\
       (forall x, x < rows + 1 + nd_before ir jr i -> ijl x = ijl0 x) /\
       (forall x, x < rows + 1 + nd_before ir jr i -> x <> i -> al x = al0 x) /\
       al i = match scan_n (Z.to_nat (p - ir i)) jr (ir i) i with
              | Some q => to_dtype dt (ar q)
              | None => al0 i
              end)
    (fill_entry dt cap jr ar i) (ir i) (ir (i + 1))
    (rows + 1 + nd_before ir jr i, ijl0, al0) Hmono)
    as [[[pp ijl] al] [Hrun [I1 [I2 [I3 [I4 I5]]]]]].
  - unfold old_slot, nd_row. rewrite count_range_empty by lia.
    split; [lia|]. split; [intros q Hq; lia|]. split; [reflexivity|].
    split; [reflexivity|]. replace (Z.to_nat (ir i - ir i)) with O by lia. reflexivity.
  - intros p [[pp ijl] al] Hp [I1 [I2 [I3 [I4 I5]]]].
    unfold fill_entry. subst pp.
    assert (Hscan : Z.to_nat (p + 1 - ir i) = S (Z.to_nat (p - ir i))) by lia.
    assert (Hpos : ir i + Z.of_nat (Z.to_nat (p - ir i)) = p) by lia.
    destruct (i =? jr p) eqn:E.
    + (* diagonal *)
      apply Z.eqb_eq in E. rewrite wr_ok by lia. simpl.
      eexists. split; [reflexivity|]. simpl.
      split.
      { unfold old_slot, nd_row. rewrite count_range_step by lia.
        rewrite <- E, Z.eqb_refl. simpl. lia. }
      split.
      { intros q Hq Hne. assert (q <> p) by (intros ->; lia).
        destruct (slot_bounds i q Hi) as [S1 _]; [lia|exact Hne|].
        rewrite upd_other by lia. apply I2; [lia|exact Hne]. }
      split; [exact I3|].
      split; [intros x Hx Hxi; rewrite upd_other by exact Hxi; apply I4; assumption|].
      rewrite upd_same, Hscan, scan_n_snoc, Hpos.
      destruct (scan_n _ jr (ir i) i) as [q|] eqn:Es.
      * exfalso. apply scan_n_Some in Es. destruct Es as [Hq Hk].
        pose proof (old_sorted _ _ _ _ V i Hi q p). lia.
      * rewrite <- E, Z.eqb_refl. reflexivity.
    + (* off the diagonal *)
      apply Z.eqb_neq in E.
      destruct (slot_bounds i p Hi) as [S1 [S2 S3]]; [lia|lia|].
      rewrite !wr_ok by lia. simpl.
      eexists. split; [reflexivity|]. simpl.
      split.
      { unfold old_slot, nd_row. rewrite count_range_step by lia.
        assert (Hn : negb (i =? jr p) = true) by (apply negb_true_iff, Z.eqb_neq; exact E).
        rewrite Hn. unfold old_slot, nd_row in *. lia. }
      split.
      { intros q Hq Hne. destruct (Z.eq_dec q p) as [->|Hqp].
        - rewrite !upd_same. split; reflexivity.
        - assert (Hlt : slot i q < slot i p).
          { unfold old_slot, nd_row.
            pose proof (count_range_strict (ir i) (fun x => negb (i =? jr x)) q p) as Hs.
            assert (Hq' : negb (i =? jr q) = true) by (apply negb_true_iff, Z.eqb_neq; lia).
            specialize (Hs ltac:(lia) ltac:(lia) Hq'). lia. }
          rewrite !upd_other by lia. apply I2; [lia|exact Hne]. }
      split; [intros x Hx; rewrite upd_other by lia; apply I3; exact Hx|].
      split; [intros x Hx Hxi; rewrite upd_other by lia; apply I4; assumption|].
      rewrite upd_other by lia. rewrite Hscan, scan_n_snoc, Hpos.
      destruct (scan_n _ jr (ir i) i) as [q|] eqn:Es; [exact I5|].
      assert (Hn : (jr p =? i) = false) by (apply Z.eqb_neq; lia).
      rewrite Hn. exact I5.
  - exists ijl, al. split.
    + rewrite Hrun. subst pp. unfold old_slot.
      rewrite (nd_before_step ir jr i) by lia. do 3 f_equal. lia.
    + split; [exact I2|]. split; [exact I3|]. split; [exact I4|exact I5].
Qed.

(** The outer loop of the second pass. *)
Lemma fill_rows_spec (it : itype_t) (ijl0 al0 : array) :
  cap < IMOD it ->
  (forall i, 0 <= i < rows -> al0 i = 0) ->
  exists ijl al,
    for_range 0 rows (fill_row it dt cap ir jr ar)
      (ir 0, (rows + 1, ijl0, al0))
      = Ok (ir rows, (rows + 1 + nd_before ir jr rows, ijl, al)) /\
    (forall i, 0 <= i < rows -> ijl i = rows + 1 + nd_before ir jr i) /\
    (forall i q, 0 <= i < rows -> ir i <= q < ir (i + 1) -> jr q <> i ->
       ijl (slot i q) = jr q /\ al (slot i q) = to_dtype dt (ar q)) /\
    (forall i, 0 <= i < rows -> al i = to_dtype dt (old_yale_get ir jr ar i i)).
Proof.
  intros Hit Hzero.
  pose proof (old_rows _ _ _ _ V) as Hrows.
  destruct (for_range_total
    (fun k (st : Z * (Z * array * array)) =>
       let '(p, (pp, ijl, al)) := st in
       p = ir k /\ pp = rows + 1 + nd_before ir jr k /\
       (forall i, 0 <= i < k -> ijl i = rows + 1 + nd_before ir jr i) /\
       (forall i q, 0 <= i < k -> ir i <= q < ir (i + 1) -> jr q <> i ->
          ijl (slot i q) = jr q /\ al (slot i q) = to_dtype dt (ar q)) /\
       (forall i, 0 <= i < rows ->
          al i = if i <? k then to_dtype dt (old_yale_get ir jr ar i i) else 0))
    (fill_row it dt cap ir jr ar) 0 rows (ir 0, (rows + 1, ijl0, al0)))
    as [[p [[pp ijl] al]] [Hrun [I1 [I2 [I3 [I4 I5]]]]]].
  - lia.
  - split; [reflexivity|]. split; [rewrite nd_before_0; lia|].
    split; [intros i Hi; lia|]. split; [intros i q Hi; lia|].
    intros i Hi. destruct (i <? 0) eqn:E; [apply Z.ltb_lt in E; lia|].
    apply Hzero. exact Hi.
  - intros k [p [[pp ijl] al]] Hk [I1 [I2 [I3 [I4 I5]]]]. subst p pp.
    pose proof (nd_before_mono rows cols ir jr V k Hk) as Hnd.
    pose proof (nd_before_le k rows) as Hle.
    pose proof (nd_before_le (k + 1) rows) as Hle1.
    pose proof (old_mono _ _ _ _ V k Hk) as Hmono.
    unfold fill_row.
    rewrite to_itype_small by lia. rewrite wr_ok by lia. simpl.
    destruct (fill_entries_spec k (upd ijl k (rows + 1 + nd_before ir jr k)) al Hk)
      as [ijl' [al' [Hrun [J1 [J2 [J3 J4]]]]]].
    rewrite Hrun. simpl. eexists. split; [reflexivity|]. simpl.
    split; [lia|]. split; [reflexivity|].
    split.
    { intros i Hi. rewrite J2 by lia. destruct (Z.eq_dec i k) as [->|Hne].
      - apply upd_same.
      - rewrite upd_other by exact Hne. apply I3. lia. }
    split.
    { intros i q Hi Hq Hne. destruct (Z.eq_dec i k) as [->|Hik].
      - apply J1; assumption.
      - assert (Hi' : 0 <= i < rows) by lia.
        destruct (slot_bounds i q Hi' Hq Hne) as [S1 [S2 _]].
        pose proof (nd_before_le (i + 1) k).
        pose proof (nd_before_mono rows cols ir jr V i Hi').
        rewrite J2, J3 by lia. rewrite upd_other by lia.
        apply I4; [lia|exact Hq|exact Hne]. }
    intros i Hi. destruct (Z.eq_dec i k) as [->|Hik].
    + rewrite J4. destruct (k <? k + 1) eqn:E; [|apply Z.ltb_ge in E; lia].
      unfold old_yale_get.
      destruct (scan_n _ jr (ir k) k); [reflexivity|].
      rewrite to_dtype_0, (I5 k Hi).
      destruct (k <? k) eqn:E'; [apply Z.ltb_lt in E'; lia|reflexivity].
    + rewrite J3 by lia. rewrite (I5 i Hi).
      destruct (i <? k) eqn:E1; destruct (i <? k + 1) eqn:E2; try reflexivity.
      * apply Z.ltb_lt in E1. apply Z.ltb_ge in E2. lia.
      * apply Z.ltb_ge in E1. apply Z.ltb_lt in E2. lia.
  - subst p pp. exists ijl, al. split; [exact Hrun|].
    split; [exact I3|]. split; [exact I4|].
    intros i Hi. rewrite (I5 i Hi).
    destruct (i <? rows) eqn:E; [reflexivity|]. apply Z.ltb_ge in E. lia.
Qed.

(** create_from_old_yale on a valid input: the layout of the storage it
    returns. *)
Lemma create_from_old_yale_layout (itype_by_shape : Z -> Z -> itype_t)
  (junk_ija junk_a : array) :
  cap < IMOD (itype_by_shape rows cols) ->
  exists s,
    create_from_old_yale itype_by_shape junk_ija junk_a dt rows cols ir jr ar = Ok s /\
    itype s = itype_by_shape rows cols /\
    bridge_layout dt rows cols ir jr ar s.
Proof.
  intros Hit.
  pose proof (old_rows _ _ _ _ V) as Hrows.
  pose proof (nd_before_le 0 rows) as Hnd. rewrite nd_before_0 in Hnd.
  unfold create_from_old_yale.
  rewrite (count_ndnz_spec rows cols ir jr V). simpl bind.
  assert (Hitc : (if itype_rank (itype_by_shape rows cols) <? 0
                  then UINT8 else itype_by_shape rows cols)
                 = itype_by_shape rows cols)
    by (destruct (itype_by_shape rows cols); reflexivity).
  rewrite !Hitc. rewrite <- !Hcap.
  destruct (for_range_total
              (fun k (m : array) => forall i, 0 <= i < k -> m i = 0)
              (fun index al => wr cap al index 0) 0 rows junk_a)
    as [al0 [Hal0 Hz]].
  - lia.
  - intros i Hi. lia.
  - intros k m Hk I. rewrite wr_ok by lia. eexists. split; [reflexivity|].
    intros i Hi. destruct (Z.eq_dec i k) as [->|Hne].
    + apply upd_same.
    + rewrite upd_other by exact Hne. apply I. lia.
  - rewrite Hal0. simpl bind.
    destruct (fill_rows_spec (itype_by_shape rows cols) junk_ija al0 Hit Hz)
      as [ijl [al [Hrun [F1 [F2 F3]]]]].
    rewrite Hrun. simpl bind.
    rewrite to_itype_small by lia. rewrite !wr_ok by lia. simpl bind.
    eexists. split; [reflexivity|]. unfold bridge_layout. simpl.
    split; [reflexivity|]. split; [reflexivity|]. split; [reflexivity|].
    split; [exact Hcap|]. split; [reflexivity|]. split; [reflexivity|].
    split.
    { intros i Hi. destruct (Z.eq_dec i rows) as [->|Hne].
      - apply upd_same.
      - rewrite upd_other by exact Hne. apply F1. lia. }
    split.
    { intros i q Hi Hq Hne.
      destruct (slot_bounds i q Hi Hq Hne) as [S1 _].
      pose proof (nd_before_le 0 i). rewrite nd_before_0 in H.
      rewrite !upd_other by lia. apply F2; assumption. }
    split; [intros i Hi; rewrite upd_other by lia; apply F3; exact Hi|].
    apply upd_same.
Qed.

(** Every position of a row of the built storage is the slot of an entry
    of that row of the triples. *)
Lemma slot_surj (i p : Z) :
  0 <= i < rows ->
  rows + 1 + nd_before ir jr i <= p < rows + 1 + nd_before ir jr (i + 1) ->
  exists q, ir i <= q < ir (i + 1) /\ jr q <> i /\ slot i q = p.
Proof.
  intros Hi Hp. rewrite (nd_before_step ir jr i) in Hp by lia. unfold nd_row in Hp.
  destruct (count_range_find (ir i) (ir (i + 1)) (fun x => negb (i =? jr x))
              (p - (rows + 1 + nd_before ir jr i))) as [q [Hq [HP Hc]]]; [lia|].
  exists q. split; [exact Hq|]. split.
  - apply negb_true_iff, Z.eqb_neq in HP. lia.
  - unfold old_slot, nd_row. lia.
Qed.

Lemma slot_lt_inv (i q q' : Z) :
  ir i <= q -> ir i <= q' -> slot i q < slot i q' -> q < q'.
Proof.
  intros Hq Hq' Hlt. destruct (Z.lt_ge_cases q q') as [H|H]; [exact H|].
  pose proof (count_range_mono (ir i) (fun x => negb (i =? jr x)) q' q Hq' H).
  unfold old_slot, nd_row in Hlt. lia.
Qed.

(** The built storage is well formed. *)
Lemma bridge_layout_wf (s : YALE_STORAGE) :
  bridge_layout dt rows cols ir jr ar s ->
  cap < IMOD (itype s) -> cols < IMOD (itype s) ->
  wf_facts s.
Proof.
  intros [L0 [L1 [Lc [Ld [Ln [Lp [Le [Lg Lz]]]]]]]] Hci Hcc.
  pose proof (old_rows _ _ _ _ V) as Hrows.
  pose proof (old_cols _ _ _ _ V) as Hcols.
  constructor; rewrite ?L0, ?L1, ?Lc; try lia.
  - rewrite Lp, nd_before_0 by lia. lia.
  - intros i Hi. rewrite !Lp by lia.
    pose proof (nd_before_mono rows cols ir jr V i Hi). lia.
  - intros i p Hi Hp. rewrite !Lp in Hp by lia.
    destruct (slot_surj i p Hi Hp) as [q [Hq [Hne <-]]].
    destruct (Le i q Hi Hq Hne) as [-> _].
    split; [apply (old_col _ _ _ _ V i q Hi Hq)|exact Hne].
  - intros i p Hi Hp1 Hp2. rewrite !Lp in Hp1, Hp2 by lia.
    pose proof (nd_before_mono rows cols ir jr V i Hi) as Hnd.
    destruct (slot_surj i p Hi) as [q [Hq [Hne Hs]]]; [lia|].
    destruct (slot_surj i (p + 1) Hi) as [q' [Hq' [Hne' Hs']]]; [lia|].
    rewrite <- Hs' at 1. rewrite <- Hs.
    destruct (Le i q Hi Hq Hne) as [-> _].
    destruct (Le i q' Hi Hq' Hne') as [-> _].
    apply (old_sorted _ _ _ _ V i Hi); try lia.
    apply (slot_lt_inv i); lia.
  - rewrite Lp by lia. lia.
Qed.

(** Reading the built storage back: every cell of the shape holds the value
    the triples give it, converted to the kind of the storage. *)
Lemma bridge_layout_read (fuel : nat) (s : YALE_STORAGE) (i j : Z) :
  bridge_layout dt rows cols ir jr ar s ->
  cap < IMOD (itype s) -> cols < IMOD (itype s) ->
  cap < 2 ^ 31 -> cap < Z.of_nat fuel ->
  0 <= i < rows -> 0 <= j < cols ->
  ref_value fuel s (mkSlice i j true) = Ok (to_dtype dt (old_yale_get ir jr ar i j)).
Proof.
  intros L Hci Hcc Hint Hfuel Hi Hj.
  pose proof (bridge_layout_wf s L Hci Hcc) as W.
  destruct L as [L0 [L1 [Lc [Ld [Ln [Lp [Le [Lg Lz]]]]]]]].
  destruct (ref_slot_cases fuel s i j W) as [pos [Href [Hpos Hcases]]];
    unfold positions_fit_int; rewrite ?L0, ?L1, ?Lc; try lia.
  unfold ref_value. rewrite Href. simpl. unfold rd_a. rewrite rd_ok by exact Hpos.
  f_equal.
  destruct Hcases as [[He ->]|[[Hne [Hp Hk]]|[Hne [-> Hno]]]].
  - subst j. apply Lg. exact Hi.
  - rewrite !Lp in Hp by lia.
    destruct (slot_surj i pos Hi Hp) as [q [Hq [Hnq Hs]]].
    destruct (Le i q Hi Hq Hnq) as [E1 E2]. rewrite Hs in E1, E2.
    rewrite E2. f_equal. rewrite <- Hk, E1. symmetry.
    apply (old_yale_get_stored rows cols); assumption.
  - rewrite L0, Lz. rewrite old_yale_get_absent; [symmetry; apply to_dtype_0|].
    intros q Hq Hjq. 
    assert (Hnq : jr q <> i) by lia.
    destruct (Le i q Hi Hq Hnq) as [E1 _].
    apply (Hno (slot i q)). unfold stored_at.
    destruct (slot_bounds i q Hi Hq Hnq) as [S1 [S2 _]].
    rewrite !Lp by lia. split; [lia|]. rewrite E1. exact Hjq.
Qed.

End Bridge.

Lemma old_ir_le (rows cols : Z) (ir jr : array) :
  old_facts rows cols ir jr ->
  forall i j, 0 <= i -> i <= j -> j <= rows -> ir i <= ir j.
Proof.
  intros V i j Hi Hij Hj.
  assert (H : forall n : nat, i + Z.of_nat n <= rows -> ir i <= ir (i + Z.of_nat n)).
  { induction n as [|n IH]; intros Hn.
    - replace (i + Z.of_nat 0) with i by lia. lia.
    - replace (i + Z.of_nat (S n)) with (i + Z.of_nat n + 1) by lia.
      pose proof (old_mono _ _ _ _ V (i + Z.of_nat n)). lia. }
  specialize (H (Z.to_nat (j - i))).
  replace (i + Z.of_nat (Z.to_nat (j - i))) with j in H by lia. apply H. lia.
Qed.


(** ** Row Store: resize and insertion *)

Lemma for_n_no_raise {St : Type} (body : Z -> St -> outcome St) (n : nat)
  (i : Z) (st : St) (e : exn) :
  (forall k st0, body k st0 <> Raise e) -> for_n n i body st <> Raise e.
Proof.
  intros Hb. revert i st. induction n as [|n IH]; intros i st; [discriminate|].
  simpl. destruct (body i st) as [st1| e1 | |] eqn:E; simpl; try discriminate.
  - apply IH.
  - intros H. inversion H. subst e1. apply (Hb i st E).
Qed.

Lemma copy_slot_no_raise (src : YALE_STORAGE) (dst_len off' : Z)
  (struct_only : bool) (k : Z) (st : array * array) (e : exn) :
  copy_slot src dst_len off' struct_only k st <> Raise e.
Proof.
  unfold copy_slot, rd_ija, rd_a, rd, wr. destruct st as [mi ma].
  destruct (in_bounds (capacity src) k); simpl; [|discriminate].
  destruct (in_bounds dst_len (k + off')); simpl; [|discriminate].
  destruct struct_only; simpl; discriminate.
Qed.

(** The outcome of vector_insert_resize: it raises the resource-exhaustion error exactly when
    the grown capacity and the needed size both exceed the maximum; when it
    returns, the new capacity is the smaller of the grown capacity and the
    maximum, and never less than the needed size. *)
Theorem vector_insert_resize_outcome (grow : Z -> Z) (junk_ija junk_a : array)
  (s : YALE_STORAGE) (current_size pos n : Z) (struct_only : bool) :
  (vector_insert_resize grow junk_ija junk_a s current_size pos n struct_only
     = Raise NoMemError
   <-> max_size s < grow (capacity s) /\ max_size s < to_size_t (current_size + n)) /\
  (forall c s',
     vector_insert_resize grow junk_ija junk_a s current_size pos n struct_only
       = Ok (c, s') ->
     c = "i"%char /\
     capacity s' = Z.max (Z.min (max_size s) (grow (capacity s)))
                         (to_size_t (current_size + n))).
Proof.
  unfold vector_insert_resize.
  destruct (grow (capacity s) >? max_size s) eqn:Eg.
  - assert (Hg : max_size s < grow (capacity s))
      by (destruct (Z.gtb_spec (grow (capacity s)) (max_size s)); [lia|discriminate]).
    destruct (to_size_t (current_size + n) >? max_size s) eqn:En.
    + assert (Hn : max_size s < to_size_t (current_size + n))
        by (destruct (Z.gtb_spec (to_size_t (current_size + n)) (max_size s)); [lia|discriminate]).
      simpl. split; [split; [intros _; split; assumption|reflexivity]|].
      intros c s' H. discriminate.
    + assert (Hn : to_size_t (current_size + n) <= max_size s)
        by (destruct (Z.gtb_spec (to_size_t (current_size + n)) (max_size s)); [discriminate|lia]).
      simpl bind. split.
      * split; [|lia]. intros H. exfalso. revert H.
        destruct (for_range 0 pos _ _) as [st| e | |] eqn:E1; simpl; try discriminate.
        -- destruct (for_range pos _ _ st) as [st2| e | |] eqn:E2; simpl; try discriminate.
           intros H. inversion H. subst e.
           apply (for_n_no_raise _ _ _ _ NoMemError) in E2; [exact E2|].
           intros k st0. apply copy_slot_no_raise.
        -- intros H. inversion H. subst e.
           apply (for_n_no_raise _ _ _ _ NoMemError) in E1; [exact E1|].
           intros k st0. apply copy_slot_no_raise.
      * intros c s' H. bind_inv H as st Hx. bind_inv H as st2 Hx2.
        inversion H. simpl. split; [reflexivity|].
        destruct (max_size s <? to_size_t (current_size + n)) eqn:E;
          [apply Z.ltb_lt in E|apply Z.ltb_ge in E]; lia.
  - assert (Hg : grow (capacity s) <= max_size s)
      by (destruct (Z.gtb_spec (grow (capacity s)) (max_size s)); [discriminate|lia]).
    simpl bind. split.
    + split; [|lia]. intros H. exfalso. revert H.
      destruct (for_range 0 pos _ _) as [st| e | |] eqn:E1; simpl; try discriminate.
      * destruct (for_range pos _ _ st) as [st2| e | |] eqn:E2; simpl; try discriminate.
        intros H. inversion H. subst e.
        apply (for_n_no_raise _ _ _ _ NoMemError) in E2; [exact E2|].
        intros k st0. apply copy_slot_no_raise.
      * intros H. inversion H. subst e.
        apply (for_n_no_raise _ _ _ _ NoMemError) in E1; [exact E1|].
        intros k st0. apply copy_slot_no_raise.
    + intros c s' H. bind_inv H as st Hx. bind_inv H as st2 Hx2.
      inversion H. simpl. split; [reflexivity|].
      destruct (grow (capacity s) <? to_size_t (current_size + n)) eqn:E;
        [apply Z.ltb_lt in E|apply Z.ltb_ge in E]; lia.
Qed.

(** The tail shift: the slots [pos, size) move up by [n], the rest stays. *)
Lemma shift_loop_spec (len size n pos : Z) (struct_only : bool) (mi ma : array) :
  0 <= n -> 0 <= pos <= size -> size + n <= len ->
  exists mi' ma',
    for_range 0 (size - pos) (shift_slot len size n struct_only) (mi, ma)
      = Ok (mi', ma') /\
    (forall q, pos <= q < size -> mi' (q + n) = mi q) /\
    (forall x, x < pos + n \/ size + n <= x -> mi' x = mi x) /\
    (struct_only = true -> forall x, ma' x = ma x) /\
    (struct_only = false ->
       (forall q, pos <= q < size -> ma' (q + n) = ma q) /\
       (forall x, x < pos + n \/ size + n <= x -> ma' x = ma x)).
Proof.
  intros Hn Hpos Hlen.
  destruct (for_range_total
    (fun k (st : array * array) =>
       (forall q, size - k <= q < size -> fst st (q + n) = mi q) /\
       (forall x, x < size + n - k \/ size + n <= x -> fst st x = mi x) /\
       (struct_only = true -> forall x, snd st x = ma x) /\
       (struct_only = false ->
          (forall q, size - k <= q < size -> snd st (q + n) = ma q) /\
          (forall x, x < size + n - k \/ size + n <= x -> snd st x = ma x)))
    (shift_slot len size n struct_only) 0 (size - pos) (mi, ma))
    as [[mi' ma'] [Hrun [I1 [I2 [I3 I4]]]]].
  - lia.
  - simpl. split; [intros q Hq; lia|]. split; [reflexivity|].
    split; [reflexivity|]. intros _. split; [intros q Hq; lia|reflexivity].
  - intros k [m1 m2] Hk [I1 [I2 [I3 I4]]]. simpl in *.
    unfold shift_slot. rewrite rd_ok by lia. simpl bind. rewrite wr_ok by lia.
    simpl bind. rewrite I2 by lia.
    destruct struct_only.
    + eexists. split; [reflexivity|]. simpl.
      split.
      { intros q Hq. destruct (Z.eq_dec q (size - 1 - k)) as [->|Hne].
        - replace (size - 1 - k + n) with (size + n - 1 - k) by lia. apply upd_same.
        - rewrite upd_other by lia. apply I1. lia. }
      split; [intros x Hx; rewrite upd_other by lia; apply I2; lia|].
      split; [exact I3|discriminate].
    + rewrite rd_ok by lia. simpl bind. rewrite wr_ok by lia. simpl bind.
      destruct (I4 eq_refl) as [I5 I6]. rewrite I6 by lia.
      eexists. split; [reflexivity|]. simpl.
      split.
      { intros q Hq. destruct (Z.eq_dec q (size - 1 - k)) as [->|Hne].
        - replace (size - 1 - k + n) with (size + n - 1 - k) by lia. apply upd_same.
        - rewrite upd_other by lia. apply I1. lia. }
      split; [intros x Hx; rewrite upd_other by lia; apply I2; lia|].
      split; [discriminate|]. intros _. split.
      { intros q Hq. destruct (Z.eq_dec q (size - 1 - k)) as [->|Hne].
        - replace (size - 1 - k + n) with (size + n - 1 - k) by lia. apply upd_same.
        - rewrite upd_other by lia. apply I5. lia. }
      intros x Hx. rewrite upd_other by lia. apply I6. lia.
  - simpl in *. exists mi', ma'. split; [exact Hrun|].
    split; [intros q Hq; apply I1; lia|].
    split; [intros x Hx; apply I2; lia|].
    split; [exact I3|]. intros Hs. destruct (I4 Hs) as [I5 I6].
    split; [intros q Hq; apply I5; lia|intros x Hx; apply I6; lia].
Qed.

(** Writing the new keys and values into the gap. *)
Lemma put_loop_spec (it : itype_t) (len pos n : Z) (j val : array)
  (struct_only : bool) (mi ma : array) :
  0 <= n -> 0 <= pos -> pos + n <= len ->
  exists mi' ma',
    for_range 0 n (put_slot it len pos j val struct_only) (mi, ma) = Ok (mi', ma') /\
    (forall i, 0 <= i < n -> mi' (pos + i) = to_itype it (j i)) /\
    (forall x, x < pos \/ pos + n <= x -> mi' x = mi x) /\
    (struct_only = true -> forall x, ma' x = ma x) /\
    (struct_only = false ->
       (forall i, 0 <= i < n -> ma' (pos + i) = val i) /\
       (forall x, x < pos \/ pos + n <= x -> ma' x = ma x)).
Proof.
  intros Hn Hpos Hlen.
  destruct (for_range_total
    (fun k (st : array * array) =>
       (forall i, 0 <= i < k -> fst st (pos + i) = to_itype it (j i)) /\
       (forall x, x < pos \/ pos + k <= x -> fst st x = mi x) /\
       (struct_only = true -> forall x, snd st x = ma x) /\
       (struct_only = false ->
          (forall i, 0 <= i < k -> snd st (pos + i) = val i) /\
          (forall x, x < pos \/ pos + k <= x -> snd st x = ma x)))
    (put_slot it len pos j val struct_only) 0 n (mi, ma))
    as [[mi' ma'] [Hrun [I1 [I2 [I3 I4]]]]].
  - lia.
  - simpl. split; [intros i Hi; lia|]. split; [reflexivity|].
    split; [reflexivity|]. intros _. split; [intros i Hi; lia|reflexivity].
  - intros k [m1 m2] Hk [I1 [I2 [I3 I4]]]. simpl in *.
    unfold put_slot. rewrite wr_ok by lia. simpl bind.
    destruct struct_only.
    + eexists. split; [reflexivity|]. simpl.
      split.
      { intros i Hi. destruct (Z.eq_dec i k) as [->|Hne].
        - apply upd_same.
        - rewrite upd_other by lia. apply I1. lia. }
      split; [intros x Hx; rewrite upd_other by lia; apply I2; lia|].
      split; [exact I3|discriminate].
    + rewrite wr_ok by lia. simpl bind.
      destruct (I4 eq_refl) as [I5 I6].
      eexists. split; [reflexivity|]. simpl.
      split.
      { intros i Hi. destruct (Z.eq_dec i k) as [->|Hne].
        - apply upd_same.
        - rewrite upd_other by lia. apply I1. lia. }
      split; [intros x Hx; rewrite upd_other by lia; apply I2; lia|].
      split; [discriminate|]. intros _. split.
      { intros i Hi. destruct (Z.eq_dec i k) as [->|Hne].
        - apply upd_same.
        - rewrite upd_other by lia. apply I5. lia. }
      intros x Hx. rewrite upd_other by lia. apply I6. lia.
  - simpl in *. exists mi', ma'. split; [exact Hrun|].
    split; [exact I1|]. split; [exact I2|]. split; [exact I3|exact I4].
Qed.

(** vector_insert without a resize. *)
Lemma vector_insert_shift (grow : Z -> Z) (junk_ija junk_a : array)
  (s : YALE_STORAGE) (pos : Z) (j val : array) (n : Z) (struct_only : bool) :
  0 <= n ->
  0 <= shape0 s < capacity s ->
  shape0 s <= pos <= ija s (shape0 s) ->
  ija s (shape0 s) + n <= capacity s ->
  capacity s < 2 ^ 63 ->
  exists s',
    vector_insert grow junk_ija junk_a s pos j val n struct_only = Ok ("i"%char, s') /\
    capacity s' = capacity s /\ shape0 s' = shape0 s /\ shape1 s' = shape1 s /\
    itype s' = itype s /\ dtype s' = dtype s /\ ndnz s' = ndnz s /\
    (forall q, q < pos \/ ija s (shape0 s) + n <= q -> ija s' q = ija s q) /\
    (forall q, pos <= q < ija s (shape0 s) -> ija s' (q + n) = ija s q) /\
    (forall i, 0 <= i < n -> ija s' (pos + i) = to_itype (itype s) (j i)) /\
    (struct_only = true -> forall q, a s' q = a s q) /\
    (struct_only = false ->
       (forall q, q < pos \/ ija s (shape0 s) + n <= q -> a s' q = a s q) /\
       (forall q, pos <= q < ija s (shape0 s) -> a s' (q + n) = a s q) /\
       (forall i, 0 <= i < n -> a s' (pos + i) = val i)).
Proof.
  intros Hn Hrows Hpos Hroom Hcap.
  set (size := ija s (shape0 s)) in *.
  unfold vector_insert.
  destruct (pos <? shape0 s) eqn:E; [apply Z.ltb_lt in E; lia|].
  unfold get_size, rd_ija. rewrite rd_ok by lia. simpl bind. fold size.
  rewrite !to_size_t_small by lia.
  destruct (size + n >? capacity s) eqn:Eg.
  { exfalso. destruct (Z.gtb_spec (size + n) (capacity s)); [lia|discriminate]. }
  destruct (shift_loop_spec (capacity s) size n pos struct_only (ija s) (a s))
    as [mi1 [ma1 [Hshift [S1 [S2 [S3 S4]]]]]]; try lia.
  rewrite Hshift. simpl bind. simpl fst. simpl snd.
  unfold set_a, set_ija. simpl.
  destruct (put_loop_spec (itype s) (capacity s) pos n j val struct_only mi1 ma1)
    as [mi2 [ma2 [Hput [P1 [P2 [P3 P4]]]]]]; try lia.
  rewrite Hput. simpl bind. eexists. split; [reflexivity|]. simpl.
  repeat (split; [reflexivity|]).
  split; [intros q Hq; rewrite P2 by lia; apply S2; lia|].
  split.
  { intros q Hq. rewrite P2 by lia. apply S1. lia. }
  split; [exact P1|].
  split.
  { intros Hs q. rewrite (P3 Hs). apply (S3 Hs). }
  intros Hs. destruct (P4 Hs) as [P5 P6]. destruct (S4 Hs) as [S5 S6].
  split; [intros q Hq; rewrite P6 by lia; apply S6; lia|].
  split; [intros q Hq; rewrite P6 by lia; apply S5; lia|exact P5].
Qed.

(** Insertion when the capacity suffices: the slots before [pos] stay, the
    slots [pos, size) move up by [n], the gap receives the keys and, unless
    [struct_only], the values; nothing else changes. *)
Theorem vector_insert_in_place (grow : Z -> Z) (junk_ija junk_a : array)
  (s : YALE_STORAGE) (pos : Z) (j val : array) (n : Z) (struct_only : bool) :
  0 <= n ->
  0 <= shape0 s < capacity s ->
  shape0 s <= pos <= ija s (shape0 s) ->
  ija s (shape0 s) + n <= capacity s ->
  capacity s < 2 ^ 63 ->
  exists s',
    vector_insert grow junk_ija junk_a s pos j val n struct_only = Ok ("i"%char, s') /\
    capacity s' = capacity s /\ shape0 s' = shape0 s /\ shape1 s' = shape1 s /\
    itype s' = itype s /\ dtype s' = dtype s /\ ndnz s' = ndnz s /\
    (forall q, q < pos \/ ija s (shape0 s) + n <= q -> ija s' q = ija s q) /\
    (forall q, pos <= q < ija s (shape0 s) -> ija s' (q + n) = ija s q) /\
    (forall i, 0 <= i < n -> ija s' (pos + i) = to_itype (itype s) (j i)) /\
    (struct_only = true -> forall q, a s' q = a s q) /\
    (struct_only = false ->
       (forall q, q < pos \/ ija s (shape0 s) + n <= q -> a s' q = a s q) /\
       (forall q, pos <= q < ija s (shape0 s) -> a s' (q + n) = a s q) /\
       (forall i, 0 <= i < n -> a s' (pos + i) = val i)).
Proof. apply vector_insert_shift. Qed.

Lemma facts_well_formed (s : YALE_STORAGE) :
  wf_facts s -> well_formed s = true.
Proof.
  intros W. unfold well_formed. rewrite !andb_true_iff, all_range_spec.
  pose proof (wf_rows s W). pose proof (wf_cols s W). pose proof (wf_ija0 s W).
  pose proof (wf_size s W). pose proof (wf_cap_itype s W).
  pose proof (wf_cols_itype s W).
  repeat split; try (apply Z.leb_le; lia); try (apply Z.ltb_lt; lia);
    try (apply Z.eqb_eq; lia).
  intros i Hi. unfold row_ok. rewrite andb_true_iff, all_range_spec.
  pose proof (wf_mono s W i Hi). split; [apply Z.leb_le; lia|].
  intros p Hp. destruct (wf_col s W i p Hi Hp) as [C1 C2].
  rewrite !andb_true_iff, orb_true_iff, negb_true_iff.
  repeat split; try (apply Z.leb_le; lia); try (apply Z.ltb_lt; lia);
    try (apply Z.eqb_neq; lia).
  destruct (Z.eq_dec (p + 1) (ija s (i + 1))) as [He|Hne].
  - left. apply Z.eqb_eq. exact He.
  - right. apply Z.ltb_lt. apply (wf_next s W i p Hi); lia.
Qed.

(** A storage whose IJA is that of a well-formed one with the column [col]
    put at [pos], the later slots moved up by one and the later row
    pointers increased by one is well formed, when [pos] is where [col]
    goes in the order of row [row]. *)
Lemma inserted_wf (s s' : YALE_STORAGE) (row col pos : Z) :
  wf_facts s ->
  0 <= row < shape0 s -> 0 <= col < shape1 s -> col <> row ->
  ija s row <= pos <= ija s (row + 1) ->
  (forall p, ija s row <= p < pos -> ija s p < col) ->
  (forall p, pos <= p < ija s (row + 1) -> col < ija s p) ->
  shape0 s' = shape0 s -> shape1 s' = shape1 s ->
  capacity s' = capacity s -> itype s' = itype s ->
  ija s (shape0 s) + 1 <= capacity s ->
  (forall k, 0 <= k <= row -> ija s' k = ija s k) ->
  (forall k, row < k <= shape0 s -> ija s' k = ija s k + 1) ->
  (forall q, shape0 s < q < pos -> ija s' q = ija s q) ->
  ija s' pos = col ->
  (forall q, pos < q <= ija s (shape0 s) -> ija s' q = ija s (q - 1)) ->
  wf_facts s'.
Proof.
  intros W Hrow Hcol Hne Hpos Hbefore Hafter E0 E1 Ec Ei Hroom F1 F2 F3 F4 F5.
  pose proof (wf_rows s W) as Hrows. pose proof (wf_cols s W) as Hcols.
  pose proof (wf_mono_le s W) as Hmono.
  assert (Hptr : forall k, 0 <= k <= shape0 s ->
            ija s' k = if k <=? row then ija s k else ija s k + 1).
  { intros k Hk. destruct (k <=? row) eqn:E.
    - apply Z.leb_le in E. apply F1. lia.
    - apply Z.leb_gt in E. apply F2. lia. }
  assert (Hlow : forall k, 0 <= k <= shape0 s -> shape0 s + 1 <= ija s k <= ija s (shape0 s)).
  { intros k Hk. pose proof (Hmono 0 k). pose proof (Hmono k (shape0 s)).
    pose proof (wf_ija0 s W). lia. }
  constructor; rewrite ?E0, ?E1, ?Ec, ?Ei.
  - exact Hrows.
  - exact Hcols.
  - rewrite F1 by lia. apply (wf_ija0 s W).
  - intros i Hi. rewrite !Hptr by lia. pose proof (wf_mono s W i Hi).
    destruct (i <=? row) eqn:A; destruct (i + 1 <=? row) eqn:B;
      try apply Z.leb_le in A; try apply Z.leb_le in B;
      try apply Z.leb_gt in A; try apply Z.leb_gt in B; lia.
  - intros i p Hi Hp. rewrite !Hptr in Hp by lia.
    pose proof (Hlow i). pose proof (Hlow (i + 1)).
    pose proof (Hmono (i + 1) row). pose proof (Hmono (row + 1) i).
    destruct (i <=? row) eqn:A; destruct (i + 1 <=? row) eqn:B;
      try apply Z.leb_le in A; try apply Z.leb_le in B;
      try apply Z.leb_gt in A; try apply Z.leb_gt in B; try lia.
    + rewrite F3 by lia. apply (wf_col s W i p Hi). lia.
    + assert (i = row) by lia. subst i.
      destruct (Z.lt_trichotomy p pos) as [Hlt|[Heq|Hgt]].
      * rewrite F3 by lia. apply (wf_col s W row p Hi). lia.
      * subst p. rewrite F4. lia.
      * rewrite F5 by lia. apply (wf_col s W row (p - 1) Hi). lia.
    + rewrite F5 by lia. apply (wf_col s W i (p - 1) Hi). lia.
  - intros i p Hi Hp1 Hp2. rewrite !Hptr in Hp1, Hp2 by lia.
    pose proof (Hlow i). pose proof (Hlow (i + 1)).
    pose proof (Hmono (i + 1) row). pose proof (Hmono (row + 1) i).
    destruct (i <=? row) eqn:A; destruct (i + 1 <=? row) eqn:B;
      try apply Z.leb_le in A; try apply Z.leb_le in B;
      try apply Z.leb_gt in A; try apply Z.leb_gt in B; try lia.
    + rewrite !F3 by lia. apply (wf_next s W i p Hi); lia.
    + assert (i = row) by lia. subst i.
      destruct (Z.lt_trichotomy (p + 1) pos) as [Hlt|[Heq|Hgt]].
      * rewrite !F3 by lia. apply (wf_next s W row p Hi); lia.
      * rewrite Heq, F4. rewrite F3 by lia. apply Hbefore. lia.
      * destruct (Z.eq_dec p pos) as [->|Hpp].
        -- rewrite F4. rewrite F5 by lia.
           replace (pos + 1 - 1) with pos by lia. apply Hafter. lia.
        -- rewrite !F5 by lia. replace (p + 1 - 1) with (p - 1 + 1) by lia.
           apply (wf_next s W row (p - 1) Hi); lia.
    + rewrite !F5 by lia. replace (p + 1 - 1) with (p - 1 + 1) by lia.
      apply (wf_next s W i (p - 1) Hi); lia.
  - rewrite Hptr by lia. destruct (shape0 s <=? row) eqn:A;
      [apply Z.leb_le in A; lia|]. lia.
  - apply (wf_cap_itype s W).
  - apply (wf_cols_itype s W).
Qed.

(** increment_ia_after adds [n] to the row pointers after row [i]. *)
Lemma increment_ia_after_spec (s : YALE_STORAGE) (i n : Z) :
  0 <= i < shape0 s -> shape0 s < capacity s -> capacity s < IMOD (itype s) ->
  0 <= n < IMOD (itype s) ->
  (forall k, i < k <= shape0 s -> 0 <= ija s k + n < IMOD (itype s)) ->
  exists m,
    increment_ia_after s (shape0 s) i n = Ok (set_ija s m) /\
    (forall k, i < k <= shape0 s -> m k = ija s k + n) /\
    (forall x, x <= i \/ shape0 s < x -> m x = ija s x).
Proof.
  intros Hi Hrows Himod Hn Hfit. unfold increment_ia_after.
  rewrite !to_itype_small by lia.
  destruct (shape0 s + 1 =? IMOD (itype s)) eqn:E; [apply Z.eqb_eq in E; lia|].
  destruct (for_range_total
    (fun k (m : array) =>
       (forall x, i < x < k -> m x = ija s x + n) /\
       (forall x, x <= i \/ k <= x -> m x = ija s x))
    (fun k m => x <- rd (capacity s) m k ;;
                wr (capacity s) m k (to_itype (itype s) (x + n)))
    (i + 1) (shape0 s + 1) (ija s)) as [m [Hrun [I1 I2]]].
  - lia.
  - split; [intros x Hx; lia|reflexivity].
  - intros k m Hk [I1 I2]. rewrite rd_ok by lia. simpl bind.
    rewrite wr_ok by lia. rewrite I2 by lia.
    rewrite to_itype_small by (apply Hfit; lia).
    eexists. split; [reflexivity|]. split.
    + intros x Hx. destruct (Z.eq_dec x k) as [->|Hne].
      * apply upd_same.
      * rewrite upd_other by lia. apply I1. lia.
    + intros x Hx. rewrite upd_other by lia. apply I2. lia.
  - rewrite Hrun. simpl bind. exists m. split; [reflexivity|].
    split; [intros k Hk; apply I1; lia|intros x Hx; apply I2; lia].
Qed.

(** The insertion path of set at a position [pos] of row [row], when there
    is room for one more slot. *)
Lemma set_insert_at (grow : Z -> Z) (junk_ija junk_a : array)
  (s : YALE_STORAGE) (row col v pos : Z) :
  wf_facts s -> capacity s < 2 ^ 31 ->
  0 <= row < shape0 s -> 0 <= col < shape1 s ->
  ija s row <= pos <= ija s (row + 1) ->
  ija s (shape0 s) + 1 <= capacity s ->
  exists s',
    ('(ins_type, s1) <-
       vector_insert grow junk_ija junk_a s pos (fun _ => col) (fun _ => v) 1 false ;;
     s2 <- increment_ia_after s1 (shape0 s1) row 1 ;;
     Ok (ins_type, set_ndnz s2 (to_size_t (ndnz s2 + 1)))) = Ok ("i"%char, s') /\
    shape0 s' = shape0 s /\ shape1 s' = shape1 s /\
    capacity s' = capacity s /\ itype s' = itype s /\
    ndnz s' = to_size_t (ndnz s + 1) /\
    (forall k, 0 <= k <= row -> ija s' k = ija s k) /\
    (forall k, row < k <= shape0 s -> ija s' k = ija s k + 1) /\
    (forall q, shape0 s < q < pos -> ija s' q = ija s q) /\
    ija s' pos = col /\
    (forall q, pos < q <= ija s (shape0 s) -> ija s' q = ija s (q - 1)) /\
    a s' pos = v /\
    (forall q, q < pos -> a s' q = a s q) /\
    (forall q, pos < q <= ija s (shape0 s) -> a s' q = a s (q - 1)).
Proof.
  intros W Hint Hrow Hcol Hpos Hroom.
  pose proof (wf_rows s W) as Hrows.
  pose proof (wf_row_bounds s W row Hrow) as [B1 [B2 B3]].
  pose proof (wf_mono_le s W) as Hmono.
  pose proof (wf_ija0 s W) as H0.
  pose proof (wf_cap_itype s W) as Hci. pose proof (wf_cols_itype s W) as Hcc.
  pose proof (IMOD_ge (itype s)) as Hge.
  assert (Hsz : ija s (row + 1) <= ija s (shape0 s)) by (apply Hmono; lia).
  destruct (vector_insert_shift grow junk_ija junk_a s pos
              (fun _ => col) (fun _ => v) 1 false)
    as [s1 [Hins [Ec [E0 [E1 [Ei [Ed [En [V1 [V2 [V3 [_ V4]]]]]]]]]]]]; try lia.
  destruct (V4 eq_refl) as [A1 [A2 A3]].
  rewrite Hins. simpl bind.
  destruct (increment_ia_after_spec s1 row 1) as [m [Hinc [M1 M2]]];
    rewrite ?E0, ?Ec, ?Ei; try lia.
  { intros k Hk. rewrite V1 by lia. pose proof (Hmono 0 k). pose proof (Hmono k (shape0 s)).
    lia. }
  rewrite E0 in Hinc. rewrite Hinc. simpl bind.
  eexists. split; [reflexivity|]. simpl.
  rewrite E0, E1, Ec, Ei, En.
  repeat (split; [reflexivity|]).
  split; [intros k Hk; rewrite M2 by lia; apply V1; lia|].
  split; [intros k Hk; rewrite M1 by lia; rewrite V1 by lia; reflexivity|].
  split; [intros q Hq; rewrite M2 by lia; apply V1; lia|].
  split.
  { rewrite M2 by lia. replace pos with (pos + 0) at 1 by lia.
    rewrite V3 by lia. apply to_itype_small. lia. }
  split.
  { intros q Hq. rewrite M2 by lia. replace q with (q - 1 + 1) at 1 by lia.
    apply V2. lia. }
  split; [replace pos with (pos + 0) at 1 by lia; apply A3; lia|].
  split; [intros q Hq; apply A1; lia|].
  intros q Hq. replace q with (q - 1 + 1) at 1 by lia. apply A2. lia.
Qed.


(** ** Whole-matrix equality of a storage with itself *)

Lemma find_n_none {R : Type} (body : Z -> outcome (option R)) (n : nat) (i : Z) :
  (forall k, i <= k < i + Z.of_nat n -> body k = Ok None) ->
  find_n n i body = Ok None.
Proof.
  revert i. induction n as [|n IH]; intros i H; [reflexivity|].
  simpl. rewrite H by lia. simpl. apply IH. intros k Hk. apply H. lia.
Qed.

Lemma find_range_none {R : Type} (body : Z -> outcome (option R)) (lo hi : Z) :
  (forall k, lo <= k < hi -> body k = Ok None) ->
  find_range lo hi body = Ok None.
Proof.
  intros H. unfold find_range. apply find_n_none. intros k Hk. apply H. lia.
Qed.

Lemma find_n_total {R : Type} (body : Z -> outcome (option R)) (n : nat) (i : Z) :
  (forall k, i <= k < i + Z.of_nat n -> exists r, body k = Ok r) ->
  exists r, find_n n i body = Ok r.
Proof.
  revert i. induction n as [|n IH]; intros i H; [eexists; reflexivity|].
  simpl. destruct (H i) as [r Hr]; [lia|]. rewrite Hr. simpl.
  destruct r; [eexists; reflexivity|]. apply IH. intros k Hk. apply H. lia.
Qed.

(** ndrow_is_empty returns on a range within the capacity, and says "not
    empty" of ranges with a position only. *)
Lemma ndrow_is_empty_total (s : YALE_STORAGE) (lo hi : Z) :
  0 <= lo -> hi <= capacity s ->
  exists b, ndrow_is_empty s lo hi = Ok b /\ (b = false -> lo < hi).
Proof.
  intros Hlo Hhi. unfold ndrow_is_empty.
  destruct (lo =? hi) eqn:E.
  - exists true. split; [reflexivity|discriminate].
  - apply Z.eqb_neq in E.
    destruct (find_n_total
                (fun p => v <- rd_a s p ;;
                          Ok (if negb (v =? 0) then Some false else None))
                (Z.to_nat (hi - lo)) lo) as [r Hr].
    + intros k Hk. unfold rd_a. rewrite rd_ok by lia. simpl. eexists. reflexivity.
    + unfold find_range. rewrite Hr. simpl. eexists. split; [reflexivity|].
      intros Hb. destruct (Z.lt_ge_cases lo hi) as [Hlt|Hge]; [exact Hlt|].
      exfalso. replace (Z.to_nat (hi - lo)) with O in Hr by lia.
      simpl in Hr. inversion Hr. subst r. discriminate.
Qed.

Lemma snd_tbind {A B : Type} (m : traced A) (k : A -> traced B) :
  snd (tbind m k) =
  match snd m with
  | Ok x => snd (k x)
  | Raise e => Raise e
  | Fault => Fault
  | OutOfFuel => OutOfFuel
  end.
Proof. unfold tbind. destruct (snd m); reflexivity. Qed.

(** One pass of the merge of a range with itself. *)
Lemma ndrow_step_same (s : YALE_STORAGE) (hi p c : Z) :
  hi <= capacity s -> capacity s < IMOD (itype s) -> 0 <= p < hi ->
  snd (ndrow_step s s hi hi (mkMerge p p c c (Z.min c c) false false))
  = Ok (inl (if p + 1 <? hi
             then mkMerge (p + 1) (p + 1) (ija s (p + 1)) (ija s (p + 1))
                          (Z.min (ija s (p + 1)) (ija s (p + 1))) false false
             else mkMerge (p + 1) (p + 1) c c (Z.min c c) true true)).
Proof.
  intros Hhi Himod Hp.
  unfold ndrow_step, tbind, trd, trd_rij, tret.
  rewrite ?rd_ija_as_same by reflexivity. unfold rd_ija. simpl.
  rewrite Z.eqb_refl. rewrite !rd_ok by lia. simpl.
  rewrite Z.eqb_refl. simpl.
  rewrite !to_itype_small by lia.
  destruct (p + 1 <? hi) eqn:E; simpl.
  - apply Z.ltb_lt in E. rewrite !rd_ok by lia. simpl. reflexivity.
  - reflexivity.
Qed.

(** The merge of a range with itself compares position by position and
    ends when both sides end together. *)
Lemma ndrow_loop_same (s : YALE_STORAGE) (hi : Z) (fuel : nat) :
  hi <= capacity s -> capacity s < IMOD (itype s) ->
  forall p c,
  0 <= p < hi ->
  hi - p < Z.of_nat fuel ->
  snd (ndrow_loop fuel s s hi hi (mkMerge p p c c (Z.min c c) false false))
  = Ok true.
Proof.
  intros Hhi Himod. induction fuel as [|fuel IH]; intros p c Hp Hf; [lia|].
  simpl ndrow_loop. rewrite snd_tbind.
  rewrite ndrow_step_same by assumption.
  destruct (p + 1 <? hi) eqn:E.
  - apply Z.ltb_lt in E. apply IH; lia.
  - destruct fuel as [|fuel]; [apply Z.ltb_ge in E; lia|]. reflexivity.
Qed.

Lemma ndrow_eqeq_ndrow_same (s : YALE_STORAGE) (lo hi : Z) (fuel : nat) :
  0 <= lo < hi -> hi <= capacity s -> capacity s < IMOD (itype s) ->
  hi - lo < Z.of_nat fuel ->
  snd (ndrow_eqeq_ndrow fuel s s lo hi lo hi) = Ok true.
Proof.
  intros Hlo Hhi Himod Hf. unfold ndrow_eqeq_ndrow.
  rewrite !snd_tbind. unfold trd, trd_rij.
  rewrite ?rd_ija_as_same by reflexivity. unfold rd_ija. simpl. rewrite !rd_ok by lia.
  rewrite ?snd_tbind. simpl. rewrite ?rd_ok by lia.
  apply ndrow_loop_same; lia.
Qed.

(** eqeq of a well-formed storage with itself returns true. *)
Theorem eqeq_reflexive (fuel : nat) (s : YALE_STORAGE) :
  well_formed s = true ->
  capacity s < Z.of_nat fuel ->
  eqeq fuel s s = Ok true.
Proof.
  intros Hwf Hfuel. pose proof (well_formed_facts s Hwf) as W.
  pose proof (wf_rows s W) as Hrows. pose proof (wf_ija0 s W) as H0.
  pose proof (wf_size s W) as Hsz. pose proof (wf_cap_itype s W) as Hci.
  pose proof (wf_mono_le s W 0 (shape0 s)) as Hmono.
  unfold eqeq.
  rewrite find_range_none.
  2:{ intros k Hk. unfold rd_a. rewrite !rd_ok by lia. simpl.
      rewrite Z.eqb_refl. reflexivity. }
  simpl. rewrite find_range_none; [reflexivity|].
  intros i Hi. pose proof (wf_row_bounds s W i Hi) as [B1 [B2 B3]].
  unfold eqeq_row. rewrite ?rd_ija_as_same by reflexivity.
  unfold rd_ija. rewrite !rd_ok by lia. simpl bind.
  destruct (ndrow_is_empty_total s (ija s i) (ija s (i + 1))) as [b [Hb Hne]];
    [lia|lia|].
  rewrite Hb. simpl bind. destruct b.
  - reflexivity.
  - specialize (Hne eq_refl).
    rewrite ndrow_eqeq_ndrow_same by lia. reflexivity.
Qed.

(* ================================================================== *)
(** * Part III: concrete storages *)
(* ================================================================== *)



(** cast_copy of [ex3] to INT8. *)
Lemma cast_copy_spec_witness :
  exists lhs,
    cast_copy zeros zeros ex3 INT8 = Ok lhs /\
    shape0 lhs = shape0 ex3 /\ shape1 lhs = shape1 ex3 /\ dim lhs = dim ex3 /\
    itype lhs = itype ex3 /\ ndnz lhs = ndnz ex3 /\
    capacity lhs = capacity ex3 /\ dtype lhs = INT8 /\
    get_size lhs = get_size ex3 /\
    (forall q, 0 <= q < ija ex3 (shape0 ex3) -> ija lhs q = ija ex3 q) /\
    (forall q, 0 <= q < ija ex3 (shape0 ex3) -> a lhs q = to_dtype INT8 (a ex3 q)) /\
    (forall q, ~ 0 <= q < ija ex3 (shape0 ex3) -> ija lhs q = zeros q /\ a lhs q = zeros q).
Proof.
  apply cast_copy_spec.
  - reflexivity.
  - reflexivity.
Defined.


(** The product, cell by cell: [[1 10 0 0] [0 1 0 0]]. *)
Example ew_product_dump :
  dump ew_product = ([3; 4; 4; 1], [1; 1; 0; 10]).
Proof. vm_compute. reflexivity. Qed.



(** C1 at a failing input. [eqL] and [eqR] are well formed, have the same
    shape and value kind and read differently at the cell (0, 3) only, yet
    eqeq returns true on them; with the operands exchanged it returns
    false. *)
Theorem eqeq_misses_difference :
  well_formed eqL = true /\ well_formed eqR = true /\
  differing_cells 10 eqL eqR = [(0, 3)] /\
  eqeq 10 eqL eqR = Ok true /\
  eqeq 10 eqR eqL = Ok false.
Proof. repeat split; vm_compute; reflexivity. Qed.

(** C8 at failing inputs. On row 0 of [eqL] and [eqR], with the ranges
    [3, 5) and [3, 4), the merge reads the right A array at position 4, the
    end of the right range. On [eqL1] and [eqR1], with the ranges [2, 4) on
    both sides, it goes on to read the right A array at position 4, beyond
    the range and the allocation. *)
Theorem ndrow_eqeq_ndrow_reads_outside :
  ndrow_eqeq_ndrow 10 eqL eqR 3 5 3 4
  = ([LeftIJA 3; RightIJA 3; RightA 3; LeftA 3; LeftIJA 4; RightA 4], Ok true) /\
  ndrow_eqeq_ndrow 10 eqL1 eqR1 2 4 2 4
  = ([LeftIJA 2; RightIJA 2; RightA 2; LeftA 2; LeftIJA 3; RightIJA 3;
      RightA 3; RightA 4], Fault).
Proof. split; vm_compute; reflexivity. Qed.

(** With no amount of fuel does the merge of [eqL1] and [eqR1] return. *)
Lemma ndrow_eqeq_ndrow_never_returns (fuel : nat) (b : bool) :
  snd (ndrow_eqeq_ndrow fuel eqL1 eqR1 2 4 2 4) <> Ok b.
Proof.
  do 4 (destruct fuel as [|fuel]; [vm_compute; discriminate|]).
  vm_compute. discriminate.
Qed.

(** C2 at a failing input. Inserting one slot at position 5 of [ex_full]
    (size 7, capacity 7) grows the capacity to 10; the slots 0..4 and the
    new slot arrive, and the old slots 5 and 6 (columns 0 and 2, values 9
    and 4) do not: the positions 6 and 7 hold what the allocation left. *)
Theorem vector_insert_resize_drops_suffix (junk_ija junk_a : array) :
  (ija ex_full 5, a ex_full 5, ija ex_full 6, a ex_full 6) = (0, 9, 2, 4) /\
  exists s',
    vector_insert ex_grow junk_ija junk_a ex_full 5 (fun _ => 2) (fun _ => 5) 1 false
      = Ok ("i"%char, s') /\
    capacity s' = 10 /\
    map (ija s') [0; 1; 2; 3; 4; 5] = [4; 5; 7; 7; 1; 2] /\
    map (a s') [0; 1; 2; 3; 4; 5] = [1; 2; 3; 0; 7; 5] /\
    (ija s' 6, a s' 6, ija s' 7, a s' 7)
    = (junk_ija 6, junk_a 6, junk_ija 7, junk_a 7).
Proof.
  split; [reflexivity|].
  eexists. split; [vm_compute; reflexivity|].
  repeat split; vm_compute; reflexivity.
Qed.

(** C6 at a failing input. [ex_full] is well formed; set(0, 2) <- 5 on it
    grows the storage, and afterwards row 1 has the range [6, 8) with the
    column indices 0 and 0 (the fresh blocks held zeros): not strictly
    increasing. The row pointers were shifted by one. *)
Theorem set_resize_breaks_rows :
  well_formed ex_full = true /\
  exists s',
    set ex_grow zeros zeros 10 ex_full (mkSlice 0 2 true) 5 = Ok ("i"%char, s') /\
    dump s' = ([4; 6; 8; 8; 1; 2; 0; 0; 0; 0], [1; 2; 3; 0; 7; 5; 0; 0; 0; 0]) /\
    row_ok s' 1 = false /\
    well_formed s' = false.
Proof.
  split; [reflexivity|].
  eexists. split; [vm_compute; reflexivity|].
  repeat split; vm_compute; reflexivity.
Qed.

(** C3 at a failing input. [ex3] has the maximum size 10, the size 6 and
    the capacity 6; an insertion of 5 slots needs 11, more than the
    maximum, and vector_insert_resize raises nothing: it returns with the
    capacity 11. *)
Theorem vector_insert_resize_exceeds_maximum (junk_ija junk_a : array) :
  max_size ex3 = 10 /\ get_size ex3 = Ok 6 /\ capacity ex3 = 6 /\
  ex_grow (capacity ex3) = 9 /\
  exists s',
    vector_insert_resize ex_grow junk_ija junk_a ex3 6 6 5 false = Ok ("i"%char, s') /\
    capacity s' = 11.
Proof.
  repeat (split; [reflexivity|]).
  eexists. split; [vm_compute; reflexivity|]. reflexivity.
Qed.

(** [eqL] equals itself. *)
Lemma eqeq_reflexive_witness : eqeq 10 eqL eqL = Ok true.
Proof.
  apply eqeq_reflexive.
  - reflexivity.
  - simpl. lia.
Defined.


(** Inserting the column 2 with the value 5 at position 5 of [ex3_room]. *)
Lemma vector_insert_in_place_witness :
  exists s',
    vector_insert ex_grow zeros zeros ex3_room 5 (fun _ => 2) (fun _ => 5) 1 false
      = Ok ("i"%char, s') /\
    capacity s' = capacity ex3_room /\ shape0 s' = shape0 ex3_room /\
    shape1 s' = shape1 ex3_room /\
    itype s' = itype ex3_room /\ dtype s' = dtype ex3_room /\
    ndnz s' = ndnz ex3_room /\
    (forall q, q < 5 \/ ija ex3_room (shape0 ex3_room) + 1 <= q ->
       ija s' q = ija ex3_room q) /\
    (forall q, 5 <= q < ija ex3_room (shape0 ex3_room) ->
       ija s' (q + 1) = ija ex3_room q) /\
    (forall i, 0 <= i < 1 -> ija s' (5 + i) = to_itype (itype ex3_room) 2) /\
    (false = true -> forall q, a s' q = a ex3_room q) /\
    (false = false ->
       (forall q, q < 5 \/ ija ex3_room (shape0 ex3_room) + 1 <= q ->
          a s' q = a ex3_room q) /\
       (forall q, 5 <= q < ija ex3_room (shape0 ex3_room) ->
          a s' (q + 1) = a ex3_room q) /\
       (forall i, 0 <= i < 1 -> a s' (5 + i) = 5)).
Proof.
  apply (vector_insert_in_place ex_grow zeros zeros ex3_room 5
           (fun _ => 2) (fun _ => 5) 1 false).
  - lia.
  - simpl. lia.
  - vm_compute. split; discriminate.
  - vm_compute. discriminate.
  - simpl. lia.
Defined.


(** The same call, cell by cell: [[1 7 5] [9 2 0] [0 0 3]]. *)
Example set_in_place_dump :
  match set ex_grow zeros zeros 10 ex3_room (mkSlice 0 2 true) 5 with
  | Ok (c, s') => Some (c, dump s')
  | _ => None
  end
  = Some ("i"%char,
          ([4; 6; 7; 7; 1; 2; 0; 0; 0], [1; 2; 3; 0; 7; 5; 9; 0; 0])).
Proof. vm_compute. reflexivity. Qed.


(* ================================================================== *)
(** * Part IV: further properties of the engine *)
(* ================================================================== *)

(** ** Reading cells *)

(** The value ref_value reads on a well-formed storage is the cell of A at
    the slot of the cell. *)
Lemma ref_value_at (fuel : nat) (s : YALE_STORAGE) (row col pos : Z) :
  wf_facts s ->
  positions_fit_int s ->
  0 <= row < shape0 s ->
  0 <= col < shape1 s ->
  capacity s < Z.of_nat fuel ->
  (row = col /\ pos = row) \/
  (row <> col /\ stored_at s row col pos) \/
  (row <> col /\ pos = shape0 s /\ forall p, ~ stored_at s row col p) ->
  ref_value fuel s (mkSlice row col true) = Ok (a s pos).
Proof.
  intros W Hint Hrow Hcol Hfuel Hkind.
  destruct (ref_slot_cases fuel s row col W Hint Hrow Hcol Hfuel)
    as [p [Href [Hp Hcases]]].
  unfold ref_value. rewrite Href. simpl bind. unfold rd_a. rewrite rd_ok by lia.
  f_equal. f_equal.
  destruct Hkind as [[He Hps]|[[Hne Hst]|[Hne [Hps Hno]]]];
    destruct Hcases as [[He' Hp']|[[Hne' Hst']|[Hne' [Hp' Hno']]]];
    try contradiction; try congruence.
  - apply (stored_at_unique s row col p pos); assumption.
  - exfalso. apply (Hno' pos Hst).
  - exfalso. apply (Hno p Hst').
Qed.

Lemma ref_value_cases (fuel : nat) (s : YALE_STORAGE) (row col : Z) :
  wf_facts s ->
  positions_fit_int s ->
  0 <= row < shape0 s ->
  0 <= col < shape1 s ->
  capacity s < Z.of_nat fuel ->
  exists pos,
    ref_value fuel s (mkSlice row col true) = Ok (a s pos) /\
    ((row = col /\ pos = row) \/
     (row <> col /\ stored_at s row col pos) \/
     (row <> col /\ pos = shape0 s /\ forall p, ~ stored_at s row col p)).
Proof.
  intros W Hint Hrow Hcol Hfuel.
  destruct (ref_slot_cases fuel s row col W Hint Hrow Hcol Hfuel)
    as [p [Href [Hp Hcases]]].
  exists p. split; [|exact Hcases].
  apply ref_value_at; assumption.
Qed.

(** Well-formedness reads the shape, the capacity, the index kind and the
    IJA cells only. *)
Lemma wf_facts_ext (s s' : YALE_STORAGE) :
  wf_facts s ->
  shape0 s' = shape0 s -> shape1 s' = shape1 s ->
  capacity s' = capacity s -> itype s' = itype s ->
  (forall q, ija s' q = ija s q) ->
  wf_facts s'.
Proof.
  intros W E0 E1 Ec Ei Hija.
  constructor; rewrite ?E0, ?E1, ?Ec, ?Ei.
  - apply (wf_rows s W).
  - apply (wf_cols s W).
  - rewrite Hija. apply (wf_ija0 s W).
  - intros i Hi. rewrite !Hija. apply (wf_mono s W i Hi).
  - intros i p Hi. rewrite !Hija. apply (wf_col s W i p Hi).
  - intros i p Hi. rewrite !Hija. apply (wf_next s W i p Hi).
  - rewrite Hija. apply (wf_size s W).
  - apply (wf_cap_itype s W).
  - apply (wf_cols_itype s W).
Qed.

(** ** Row Store: what set does when no resize is needed *)

(** The two ways set ends on a well-formed storage with room for one more
    slot: a replacement at the slot of the cell, or an insertion at the
    position of the column in the order of its row. *)
Lemma set_in_place_cases (grow : Z -> Z) (junk_ija junk_a : array)
  (fuel : nat) (s : YALE_STORAGE) (row col v : Z) :
  wf_facts s ->
  positions_fit_int s ->
  0 <= row < shape0 s ->
  0 <= col < shape1 s ->
  capacity s < Z.of_nat fuel ->
  ija s (shape0 s) + 1 <= capacity s ->
  exists c s',
    set grow junk_ija junk_a fuel s (mkSlice row col true) v = Ok (c, s') /\
    shape0 s' = shape0 s /\ shape1 s' = shape1 s /\
    capacity s' = capacity s /\ itype s' = itype s /\
    ((c = "r"%char /\ ndnz s' = ndnz s /\
      (forall q, ija s' q = ija s q) /\
      exists p,
        ((row = col /\ p = row) \/ (row <> col /\ stored_at s row col p)) /\
        a s' p = v /\ (forall q, q <> p -> a s' q = a s q))
     \/
     (c = "i"%char /\ row <> col /\ (forall p, ~ stored_at s row col p) /\
      ndnz s' = to_size_t (ndnz s + 1) /\
      exists pos,
        ija s row <= pos <= ija s (row + 1) /\
        (forall p, ija s row <= p < pos -> ija s p < col) /\
        (forall p, pos <= p < ija s (row + 1) -> col < ija s p) /\
        (forall k, 0 <= k <= row -> ija s' k = ija s k) /\
        (forall k, row < k <= shape0 s -> ija s' k = ija s k + 1) /\
        (forall q, shape0 s < q < pos -> ija s' q = ija s q) /\
        ija s' pos = col /\
        (forall q, pos < q <= ija s (shape0 s) -> ija s' q = ija s (q - 1)) /\
        a s' pos = v /\
        (forall q, q < pos -> a s' q = a s q) /\
        (forall q, pos < q <= ija s (shape0 s) -> a s' q = a s (q - 1)))).
Proof.
  intros W Hint Hrow Hcol Hfuel Hroom.
  pose proof (wf_row_bounds s W row Hrow) as [Hb1 [Hb2 Hb3]].
  pose proof (wf_cap_itype s W) as Hci. pose proof (wf_cols_itype s W) as Hcc.
  pose proof (wf_rows s W) as Hrows.
  unfold positions_fit_int in Hint.
  unfold set. simpl coords0. simpl coords1.
  destruct (row =? col) eqn:Erc.
  - (* the diagonal *)
    apply Z.eqb_eq in Erc. rewrite wr_ok by lia. simpl bind.
    eexists. eexists. split; [reflexivity|].
    repeat (split; [reflexivity|]).
    left. split; [reflexivity|]. split; [reflexivity|].
    split; [reflexivity|].
    exists row. split; [left; split; [exact Erc|reflexivity]|].
    simpl. split; [apply upd_same|]. intros q Hq. apply upd_other. exact Hq.
  - apply Z.eqb_neq in Erc.
    unfold rd_ija. rewrite !rd_ok by lia. simpl bind.
    destruct (ija s row =? ija s (row + 1)) eqn:Ee.
    + (* an empty row *)
      apply Z.eqb_eq in Ee.
      destruct (set_insert_at grow junk_ija junk_a s row col v (ija s row) W Hint Hrow Hcol)
        as [s' [Hrun [E0 [E1 [Ec [Ei [En [F1 [F2 [F3 [F4 [F5 [A1 [A2 A3]]]]]]]]]]]]]];
        try lia.
      rewrite Hrun. exists "i"%char, s'. split; [reflexivity|].
      repeat (split; [assumption|]).
      right. split; [reflexivity|]. split; [exact Erc|].
      split; [intros p [Hp _]; lia|]. split; [exact En|].
      exists (ija s row). split; [lia|].
      split; [intros p Hp; lia|]. split; [intros p Hp; lia|].
      repeat (split; [assumption|]). assumption.
    + apply Z.eqb_neq in Ee.
      rewrite !to_itype_small by lia.
      destruct (insert_search_spec s col fuel Hint Hci (ija s row) (ija s (row + 1) - 1))
        as [pos [found [Hins [Hp [Hfound Hnot]]]]]; try lia.
      { replace (ija s (row + 1) - 1 + 1) with (ija s (row + 1)) by lia.
        apply wf_sorted; assumption. }
      rewrite Hins. simpl bind. destruct found.
      * (* the column is stored: replace *)
        destruct (Hfound eq_refl) as [Hp' Hk].
        rewrite !wr_ok by lia. simpl bind.
        eexists. eexists. split; [reflexivity|].
        repeat (split; [reflexivity|]).
        left. split; [reflexivity|]. split; [reflexivity|].
        split.
        { intros q. simpl. unfold upd. destruct (q =? pos) eqn:Eq; [|reflexivity].
          apply Z.eqb_eq in Eq. subst q. symmetry. exact Hk. }
        exists pos. split; [right; split; [exact Erc|split; [lia|exact Hk]]|].
        simpl. split; [apply upd_same|]. intros q Hq. apply upd_other. exact Hq.
      * (* the column is not stored: insert *)
        destruct (Hnot eq_refl) as [Hbefore Hafter].
        destruct (set_insert_at grow junk_ija junk_a s row col v pos W Hint Hrow Hcol)
          as [s' [Hrun [E0 [E1 [Ec [Ei [En [F1 [F2 [F3 [F4 [F5 [A1 [A2 A3]]]]]]]]]]]]]];
          try lia.
        rewrite Hrun. exists "i"%char, s'. split; [reflexivity|].
        repeat (split; [assumption|]).
        right. split; [reflexivity|]. split; [exact Erc|].
        split.
        { intros p [Hpp Hk].
          destruct (Z.lt_ge_cases p pos) as [Hlt|Hge].
          - pose proof (Hbefore p). lia.
          - pose proof (Hafter p). lia. }
        split; [exact En|].
        exists pos. split; [lia|]. split; [exact Hbefore|].
        split; [intros p Hpp; apply Hafter; lia|].
        repeat (split; [assumption|]). assumption.
Qed.

(** After an insertion at [pos] of row [row], every cell but the one set
    reads as before. *)
Lemma inserted_read (fuel : nat) (s s' : YALE_STORAGE) (row col pos : Z) :
  wf_facts s -> wf_facts s' ->
  positions_fit_int s ->
  capacity s < Z.of_nat fuel ->
  0 <= row < shape0 s -> 0 <= col < shape1 s -> col <> row ->
  ija s row <= pos <= ija s (row + 1) ->
  shape0 s' = shape0 s -> shape1 s' = shape1 s ->
  positions_fit_int s' -> capacity s' < Z.of_nat fuel ->
  (forall k, 0 <= k <= row -> ija s' k = ija s k) ->
  (forall k, row < k <= shape0 s -> ija s' k = ija s k + 1) ->
  (forall q, shape0 s < q < pos -> ija s' q = ija s q) ->
  ija s' pos = col ->
  (forall q, pos < q <= ija s (shape0 s) -> ija s' q = ija s (q - 1)) ->
  (forall q, 0 <= q < pos -> a s' q = a s q) ->
  (forall q, pos < q <= ija s (shape0 s) -> a s' q = a s (q - 1)) ->
  forall r c, 0 <= r < shape0 s -> 0 <= c < shape1 s -> (r, c) <> (row, col) ->
    ref_value fuel s' (mkSlice r c true) = ref_value fuel s (mkSlice r c true).
Proof.
  intros W W' Hint Hfuel Hrow Hcol Hne Hpos E0 E1 Hint' Hfuel' F1 F2 F3 F4 F5 A2 A3
    r c Hr Hc Hrc.
  pose proof (wf_mono_le s W) as Hmono.
  pose proof (wf_ija0 s W) as H0.
  pose proof (wf_rows s W) as Hrows.
  assert (Hlow : forall k, 0 <= k <= shape0 s ->
            shape0 s + 1 <= ija s k <= ija s (shape0 s)).
  { intros k Hk. pose proof (Hmono 0 k). pose proof (Hmono k (shape0 s)). lia. }
  assert (Hptr : forall k, 0 <= k <= shape0 s ->
            ija s' k = if k <=? row then ija s k else ija s k + 1).
  { intros k Hk. destruct (k <=? row) eqn:E.
    - apply Z.leb_le in E. apply F1. lia.
    - apply Z.leb_gt in E. apply F2. lia. }
  pose proof (Hlow row ltac:(lia)) as Hlrow.
  pose proof (Hlow (row + 1) ltac:(lia)) as Hlrow1.
  pose proof (Hlow r ltac:(lia)) as Hlr.
  pose proof (Hlow (r + 1) ltac:(lia)) as Hlr1.
  destruct (ref_value_cases fuel s r c W Hint Hr Hc Hfuel) as [p [Hv Hcases]].
  rewrite Hv.
  destruct Hcases as [[He Hp]|[[Hn [Hp Hk]]|[Hn [Hp Hno]]]].
  - (* a diagonal cell *)
    subst p. rewrite <- (A2 r) by lia.
    apply ref_value_at; rewrite ?E0, ?E1; try assumption.
    left. split; [exact He|reflexivity].
  - (* a stored cell: its slot stays or moves up by one *)
    destruct (Z.lt_ge_cases p pos) as [Hlt|Hge].
    + rewrite <- (A2 p) by lia.
      apply ref_value_at; rewrite ?E0, ?E1; try assumption.
      right. left. split; [exact Hn|]. unfold stored_at.
      rewrite !Hptr by lia. rewrite F3 by lia.
      pose proof (Hmono (row + 1) r).
      destruct (r <=? row) eqn:A; destruct (r + 1 <=? row) eqn:B;
        try apply Z.leb_le in A; try apply Z.leb_le in B;
        try apply Z.leb_gt in A; try apply Z.leb_gt in B; lia.
    + replace (a s p) with (a s (p + 1 - 1)) by (f_equal; lia).
      pose proof (Hmono (r + 1) (shape0 s)).
      rewrite <- (A3 (p + 1)) by lia.
      apply ref_value_at; rewrite ?E0, ?E1; try assumption.
      right. left. split; [exact Hn|]. unfold stored_at.
      rewrite !Hptr by lia. rewrite F5 by lia.
      replace (p + 1 - 1) with p by lia.
      pose proof (Hmono (r + 1) row).
      destruct (r <=? row) eqn:A; destruct (r + 1 <=? row) eqn:B;
        try apply Z.leb_le in A; try apply Z.leb_le in B;
        try apply Z.leb_gt in A; try apply Z.leb_gt in B; lia.
  - (* a cell that is not stored is not stored afterwards *)
    subst p. rewrite <- (A2 (shape0 s)) by lia. rewrite <- E0.
    apply ref_value_at; rewrite ?E0, ?E1; try assumption.
    right. right. split; [exact Hn|]. split; [reflexivity|].
    intros p' [Hp' Hk']. rewrite !Hptr in Hp' by lia.
    pose proof (Hmono (r + 1) row). pose proof (Hmono (row + 1) r).
    pose proof (Hmono (r + 1) (shape0 s)).
    destruct (r <=? row) eqn:A; destruct (r + 1 <=? row) eqn:B;
      try apply Z.leb_le in A; try apply Z.leb_le in B;
      try apply Z.leb_gt in A; try apply Z.leb_gt in B; try lia;
      try (assert (Er : r = row) by lia; subst r);
      (destruct (Z.lt_trichotomy p' pos) as [Hlt|[Heq|Hgt]];
       [ first [ lia
               | apply (Hno p'); unfold stored_at; (rewrite <- (F3 p') by lia);
                 split; [lia|exact Hk'] ]
       | first [ lia
               | subst p'; apply Hrc; rewrite F4 in Hk'; congruence ]
       | first [ lia
               | apply (Hno (p' - 1)); unfold stored_at;
                 (rewrite <- (F5 p') by lia); split; [lia|exact Hk'] ] ]).
Qed.





(** ** Row Store: insertion with a resize *)

(** A copy loop of vector_insert_resize: the slots [lo, hi) of the source go
    to the positions [lo + off, hi + off) of the new arrays. *)
Lemma copy_slots_spec (src : YALE_STORAGE) (dst_len off : Z) (struct_only : bool)
  (lo hi : Z) (mi ma : array) :
  0 <= lo -> hi <= capacity src -> 0 <= lo + off -> hi + off <= dst_len ->
  exists mi' ma',
    for_range lo hi (copy_slot src dst_len off struct_only) (mi, ma) = Ok (mi', ma') /\
    (forall q, lo <= q < hi -> mi' (q + off) = ija src q) /\
    (forall x, x < lo + off \/ hi + off <= x -> mi' x = mi x) /\
    (struct_only = true -> forall x, ma' x = ma x) /\
    (struct_only = false ->
       (forall q, lo <= q < hi -> ma' (q + off) = a src q) /\
       (forall x, x < lo + off \/ hi + off <= x -> ma' x = ma x)).
Proof.
  intros Hlo Hhi Hoff Hlen.
  destruct (Z.le_gt_cases lo hi) as [Hle|Hgt].
  2:{ rewrite for_range_empty by lia. exists mi, ma. split; [reflexivity|].
      split; [intros q Hq; lia|]. split; [reflexivity|]. split; [reflexivity|].
      intros _. split; [intros q Hq; lia|reflexivity]. }
  destruct (for_range_total
    (fun k (st : array * array) =>
       (forall q, lo <= q < k -> fst st (q + off) = ija src q) /\
       (forall x, x < lo + off \/ k + off <= x -> fst st x = mi x) /\
       (struct_only = true -> forall x, snd st x = ma x) /\
       (struct_only = false ->
          (forall q, lo <= q < k -> snd st (q + off) = a src q) /\
          (forall x, x < lo + off \/ k + off <= x -> snd st x = ma x)))
    (copy_slot src dst_len off struct_only) lo hi (mi, ma))
    as [[mi' ma'] [Hrun [I1 [I2 [I3 I4]]]]].
  - exact Hle.
  - simpl. split; [intros q Hq; lia|]. split; [reflexivity|].
    split; [reflexivity|]. intros _. split; [intros q Hq; lia|reflexivity].
  - intros k [m1 m2] Hk [I1 [I2 [I3 I4]]]. simpl in *.
    unfold copy_slot, rd_ija, rd_a. rewrite rd_ok by lia. simpl bind.
    rewrite wr_ok by lia. simpl bind.
    destruct struct_only.
    + eexists. split; [reflexivity|]. simpl.
      split.
      { intros q Hq. destruct (Z.eq_dec q k) as [->|Hne].
        - apply upd_same.
        - rewrite upd_other by lia. apply I1. lia. }
      split; [intros x Hx; rewrite upd_other by lia; apply I2; lia|].
      split; [exact I3|discriminate].
    + rewrite rd_ok by lia. simpl bind. rewrite wr_ok by lia. simpl bind.
      destruct (I4 eq_refl) as [I5 I6].
      eexists. split; [reflexivity|]. simpl.
      split.
      { intros q Hq. destruct (Z.eq_dec q k) as [->|Hne].
        - apply upd_same.
        - rewrite upd_other by lia. apply I1. lia. }
      split; [intros x Hx; rewrite upd_other by lia; apply I2; lia|].
      split; [discriminate|]. intros _. split.
      { intros q Hq. destruct (Z.eq_dec q k) as [->|Hne].
        - apply upd_same.
        - rewrite upd_other by lia. apply I5. lia. }
      intros x Hx. rewrite upd_other by lia. apply I6. lia.
  - simpl in *. exists mi', ma'. split; [exact Hrun|].
    split; [exact I1|]. split; [exact I2|]. split; [exact I3|exact I4].
Qed.

(** vector_insert when the capacity does not suffice. In the new blocks the
    slots before [pos] are those of the old ones and the gap holds the new
    keys and values; of the old slots [pos, size) only those below
    [size - pos + n - 1] are moved up by [n]; every other position of the
    new blocks holds what the allocation left there. *)
Lemma vector_insert_resized (grow : Z -> Z) (junk_ija junk_a : array)
  (s : YALE_STORAGE) (pos : Z) (j val : array) (n : Z) (struct_only : bool) :
  1 <= n -> n <= pos + 1 ->
  0 <= shape0 s < capacity s ->
  shape0 s <= pos <= ija s (shape0 s) ->
  ija s (shape0 s) <= capacity s ->
  capacity s < ija s (shape0 s) + n ->
  ija s (shape0 s) + n < 2 ^ 63 ->
  ~ (max_size s < grow (capacity s) /\ max_size s < ija s (shape0 s) + n) ->
  exists s',
    vector_insert grow junk_ija junk_a s pos j val n struct_only = Ok ("i"%char, s') /\
    capacity s' = Z.max (Z.min (max_size s) (grow (capacity s)))
                        (ija s (shape0 s) + n) /\
    shape0 s' = shape0 s /\ shape1 s' = shape1 s /\
    itype s' = itype s /\ dtype s' = dtype s /\ ndnz s' = ndnz s /\
    (forall q, 0 <= q < pos -> ija s' q = ija s q) /\
    (forall q, pos <= q < ija s (shape0 s) - pos + n - 1 -> ija s' (q + n) = ija s q) /\
    (forall i, 0 <= i < n -> ija s' (pos + i) = to_itype (itype s) (j i)) /\
    (forall x, x < 0 \/ Z.max (pos + n) (ija s (shape0 s) + 2 * n - pos - 1) <= x ->
       ija s' x = junk_ija x) /\
    (struct_only = true -> forall x, a s' x = junk_a x) /\
    (struct_only = false ->
       (forall q, 0 <= q < pos -> a s' q = a s q) /\
       (forall q, pos <= q < ija s (shape0 s) - pos + n - 1 -> a s' (q + n) = a s q) /\
       (forall i, 0 <= i < n -> a s' (pos + i) = val i) /\
       (forall x, x < 0 \/ Z.max (pos + n) (ija s (shape0 s) + 2 * n - pos - 1) <= x ->
          a s' x = junk_a x)).
Proof.
  intros Hn Hnp Hrows Hpos Hsize Hfull Hbig Hmem.
  set (size := ija s (shape0 s)) in *.
  unfold vector_insert.
  destruct (pos <? shape0 s) eqn:E; [apply Z.ltb_lt in E; lia|].
  unfold get_size, rd_ija. rewrite rd_ok by lia. simpl bind. fold size.
  rewrite (to_size_t_small (size + n)) by lia.
  destruct (size + n >? capacity s) eqn:Eg.
  2:{ exfalso. destruct (Z.gtb_spec (size + n) (capacity s)); [discriminate|lia]. }
  unfold vector_insert_resize.
  rewrite (to_size_t_small (size + n)) by lia.
  set (newcap := Z.max (Z.min (max_size s) (grow (capacity s))) (size + n)).
  assert (Hcap : exists c0,
            (if grow (capacity s) >? max_size s
             then if size + n >? max_size s then Raise NoMemError else Ok (max_size s)
             else Ok (grow (capacity s))) = Ok c0 /\
            (if c0 <? size + n then size + n else c0) = newcap).
  { unfold newcap.
    destruct (Z.gtb_spec (grow (capacity s)) (max_size s)) as [Hg|Hg].
    - destruct (Z.gtb_spec (size + n) (max_size s)) as [Hm|Hm]; [exfalso; apply Hmem; lia|].
      eexists. split; [reflexivity|].
      destruct (Z.ltb_spec (max_size s) (size + n)); lia.
    - eexists. split; [reflexivity|].
      destruct (Z.ltb_spec (grow (capacity s)) (size + n)); lia. }
  destruct Hcap as [c0 [Hc0 Hnew]]. rewrite Hc0. simpl bind. rewrite Hnew.
  assert (Hnc : size + n <= newcap) by (unfold newcap; lia).
  destruct (copy_slots_spec s newcap 0 struct_only 0 pos junk_ija junk_a)
    as [mi1 [ma1 [Hc1 [C1 [C2 [C3 C4]]]]]]; try lia.
  rewrite Hc1. simpl bind.
  rewrite (to_size_t_small (size - pos + n - 1)) by lia.
  destruct (copy_slots_spec s newcap n struct_only pos (size - pos + n - 1) mi1 ma1)
    as [mi2 [ma2 [Hc2 [D1 [D2 [D3 D4]]]]]]; try lia.
  rewrite Hc2. simpl bind. simpl fst. simpl snd.
  unfold set_a, set_ija. cbn [itype capacity ija a shape0 shape1 dtype dim ndnz].
  destruct (put_loop_spec (itype s) newcap pos n j val struct_only mi2 ma2)
    as [mi3 [ma3 [Hput [P1 [P2 [P3 P4]]]]]]; try lia.
  rewrite Hput. simpl bind. eexists. split; [reflexivity|].
  cbn [itype capacity ija a shape0 shape1 dtype dim ndnz fst snd].
  repeat (split; [reflexivity|]).
  split.
  { intros q Hq. rewrite P2 by lia. rewrite D2 by lia.
    replace q with (q + 0) at 1 by lia. apply C1. lia. }
  split; [intros q Hq; rewrite P2 by lia; apply D1; lia|].
  split; [exact P1|].
  split.
  { intros x Hx. rewrite P2 by lia. rewrite D2 by lia. apply C2. lia. }
  split.
  { intros Hs x. rewrite (P3 Hs), (D3 Hs). apply (C3 Hs). }
  intros Hs. destruct (P4 Hs) as [P5 P6]. destruct (D4 Hs) as [D5 D6].
  destruct (C4 Hs) as [C5 C6].
  split.
  { intros q Hq. rewrite P6 by lia. rewrite D6 by lia.
    replace q with (q + 0) at 1 by lia. apply C5. lia. }
  split; [intros q Hq; rewrite P6 by lia; apply D5; lia|].
  split; [exact P5|].
  intros x Hx. rewrite P6 by lia. rewrite D6 by lia. apply C6. lia.
Qed.

(** [inserted_wf] for new blocks of another capacity. *)
Lemma inserted_wf_gen (s s' : YALE_STORAGE) (row col pos : Z) :
  wf_facts s ->
  0 <= row < shape0 s -> 0 <= col < shape1 s -> col <> row ->
  ija s row <= pos <= ija s (row + 1) ->
  (forall p, ija s row <= p < pos -> ija s p < col) ->
  (forall p, pos <= p < ija s (row + 1) -> col < ija s p) ->
  shape0 s' = shape0 s -> shape1 s' = shape1 s ->
  itype s' = itype s ->
  ija s (shape0 s) + 1 <= capacity s' ->
  capacity s' < IMOD (itype s) ->
  (forall k, 0 <= k <= row -> ija s' k = ija s k) ->
  (forall k, row < k <= shape0 s -> ija s' k = ija s k + 1) ->
  (forall q, shape0 s < q < pos -> ija s' q = ija s q) ->
  ija s' pos = col ->
  (forall q, pos < q <= ija s (shape0 s) -> ija s' q = ija s (q - 1)) ->
  wf_facts s'.
Proof.
  intros W Hrow Hcol Hne Hpos Hbefore Hafter E0 E1 Ei Hroom Hcap F1 F2 F3 F4 F5.
  set (s0 := mkYale (dtype s) (dim s) (shape0 s) (shape1 s) (itype s) (ndnz s)
                    (capacity s') (ija s) (a s)).
  assert (W0 : wf_facts s0).
  { constructor; unfold s0; cbn [ija a capacity shape0 shape1 itype].
    - apply (wf_rows s W).
    - apply (wf_cols s W).
    - apply (wf_ija0 s W).
    - apply (wf_mono s W).
    - apply (wf_col s W).
    - apply (wf_next s W).
    - lia.
    - exact Hcap.
    - apply (wf_cols_itype s W). }
  apply (inserted_wf s0 s' row col pos); unfold s0;
    cbn [ija a capacity shape0 shape1 itype]; try assumption; try reflexivity.
Qed.

(** The insertion path of set when the position is the end of the used
    slots and the blocks are full: the new blocks hold the old slots, then
    the new one. *)
Lemma set_append_at (grow : Z -> Z) (junk_ija junk_a : array)
  (s : YALE_STORAGE) (row col v : Z) :
  wf_facts s ->
  0 <= row < shape0 s -> 0 <= col < shape1 s ->
  capacity s < ija s (shape0 s) + 1 ->
  Z.max (Z.min (max_size s) (grow (capacity s))) (ija s (shape0 s) + 1)
    < IMOD (itype s) ->
  Z.max (Z.min (max_size s) (grow (capacity s))) (ija s (shape0 s) + 1) < 2 ^ 63 ->
  ~ (max_size s < grow (capacity s) /\ max_size s < ija s (shape0 s) + 1) ->
  exists s',
    ('(ins_type, s1) <-
       vector_insert grow junk_ija junk_a s (ija s (shape0 s))
         (fun _ => col) (fun _ => v) 1 false ;;
     s2 <- increment_ia_after s1 (shape0 s1) row 1 ;;
     Ok (ins_type, set_ndnz s2 (to_size_t (ndnz s2 + 1)))) = Ok ("i"%char, s') /\
    shape0 s' = shape0 s /\ shape1 s' = shape1 s /\
    capacity s' = Z.max (Z.min (max_size s) (grow (capacity s)))
                        (ija s (shape0 s) + 1) /\
    itype s' = itype s /\
    ndnz s' = to_size_t (ndnz s + 1) /\
    (forall k, 0 <= k <= row -> ija s' k = ija s k) /\
    (forall k, row < k <= shape0 s -> ija s' k = ija s k + 1) /\
    (forall q, shape0 s < q < ija s (shape0 s) -> ija s' q = ija s q) /\
    ija s' (ija s (shape0 s)) = col /\
    a s' (ija s (shape0 s)) = v /\
    (forall q, 0 <= q < ija s (shape0 s) -> a s' q = a s q).
Proof.
  intros W Hrow Hcol Hfull Himod Hbig Hmem.
  pose proof (wf_rows s W) as Hrows.
  pose proof (wf_mono_le s W) as Hmono.
  pose proof (wf_ija0 s W) as H0.
  pose proof (wf_size s W) as Hsz.
  pose proof (wf_cap_itype s W) as Hci. pose proof (wf_cols_itype s W) as Hcc.
  pose proof (IMOD_ge (itype s)) as Hge.
  assert (Hs0 : shape0 s + 1 <= ija s (shape0 s)) by (pose proof (Hmono 0 (shape0 s)); lia).
  destruct (vector_insert_resized grow junk_ija junk_a s (ija s (shape0 s))
              (fun _ => col) (fun _ => v) 1 false)
    as [s1 [Hins [Ec [E0 [E1 [Ei [Ed [En [V1 [V2 [V3 [V4 [_ V5]]]]]]]]]]]]]; try lia.
  destruct (V5 eq_refl) as [A1 [A2 [A3 A4]]].
  rewrite Hins. simpl bind.
  destruct (increment_ia_after_spec s1 row 1) as [m [Hinc [M1 M2]]];
    rewrite ?E0, ?Ec, ?Ei; try lia.
  { intros k Hk. rewrite V1 by lia.
    pose proof (Hmono 0 k). pose proof (Hmono k (shape0 s)). lia. }
  rewrite E0 in Hinc. rewrite Hinc. simpl bind.
  eexists. split; [reflexivity|]. simpl.
  rewrite E0, E1, Ec, Ei, En.
  repeat (split; [reflexivity|]).
  split; [intros k Hk; rewrite M2 by lia; apply V1; lia|].
  split; [intros k Hk; rewrite M1 by lia; rewrite V1 by lia; reflexivity|].
  split; [intros q Hq; rewrite M2 by lia; apply V1; lia|].
  split.
  { rewrite M2 by lia. replace (ija s (shape0 s)) with (ija s (shape0 s) + 0) at 1 by lia.
    rewrite V3 by lia. apply to_itype_small. lia. }
  split.
  { replace (ija s (shape0 s)) with (ija s (shape0 s) + 0) at 1 by lia.
    apply A3. lia. }
  exact A1.
Qed.



(** ** Storages that agree on the used slots *)

(** Well-formedness reads IJA below the size only. *)
Lemma wf_facts_below (s s' : YALE_STORAGE) :
  wf_facts s ->
  shape0 s' = shape0 s -> shape1 s' = shape1 s ->
  capacity s' = capacity s -> itype s' = itype s ->
  (forall q, 0 <= q < ija s (shape0 s) -> ija s' q = ija s q) ->
  wf_facts s'.
Proof.
  intros W E0 E1 Ec Ei Hija.
  pose proof (wf_rows s W) as Hrows.
  pose proof (wf_mono_le s W) as Hmono.
  pose proof (wf_ija0 s W) as H0.
  assert (Hlow : forall k, 0 <= k <= shape0 s ->
            shape0 s + 1 <= ija s k <= ija s (shape0 s)).
  { intros k Hk. pose proof (Hmono 0 k). pose proof (Hmono k (shape0 s)). lia. }
  assert (Hptr : forall k, 0 <= k <= shape0 s -> ija s' k = ija s k).
  { intros k Hk. apply Hija. pose proof (Hlow k Hk). lia. }
  constructor; rewrite ?E0, ?E1, ?Ec, ?Ei.
  - exact Hrows.
  - apply (wf_cols s W).
  - rewrite Hptr by lia. exact H0.
  - intros i Hi. rewrite !Hptr by lia. apply (wf_mono s W i Hi).
  - intros i p Hi. rewrite !Hptr by lia. intros Hp.
    pose proof (Hlow i ltac:(lia)). pose proof (Hlow (i + 1) ltac:(lia)).
    rewrite Hija by lia. apply (wf_col s W i p Hi Hp).
  - intros i p Hi. rewrite !Hptr by lia. intros Hp1 Hp2.
    pose proof (Hlow i ltac:(lia)). pose proof (Hlow (i + 1) ltac:(lia)).
    rewrite !Hija by lia. apply (wf_next s W i p Hi Hp1 Hp2).
  - rewrite Hptr by lia. apply (wf_size s W).
  - apply (wf_cap_itype s W).
  - apply (wf_cols_itype s W).
Qed.

(** Two storages with the same IJA below the size read every cell of the
    shape at the same slot, a slot below the size. *)
Lemma ref_value_same_slot (fuel : nat) (s s' : YALE_STORAGE) (row col : Z) :
  wf_facts s ->
  positions_fit_int s ->
  0 <= row < shape0 s ->
  0 <= col < shape1 s ->
  capacity s < Z.of_nat fuel ->
  shape0 s' = shape0 s -> shape1 s' = shape1 s ->
  capacity s' = capacity s -> itype s' = itype s ->
  (forall q, 0 <= q < ija s (shape0 s) -> ija s' q = ija s q) ->
  exists pos,
    0 <= pos < ija s (shape0 s) /\
    ref_value fuel s (mkSlice row col true) = Ok (a s pos) /\
    ref_value fuel s' (mkSlice row col true) = Ok (a s' pos).
Proof.
  intros W Hint Hrow Hcol Hfuel E0 E1 Ec Ei Hija.
  pose proof (wf_facts_below s s' W E0 E1 Ec Ei Hija) as W'.
  pose proof (wf_rows s W) as Hrows.
  pose proof (wf_mono_le s W) as Hmono.
  pose proof (wf_ija0 s W) as H0.
  assert (Hlow : forall k, 0 <= k <= shape0 s ->
            shape0 s + 1 <= ija s k <= ija s (shape0 s)).
  { intros k Hk. pose proof (Hmono 0 k). pose proof (Hmono k (shape0 s)). lia. }
  assert (Hptr : forall k, 0 <= k <= shape0 s -> ija s' k = ija s k).
  { intros k Hk. apply Hija. pose proof (Hlow k Hk). lia. }
  assert (Hst : forall p, stored_at s' row col p <-> stored_at s row col p).
  { intros p. unfold stored_at. rewrite !Hptr by lia.
    pose proof (Hlow row ltac:(lia)). pose proof (Hlow (row + 1) ltac:(lia)).
    split; intros [Hp Hk]; (split; [exact Hp|]).
    - rewrite <- Hija by lia. exact Hk.
    - rewrite Hija by lia. exact Hk. }
  destruct (ref_value_cases fuel s row col W Hint Hrow Hcol Hfuel) as [pos [Hv Hcases]].
  exists pos.
  pose proof (Hlow row ltac:(lia)). pose proof (Hlow (row + 1) ltac:(lia)).
  split.
  { destruct Hcases as [[He Hp]|[[Hn [Hp Hk]]|[Hn [Hp Hno]]]]; lia. }
  split; [exact Hv|].
  apply ref_value_at; rewrite ?E0, ?E1, ?Ec; try assumption.
  - unfold positions_fit_int in *. rewrite Ec. exact Hint.
  - destruct Hcases as [[He Hp]|[[Hn Hp]|[Hn [Hp Hno]]]].
    + left. split; assumption.
    + right. left. split; [exact Hn|]. apply Hst. exact Hp.
    + right. right. split; [exact Hn|]. split; [exact Hp|].
      intros p Hp'. apply (Hno p). apply Hst. exact Hp'.
Qed.

(** ** Copying and casting, read back *)

Lemma to_dtype_in_dtype (d : dtype_t) (v : Z) : in_dtype d (to_dtype d v) = true.
Proof.
  unfold in_dtype, to_dtype. rewrite andb_true_iff, Z.leb_le, Z.leb_le.
  pose proof (Z.mod_pos_bound (v - dtype_min d) (2 ^ dtype_bits d)) as Hm.
  destruct d; unfold dtype_min, dtype_max, dtype_bits in *; simpl in *; lia.
Qed.

(** The layout of the storage cast_copy builds. *)
Lemma cast_copy_layout (junk_ija junk_a : array) (rhs : YALE_STORAGE)
  (new_dtype : dtype_t) :
  wf_facts rhs ->
  exists lhs,
    cast_copy junk_ija junk_a rhs new_dtype = Ok lhs /\
    shape0 lhs = shape0 rhs /\ shape1 lhs = shape1 rhs /\
    itype lhs = itype rhs /\ ndnz lhs = ndnz rhs /\
    capacity lhs = capacity rhs /\ dtype lhs = new_dtype /\
    (forall q, 0 <= q < ija rhs (shape0 rhs) -> ija lhs q = ija rhs q) /\
    (forall q, 0 <= q < ija rhs (shape0 rhs) ->
       a lhs q = if dtype_eqb (dtype rhs) new_dtype then a rhs q
                 else to_dtype new_dtype (a rhs q)).
Proof.
  intros W.
  pose proof (wf_rows rhs W) as Hrows. pose proof (wf_ija0 rhs W) as H0.
  pose proof (wf_size rhs W) as Hsz.
  pose proof (wf_mono_le rhs W 0 (shape0 rhs)) as Hmono.
  set (size := ija rhs (shape0 rhs)) in *.
  assert (Hsize : shape0 rhs + 1 <= size <= capacity rhs) by lia.
  assert (Hget : get_size rhs = Ok size).
  { unfold get_size, rd_ija. rewrite rd_ok by lia. reflexivity. }
  destruct (copy_loop (fun v => v) (capacity rhs) (ija rhs) (capacity rhs) junk_ija size)
    as [mi [Hmi [Hi1 Hi2]]]; try lia.
  unfold cast_copy. rewrite Hget. simpl.
  unfold copy_alloc_struct. rewrite Hget. simpl.
  unfold rd_ija at 1. rewrite Hmi. simpl.
  destruct (dtype_eqb (dtype rhs) new_dtype) eqn:Ed.
  - destruct (copy_loop (fun v => v) (capacity rhs) (a rhs) (capacity rhs) junk_a size)
      as [ma [Hma [Ha1 Ha2]]]; try lia.
    unfold rd_a at 1. rewrite Hma. simpl.
    eexists. split; [reflexivity|]. simpl.
    repeat (split; [reflexivity|]).
    split; [exact Hi1|exact Ha1].
  - destruct (copy_loop (to_dtype new_dtype) (capacity rhs) (a rhs) (capacity rhs) junk_a size)
      as [ma [Hma [Ha1 Ha2]]]; try lia.
    unfold rd_a at 1. rewrite Hma. simpl.
    eexists. split; [reflexivity|]. simpl.
    repeat (split; [reflexivity|]).
    split; [exact Hi1|exact Ha1].
Qed.

Lemma dtype_eqb_eq (d e : dtype_t) : dtype_eqb d e = true -> d = e.
Proof. destruct d, e; simpl; intros H; try discriminate; reflexivity. Qed.



(** ** The storage built from old Yale triples *)

(** create_from_old_yale on valid triples builds a well-formed storage with
    no slack: its capacity is its size, [rows + ndnz + 1], where ndnz is the
    number of entries of the triples off the diagonal; its used cells hold
    values of the kind asked for. *)
Theorem create_from_old_yale_well_formed (itype_by_shape : Z -> Z -> itype_t)
  (junk_ija junk_a : array) (dt : dtype_t) (rows cols : Z) (ir jr ar : array) :
  valid_old_yale rows cols ir jr = true ->
  rows + nd_before ir jr rows + 1 < IMOD (itype_by_shape rows cols) ->
  cols < IMOD (itype_by_shape rows cols) ->
  exists s,
    create_from_old_yale itype_by_shape junk_ija junk_a dt rows cols ir jr ar = Ok s /\
    well_formed s = true /\
    cells_typed s = true /\
    shape0 s = rows /\ shape1 s = cols /\ dtype s = dt /\
    itype s = itype_by_shape rows cols /\
    ndnz s = nd_before ir jr rows /\
    ija s (shape0 s) = rows + ndnz s + 1 /\
    capacity s = rows + ndnz s + 1.
Proof.
  intros Hv Hci Hcc.
  pose proof (valid_old_yale_facts rows cols ir jr Hv) as V.
  destruct (create_from_old_yale_layout dt rows cols ir jr ar
              (rows + nd_before ir jr rows + 1) V eq_refl
              itype_by_shape junk_ija junk_a Hci)
    as [s [Hs [Hit L]]].
  assert (W : wf_facts s).
  { apply (bridge_layout_wf dt rows cols ir jr ar
             (rows + nd_before ir jr rows + 1) V eq_refl s L);
      rewrite Hit; assumption. }
  pose proof (old_rows _ _ _ _ V) as Hrows.
  destruct L as [L0 [L1 [Lc [Ld [Ln [Lp [Le [Lg Lz]]]]]]]].
  exists s. split; [exact Hs|].
  split; [apply facts_well_formed; exact W|].
  split.
  { unfold cells_typed. rewrite all_range_spec. intros q Hq.
    rewrite L0, Lp in Hq by lia. rewrite Ld.
    destruct (Z.lt_ge_cases q rows) as [Hlt|Hge].
    - rewrite Lg by lia. apply to_dtype_in_dtype.
    - destruct (Z.eq_dec q rows) as [->|Hne].
      + rewrite Lz. destruct dt; reflexivity.
      + (* a slot of some row *)
        assert (Hrow : exists i, 0 <= i < rows /\ ija s i <= q < ija s (i + 1)).
        { assert (H : forall n : nat, Z.of_nat n <= rows ->
                    rows + 1 <= q < ija s (Z.of_nat n) ->
                    exists i, 0 <= i < rows /\ ija s i <= q < ija s (i + 1)).
          { induction n as [|n IH]; intros Hn Hqn.
            - change (Z.of_nat 0) with 0 in Hqn. rewrite Lp, nd_before_0 in Hqn by lia. lia.
            - destruct (Z.lt_ge_cases q (ija s (Z.of_nat n))) as [Hl|Hg].
              + apply IH; lia.
              + exists (Z.of_nat n). split; [lia|].
                replace (Z.of_nat n + 1) with (Z.of_nat (S n)) by lia. lia. }
          apply (H (Z.to_nat rows)); [lia|].
          rewrite Z2Nat.id by lia. rewrite Lp by lia. lia. }
        destruct Hrow as [i [Hi Hp]].
        rewrite !Lp in Hp by lia.
        destruct (slot_surj rows ir jr i q Hi Hp) as [q0 [Hq0 [Hn0 Hs0]]].
        destruct (Le i q0 Hi Hq0 Hn0) as [_ E2]. rewrite Hs0 in E2. rewrite E2.
        apply to_dtype_in_dtype. }
  rewrite Ln, L0.
  split; [reflexivity|]. split; [exact L1|]. split; [exact Ld|].
  split; [exact Hit|]. split; [reflexivity|].
  split; [rewrite Lp by lia; lia|exact Lc].
Qed.

(** ** Whole-matrix equality of storages with the same structure *)

(** A search loop whose passes return [false] or go on. *)
Lemma find_n_all (body : Z -> outcome (option bool)) (P : Z -> bool)
  (n : nat) (i : Z) :
  (forall k, i <= k < i + Z.of_nat n ->
     body k = Ok (if P k then None else Some false)) ->
  find_n n i body = Ok (if all_n n i P then None else Some false).
Proof.
  revert i. induction n as [|n IH]; intros i H; [reflexivity|].
  simpl. rewrite H by lia. destruct (P i); simpl; [|reflexivity].
  apply IH. intros k Hk. apply H. lia.
Qed.

Lemma find_range_all (body : Z -> outcome (option bool)) (P : Z -> bool)
  (lo hi : Z) :
  (forall k, lo <= k < hi -> body k = Ok (if P k then None else Some false)) ->
  find_range lo hi body = Ok (if all_range lo hi P then None else Some false).
Proof.
  intros H. unfold find_range, all_range. apply find_n_all.
  intros k Hk. apply H. lia.
Qed.

(** ndrow_is_empty as a test of the values of the range. *)
Lemma ndrow_is_empty_zeros (s : YALE_STORAGE) (lo hi : Z) :
  0 <= lo -> hi <= capacity s ->
  ndrow_is_empty s lo hi = Ok (all_range lo hi (fun p => a s p =? 0)).
Proof.
  intros Hlo Hhi. unfold ndrow_is_empty.
  destruct (lo =? hi) eqn:E.
  - apply Z.eqb_eq in E. subst hi. unfold all_range.
    replace (Z.to_nat (lo - lo)) with O by lia. reflexivity.
  - rewrite (find_range_all _ (fun p => a s p =? 0)).
    + simpl. destruct (all_range lo hi _); reflexivity.
    + intros k Hk. unfold rd_a. rewrite rd_ok by lia. simpl.
      destruct (a s k =? 0); reflexivity.
Qed.

(** ndrow_is_empty says whether every value of the range is zero: a range
    of explicit zeros counts as empty, and so does a range without a
    position. *)
Theorem ndrow_is_empty_iff_zeros (s : YALE_STORAGE) (lo hi : Z) :
  0 <= lo -> hi <= capacity s ->
  exists b,
    ndrow_is_empty s lo hi = Ok b /\
    (b = true <-> forall p, lo <= p < hi -> a s p = 0).
Proof.
  intros Hlo Hhi. eexists. split; [apply ndrow_is_empty_zeros; assumption|].
  rewrite all_range_spec. split; intros H p Hp.
  - apply Z.eqb_eq. apply H. exact Hp.
  - apply Z.eqb_eq. apply H. exact Hp.
Qed.

(** One pass of the merge of two ranges with the same columns. *)
Lemma ndrow_step_aligned (l r : YALE_STORAGE) (hi p c : Z) :
  itype r = itype l ->
  hi <= capacity l -> hi <= capacity r -> hi < IMOD (itype l) -> 0 <= p < hi ->
  snd (ndrow_step l r hi hi (mkMerge p p c c (Z.min c c) false false))
  = if a l p =? a r p
    then Ok (inl (if p + 1 <? hi
                  then mkMerge (p + 1) (p + 1) (ija l (p + 1)) (ija r (p + 1))
                               (Z.min (ija l (p + 1)) (ija r (p + 1))) false false
                  else mkMerge (p + 1) (p + 1) c c (Z.min c c) true true))
    else Ok (inr false).
Proof.
  intros Hkind Hl Hr Himod Hp.
  unfold ndrow_step, tbind, trd, trd_rij, tret.
  rewrite ?(rd_ija_as_same _ _ _ Hkind). unfold rd_ija. simpl.
  rewrite Z.eqb_refl. rewrite !rd_ok by lia. simpl.
  rewrite (Z.eqb_sym (a r p) (a l p)).
  destruct (a l p =? a r p); simpl; [|reflexivity].
  rewrite !to_itype_small by lia.
  destruct (p + 1 <? hi) eqn:E; simpl.
  - apply Z.ltb_lt in E. rewrite !rd_ok by lia. simpl. reflexivity.
  - reflexivity.
Qed.

(** The merge of two ranges with the same columns compares the values
    position by position. *)
Lemma ndrow_loop_aligned (l r : YALE_STORAGE) (hi : Z) (fuel : nat) :
  itype r = itype l ->
  hi <= capacity l -> hi <= capacity r -> hi < IMOD (itype l) ->
  forall p,
  0 <= p < hi ->
  hi - p < Z.of_nat fuel ->
  (forall q, p <= q < hi -> ija r q = ija l q) ->
  snd (ndrow_loop fuel l r hi hi
         (mkMerge p p (ija l p) (ija r p) (Z.min (ija l p) (ija r p)) false false))
  = Ok (all_range p hi (fun q => a l q =? a r q)).
Proof.
  intros Hkind Hl Hr Himod.
  induction fuel as [|fuel IH]; intros p Hp Hf Hsame; [lia|].
  simpl ndrow_loop. rewrite snd_tbind.
  rewrite (Hsame p) by lia.
  rewrite ndrow_step_aligned by assumption.
  unfold all_range. replace (Z.to_nat (hi - p)) with (S (Z.to_nat (hi - (p + 1)))) by lia.
  simpl all_n.
  destruct (a l p =? a r p); simpl; [|reflexivity].
  destruct (p + 1 <? hi) eqn:E.
  - apply Z.ltb_lt in E.
    rewrite IH; try lia.
    + reflexivity.
    + intros q Hq. apply Hsame. lia.
  - apply Z.ltb_ge in E. replace (Z.to_nat (hi - (p + 1))) with O by lia.
    destruct fuel as [|fuel]; [lia|]. reflexivity.
Qed.

Lemma ndrow_eqeq_ndrow_aligned (l r : YALE_STORAGE) (lo hi : Z) (fuel : nat) :
  itype r = itype l ->
  0 <= lo < hi -> hi <= capacity l -> hi <= capacity r -> hi < IMOD (itype l) ->
  hi - lo < Z.of_nat fuel ->
  (forall q, lo <= q < hi -> ija r q = ija l q) ->
  snd (ndrow_eqeq_ndrow fuel l r lo hi lo hi)
  = Ok (all_range lo hi (fun q => a l q =? a r q)).
Proof.
  intros Hkind Hlo Hl Hr Himod Hf Hsame. unfold ndrow_eqeq_ndrow.
  rewrite !snd_tbind. unfold trd, trd_rij.
  rewrite ?(rd_ija_as_same _ _ _ Hkind). unfold rd_ija. simpl. rewrite !rd_ok by lia.
  rewrite ?snd_tbind. simpl. rewrite ?rd_ok by lia.
  apply ndrow_loop_aligned; try assumption; lia.
Qed.

(** eqeq on a right operand that has the index kind of the well-formed
    left operand and its IJA cells below its size. *)
Lemma eqeq_aligned (fuel : nat) (l r : YALE_STORAGE) :
  well_formed l = true ->
  itype r = itype l ->
  capacity l < Z.of_nat fuel ->
  ija l (shape0 l) <= capacity r ->
  (forall q, 0 <= q < ija l (shape0 l) -> ija r q = ija l q) ->
  exists b,
    eqeq fuel l r = Ok b /\
    (b = true <->
     forall q, 0 <= q < ija l (shape0 l) -> q <> shape0 l -> a l q = a r q).
Proof.
  intros Hwf Hkind Hfuel Hcr Hsame. pose proof (well_formed_facts l Hwf) as W.
  pose proof (wf_rows l W) as Hrows. pose proof (wf_ija0 l W) as H0.
  pose proof (wf_size l W) as Hsz. pose proof (wf_cap_itype l W) as Hci.
  pose proof (wf_mono_le l W) as Hmono.
  assert (Hlow : forall k, 0 <= k <= shape0 l ->
            shape0 l + 1 <= ija l k <= ija l (shape0 l)).
  { intros k Hk. pose proof (Hmono 0 k). pose proof (Hmono k (shape0 l)). lia. }
  pose proof (Hlow 0 ltac:(lia)) as Hl0.
  set (D := all_range 0 (shape0 l) (fun k => a l k =? a r k)).
  set (P := fun i => all_range (ija l i) (ija l (i + 1)) (fun q => a l q =? a r q)).
  assert (Hrun : eqeq fuel l r = Ok (D && all_range 0 (shape0 l) P)).
  { unfold eqeq.
    rewrite (find_range_all _ (fun k => a l k =? a r k)).
    2:{ intros k Hk. unfold rd_a. rewrite !rd_ok by lia. simpl.
        destruct (a l k =? a r k); reflexivity. }
    fold D. destruct D; simpl; [|reflexivity].
    rewrite (find_range_all _ P).
    { simpl. destruct (all_range 0 (shape0 l) P); reflexivity. }
    intros i Hi. pose proof (wf_row_bounds l W i Hi) as [B1 [B2 B3]].
    pose proof (Hlow (i + 1) ltac:(lia)) as Hi1.
    unfold eqeq_row. rewrite !(rd_ija_as_same _ _ _ Hkind).
    unfold rd_ija. rewrite !rd_ok by lia. simpl bind.
    rewrite !Hsame by lia.
    rewrite !ndrow_is_empty_zeros by lia. simpl bind.
    unfold P.
    destruct (all_range (ija l i) (ija l (i + 1)) (fun p => a l p =? 0)) eqn:El;
      destruct (all_range (ija l i) (ija l (i + 1)) (fun p => a r p =? 0)) eqn:Er;
      simpl bind.
    - (* both rows hold zeros only *)
      simpl. rewrite all_range_spec in El, Er.
      assert (Ha : all_range (ija l i) (ija l (i + 1)) (fun q => a l q =? a r q) = true).
      { apply all_range_spec. intros q Hq. apply Z.eqb_eq.
        pose proof (El q Hq) as E1. pose proof (Er q Hq) as E2.
        apply Z.eqb_eq in E1, E2. lia. }
      rewrite Ha. reflexivity.
    - simpl. rewrite all_range_spec in El.
      assert (Ha : all_range (ija l i) (ija l (i + 1)) (fun q => a l q =? a r q) = false).
      { apply not_true_is_false. intros Ha. rewrite all_range_spec in Ha.
        apply not_true_iff_false in Er. apply Er. apply all_range_spec.
        intros q Hq. pose proof (El q Hq) as E1. pose proof (Ha q Hq) as E2.
        apply Z.eqb_eq in E1, E2. apply Z.eqb_eq. lia. }
      rewrite Ha. reflexivity.
    - rewrite all_range_spec in Er.
      assert (Ha : all_range (ija l i) (ija l (i + 1)) (fun q => a l q =? a r q) = false).
      { apply not_true_is_false. intros Ha. rewrite all_range_spec in Ha.
        apply not_true_iff_false in El. apply El. apply all_range_spec.
        intros q Hq. pose proof (Er q Hq) as E1. pose proof (Ha q Hq) as E2.
        apply Z.eqb_eq in E1, E2. apply Z.eqb_eq. lia. }
      rewrite Ha. reflexivity.
    - assert (Hne : ija l i < ija l (i + 1)).
      { destruct (Z.eq_dec (ija l i) (ija l (i + 1))) as [He|Hd]; [|lia].
        exfalso. unfold all_range in El. rewrite He in El.
        replace (Z.to_nat (ija l (i + 1) - ija l (i + 1))) with O in El by lia.
        discriminate. }
      rewrite ndrow_eqeq_ndrow_aligned; try lia; try exact Hkind.
      + simpl.
        destruct (all_range (ija l i) (ija l (i + 1)) (fun q => a l q =? a r q));
          reflexivity.
      + intros q Hq. apply Hsame. lia. }
  eexists. split; [exact Hrun|].
  rewrite andb_true_iff. unfold D, P. rewrite !all_range_spec. split.
  - intros [Hd Hr] q Hq Hne.
    destruct (Z.lt_ge_cases q (shape0 l)) as [Hlt|Hge].
    + apply Z.eqb_eq. apply Hd. lia.
    + (* a slot of some row *)
      assert (Hrow : exists i, 0 <= i < shape0 l /\ ija l i <= q < ija l (i + 1)).
      { assert (H : forall n : nat, Z.of_nat n <= shape0 l ->
                  q < ija l (Z.of_nat n) ->
                  exists i, 0 <= i < shape0 l /\ ija l i <= q < ija l (i + 1)).
        { induction n as [|n IH]; intros Hn Hqn.
          - change (Z.of_nat 0) with 0 in Hqn. lia.
          - destruct (Z.lt_ge_cases q (ija l (Z.of_nat n))) as [Hl|Hg].
            + apply IH; lia.
            + exists (Z.of_nat n). split; [lia|].
              replace (Z.of_nat n + 1) with (Z.of_nat (S n)) by lia. lia. }
        apply (H (Z.to_nat (shape0 l))); [lia|].
        rewrite Z2Nat.id by lia. lia. }
      destruct Hrow as [i [Hi Hp]].
      specialize (Hr i Hi). rewrite all_range_spec in Hr.
      apply Z.eqb_eq. apply Hr. exact Hp.
  - intros H. split.
    + intros k Hk. apply Z.eqb_eq. apply H; lia.
    + intros i Hi. apply all_range_spec. intros q Hq. apply Z.eqb_eq.
      pose proof (Hlow i ltac:(lia)). pose proof (Hlow (i + 1) ltac:(lia)).
      apply H; lia.
Qed.



Lemma find_n_None_inv {R : Type} (body : Z -> outcome (option R)) (n : nat) (i : Z) :
  find_n n i body = Ok None ->
  forall k, i <= k < i + Z.of_nat n -> body k = Ok None.
Proof.
  revert i. induction n as [|n IH]; intros i H k Hk; [lia|].
  simpl in H. destruct (body i) as [[x|]| | |] eqn:E; simpl in H; try discriminate.
  destruct (Z.eq_dec k i) as [->|Hne]; [exact E|].
  apply (IH (i + 1) H). lia.
Qed.

(** Whatever the two storages are, a call of eqeq that returns true has
    found the diagonals equal: a difference on the diagonal is never
    missed. *)
Theorem eqeq_true_diagonals_agree (fuel : nat) (l r : YALE_STORAGE) :
  eqeq fuel l r = Ok true ->
  forall k, 0 <= k < shape0 l -> a l k = a r k.
Proof.
  intros H k Hk. unfold eqeq in H.
  destruct (find_range 0 (shape0 l) _) as [[b|]| | |] eqn:E in H;
    simpl in H; try discriminate.
  - (* the diagonal loop returns false only *)
    exfalso. inversion H. subst b. clear H.
    unfold find_range in E. revert E.
    generalize 0 at 2. generalize (Z.to_nat (shape0 l - 0)).
    induction n as [|n IH]; intros i E; simpl in E; [discriminate|].
    unfold rd_a, rd in E.
    destruct (in_bounds (capacity l) i); simpl in E; [|discriminate].
    destruct (in_bounds (capacity r) i); simpl in E; [|discriminate].
    destruct (negb (a l i =? a r i)); simpl in E; [discriminate|].
    apply (IH (i + 1) E).
  - unfold find_range in E.
    pose proof (find_n_None_inv _ _ _ E k ltac:(lia)) as Hb. simpl in Hb.
    unfold rd_a, rd in Hb.
    destruct (in_bounds (capacity l) k); simpl in Hb; [|discriminate].
    destruct (in_bounds (capacity r) k); simpl in Hb; [|discriminate].
    destruct (a l k =? a r k) eqn:Ek; simpl in Hb; [|discriminate].
    apply Z.eqb_eq. exact Ek.
Qed.

(** ** The theoretical maximum size *)

(** A strictly increasing range of values below [c] that satisfy [ok] is not
    longer than the number of such values. *)
Lemma sorted_count (f : array) (ok : Z -> bool) (n : nat) :
  forall lo c,
  sorted_range f lo (lo + Z.of_nat n) ->
  (forall p, lo <= p < lo + Z.of_nat n -> 0 <= f p < c /\ ok (f p) = true) ->
  Z.of_nat n <= count_range 0 c ok.
Proof.
  induction n as [|n IH]; intros lo c Hs Hv.
  - destruct (Z.le_gt_cases 0 c) as [Hc|Hc].
    + pose proof (count_range_mono 0 ok 0 c). lia.
    + rewrite count_range_empty by lia. lia.
  - destruct (Hv (lo + Z.of_nat n)) as [Hm Hok]; [lia|].
    set (m := f (lo + Z.of_nat n)) in *.
    assert (Hn : Z.of_nat n <= count_range 0 m ok).
    { apply (IH lo m).
      - intros p q Hp Hpq Hq. apply Hs; lia.
      - intros p Hp. destruct (Hv p) as [Hfp Hokp]; [lia|].
        split; [|exact Hokp]. pose proof (Hs p (lo + Z.of_nat n)). fold m in H. lia. }
    pose proof (count_range_step 0 m ok) as Hstep. rewrite Hok in Hstep.
    pose proof (count_range_mono 0 ok (m + 1) c). lia.
Qed.

(** The number of values of [0, c) that satisfy [P] and are not [j]. *)
Lemma count_range_without (P : Z -> bool) (j : Z) (n : nat) :
  count_range 0 (Z.of_nat n) (fun x => P x && negb (x =? j))
  = count_range 0 (Z.of_nat n) P
    - (if (0 <=? j) && (j <? Z.of_nat n) && P j then 1 else 0).
Proof.
  induction n as [|n IH].
  - rewrite !count_range_empty by lia.
    assert (E : (0 <=? j) && (j <? Z.of_nat 0) = false).
    { destruct (0 <=? j) eqn:A; [|reflexivity]. apply Z.leb_le in A.
      simpl. apply Z.ltb_ge. lia. }
    rewrite E. reflexivity.
  - replace (Z.of_nat (S n)) with (Z.of_nat n + 1) by lia.
    rewrite !count_range_step by lia. rewrite IH.
    destruct (Z.eq_dec (Z.of_nat n) j) as [He|Hne].
    + subst j. rewrite Z.eqb_refl.
      assert (E1 : (Z.of_nat n <? Z.of_nat n) = false) by (apply Z.ltb_ge; lia).
      assert (E2 : (Z.of_nat n <? Z.of_nat n + 1) = true) by (apply Z.ltb_lt; lia).
      assert (E3 : (0 <=? Z.of_nat n) = true) by (apply Z.leb_le; lia).
      rewrite E1, E2, E3. simpl. rewrite andb_false_r.
      destruct (P (Z.of_nat n)); lia.
    + assert (E1 : (Z.of_nat n =? j) = false) by (apply Z.eqb_neq; exact Hne).
      assert (E2 : (j <? Z.of_nat n + 1) = (j <? Z.of_nat n)).
      { destruct (Z.ltb_spec j (Z.of_nat n)); destruct (Z.ltb_spec j (Z.of_nat n + 1));
          try reflexivity; lia. }
      rewrite E1, E2. simpl. rewrite andb_true_r. lia.
Qed.

Lemma count_range_all (n : nat) :
  count_range 0 (Z.of_nat n) (fun _ => true) = Z.of_nat n.
Proof.
  induction n as [|n IH].
  - rewrite count_range_empty by lia. reflexivity.
  - replace (Z.of_nat (S n)) with (Z.of_nat n + 1) by lia.
    rewrite count_range_step by lia. lia.
Qed.

(** The slots a row can hold: a column for every cell off the diagonal. *)
Lemma wf_row_length (s : YALE_STORAGE) (i : Z) :
  wf_facts s -> 0 <= i < shape0 s ->
  ija s (i + 1) - ija s i <= shape1 s - (if i <? shape1 s then 1 else 0).
Proof.
  intros W Hi.
  pose proof (wf_mono s W i Hi) as Hm. pose proof (wf_cols s W) as Hc.
  pose proof (sorted_count (ija s) (fun x => true && negb (x =? i))
                (Z.to_nat (ija s (i + 1) - ija s i)) (ija s i) (shape1 s)) as H.
  rewrite Z2Nat.id in H by lia.
  replace (ija s i + (ija s (i + 1) - ija s i)) with (ija s (i + 1)) in H by lia.
  specialize (H (wf_sorted s W i Hi)).
  assert (Hv : forall p, ija s i <= p < ija s (i + 1) ->
            0 <= ija s p < shape1 s /\ true && negb (ija s p =? i) = true).
  { intros p Hp. destruct (wf_col s W i p Hi Hp) as [C1 C2].
    split; [exact C1|]. simpl. apply negb_true_iff, Z.eqb_neq. exact C2. }
  specialize (H Hv).
  pose proof (count_range_without (fun _ => true) i (Z.to_nat (shape1 s))) as Hw.
  rewrite count_range_all in Hw. rewrite !Z2Nat.id in Hw by lia.
  rewrite Hw in H. rewrite andb_true_r in H.
  destruct (0 <=? i) eqn:A; [|apply Z.leb_gt in A; lia].
  simpl in H. exact H.
Qed.

(** The same for a row that does not store the column [col]. *)
Lemma wf_row_length_absent (s : YALE_STORAGE) (i col : Z) :
  wf_facts s -> 0 <= i < shape0 s -> 0 <= col < shape1 s -> col <> i ->
  (forall p, ~ stored_at s i col p) ->
  ija s (i + 1) - ija s i + 1 <= shape1 s - (if i <? shape1 s then 1 else 0).
Proof.
  intros W Hi Hcol Hne Hno.
  pose proof (wf_mono s W i Hi) as Hm. pose proof (wf_cols s W) as Hc.
  pose proof (sorted_count (ija s)
                (fun x => (true && negb (x =? i)) && negb (x =? col))
                (Z.to_nat (ija s (i + 1) - ija s i)) (ija s i) (shape1 s)) as H.
  rewrite Z2Nat.id in H by lia.
  replace (ija s i + (ija s (i + 1) - ija s i)) with (ija s (i + 1)) in H by lia.
  specialize (H (wf_sorted s W i Hi)).
  assert (Hv : forall p, ija s i <= p < ija s (i + 1) ->
            0 <= ija s p < shape1 s /\
            (true && negb (ija s p =? i)) && negb (ija s p =? col) = true).
  { intros p Hp. destruct (wf_col s W i p Hi Hp) as [C1 C2].
    split; [exact C1|]. simpl. rewrite andb_true_iff, !negb_true_iff, !Z.eqb_neq.
    split; [exact C2|]. intros He. apply (Hno p). split; assumption. }
  specialize (H Hv).
  pose proof (count_range_without (fun x => true && negb (x =? i)) col
                (Z.to_nat (shape1 s))) as Hw2.
  pose proof (count_range_without (fun _ => true) i (Z.to_nat (shape1 s))) as Hw.
  rewrite Hw in Hw2. rewrite count_range_all in Hw2.
  rewrite !Z2Nat.id in Hw2 by lia.
  rewrite Hw2 in H. rewrite andb_true_r in H.
  assert (E1 : (0 <=? col) && (col <? shape1 s) = true).
  { rewrite andb_true_iff, Z.leb_le, Z.ltb_lt. lia. }
  assert (E2 : negb (col =? i) = true) by (apply negb_true_iff, Z.eqb_neq; exact Hne).
  rewrite E1, E2 in H. simpl in H.
  destruct (0 <=? i) eqn:A; [|apply Z.leb_gt in A; lia].
  simpl in H. lia.
Qed.

(** The size of a storage whose rows are bounded, with one more slot
    counted for the row [r0]. *)
Lemma rows_bound (s : YALE_STORAGE) (r0 : Z) :
  0 <= shape1 s ->
  ija s 0 = shape0 s + 1 ->
  (forall i, 0 <= i < shape0 s ->
     ija s (i + 1) - ija s i + (if i =? r0 then 1 else 0)
     <= shape1 s - (if i <? shape1 s then 1 else 0)) ->
  forall k : nat, Z.of_nat k <= shape0 s ->
    ija s (Z.of_nat k) + (if (0 <=? r0) && (r0 <? Z.of_nat k) then 1 else 0)
    <= shape0 s + 1 + Z.of_nat k * shape1 s - Z.min (Z.of_nat k) (shape1 s).
Proof.
  intros Hc H0 Hrow. induction k as [|k IH]; intros Hk.
  - change (Z.of_nat 0) with 0. rewrite H0.
    destruct (Z.leb_spec 0 r0); destruct (Z.ltb_spec r0 0); cbn [andb]; lia.
  - specialize (IH ltac:(lia)). specialize (Hrow (Z.of_nat k) ltac:(lia)).
    replace (Z.of_nat (S k)) with (Z.of_nat k + 1) by lia.
    replace ((Z.of_nat k + 1) * shape1 s) with (Z.of_nat k * shape1 s + shape1 s) by ring.
    destruct (Z.leb_spec 0 r0); destruct (Z.ltb_spec r0 (Z.of_nat k));
      destruct (Z.ltb_spec r0 (Z.of_nat k + 1));
      destruct (Z.eqb_spec (Z.of_nat k) r0);
      destruct (Z.ltb_spec (Z.of_nat k) (shape1 s));
      cbn [andb] in *; lia.
Qed.

Lemma max_size_exact (s : YALE_STORAGE) :
  0 <= shape0 s -> 0 <= shape1 s ->
  shape0 s * shape1 s + shape0 s + 1 < 2 ^ 64 ->
  max_size s = shape0 s + 1 + shape0 s * shape1 s - Z.min (shape0 s) (shape1 s).
Proof.
  intros H0 H1 Hb. unfold max_size.
  assert (0 <= shape0 s * shape1 s) by (apply Z.mul_nonneg_nonneg; assumption).
  rewrite (to_size_t_small (shape0 s * shape1 s)) by lia.
  rewrite (to_size_t_small (shape0 s * shape1 s + 1)) by lia.
  destruct (shape0 s >? shape1 s) eqn:E.
  - assert (shape1 s < shape0 s) by (destruct (Z.gtb_spec (shape0 s) (shape1 s)); [lia|discriminate]).
    rewrite (to_size_t_small (shape0 s - shape1 s)) by lia.
    rewrite to_size_t_small by lia. lia.
  - assert (shape0 s <= shape1 s) by (destruct (Z.gtb_spec (shape0 s) (shape1 s)); [discriminate|lia]).
    lia.
Qed.

(** The size of a well-formed storage is within max_size, the number of
    slots a storage of the shape can ever use: the diagonal, the zero slot
    and one slot for every cell off the diagonal. *)
Theorem well_formed_size_within_max (s : YALE_STORAGE) :
  well_formed s = true ->
  shape0 s * shape1 s + shape0 s + 1 < 2 ^ 64 ->
  max_size s = shape0 s + 1 + shape0 s * shape1 s - Z.min (shape0 s) (shape1 s) /\
  ija s (shape0 s) <= max_size s.
Proof.
  intros Hwf Hb. pose proof (well_formed_facts s Hwf) as W.
  pose proof (wf_rows s W) as Hr. pose proof (wf_cols s W) as Hc.
  rewrite max_size_exact by lia. split; [reflexivity|].
  pose proof (rows_bound s (-1) ltac:(lia) (wf_ija0 s W)) as H.
  specialize (H ltac:(intros i Hi;
                      pose proof (wf_row_length s i W Hi);
                      destruct (i =? -1) eqn:E; [apply Z.eqb_eq in E; lia|lia])).
  specialize (H (Z.to_nat (shape0 s))). rewrite Z2Nat.id in H by lia.
  specialize (H ltac:(lia)). simpl in H. lia.
Qed.

(** A storage that lacks a cell off the diagonal is below the maximum
    size. *)
Lemma absent_size_lt_max (s : YALE_STORAGE) (row col : Z) :
  wf_facts s ->
  0 <= row < shape0 s -> 0 <= col < shape1 s -> col <> row ->
  (forall p, ~ stored_at s row col p) ->
  shape0 s * shape1 s + shape0 s + 1 < 2 ^ 64 ->
  ija s (shape0 s) + 1 <= max_size s.
Proof.
  intros W Hrow Hcol Hne Hno Hb.
  pose proof (wf_rows s W) as Hr. pose proof (wf_cols s W) as Hc.
  rewrite max_size_exact by lia.
  pose proof (rows_bound s row ltac:(lia) (wf_ija0 s W)) as H.
  assert (Hrows : forall i, 0 <= i < shape0 s ->
            ija s (i + 1) - ija s i + (if i =? row then 1 else 0)
            <= shape1 s - (if i <? shape1 s then 1 else 0)).
  { intros i Hi. destruct (Z.eqb_spec i row) as [->|Hd].
    - apply (wf_row_length_absent s row col); assumption.
    - pose proof (wf_row_length s i W Hi). lia. }
  specialize (H Hrows (Z.to_nat (shape0 s))). rewrite Z2Nat.id in H by lia.
  specialize (H ltac:(lia)).
  destruct (Z.leb_spec 0 row); destruct (Z.ltb_spec row (shape0 s));
    cbn [andb] in H; lia.
Qed.

(** increment_ia_after returns whenever the row pointers are within the
    blocks. *)
Lemma increment_ia_after_returns (s : YALE_STORAGE) (i n : Z) :
  0 <= i < shape0 s -> shape0 s < capacity s -> shape0 s + 1 < IMOD (itype s) ->
  exists m, increment_ia_after s (shape0 s) i n = Ok (set_ija s m).
Proof.
  intros Hi Hrows Himod. unfold increment_ia_after.
  rewrite (to_itype_small (itype s) (shape0 s)) by lia.
  rewrite (to_itype_small (itype s) (i + 1)) by lia.
  destruct (shape0 s + 1 =? IMOD (itype s)) eqn:E; [apply Z.eqb_eq in E; lia|].
  destruct (for_range_total
    (fun (k : Z) (m : array) => True)
    (fun k m => x <- rd (capacity s) m k ;;
                wr (capacity s) m k (to_itype (itype s) (x + to_itype (itype s) n)))
    (i + 1) (shape0 s + 1) (ija s)) as [m [Hrun _]].
  - lia.
  - exact I.
  - intros k m Hk _. rewrite rd_ok by lia. simpl bind.
    rewrite wr_ok by lia. eexists. split; [reflexivity|exact I].
  - rewrite Hrun. simpl bind. exists m. reflexivity.
Qed.


(** ** Iteration over the stored entries *)

Lemma zrange_In (n : nat) (lo k : Z) :
  In k (zrange lo n) <-> lo <= k < lo + Z.of_nat n.
Proof.
  revert lo. induction n as [|n IH]; intros lo; simpl.
  - split; [intros []|lia].
  - rewrite IH. lia.
Qed.

Lemma zrange_length (n : nat) (lo : Z) : length (zrange lo n) = n.
Proof. revert lo. induction n as [|n IH]; intros lo; simpl; [|rewrite IH]; reflexivity. Qed.

(** A loop that appends to a list what each pass yields. *)
Lemma for_n_collect {X : Type} (F : Z -> list X)
  (body : Z -> list X -> outcome (list X)) (n : nat) :
  forall i acc,
  (forall k acc', i <= k < i + Z.of_nat n -> body k acc' = Ok (acc' ++ F k)) ->
  for_n n i body acc = Ok (acc ++ flat_map F (zrange i n)).
Proof.
  induction n as [|n IH]; intros i acc H; simpl.
  - rewrite app_nil_r. reflexivity.
  - rewrite H by lia. simpl bind. rewrite IH.
    + rewrite <- app_assoc. reflexivity.
    + intros k acc' Hk. apply H. lia.
Qed.

Lemma for_range_collect {X : Type} (F : Z -> list X)
  (body : Z -> list X -> outcome (list X)) (lo hi : Z) (acc : list X) :
  (forall k acc', lo <= k < hi -> body k acc' = Ok (acc' ++ F k)) ->
  for_range lo hi body acc
  = Ok (acc ++ flat_map F (zrange lo (Z.to_nat (hi - lo)))).
Proof.
  intros H. unfold for_range. apply for_n_collect.
  intros k acc' Hk. apply H. lia.
Qed.

(** The triples the iteration yields on a well-formed storage. *)
Lemma each_stored_list (s : YALE_STORAGE) :
  wf_facts s ->
  yale_each_stored_with_indices s
  = Ok (flat_map (fun k => [(a s k, k, k)]) (zrange 0 (Z.to_nat (shape0 s)))
        ++ flat_map
             (fun i => flat_map (fun p => [(a s p, i, ija s p)])
                         (zrange (ija s i) (Z.to_nat (ija s (i + 1) - ija s i))))
             (zrange 0 (Z.to_nat (shape0 s)))).
Proof.
  intros W. pose proof (wf_rows s W) as Hrows.
  pose proof (wf_mono_le s W) as Hmono. pose proof (wf_ija0 s W) as H0.
  pose proof (wf_size s W) as Hsz.
  unfold yale_each_stored_with_indices.
  rewrite (for_range_collect (fun k => [(a s k, k, k)])).
  2:{ intros k acc Hk. unfold each_diagonal, rd_a.
      pose proof (Hmono 0 (shape0 s)). rewrite rd_ok by lia. reflexivity. }
  simpl bind. rewrite Z.sub_0_r.
  rewrite (for_range_collect
             (fun i => flat_map (fun p => [(a s p, i, ija s p)])
                         (zrange (ija s i) (Z.to_nat (ija s (i + 1) - ija s i))))).
  2:{ intros i acc Hi. pose proof (wf_row_bounds s W i Hi) as [B1 [B2 B3]].
      unfold each_nd_row, rd_ija. rewrite !rd_ok by lia. simpl bind.
      apply for_range_collect. intros p acc' Hp.
      unfold rd_a. rewrite !rd_ok by lia. reflexivity. }
  rewrite Z.sub_0_r. reflexivity.
Qed.

Lemma rows_flat_length (s : YALE_STORAGE) (k : nat) :
  wf_facts s -> Z.of_nat k <= shape0 s ->
  Z.of_nat (length
    (flat_map
       (fun i => flat_map (fun p => [(a s p, i, ija s p)])
                   (zrange (ija s i) (Z.to_nat (ija s (i + 1) - ija s i))))
       (zrange 0 k)))
  = ija s (Z.of_nat k) - ija s 0.
Proof.
  intros W. 
  assert (H : forall (n : nat) (lo : Z), 0 <= lo -> lo + Z.of_nat n <= shape0 s ->
            Z.of_nat (length
              (flat_map
                 (fun i => flat_map (fun p => [(a s p, i, ija s p)])
                             (zrange (ija s i) (Z.to_nat (ija s (i + 1) - ija s i))))
                 (zrange lo n)))
            = ija s (lo + Z.of_nat n) - ija s lo).
  { induction n as [|n IH]; intros lo Hlo Hn.
    - simpl. replace (lo + 0) with lo by lia. lia.
    - cbn [zrange flat_map]. rewrite length_app, Nat2Z.inj_add, IH by lia.
      pose proof (wf_mono s W lo ltac:(lia)).
      assert (Hl : forall (m : nat) (q : Z),
                length (flat_map (fun p => [(a s p, lo, ija s p)]) (zrange q m)) = m).
      { induction m as [|m IHm]; intros q; simpl; [|rewrite IHm]; reflexivity. }
      rewrite Hl. replace (lo + Z.of_nat (S n)) with (lo + 1 + Z.of_nat n) by lia. lia. }
  intros Hk. rewrite (H k 0) by lia. reflexivity.
Qed.


(** ** The C accessor of the element-wise engine *)

(** Operands of different value kinds whose common kind is the kind of the
    left operand: the left operand is not cast, [new_l] stays NULL, and the
    call never returns a storage. With an operator that is not a comparison
    and a right operand that cast_copy accepts, the outcome is the read
    through the NULL pointer. *)
Theorem nm_yale_storage_ew_op_left_kind_wider
  (itype_by_shape : Z -> Z -> itype_t) (NM_YALE_MINIMUM : YALE_STORAGE -> Z)
  (junk_ija junk_a : array) (ew_op_switch : ewop_t -> Z -> Z -> Z)
  (Upcast : dtype_t -> dtype_t -> dtype_t)
  (fuel : nat) (op : ewop_request) (left right : YALE_STORAGE) :
  dtype left <> dtype right ->
  Upcast (dtype left) (dtype right) = dtype left ->
  (forall s,
     nm_yale_storage_ew_op itype_by_shape NM_YALE_MINIMUM junk_ija junk_a
       ew_op_switch Upcast fuel op left right <> Ok s) /\
  (forall op', op = Noncomp op' -> well_formed right = true ->
     nm_yale_storage_ew_op itype_by_shape NM_YALE_MINIMUM junk_ija junk_a
       ew_op_switch Upcast fuel op left right = Fault).
Proof.
  intros Hne Hup.
  assert (E1 : dtype_eqb (dtype left) (dtype right) = false).
  { destruct (dtype_eqb (dtype left) (dtype right)) eqn:E; [|reflexivity].
    apply dtype_eqb_eq in E. contradiction. }
  assert (E2 : dtype_eqb (dtype left) (dtype left) = true)
    by (destruct (dtype left); reflexivity).
  assert (E3 : dtype_eqb (dtype right) (dtype left) = false).
  { destruct (dtype_eqb (dtype right) (dtype left)) eqn:E; [|reflexivity].
    apply dtype_eqb_eq in E. congruence. }
  unfold nm_yale_storage_ew_op. rewrite E1, Hup, E2, E3. simpl bind.
  split.
  - intros s.
    destruct (cast_copy junk_ija junk_a right (dtype left)) as [r'| e | |];
      simpl; try discriminate.
    destruct op; simpl; discriminate.
  - intros op' -> Hwf.
    destruct (cast_copy_layout junk_ija junk_a right (dtype left)
                (well_formed_facts right Hwf)) as [r' [Hr _]].
    rewrite Hr. reflexivity.
Qed.

(** ** Storages laid out by emission in row-major order *)

Section Emitted.

Variable E : Z -> Z -> bool.
Variable V : Z -> Z -> Z.
Variables rows cols : Z.

Hypothesis Hrows : 1 <= rows.
Hypothesis Hcols : 1 <= cols.
Hypothesis Hdiag : forall i, E i i = false.

Lemma emit_before_0 : emit_before E cols 0 = 0.
Proof. reflexivity. Qed.

Lemma emit_before_step (k : Z) :
  0 <= k ->
  emit_before E cols (k + 1) = emit_before E cols k + count_range 0 cols (E k).
Proof.
  intros Hk. unfold emit_before.
  replace (Z.to_nat (k + 1)) with (S (Z.to_nat k)) by lia. simpl.
  replace (Z.of_nat (Z.to_nat k)) with k by lia. reflexivity.
Qed.

Lemma emit_before_le (i j : Z) :
  0 <= i -> i <= j -> 0 <= emit_before E cols i <= emit_before E cols j.
Proof.
  intros Hi Hij.
  assert (H0 : forall n : nat, 0 <= emit_before E cols (Z.of_nat n)).
  { induction n as [|n IH]; [change (Z.of_nat 0) with 0; rewrite emit_before_0; lia|].
    replace (Z.of_nat (S n)) with (Z.of_nat n + 1) by lia.
    rewrite emit_before_step by lia.
    pose proof (count_range_mono 0 (E (Z.of_nat n)) 0 cols). lia. }
  assert (H1 : forall n : nat,
            emit_before E cols i <= emit_before E cols (i + Z.of_nat n)).
  { induction n as [|n IH].
    - replace (i + Z.of_nat 0) with i by lia. lia.
    - replace (i + Z.of_nat (S n)) with (i + Z.of_nat n + 1) by lia.
      rewrite emit_before_step by lia.
      pose proof (count_range_mono 0 (E (i + Z.of_nat n)) 0 cols). lia. }
  split.
  - specialize (H0 (Z.to_nat i)). rewrite Z2Nat.id in H0 by lia. exact H0.
  - specialize (H1 (Z.to_nat (j - i))).
    replace (i + Z.of_nat (Z.to_nat (j - i))) with j in H1 by lia. exact H1.
Qed.

Lemma emit_slot_bounds (i j : Z) :
  0 <= i -> 0 <= j < cols -> E i j = true ->
  rows + 1 + emit_before E cols i <= emit_slot E rows cols i j /\
  emit_slot E rows cols i j < rows + 1 + emit_before E cols (i + 1).
Proof.
  intros Hi Hj He. unfold emit_slot. rewrite emit_before_step by lia.
  pose proof (count_range_mono 0 (E i) 0 j).
  pose proof (count_range_strict 0 (E i) j cols ltac:(lia) ltac:(lia) He). lia.
Qed.

Lemma emit_slot_surj (i p : Z) :
  0 <= i ->
  rows + 1 + emit_before E cols i <= p < rows + 1 + emit_before E cols (i + 1) ->
  exists j, 0 <= j < cols /\ E i j = true /\ emit_slot E rows cols i j = p.
Proof.
  intros Hi Hp. rewrite emit_before_step in Hp by lia.
  destruct (count_range_find 0 cols (E i) (p - (rows + 1 + emit_before E cols i)))
    as [j [Hj [He Hc]]]; [lia|].
  exists j. split; [exact Hj|]. split; [exact He|]. unfold emit_slot. lia.
Qed.

Lemma emit_slot_lt_inv (i j j' : Z) :
  0 <= j -> 0 <= j' ->
  emit_slot E rows cols i j < emit_slot E rows cols i j' -> j < j'.
Proof.
  intros Hj Hj' Hlt. destruct (Z.lt_ge_cases j j') as [H|H]; [exact H|].
  pose proof (count_range_mono 0 (E i) j' j Hj' H).
  unfold emit_slot in Hlt. lia.
Qed.

Lemma emit_slot_inj (i j j' : Z) :
  0 <= j -> 0 <= j' -> E i j = true -> E i j' = true ->
  emit_slot E rows cols i j = emit_slot E rows cols i j' -> j = j'.
Proof.
  intros Hj Hj' He He' Heq. unfold emit_slot in Heq.
  destruct (Z.lt_trichotomy j j') as [Hlt|[Hq|Hgt]]; [|exact Hq|].
  - pose proof (count_range_strict 0 (E i) j j' ltac:(lia) Hlt He). lia.
  - pose proof (count_range_strict 0 (E i) j' j ltac:(lia) Hgt He'). lia.
Qed.

(** A storage with this layout is well formed. *)
Lemma emitted_wf (s : YALE_STORAGE) :
  emitted_layout E V rows cols s ->
  rows + 1 + emit_before E cols rows <= capacity s ->
  capacity s < IMOD (itype s) -> cols < IMOD (itype s) ->
  wf_facts s.
Proof.
  intros [L0 [L1 [Lp Le]]] Hsz Hci Hcc.
  constructor; rewrite ?L0, ?L1; try lia.
  - rewrite Lp, emit_before_0 by lia. lia.
  - intros i Hi. rewrite !Lp by lia.
    pose proof (emit_before_le i (i + 1)). lia.
  - intros i p Hi Hp. rewrite !Lp in Hp by lia.
    destruct (emit_slot_surj i p ltac:(lia) Hp) as [j [Hj [He <-]]].
    destruct (Le i j Hi Hj He) as [-> _].
    split; [exact Hj|]. intros ->. rewrite Hdiag in He. discriminate.
  - intros i p Hi Hp1 Hp2. rewrite !Lp in Hp1, Hp2 by lia.
    pose proof (emit_before_le i (i + 1)) as Hnd.
    destruct (emit_slot_surj i p ltac:(lia)) as [j [Hj [He Hs]]]; [lia|].
    destruct (emit_slot_surj i (p + 1) ltac:(lia)) as [j' [Hj' [He' Hs']]]; [lia|].
    rewrite <- Hs' at 1. rewrite <- Hs.
    destruct (Le i j Hi Hj He) as [-> _].
    destruct (Le i j' Hi Hj' He') as [-> _].
    apply (emit_slot_lt_inv i); lia.
  - rewrite Lp by lia. lia.
Qed.

(** The cells it stores are those [E] selects. *)
Lemma emitted_stored (s : YALE_STORAGE) (i j p : Z) :
  emitted_layout E V rows cols s ->
  0 <= i < rows -> 0 <= j < cols ->
  stored_at s i j p <-> E i j = true /\ p = emit_slot E rows cols i j.
Proof.
  intros [L0 [L1 [Lp Le]]] Hi Hj. unfold stored_at. rewrite !Lp by lia. split.
  - intros [Hp Hk].
    destruct (emit_slot_surj i p ltac:(lia) Hp) as [j' [Hj' [He' Hs']]].
    destruct (Le i j' Hi Hj' He') as [Hc _]. rewrite Hs' in Hc.
    assert (Hjj : j' = j) by congruence. clear Hc. subst j'.
    split; [exact He'|]. symmetry. exact Hs'.
  - intros [He ->]. destruct (Le i j Hi Hj He) as [Hc _].
    split; [|exact Hc]. apply emit_slot_bounds; [lia|exact Hj|exact He].
Qed.

(** Reading it: the diagonal slot, the value of a selected cell, or the
    zero slot. *)
Lemma emitted_read (fuel : nat) (s : YALE_STORAGE) (i j : Z) :
  emitted_layout E V rows cols s ->
  rows + 1 + emit_before E cols rows <= capacity s ->
  capacity s < IMOD (itype s) -> cols < IMOD (itype s) ->
  capacity s < 2 ^ 31 -> capacity s < Z.of_nat fuel ->
  0 <= i < rows -> 0 <= j < cols ->
  ref_value fuel s (mkSlice i j true)
  = Ok (if i =? j then a s i else if E i j then V i j else a s rows).
Proof.
  intros L Hsz Hci Hcc Hint Hfuel Hi Hj.
  pose proof (emitted_wf s L Hsz Hci Hcc) as W.
  pose proof L as [L0 [L1 [Lp Le]]].
  destruct (Z.eqb_spec i j) as [He|Hne].
  - apply ref_value_at; rewrite ?L0, ?L1; try assumption.
    left. split; [exact He|reflexivity].
  - destruct (E i j) eqn:Ee.
    + destruct (Le i j Hi Hj Ee) as [_ <-].
      apply ref_value_at; rewrite ?L0, ?L1; try assumption.
      right. left. split; [exact Hne|].
      apply (emitted_stored s i j _ L Hi Hj). split; [exact Ee|reflexivity].
    + rewrite <- L0.
      apply ref_value_at; rewrite ?L0, ?L1; try assumption.
      right. right. split; [exact Hne|]. split; [reflexivity|].
      intros p Hp. apply (emitted_stored s i j p L Hi Hj) in Hp.
      destruct Hp as [Hp _]. rewrite Ee in Hp. discriminate.
Qed.

End Emitted.

(** ** Slicing by copy *)

Lemma count_range_le_pred (P Q : Z -> bool) (lo hi : Z) :
  (forall k, lo <= k < hi -> P k = true -> Q k = true) ->
  count_range lo hi P <= count_range lo hi Q.
Proof.
  intros H.
  destruct (Z.le_gt_cases hi lo) as [Hle|Hgt].
  { rewrite !count_range_empty by lia. lia. }
  assert (Hn : forall n : nat, lo + Z.of_nat n <= hi ->
            count_range lo (lo + Z.of_nat n) P <= count_range lo (lo + Z.of_nat n) Q).
  { induction n as [|n IH]; intros Hb.
    - rewrite !count_range_empty by lia. lia.
    - replace (lo + Z.of_nat (S n)) with (lo + Z.of_nat n + 1) by lia.
      rewrite !count_range_step by lia. specialize (IH ltac:(lia)).
      specialize (H (lo + Z.of_nat n) ltac:(lia)).
      destruct (P (lo + Z.of_nat n)); destruct (Q (lo + Z.of_nat n)); try lia;
        specialize (H eq_refl); discriminate. }
  specialize (Hn (Z.to_nat (hi - lo))).
  replace (lo + Z.of_nat (Z.to_nat (hi - lo))) with hi in Hn by lia. apply Hn. lia.
Qed.

(** The slots emitted for a shape are at most its cells off the diagonal. *)
Lemma emit_before_bound (E : Z -> Z -> bool) (cols : Z) :
  0 <= cols ->
  (forall i j, E i j = true -> j <> i) ->
  forall k : nat,
    emit_before E cols (Z.of_nat k) <= Z.of_nat k * cols - Z.min (Z.of_nat k) cols.
Proof.
  intros Hc Hd. induction k as [|k IH].
  - change (Z.of_nat 0) with 0. unfold emit_before. simpl. lia.
  - replace (Z.of_nat (S k)) with (Z.of_nat k + 1) by lia.
    unfold emit_before in *. replace (Z.to_nat (Z.of_nat k + 1)) with (S k) by lia.
    rewrite Nat2Z.id in IH. simpl emit_before_n.
    pose proof (count_range_le_pred (E (Z.of_nat k))
                  (fun x => true && negb (x =? Z.of_nat k)) 0 cols) as Hle.
    assert (Hp : forall j, 0 <= j < cols -> E (Z.of_nat k) j = true ->
              true && negb (j =? Z.of_nat k) = true).
    { intros j Hj He. simpl. apply negb_true_iff, Z.eqb_neq. apply (Hd _ _ He). }
    specialize (Hle Hp).
    pose proof (count_range_without (fun _ => true) (Z.of_nat k) (Z.to_nat cols)) as Hw.
    rewrite count_range_all in Hw. rewrite !Z2Nat.id in Hw by lia.
    rewrite Hw in Hle. rewrite andb_true_r in Hle.
    replace ((Z.of_nat k + 1) * cols) with (Z.of_nat k * cols + cols) by ring.
    destruct (Z.leb_spec 0 (Z.of_nat k)); [|lia].
    destruct (Z.ltb_spec (Z.of_nat k) cols); cbn [andb] in Hle; lia.
Qed.

Lemma IMOD_le (it : itype_t) : IMOD it <= 2 ^ 64.
Proof. destruct it; unfold IMOD; simpl; lia. Qed.

Lemma find_n_scan (len : Z) (m : array) (l : Z) (n : nat) :
  forall p, 0 <= p -> p + Z.of_nat n <= len ->
  find_n n p (fun c => x <- rd len m c ;; Ok (if x =? l then Some c else None))
  = Ok (scan_n n m p l).
Proof.
  induction n as [|n IH]; intros p Hp Hn; [reflexivity|].
  simpl. rewrite rd_ok by lia. simpl.
  destruct (m p =? l); [reflexivity|]. apply IH; lia.
Qed.

Section SliceCopy.

Variable storage : YALE_STORAGE.
Variables off0 off1 len0 len1 : Z.

Hypothesis W : wf_facts storage.
Hypothesis Hoff0 : 0 <= off0.
Hypothesis Hoff1 : 0 <= off1.
Hypothesis Hlen0 : 1 <= len0.
Hypothesis Hlen1 : 1 <= len1.
Hypothesis Hin0 : off0 + len0 <= shape0 storage.
Hypothesis Hin1 : off1 + len1 <= shape1 storage.
Hypothesis Hint : capacity storage < 2 ^ 31.

Local Abbreviation E := (slice_emits storage off0 off1).
Local Abbreviation Vv := (slice_value storage off0 off1).

Lemma slice_emits_diag (i : Z) : E i i = false.
Proof. unfold slice_emits. rewrite Z.eqb_refl. reflexivity. Qed.

Lemma slice_emits_off (i j : Z) : E i j = true -> j <> i.
Proof.
  unfold slice_emits. intros H. apply andb_true_iff in H. destruct H as [H _].
  apply negb_true_iff, Z.eqb_neq in H. exact H.
Qed.

(** The search of get in a row of the source. *)
Lemma get_find_scan (k l : Z) :
  0 <= k < shape0 storage ->
  get_find storage k l
  = Ok (scan_n (Z.to_nat (ija storage (k + 1) - ija storage k))
          (ija storage) (ija storage k) l).
Proof.
  intros Hk. pose proof (wf_row_bounds storage W k Hk) as [B1 [B2 B3]].
  pose proof (wf_rows storage W).
  unfold get_find, rd_ija. rewrite !rd_ok by lia. simpl bind.
  unfold find_range. apply find_n_scan; lia.
Qed.

(** What the second pass finds for a cell of the slice. *)
Lemma get_found (k l : Z) :
  0 <= k < shape0 storage ->
  (if k =? l then
     v <- rd_a storage k ;;
     Ok (if negb (v =? 0) then Some v else None)
   else
     c <- get_find storage k l ;;
     match c with
     | Some c => v <- rd_a storage c ;; Ok (Some v)
     | None => Ok None
     end) = Ok (src_found storage k l).
Proof.
  intros Hk. pose proof (wf_row_bounds storage W k Hk) as [B1 [B2 B3]].
  pose proof (wf_rows storage W).
  unfold src_found. destruct (k =? l).
  - unfold rd_a. rewrite rd_ok by lia. simpl.
    destruct (a storage k =? 0); reflexivity.
  - rewrite get_find_scan by exact Hk. simpl bind.
    destruct (scan_n _ _ _ l) as [c|] eqn:Es; [|reflexivity].
    apply scan_n_Some in Es. destruct Es as [Hc _].
    unfold rd_a. rewrite rd_ok by lia. reflexivity.
Qed.

(** The first pass at one cell. *)
Lemma get_count_cell_spec (i j n : Z) :
  0 <= i < len0 -> 0 <= j < len1 -> 0 <= n < 2 ^ 63 ->
  get_count_cell storage off0 off1 i j n
  = Ok (n + (if E i j then 1 else 0)).
Proof.
  intros Hi Hj Hn. pose proof (wf_rows storage W).
  assert (Hk : 0 <= i + off0 < shape0 storage) by lia.
  pose proof (wf_row_bounds storage W _ Hk) as [B1 [B2 B3]].
  pose proof (wf_size storage W) as Hsz.
  pose proof (wf_cols_itype storage W) as Hcc.
  pose proof (IMOD_le (itype storage)) as H64.
  unfold get_count_cell, slice_emits, src_found.
  rewrite (to_size_t_small (i + off0)) by lia.
  rewrite (to_size_t_small (j + off1)) by lia.
  rewrite (to_size_t_small (n + 1)) by lia.
  destruct (j =? i); simpl; [f_equal; lia|].
  destruct (i + off0 =? j + off1).
  - unfold rd_a. rewrite rd_ok by lia. simpl.
    destruct (a storage (i + off0) =? 0); simpl; f_equal; lia.
  - rewrite get_find_scan by exact Hk. simpl bind.
    destruct (scan_n _ _ _ _); simpl; f_equal; lia.
Qed.

(** The first pass counts the slots the second pass emits. *)
Lemma get_count_spec :
  len0 * len1 < 2 ^ 62 ->
  for_range 0 len0
    (fun i ndnz =>
       for_range 0 len1 (get_count_cell storage off0 off1 i) ndnz) 0
  = Ok (emit_before E len1 len0).
Proof.
  intros Hbig.
  assert (Hrow : forall i n, 0 <= i < len0 -> 0 <= n -> n + len1 < 2 ^ 63 ->
            for_range 0 len1 (get_count_cell storage off0 off1 i) n
            = Ok (n + count_range 0 len1 (E i))).
  { intros i n Hi Hn Hb.
    destruct (for_range_total
                (fun j m => m = n + count_range 0 j (E i))
                (get_count_cell storage off0 off1 i) 0 len1 n) as [m [Hrun Hm]].
    - lia.
    - rewrite count_range_empty by lia. lia.
    - intros j m Hj ->.
      pose proof (count_range_mono 0 (E i) 0 j).
      pose proof (count_range_le_len 0 (E i) j).
      rewrite get_count_cell_spec by lia.
      eexists. split; [reflexivity|]. rewrite count_range_step by lia. lia.
    - rewrite Hrun, Hm. reflexivity. }
  destruct (for_range_total
              (fun i m => m = emit_before E len1 i)
              (fun i ndnz =>
                 for_range 0 len1 (get_count_cell storage off0 off1 i) ndnz)
              0 len0 0) as [m [Hrun Hm]].
  - lia.
  - reflexivity.
  - intros i m Hi ->.
    pose proof (emit_before_le E len1 Hlen1 0 i) as Hle.
    pose proof (emit_before_bound E len1 ltac:(lia) slice_emits_off (Z.to_nat i)) as Hb.
    rewrite Z2Nat.id in Hb by lia.
    assert (i * len1 <= len0 * len1) by nia.
    assert (len1 <= len0 * len1) by nia.
    specialize (Hle ltac:(lia) ltac:(lia)).
    rewrite Hrow by lia.
    eexists. split; [reflexivity|]. rewrite emit_before_step by lia. reflexivity.
  - rewrite Hrun, Hm. reflexivity.
Qed.

(** The second pass at one cell: the state for (i, j) becomes the state
    for (i, j + 1). *)
Lemma get_copy_cell_spec (it : itype_t) (dcap : Z) (i j : Z)
  (st : Z * Z * array * array) :
  0 <= i < len0 -> 0 <= j < len1 ->
  len0 + 1 + emit_before E len1 len0 <= dcap ->
  dcap < IMOD it -> len1 < IMOD it ->
  get_inv storage off0 off1 len0 len1 i j st ->
  exists st',
    get_copy_cell storage it dcap len0 off0 off1 i j st = Ok st' /\
    get_inv storage off0 off1 len0 len1 i (j + 1) st'.
Proof.
  intros Hi Hj Hcap Hci Hcc Hinv.
  destruct st as [[[pos val] dj] da].
  destruct Hinv as [I1 [I2 [I3 [I4 [I5 I6]]]]].
  pose proof (wf_rows storage W) as Hrows.
  pose proof (wf_cols_itype storage W) as Hcs.
  pose proof (IMOD_le (itype storage)) as H64.
  pose proof (IMOD_le it) as H64'.
  assert (Hk : 0 <= i + off0 < shape0 storage) by lia.
  pose proof (wf_row_bounds storage W _ Hk) as [B1 [B2 B3]].
  pose proof (emit_before_le E len1 Hlen1 0 i ltac:(lia) ltac:(lia)) as Hb0.
  pose proof (emit_before_le E len1 Hlen1 (i + 1) len0 ltac:(lia) ltac:(lia)) as Hb1.
  pose proof (count_range_mono 0 (E i) 0 j ltac:(lia) ltac:(lia)) as Hc0.
  assert (Hstep : emit_slot E len0 len1 i (j + 1)
                  = emit_slot E len0 len1 i j + (if E i j then 1 else 0)).
  { unfold emit_slot. rewrite count_range_step by lia. lia. }
  assert (Hlow : forall i' j', 0 <= i' -> 0 <= j' ->
            len0 + 1 <= emit_slot E len0 len1 i' j').
  { intros i' j' Hi' Hj'. unfold emit_slot.
    pose proof (emit_before_le E len1 Hlen1 0 i' ltac:(lia) ltac:(lia)).
    pose proof (count_range_mono 0 (E i') 0 j' ltac:(lia) ltac:(lia)). lia. }
  assert (Hprev : forall i' j', 0 <= i' -> 0 <= j' < len1 ->
            i' < i \/ (i' = i /\ j' < j) -> E i' j' = true ->
            emit_slot E len0 len1 i' j' < emit_slot E len0 len1 i j).
  { intros i' j' Hi' Hj' Hord He.
    destruct Hord as [Hlt|[-> Hlt]].
    - destruct (emit_slot_bounds E len0 len1 i' j' Hi' Hj' He) as [_ S2].
      pose proof (emit_before_le E len1 Hlen1 (i' + 1) i ltac:(lia) ltac:(lia)).
      unfold emit_slot at 2. lia.
    - unfold emit_slot.
      pose proof (count_range_strict 0 (E i) j' j ltac:(lia) Hlt He). lia. }
  unfold get_copy_cell.
  rewrite (to_size_t_small (i + off0)) by lia.
  rewrite (to_size_t_small (j + off1)) by lia.
  rewrite get_found by exact Hk. simpl bind.
  destruct (src_found storage (i + off0) (j + off1)) as [v|] eqn:Ef.
  - destruct (Z.eqb_spec i j) as [Hij|Hij].
    + (* a cell of the diagonal of the destination *)
      subst j. rewrite wr_ok by lia. simpl bind.
      eexists. split; [reflexivity|].
      assert (Ee : E i i = false) by apply slice_emits_diag.
      rewrite Ee in Hstep.
      split; [lia|]. split; [exact I2|]. split; [exact I3|].
      split.
      { intros i' j' Hi' Hj' Hord He.
        assert (Hord' : i' < i \/ (i' = i /\ j' < i)).
        { destruct Hord as [Hl|[-> Hl]]; [left; exact Hl|].
          right. split; [reflexivity|].
          destruct (Z.eq_dec j' i) as [->|Hd]; [rewrite Ee in He; discriminate|lia]. }
        pose proof (Hlow i' j' Hi' ltac:(lia)).
        rewrite upd_other by lia. apply I4; assumption. }
      split.
      { intros c Hc. destruct (Z.eq_dec c i) as [->|Hd].
        - rewrite upd_same.
          destruct (Z.ltb_spec i i); destruct (Z.eqb_spec i i);
            destruct (Z.ltb_spec i (i + 1)); destruct (Z.ltb_spec i len1);
            cbn [andb orb]; try lia.
          unfold slice_value. rewrite Ef. reflexivity.
        - rewrite upd_other by exact Hd. rewrite (I5 c Hc).
          destruct (Z.eqb_spec c i); [contradiction|].
          cbn [andb orb]. reflexivity. }
      rewrite upd_other by lia. exact I6.
    + (* a cell off the diagonal: a new slot *)
      assert (Ee : E i j = true).
      { unfold slice_emits. rewrite Ef.
        destruct (Z.eqb_spec j i); [lia|reflexivity]. }
      rewrite Ee in Hstep.
      destruct (emit_slot_bounds E len0 len1 i j ltac:(lia) Hj Ee) as [S1 S2].
      subst pos.
      rewrite (to_itype_small it j) by lia.
      rewrite !wr_ok by lia. simpl bind.
      rewrite (to_size_t_small (emit_slot E len0 len1 i j + 1)) by lia.
      rewrite (to_itype_small it (emit_slot E len0 len1 i j + 1)) by lia.
      set (pos := emit_slot E len0 len1 i j) in *.
      destruct (for_range_total
        (fun c (m : array) =>
           (forall x, i < x < c -> m x = pos + 1) /\
           (forall x, x <= i \/ c <= x -> m x = upd dj pos j x))
        (fun c m => wr dcap m c (pos + 1)) (i + 1) (len0 + 1) (upd dj pos j))
        as [dj' [Hrun [J1 J2]]].
      * lia.
      * split; [intros x Hx; lia|reflexivity].
      * intros c m Hc [J1 J2]. rewrite wr_ok by lia.
        eexists. split; [reflexivity|]. split.
        -- intros x Hx. destruct (Z.eq_dec x c) as [->|Hd].
           ++ apply upd_same.
           ++ rewrite upd_other by exact Hd. apply J1. lia.
        -- intros x Hx. rewrite upd_other by lia. apply J2. lia.
      * rewrite Hrun. simpl bind. eexists. split; [reflexivity|].
        split; [lia|].
        split.
        { intros c Hc. rewrite J2 by lia. rewrite upd_other by lia. apply I2. exact Hc. }
        split; [intros c Hc; apply J1; lia|].
        split.
        { intros i' j' Hi' Hj' Hord He.
          destruct (Z.eq_dec i' i) as [->|Hdi].
          - destruct (Z.eq_dec j' j) as [->|Hdj].
            + fold pos. rewrite J2 by lia. rewrite !upd_same.
              split; [reflexivity|]. unfold slice_value. rewrite Ef. reflexivity.
            + assert (Hlt : emit_slot E len0 len1 i j' < pos)
                by (apply Hprev; try lia; exact He).
              pose proof (Hlow i j' ltac:(lia) ltac:(lia)).
              rewrite J2 by lia. rewrite !upd_other by lia.
              apply I4; try lia; exact He.
          - assert (Hlt : emit_slot E len0 len1 i' j' < pos)
              by (apply Hprev; try lia; exact He).
            pose proof (Hlow i' j' ltac:(lia) ltac:(lia)).
            rewrite J2 by lia. rewrite !upd_other by lia.
            apply I4; try lia; exact He. }
        split.
        { intros c Hc. rewrite upd_other by lia. rewrite (I5 c Hc).
          destruct (Z.eqb_spec c i); destruct (Z.ltb_spec c j);
            destruct (Z.ltb_spec c (j + 1)); cbn [andb orb];
            try reflexivity; try lia. }
        rewrite upd_other by lia. exact I6.
  - (* nothing found: the state stays *)
    assert (Ee : E i j = false).
    { unfold slice_emits. rewrite Ef. apply andb_false_r. }
    rewrite Ee in Hstep.
    eexists. split; [reflexivity|].
    split; [lia|]. split; [exact I2|]. split; [exact I3|].
    split.
    { intros i' j' Hi' Hj' Hord He.
      assert (Hord' : i' < i \/ (i' = i /\ j' < j)).
      { destruct Hord as [Hl|[-> Hl]]; [left; exact Hl|].
        right. split; [reflexivity|].
        destruct (Z.eq_dec j' j) as [->|Hd]; [rewrite Ee in He; discriminate|lia]. }
      apply I4; assumption. }
    split; [|exact I6].
    intros c Hc. rewrite (I5 c Hc).
    destruct (Z.eqb_spec c i); destruct (Z.ltb_spec c j);
      destruct (Z.ltb_spec c (j + 1)); cbn [andb orb];
      try reflexivity; try lia.
    (* c = i = j: the diagonal cell holds no value *)
    assert (c = j) by lia. subst c. subst j.
    rewrite orb_false_r.
    destruct ((i <? i) && (i <? len1)) eqn:Eb.
    + apply andb_true_iff in Eb. destruct Eb as [Eb _]. apply Z.ltb_lt in Eb. lia.
    + unfold slice_value. rewrite Ef. reflexivity.
Qed.

Lemma get_inv_next_row (i : Z) (st : Z * Z * array * array) :
  0 <= i < len0 ->
  get_inv storage off0 off1 len0 len1 i len1 st ->
  get_inv storage off0 off1 len0 len1 (i + 1) 0 st.
Proof.
  intros Hi Hinv. destruct st as [[[pos val] dj] da].
  destruct Hinv as [I1 [I2 [I3 [I4 [I5 I6]]]]].
  assert (Hpos : emit_slot E len0 len1 (i + 1) 0 = emit_slot E len0 len1 i len1).
  { unfold emit_slot. rewrite emit_before_step by lia.
    rewrite (count_range_empty 0 0) by lia. lia. }
  split; [lia|].
  split.
  { intros c Hc. destruct (Z.eq_dec c (i + 1)) as [->|Hd].
    - rewrite I3 by lia. rewrite I1. unfold emit_slot.
      rewrite emit_before_step by lia. lia.
    - apply I2. lia. }
  split; [intros c Hc; apply I3; lia|].
  split.
  { intros i' j' Hi' Hj' Hord He. apply I4; try assumption.
    destruct Hord as [Hl|[-> Hl]]; [|lia].
    destruct (Z.eq_dec i' i) as [->|Hd]; [right; lia|left; lia]. }
  split; [|exact I6].
  intros c Hc. rewrite (I5 c Hc).
  destruct (Z.ltb_spec c i); destruct (Z.ltb_spec c (i + 1));
    destruct (Z.eqb_spec c i); destruct (Z.eqb_spec c (i + 1));
    destruct (Z.ltb_spec c len1); destruct (Z.ltb_spec c 0);
    cbn [andb orb]; try reflexivity; lia.
Qed.

(** The second pass. *)
Lemma get_rows_spec (it : itype_t) (dcap : Z) (st : Z * Z * array * array) :
  len0 + 1 + emit_before E len1 len0 <= dcap ->
  dcap < IMOD it -> len1 < IMOD it ->
  get_inv storage off0 off1 len0 len1 0 0 st ->
  exists st',
    for_range 0 len0
      (fun i st =>
         for_range 0 len1 (get_copy_cell storage it dcap len0 off0 off1 i) st) st
    = Ok st' /\
    get_inv storage off0 off1 len0 len1 len0 0 st'.
Proof.
  intros Hcap Hci Hcc Hinv.
  apply (for_range_total
           (fun i st => get_inv storage off0 off1 len0 len1 i 0 st)).
  - lia.
  - exact Hinv.
  - intros i st0 Hi Hinv0.
    destruct (for_range_total
                (fun j st => get_inv storage off0 off1 len0 len1 i j st)
                (get_copy_cell storage it dcap len0 off0 off1 i) 0 len1 st0)
      as [st1 [Hrun Hinv1]].
    + lia.
    + exact Hinv0.
    + intros j st2 Hj Hinv2. apply get_copy_cell_spec; assumption.
    + exists st1. split; [exact Hrun|]. apply get_inv_next_row; assumption.
Qed.

(** A cell of the source reads as the value get finds for it, or as zero
    when get finds none. *)
Lemma src_read (fuel : nat) (k l : Z) :
  a storage (shape0 storage) = 0 ->
  capacity storage < Z.of_nat fuel ->
  0 <= k < shape0 storage -> 0 <= l < shape1 storage ->
  ref_value fuel storage (mkSlice k l true)
  = Ok (match src_found storage k l with Some v => v | None => 0 end).
Proof.
  intros Hz Hfuel Hk Hl.
  pose proof (wf_mono storage W k Hk) as Hm.
  destruct (ref_value_cases fuel storage k l W Hint Hk Hl Hfuel) as [p [Hv Hcases]].
  rewrite Hv. f_equal. unfold src_found.
  destruct Hcases as [[He Hp]|[[Hn [Hp Hc]]|[Hn [Hp Hno]]]].
  - subst l p. rewrite Z.eqb_refl.
    destruct (Z.eqb_spec (a storage k) 0) as [H0|H0]; [exact H0|reflexivity].
  - destruct (Z.eqb_spec k l) as [?|_]; [contradiction|].
    destruct (scan_n _ _ _ l) as [q|] eqn:Es.
    + apply scan_n_Some in Es. destruct Es as [Hq Hkq]. f_equal.
      apply (stored_at_unique storage k l p q W Hk); split; try assumption; lia.
    + exfalso. apply (scan_n_None _ _ _ _ Es p); [lia|exact Hc].
  - destruct (Z.eqb_spec k l) as [?|_]; [contradiction|].
    destruct (scan_n _ _ _ l) as [q|] eqn:Es.
    + exfalso. apply scan_n_Some in Es. destruct Es as [Hq Hkq].
      apply (Hno q). split; [lia|exact Hkq].
    + subst p. exact Hz.
Qed.

End SliceCopy.

(** init on a block with room for the row pointers. *)
Lemma init_spec (cdz : YALE_STORAGE -> outcome YALE_STORAGE) (it : itype_t)
  (ns : YALE_STORAGE) :
  clears_diagonal cdz ->
  0 <= shape0 ns -> shape0 ns + 1 < IMOD it -> shape0 ns + 1 <= capacity ns ->
  exists mi ma,
    init cdz it ns = Ok (set_a (set_ija ns mi) ma) /\
    (forall c, 0 <= c <= shape0 ns -> mi c = shape0 ns + 1) /\
    (forall c, ~ 0 <= c <= shape0 ns -> mi c = ija ns c) /\
    (forall k, 0 <= k <= shape0 ns -> ma k = 0) /\
    (forall k, ~ 0 <= k <= shape0 ns -> ma k = a ns k).
Proof.
  intros Hclear Hrows Himod Hcap. unfold init.
  rewrite to_itype_small by lia.
  destruct (for_range_total
    (fun c (m : array) =>
       (forall x, 0 <= x < c -> m x = shape0 ns + 1) /\
       (forall x, ~ 0 <= x < c -> m x = ija ns x))
    (fun i m => wr (capacity ns) m i (shape0 ns + 1)) 0 (shape0 ns + 1) (ija ns))
    as [mi [Hrun [J1 J2]]].
  - lia.
  - split; [intros x Hx; lia|reflexivity].
  - intros c m Hc [J1 J2]. rewrite wr_ok by lia.
    eexists. split; [reflexivity|]. split.
    + intros x Hx. destruct (Z.eq_dec x c) as [->|Hd].
      * apply upd_same.
      * rewrite upd_other by exact Hd. apply J1. lia.
    + intros x Hx. rewrite upd_other by lia. apply J2. lia.
  - rewrite Hrun. simpl bind.
    destruct (Hclear (set_ija ns mi)) as [ma [Hc [A1 A2]]]; [simpl; lia|].
    exists mi, ma. split; [exact Hc|].
    split; [intros c Hc'; apply J1; lia|].
    split; [intros c Hc'; apply J2; lia|].
    split; [exact A1|exact A2].
Qed.

(** The zeros written by [ex_clear_diagonal_and_zero]. *)
Lemma ex_clear_diagonal_and_zero_clears : clears_diagonal ex_clear_diagonal_and_zero.
Proof.
  intros s Hs. unfold ex_clear_diagonal_and_zero.
  destruct (for_range_total
    (fun c (m : array) =>
       (forall x, 0 <= x < c -> m x = 0) /\
       (forall x, ~ 0 <= x < c -> m x = a s x))
    (fun i m => wr (capacity s) m i 0) 0 (shape0 s + 1) (a s))
    as [m [Hrun [J1 J2]]].
  - lia.
  - split; [intros x Hx; lia|reflexivity].
  - intros c m Hc [J1 J2]. rewrite wr_ok by lia.
    eexists. split; [reflexivity|]. split.
    + intros x Hx. destruct (Z.eq_dec x c) as [->|Hd].
      * apply upd_same.
      * rewrite upd_other by exact Hd. apply J1. lia.
    + intros x Hx. rewrite upd_other by lia. apply J2. lia.
  - rewrite Hrun. simpl bind. exists m. split; [reflexivity|].
    split; [intros k Hk; apply J1; lia|intros k Hk; apply J2; lia].
Qed.


(** No slot is given when no cell is emitted. *)
Lemma emit_before_none (cols k : Z) :
  0 <= k -> emit_before (fun _ _ => false) cols k = 0.
Proof.
  intros Hk.
  assert (Hc : forall lo hi, count_range lo hi (fun _ => false) = 0).
  { intros lo hi. unfold count_range.
    induction (Z.to_nat (hi - lo)) as [|m IH]; [reflexivity|].
    simpl. rewrite IH. reflexivity. }
  rewrite <- (Z2Nat.id k) by exact Hk.
  induction (Z.to_nat k) as [|m IH]; [reflexivity|].
  replace (Z.of_nat (S m)) with (Z.of_nat m + 1) by lia.
  rewrite emit_before_step by lia. rewrite IH, Hc. reflexivity.
Qed.


(** ** The element-wise engine under every operator *)

(** A loop whose passes either go on or fail for a reason [B]. *)
Lemma for_n_or {St : Type} (I : Z -> St -> Prop) (B : Prop)
  (body : Z -> St -> outcome St) (n : nat) (i : Z) (st : St) :
  I i st ->
  (forall k st0, i <= k < i + Z.of_nat n -> I k st0 ->
     (exists st1, body k st0 = Ok st1 /\ I (k + 1) st1) \/
     (body k st0 = Fault /\ B)) ->
  (exists st', for_n n i body st = Ok st' /\ I (i + Z.of_nat n) st') \/
  (for_n n i body st = Fault /\ B).
Proof.
  revert i st. induction n as [|n IH]; intros i st Hi Hstep.
  - left. exists st. split; [reflexivity|].
    replace (i + Z.of_nat 0) with i by lia. exact Hi.
  - cbn [for_n].
    destruct (Hstep i st ltac:(lia) Hi) as [[st1 [Hb H1]]|[Hb HB]].
    + rewrite Hb. cbn [bind].
      replace (i + Z.of_nat (S n)) with (i + 1 + Z.of_nat n) by lia.
      apply IH; [exact H1|]. intros k st0 Hk. apply Hstep. lia.
    + right. rewrite Hb. split; [reflexivity|exact HB].
Qed.

Lemma for_range_or {St : Type} (I : Z -> St -> Prop) (B : Prop)
  (body : Z -> St -> outcome St) (lo hi : Z) (st : St) :
  lo <= hi ->
  I lo st ->
  (forall k st0, lo <= k < hi -> I k st0 ->
     (exists st1, body k st0 = Ok st1 /\ I (k + 1) st1) \/
     (body k st0 = Fault /\ B)) ->
  (exists st', for_range lo hi body st = Ok st' /\ I hi st') \/
  (for_range lo hi body st = Fault /\ B).
Proof.
  intros Hle Hi Hstep. unfold for_range.
  destruct (for_n_or I B body (Z.to_nat (hi - lo)) lo st Hi) as [[st' [Hf H']]|H].
  - intros k st0 Hk. apply Hstep. lia.
  - left. exists st'. split; [exact Hf|].
    replace (lo + Z.of_nat (Z.to_nat (hi - lo))) with hi in H' by lia. exact H'.
  - right. exact H.
Qed.

Lemma wr_fault (len : Z) (m : array) (i v : Z) :
  len <= i -> wr len m i v = Fault.
Proof.
  intros H. unfold wr, in_bounds.
  destruct (Z.ltb_spec i len); [lia|]. rewrite andb_false_r. reflexivity.
Qed.

Lemma count_range_false_tail (P : Z -> bool) (c c' : Z) :
  0 <= c -> c <= c' ->
  (forall j, c <= j < c' -> P j = false) ->
  count_range 0 c' P = count_range 0 c P.
Proof.
  intros Hc Hle HP.
  assert (H : forall n : nat, c + Z.of_nat n <= c' ->
            count_range 0 (c + Z.of_nat n) P = count_range 0 c P).
  { induction n as [|n IH]; intros Hn.
    - replace (c + Z.of_nat 0) with c by lia. reflexivity.
    - replace (c + Z.of_nat (S n)) with (c + Z.of_nat n + 1) by lia.
      rewrite count_range_step by lia. rewrite IH by lia.
      rewrite HP by lia. lia. }
  specialize (H (Z.to_nat (c' - c))).
  replace (c + Z.of_nat (Z.to_nat (c' - c))) with c' in H by lia.
  apply H. lia.
Qed.

Lemma count_range_gap (P : Z -> bool) (c c' : Z) :
  0 <= c -> c < c' ->
  (forall j, c < j < c' -> P j = false) ->
  count_range 0 c' P = count_range 0 c P + (if P c then 1 else 0).
Proof.
  intros Hc Hlt HP.
  rewrite (count_range_false_tail P (c + 1) c') by (try lia; intros j Hj; apply HP; lia).
  apply count_range_step. lia.
Qed.

(** The column at a position of a row is found there. *)
Lemma nd_found_at (s : YALE_STORAGE) (i p : Z) :
  wf_facts s -> 0 <= i < shape0 s ->
  ija s i <= p < ija s (i + 1) ->
  nd_found s i (ija s p) = Some (a s p).
Proof.
  intros W Hi Hp. unfold nd_found.
  destruct (scan_n _ _ _ _) as [q|] eqn:Es.
  - apply scan_n_Some in Es. destruct Es as [Hq Hk]. f_equal. f_equal.
    apply (stored_at_unique s i (ija s p) q p W Hi); split; try assumption;
      try reflexivity; lia.
  - exfalso. apply (scan_n_None _ _ _ _ Es p); [lia|reflexivity].
Qed.

(** A column between the columns before the position [p] of a row and the
    column at [p] is not in the row. *)
Lemma nd_found_none (s : YALE_STORAGE) (i j p : Z) :
  wf_facts s -> 0 <= i < shape0 s ->
  ija s i <= p <= ija s (i + 1) ->
  (forall q, ija s i <= q < p -> ija s q < j) ->
  j < col_at s i p ->
  nd_found s i j = None.
Proof.
  intros W Hi Hp Hbefore Hj. unfold nd_found.
  destruct (scan_n _ _ _ _) as [q|] eqn:Es; [|reflexivity].
  exfalso. apply scan_n_Some in Es. destruct Es as [Hq Hk].
  destruct (Z.lt_ge_cases q p) as [Hlt|Hge].
  - specialize (Hbefore q ltac:(lia)). lia.
  - unfold col_at in Hj. destruct (Z.ltb_spec p (ija s (i + 1))); [|lia].
    destruct (Z.eq_dec q p) as [->|Hne]; [lia|].
    pose proof (wf_sorted s W i Hi p q ltac:(lia) ltac:(lia) ltac:(lia)). lia.
Qed.

Lemma col_at_bounds (s : YALE_STORAGE) (i p : Z) :
  wf_facts s -> 0 <= i < shape0 s ->
  ija s i <= p <= ija s (i + 1) ->
  0 <= col_at s i p <= shape1 s /\
  (p < ija s (i + 1) -> col_at s i p = ija s p /\ ija s p < shape1 s /\ ija s p <> i) /\
  (p = ija s (i + 1) -> col_at s i p = shape1 s).
Proof.
  intros W Hi Hp. unfold col_at.
  pose proof (wf_cols s W).
  destruct (Z.ltb_spec p (ija s (i + 1))) as [Hlt|Hge].
  - destruct (wf_col s W i p Hi ltac:(lia)) as [C1 C2].
    split; [lia|]. split; [intros _; split; [reflexivity|split; [lia|exact C2]]|lia].
  - split; [lia|]. split; [lia|reflexivity].
Qed.

(** The column after the column at a position. *)
Lemma col_at_next (s : YALE_STORAGE) (i p : Z) :
  wf_facts s -> 0 <= i < shape0 s ->
  ija s i <= p < ija s (i + 1) ->
  ija s p < col_at s i (p + 1).
Proof.
  intros W Hi Hp. unfold col_at.
  destruct (Z.ltb_spec (p + 1) (ija s (i + 1))) as [Hlt|Hge].
  - apply (wf_sorted s W i Hi p (p + 1)); lia.
  - destruct (wf_col s W i p Hi Hp) as [C1 _]. lia.
Qed.

Section ElementwiseAll.

Variable ew_op_switch : ewop_t -> Z -> Z -> Z.
Variable op : ewop_t.
Variables left right : YALE_STORAGE.
Variable dcap : Z.
Variable D : array.

Hypothesis Wl : wf_facts left.
Hypothesis Wr : wf_facts right.
Hypothesis Hs0 : shape0 right = shape0 left.
Hypothesis Hs1 : shape1 right = shape1 left.
Hypothesis Hil : capacity left < 2 ^ 31.
Hypothesis Hir : capacity right < 2 ^ 31.
Hypothesis Hd31 : dcap < 2 ^ 31.
Hypothesis Hkind : itype right = itype left.

Local Abbreviation rows := (shape0 left).
Local Abbreviation cols := (shape1 left).
Local Abbreviation E := (ew_emits ew_op_switch op left right).
Local Abbreviation V := (ew_cell ew_op_switch op left right).
Local Abbreviation inv := (ew_inv ew_op_switch op left right dcap D).
Local Abbreviation between := (ew_between ew_op_switch op left right dcap D).
Local Abbreviation short := (dcap < rows + 1 + emit_before E cols rows).

Lemma ew_emits_diag (i : Z) : E i i = false.
Proof. unfold ew_emits. rewrite Z.eqb_refl. reflexivity. Qed.

Lemma ew_slot_low (i j : Z) :
  0 <= i -> 0 <= j -> rows + 1 + emit_before E cols i <= emit_slot E rows cols i j.
Proof.
  intros Hi Hj. unfold emit_slot.
  pose proof (count_range_mono 0 (E i) 0 j ltac:(lia) ltac:(lia)). lia.
Qed.

Lemma ew_slot_before (i j i' j' : Z) :
  0 <= i' -> 0 <= j' < cols -> 0 <= j ->
  i' < i \/ (i' = i /\ j' < j) -> E i' j' = true ->
  emit_slot E rows cols i' j' < emit_slot E rows cols i j.
Proof.
  intros Hi' Hj' Hj Hord He.
  pose proof (wf_cols left Wl) as Hcols.
  destruct Hord as [Hlt|[-> Hlt]].
  - destruct (emit_slot_bounds E rows cols i' j' Hi' Hj' He) as [_ S2].
    pose proof (emit_before_le E cols Hcols (i' + 1) i ltac:(lia) ltac:(lia)).
    pose proof (ew_slot_low i j ltac:(lia) Hj). lia.
  - unfold emit_slot.
    pose proof (count_range_strict 0 (E i) j' j ltac:(lia) Hlt He). lia.
Qed.

(** A cell that is emitted needs a slot below the size of the result. *)
Lemma ew_slot_short (i j : Z) :
  0 <= i < rows -> 0 <= j < cols -> E i j = true ->
  dcap <= emit_slot E rows cols i j -> short.
Proof.
  intros Hi Hj He Hd.
  pose proof (wf_cols left Wl) as Hcols.
  destruct (emit_slot_bounds E rows cols i j ltac:(lia) Hj He) as [_ S2].
  pose proof (emit_before_le E cols Hcols (i + 1) rows ltac:(lia) ltac:(lia)). lia.
Qed.

(** No cell is emitted at a column that neither side has. *)
Lemma ew_emits_none (i j : Z) :
  nd_found left i j = None -> nd_found right i j = None -> E i j = false.
Proof.
  intros Hl Hr. unfold ew_emits, ew_value. rewrite Hl, Hr. apply andb_false_r.
Qed.

(** One step of the walk over row [i]: the sides that hold the least
    column [c] move on ([dl], [dr]), and the cell (i, c) is emitted or
    not. *)
Lemma ew_advance (i : Z) (st st' : ew_state) (dl dr : Z) (emit : bool) :
  0 <= i < rows ->
  inv i st ->
  (dl = 1 /\ rows + 1 + la_index st < ija left (i + 1) /\
   ija left (rows + 1 + la_index st) = ew_frontier left right i st) \/
  (dl = 0 /\ ew_frontier left right i st < col_at left i (rows + 1 + la_index st)) ->
  (dr = 1 /\ rows + 1 + ra_index st < ija right (i + 1) /\
   ija right (rows + 1 + ra_index st) = ew_frontier left right i st) \/
  (dr = 0 /\ ew_frontier left right i st < col_at right i (rows + 1 + ra_index st)) ->
  E i (ew_frontier left right i st) = emit ->
  (emit = true -> rows + 1 + da_index st < dcap) ->
  la_index st' = la_index st + dl ->
  ra_index st' = ra_index st + dr ->
  da_index st' = da_index st + (if emit then 1 else 0) ->
  d_ija st' = (if emit then upd (d_ija st) (rows + 1 + da_index st)
                                (ew_frontier left right i st)
               else d_ija st) ->
  d_a st' = (if emit then upd (d_a st) (rows + 1 + da_index st)
                              (V i (ew_frontier left right i st))
             else d_a st) ->
  inv i st'.
Proof.
  intros Hi Hinv Hdl Hdr He Hroom Ela Era Eda Edj EdA.
  destruct Hinv as [I1 [I2 [I3 [I4 [I5 [I6 [I7 [I8 [I9 I10]]]]]]]]].
  assert (Hir' : 0 <= i < shape0 right) by lia.
  set (c := ew_frontier left right i st) in *.
  set (pl := rows + 1 + la_index st) in *.
  set (pr := rows + 1 + ra_index st) in *.
  pose proof (wf_cols left Wl) as Hcols.
  destruct (col_at_bounds left i pl Wl Hi I1) as [Bl1 [Bl2 Bl3]].
  destruct (col_at_bounds right i pr Wr Hir' I2) as [Br1 [Br2 Br3]].
  assert (Hc0 : 0 <= c) by (unfold c, ew_frontier; fold pl; fold pr; lia).
  assert (Al : c < col_at left i (pl + dl) /\
               ija left i <= pl + dl <= ija left (i + 1) /\
               forall q, ija left i <= q < pl + dl -> ija left q <= c).
  { destruct Hdl as [[-> [H1 H2]]|[-> H1]].
    - split; [rewrite <- H2; apply col_at_next; try assumption; lia|].
      split; [lia|]. intros q Hq.
      destruct (Z.eq_dec q pl) as [->|Hne]; [lia|].
      specialize (I3 q ltac:(lia)). lia.
    - replace (pl + 0) with pl by lia. split; [exact H1|]. split; [lia|].
      intros q Hq. specialize (I3 q ltac:(lia)). lia. }
  assert (Ar : c < col_at right i (pr + dr) /\
               ija right i <= pr + dr <= ija right (i + 1) /\
               forall q, ija right i <= q < pr + dr -> ija right q <= c).
  { destruct Hdr as [[-> [H1 H2]]|[-> H1]].
    - split; [rewrite <- H2; apply col_at_next; try assumption; lia|].
      split; [lia|]. intros q Hq.
      destruct (Z.eq_dec q pr) as [->|Hne]; [lia|].
      specialize (I4 q ltac:(lia)). lia.
    - replace (pr + 0) with pr by lia. split; [exact H1|]. split; [lia|].
      intros q Hq. specialize (I4 q ltac:(lia)). lia. }
  destruct Al as [Al1 [Al2 Al3]]. destruct Ar as [Ar1 [Ar2 Ar3]].
  destruct (col_at_bounds left i (pl + dl) Wl Hi Al2) as [Bl1' _].
  destruct (col_at_bounds right i (pr + dr) Wr Hir' Ar2) as [Br1' _].
  assert (Hf' : ew_frontier left right i st'
                = Z.min (col_at left i (pl + dl)) (col_at right i (pr + dr))).
  { unfold ew_frontier. rewrite Ela, Era. f_equal; f_equal; unfold pl, pr; lia. }
  set (c' := ew_frontier left right i st') in *.
  assert (Hcc : c < c' <= cols) by (rewrite Hs1 in Br1'; lia).
  assert (Hgap : forall j, c < j < c' -> E i j = false).
  { intros j Hj. apply ew_emits_none.
    - apply (nd_found_none left i j (pl + dl) Wl Hi Al2); [|lia].
      intros q Hq. specialize (Al3 q Hq). lia.
    - apply (nd_found_none right i j (pr + dr) Wr Hir' Ar2); [|lia].
      intros q Hq. specialize (Ar3 q Hq). lia. }
  assert (Hcount : emit_slot E rows cols i c'
                   = emit_slot E rows cols i c + (if emit then 1 else 0)).
  { unfold emit_slot. rewrite (count_range_gap (E i) c c' Hc0 ltac:(lia) Hgap).
    rewrite He. lia. }
  pose proof (emit_before_le E cols Hcols 0 i ltac:(lia) ltac:(lia)) as Hb0.
  rewrite emit_before_0 in Hb0.
  assert (Hslot : rows + 1 <= rows + 1 + da_index st) by lia.
  unfold ew_inv. fold c'.
  replace (rows + 1 + la_index st') with (pl + dl) by (unfold pl; lia).
  replace (rows + 1 + ra_index st') with (pr + dr) by (unfold pr; lia).
  rewrite Eda, Edj, EdA.
  split; [exact Al2|]. split; [exact Ar2|].
  split; [intros q Hq; specialize (Al3 q Hq); lia|].
  split; [intros q Hq; specialize (Ar3 q Hq); lia|].
  split; [destruct emit; lia|].
  split; [rewrite Hcount; lia|].
  split; [destruct emit; [specialize (Hroom eq_refl)|]; lia|].
  split.
  { intros k Hk. destruct emit; [rewrite upd_other by lia|]; apply I8; exact Hk. }
  split.
  { intros i' j' Hi' Hj' Hord He'.
    assert (Hcase : (i' = i /\ j' = c) \/ (i' < i \/ (i' = i /\ j' < c))).
    { destruct Hord as [Hl|[-> Hl]]; [right; left; exact Hl|].
      destruct (Z.lt_trichotomy j' c) as [H|[H|H]].
      - right. right. split; [reflexivity|exact H].
      - left. split; [reflexivity|exact H].
      - rewrite Hgap in He' by lia. discriminate. }
    destruct Hcase as [[-> ->]|Hbefore].
    - rewrite He in He'. destruct emit; [|discriminate].
      rewrite <- I6. rewrite !upd_same. split; reflexivity.
    - pose proof (ew_slot_before i c i' j' Hi' Hj' Hc0 Hbefore He') as Hlt.
      destruct emit; [rewrite !upd_other by lia|]; apply I9; assumption. }
  intros k Hk. destruct emit; [rewrite upd_other by lia|]; apply I10; exact Hk.
Qed.

(** The emission for the cell at the least column. *)
Lemma ew_emit_or (i : Z) (st : ew_state) (tmp : Z) (col : outcome Z) :
  0 <= i < rows -> inv i st ->
  ew_frontier left right i st < cols ->
  col = Ok (ew_frontier left right i st) ->
  E i (ew_frontier left right i st) = negb (tmp =? 0) ->
  (tmp <> 0 -> V i (ew_frontier left right i st) = tmp) ->
  (exists st1,
     ew_emit dcap rows (rows + 1) tmp col st = Ok st1 /\
     la_index st1 = la_index st /\ ra_index st1 = ra_index st /\
     da_index st1 = da_index st + (if negb (tmp =? 0) then 1 else 0) /\
     d_ija st1 = (if negb (tmp =? 0)
                  then upd (d_ija st) (rows + 1 + da_index st)
                           (ew_frontier left right i st)
                  else d_ija st) /\
     d_a st1 = (if negb (tmp =? 0)
                then upd (d_a st) (rows + 1 + da_index st)
                         (V i (ew_frontier left right i st))
                else d_a st) /\
     (negb (tmp =? 0) = true -> rows + 1 + da_index st < dcap)) \/
  (ew_emit dcap rows (rows + 1) tmp col st = Fault /\ short).
Proof.
  intros Hi Hinv Hc Hcol He Hv.
  pose proof Hinv as [I1 [I2 [I3 [I4 [I5 [I6 [I7 [I8 [I9 I10]]]]]]]]].
  assert (Hir' : 0 <= i < shape0 right) by lia.
  destruct (col_at_bounds left i _ Wl Hi I1) as [Bl1 _].
  destruct (col_at_bounds right i _ Wr Hir' I2) as [Br1 _].
  assert (Hc0 : 0 <= ew_frontier left right i st) by (unfold ew_frontier; lia).
  unfold ew_emit.
  destruct (Z.eqb_spec tmp 0) as [Hz|Hnz]; cbn [negb] in *.
  - left. exists st. repeat split; try reflexivity; try lia; try discriminate.
  - destruct (Z.lt_ge_cases (rows + 1 + da_index st) dcap) as [Hlt|Hge].
    + left. rewrite wr_ok by lia. cbn [bind]. rewrite Hcol. cbn [bind].
      rewrite wr_ok by lia. cbn [bind]. rewrite to_uint_small by lia.
      eexists. split; [reflexivity|]. cbn [la_index ra_index da_index d_ija d_a].
      rewrite (Hv Hnz). repeat split; try reflexivity. intros _. exact Hlt.
    + right. rewrite wr_fault by lia. split; [reflexivity|].
      apply (ew_slot_short i (ew_frontier left right i st)); try lia.
      exact He.
Qed.

(** The least column is on the left side only. *)
Lemma ew_step_left (i : Z) (st : ew_state) :
  0 <= i < rows -> inv i st ->
  rows + 1 + la_index st < ija left (i + 1) ->
  ija left (rows + 1 + la_index st) < col_at right i (rows + 1 + ra_index st) ->
  (exists st1,
     (if negb (is_EW_MUL op)
      then ew_left_only ew_op_switch op left dcap rows (rows + 1) st
      else Ok st) = Ok st1 /\
     inv i (ew_next_left st1) /\
     la_index (ew_next_left st1) = la_index st + 1 /\
     ra_index (ew_next_left st1) = ra_index st) \/
  ((if negb (is_EW_MUL op)
    then ew_left_only ew_op_switch op left dcap rows (rows + 1) st
    else Ok st) = Fault /\ short).
Proof.
  intros Hi Hinv Hpl Hlt.
  pose proof Hinv as [I1 [I2 [I3 [I4 [I5 [I6 [I7 [I8 [I9 I10]]]]]]]]].
  assert (Hir' : 0 <= i < shape0 right) by lia.
  set (pl := rows + 1 + la_index st) in *.
  set (pr := rows + 1 + ra_index st) in *.
  destruct (col_at_bounds left i pl Wl Hi I1) as [_ [Bl2 _]].
  destruct (Bl2 Hpl) as [Cl1 [Cl2 Cl3]].
  destruct (wf_col left Wl i pl Hi ltac:(lia)) as [Cl0 _].
  pose proof (wf_row_bounds left Wl i Hi) as [Rl1 [Rl2 Rl3]].
  assert (Hc : ew_frontier left right i st = ija left pl).
  { unfold ew_frontier. fold pl. fold pr. rewrite Cl1. lia. }
  assert (Fl : nd_found left i (ija left pl) = Some (a left pl))
    by (apply nd_found_at; try assumption; lia).
  assert (Fr : nd_found right i (ija left pl) = None).
  { apply (nd_found_none right i _ pr Wr Hir' I2); [|exact Hlt].
    intros q Hq. rewrite <- Hc. apply I4. exact Hq. }
  assert (Hdl : (1 = 1 /\ pl < ija left (i + 1) /\
                 ija left pl = ew_frontier left right i st) \/
                (1 = 0 /\ ew_frontier left right i st < col_at left i pl))
    by (left; repeat split; [exact Hpl|symmetry; exact Hc]).
  assert (Hdr : (0 = 1 /\ pr < ija right (i + 1) /\
                 ija right pr = ew_frontier left right i st) \/
                (0 = 0 /\ ew_frontier left right i st < col_at right i pr))
    by (right; split; [reflexivity|rewrite Hc; exact Hlt]).
  assert (Hnl : la_index (ew_next_left st) = la_index st + 1).
  { unfold ew_next_left. cbn [la_index]. apply to_uint_small. unfold pl in *. lia. }
  destruct (is_EW_MUL op) eqn:Emul; cbn [negb].
  - (* under EW_MUL the entry is skipped *)
    left. exists st. split; [reflexivity|].
    split; [|split; [exact Hnl|reflexivity]].
    apply (ew_advance i st (ew_next_left st) 1 0 false Hi Hinv Hdl Hdr);
      try reflexivity; try discriminate.
    + rewrite Hc. unfold ew_emits, ew_value. rewrite Fl, Fr, Emul.
      apply andb_false_r.
    + exact Hnl.
    + cbn [ew_next_left ra_index]. lia.
    + cbn [ew_next_left da_index]. lia.
  - unfold ew_left_only. unfold rd_a. fold pl. rewrite rd_ok by lia. cbn [bind].
    set (tmp := ew_op_switch op (a left pl) 0).
    assert (Hval : ew_value ew_op_switch op left right i (ija left pl) = Some tmp).
    { unfold ew_value. rewrite Fl, Fr, Emul. reflexivity. }
    destruct (ew_emit_or i st tmp (rd_ija left pl) Hi Hinv)
      as [[st1 [Hrun [S1 [S2 [S3 [S4 [S5 S6]]]]]]]|[Hrun Hshort]].
    + rewrite Hc. exact Cl2.
    + rewrite Hc. unfold rd_ija. apply rd_ok. lia.
    + rewrite Hc. unfold ew_emits. rewrite Hval.
      destruct (Z.eqb_spec (ija left pl) i); [contradiction|reflexivity].
    + intros _. rewrite Hc. unfold ew_cell. rewrite Hval. reflexivity.
    + left. exists st1. split; [exact Hrun|].
      assert (Hnl1 : la_index (ew_next_left st1) = la_index st + 1).
      { unfold ew_next_left. cbn [la_index]. rewrite S1.
        apply to_uint_small. unfold pl in *. lia. }
      split; [|split; [exact Hnl1|cbn [ew_next_left ra_index]; exact S2]].
      apply (ew_advance i st (ew_next_left st1) 1 0 (negb (tmp =? 0))
               Hi Hinv Hdl Hdr).
      * rewrite Hc. unfold ew_emits. rewrite Hval.
        destruct (Z.eqb_spec (ija left pl) i); [contradiction|reflexivity].
      * exact S6.
      * exact Hnl1.
      * cbn [ew_next_left ra_index]. lia.
      * cbn [ew_next_left da_index]. exact S3.
      * cbn [ew_next_left d_ija]. exact S4.
      * cbn [ew_next_left d_a]. exact S5.
    + right. split; [exact Hrun|exact Hshort].
Qed.

(** The least column is on the right side only. *)
Lemma ew_step_right (i : Z) (st : ew_state) :
  0 <= i < rows -> inv i st ->
  rows + 1 + ra_index st < ija right (i + 1) ->
  ija right (rows + 1 + ra_index st) < col_at left i (rows + 1 + la_index st) ->
  (exists st1,
     (if negb (is_EW_MUL op)
      then ew_right_only ew_op_switch op (itype left) right dcap rows (rows + 1) st
      else Ok st) = Ok st1 /\
     inv i (ew_next_right st1) /\
     la_index (ew_next_right st1) = la_index st /\
     ra_index (ew_next_right st1) = ra_index st + 1) \/
  ((if negb (is_EW_MUL op)
    then ew_right_only ew_op_switch op (itype left) right dcap rows (rows + 1) st
    else Ok st) = Fault /\ short).
Proof.
  intros Hi Hinv Hpr Hlt.
  pose proof Hinv as [I1 [I2 [I3 [I4 [I5 [I6 [I7 [I8 [I9 I10]]]]]]]]].
  assert (Hir' : 0 <= i < shape0 right) by lia.
  set (pl := rows + 1 + la_index st) in *.
  set (pr := rows + 1 + ra_index st) in *.
  destruct (col_at_bounds right i pr Wr Hir' I2) as [_ [Br2 _]].
  destruct (Br2 Hpr) as [Cr1 [Cr2 Cr3]].
  destruct (wf_col right Wr i pr Hir' ltac:(lia)) as [Cr0 _].
  pose proof (wf_row_bounds right Wr i Hir') as [Rr1 [Rr2 Rr3]].
  assert (Hc : ew_frontier left right i st = ija right pr).
  { unfold ew_frontier. fold pl. fold pr. rewrite Cr1. lia. }
  assert (Fr : nd_found right i (ija right pr) = Some (a right pr))
    by (apply nd_found_at; try assumption; lia).
  assert (Fl : nd_found left i (ija right pr) = None).
  { apply (nd_found_none left i _ pl Wl Hi I1); [|exact Hlt].
    intros q Hq. rewrite <- Hc. apply I3. exact Hq. }
  assert (Hdl : (0 = 1 /\ pl < ija left (i + 1) /\
                 ija left pl = ew_frontier left right i st) \/
                (0 = 0 /\ ew_frontier left right i st < col_at left i pl))
    by (right; split; [reflexivity|rewrite Hc; exact Hlt]).
  assert (Hdr : (1 = 1 /\ pr < ija right (i + 1) /\
                 ija right pr = ew_frontier left right i st) \/
                (1 = 0 /\ ew_frontier left right i st < col_at right i pr))
    by (left; repeat split; [exact Hpr|symmetry; exact Hc]).
  assert (Hnr : ra_index (ew_next_right st) = ra_index st + 1).
  { unfold ew_next_right. cbn [ra_index]. apply to_uint_small. unfold pr in *. lia. }
  destruct (is_EW_MUL op) eqn:Emul; cbn [negb].
  - (* under EW_MUL the entry is skipped *)
    left. exists st. split; [reflexivity|].
    split; [|split; [reflexivity|exact Hnr]].
    apply (ew_advance i st (ew_next_right st) 0 1 false Hi Hinv Hdl Hdr);
      try reflexivity; try discriminate.
    + rewrite Hc. unfold ew_emits, ew_value. rewrite Fl, Fr, Emul.
      apply andb_false_r.
    + cbn [ew_next_right la_index]. lia.
    + exact Hnr.
    + cbn [ew_next_right da_index]. lia.
  - unfold ew_right_only. rewrite (rd_ija_as_same _ _ _ Hkind).
    unfold rd_a. fold pr. rewrite rd_ok by lia. cbn [bind].
    rewrite Hs0. fold pr.
    set (tmp := ew_op_switch op 0 (a right pr)).
    assert (Hval : ew_value ew_op_switch op left right i (ija right pr) = Some tmp).
    { unfold ew_value. rewrite Fl, Fr, Emul. reflexivity. }
    destruct (ew_emit_or i st tmp (rd_ija right pr) Hi Hinv)
      as [[st1 [Hrun [S1 [S2 [S3 [S4 [S5 S6]]]]]]]|[Hrun Hshort]].
    + rewrite Hc. lia.
    + rewrite Hc. unfold rd_ija. apply rd_ok. lia.
    + rewrite Hc. unfold ew_emits. rewrite Hval.
      destruct (Z.eqb_spec (ija right pr) i); [contradiction|reflexivity].
    + intros _. rewrite Hc. unfold ew_cell. rewrite Hval. reflexivity.
    + left. exists st1. split; [exact Hrun|].
      assert (Hnr1 : ra_index (ew_next_right st1) = ra_index st + 1).
      { unfold ew_next_right. cbn [ra_index]. rewrite S2.
        apply to_uint_small. unfold pr in *. lia. }
      split; [|split; [cbn [ew_next_right la_index]; exact S1|exact Hnr1]].
      apply (ew_advance i st (ew_next_right st1) 0 1 (negb (tmp =? 0))
               Hi Hinv Hdl Hdr).
      * rewrite Hc. unfold ew_emits. rewrite Hval.
        destruct (Z.eqb_spec (ija right pr) i); [contradiction|reflexivity].
      * exact S6.
      * cbn [ew_next_right la_index]. lia.
      * exact Hnr1.
      * cbn [ew_next_right da_index]. exact S3.
      * cbn [ew_next_right d_ija]. exact S4.
      * cbn [ew_next_right d_a]. exact S5.
    + right. split; [exact Hrun|exact Hshort].
Qed.

(** Both sides hold the least column. *)
Lemma ew_step_both (i : Z) (st : ew_state) :
  0 <= i < rows -> inv i st ->
  rows + 1 + la_index st < ija left (i + 1) ->
  rows + 1 + ra_index st < ija right (i + 1) ->
  ija left (rows + 1 + la_index st) = ija right (rows + 1 + ra_index st) ->
  (exists st1,
     ew_emit dcap rows (rows + 1)
       (ew_op_switch op (a left (rows + 1 + la_index st))
                        (a right (rows + 1 + ra_index st)))
       (rd_ija left (rows + 1 + la_index st)) st = Ok st1 /\
     inv i (ew_next_right (ew_next_left st1)) /\
     la_index (ew_next_right (ew_next_left st1)) = la_index st + 1 /\
     ra_index (ew_next_right (ew_next_left st1)) = ra_index st + 1) \/
  (ew_emit dcap rows (rows + 1)
     (ew_op_switch op (a left (rows + 1 + la_index st))
                      (a right (rows + 1 + ra_index st)))
     (rd_ija left (rows + 1 + la_index st)) st = Fault /\ short).
Proof.
  intros Hi Hinv Hpl Hpr Heq.
  pose proof Hinv as [I1 [I2 [I3 [I4 [I5 [I6 [I7 [I8 [I9 I10]]]]]]]]].
  assert (Hir' : 0 <= i < shape0 right) by lia.
  set (pl := rows + 1 + la_index st) in *.
  set (pr := rows + 1 + ra_index st) in *.
  destruct (col_at_bounds left i pl Wl Hi I1) as [_ [Bl2 _]].
  destruct (Bl2 Hpl) as [Cl1 [Cl2 Cl3]].
  destruct (col_at_bounds right i pr Wr Hir' I2) as [_ [Br2 _]].
  destruct (Br2 Hpr) as [Cr1 [Cr2 Cr3]].
  destruct (wf_col left Wl i pl Hi ltac:(lia)) as [Cl0 _].
  pose proof (wf_row_bounds left Wl i Hi) as [Rl1 [Rl2 Rl3]].
  pose proof (wf_row_bounds right Wr i Hir') as [Rr1 [Rr2 Rr3]].
  assert (Hc : ew_frontier left right i st = ija left pl).
  { unfold ew_frontier. fold pl. fold pr. rewrite Cl1, Cr1. lia. }
  assert (Fl : nd_found left i (ija left pl) = Some (a left pl))
    by (apply nd_found_at; try assumption; lia).
  assert (Fr : nd_found right i (ija left pl) = Some (a right pr))
    by (rewrite Heq; apply nd_found_at; try assumption; lia).
  assert (Hdl : (1 = 1 /\ pl < ija left (i + 1) /\
                 ija left pl = ew_frontier left right i st) \/
                (1 = 0 /\ ew_frontier left right i st < col_at left i pl))
    by (left; repeat split; [exact Hpl|symmetry; exact Hc]).
  assert (Hdr : (1 = 1 /\ pr < ija right (i + 1) /\
                 ija right pr = ew_frontier left right i st) \/
                (1 = 0 /\ ew_frontier left right i st < col_at right i pr))
    by (left; repeat split; [exact Hpr|rewrite Hc; symmetry; exact Heq]).
  set (tmp := ew_op_switch op (a left pl) (a right pr)).
  assert (Hval : ew_value ew_op_switch op left right i (ija left pl) = Some tmp).
  { unfold ew_value. rewrite Fl, Fr. reflexivity. }
  destruct (ew_emit_or i st tmp (rd_ija left pl) Hi Hinv)
    as [[st1 [Hrun [S1 [S2 [S3 [S4 [S5 S6]]]]]]]|[Hrun Hshort]].
  - rewrite Hc. exact Cl2.
  - rewrite Hc. unfold rd_ija. apply rd_ok. lia.
  - rewrite Hc. unfold ew_emits. rewrite Hval.
    destruct (Z.eqb_spec (ija left pl) i); [contradiction|reflexivity].
  - intros _. rewrite Hc. unfold ew_cell. rewrite Hval. reflexivity.
  - left. exists st1. split; [exact Hrun|].
    assert (Hnl1 : la_index (ew_next_right (ew_next_left st1)) = la_index st + 1).
    { unfold ew_next_right, ew_next_left. cbn [la_index ra_index]. rewrite S1.
      apply to_uint_small. unfold pl in *. lia. }
    assert (Hnr1 : ra_index (ew_next_right (ew_next_left st1)) = ra_index st + 1).
    { unfold ew_next_right, ew_next_left. cbn [la_index ra_index]. rewrite S2.
      apply to_uint_small. unfold pr in *. lia. }
    split; [|split; [exact Hnl1|exact Hnr1]].
    apply (ew_advance i st (ew_next_right (ew_next_left st1)) 1 1
             (negb (tmp =? 0)) Hi Hinv Hdl Hdr).
    + rewrite Hc. unfold ew_emits. rewrite Hval.
      destruct (Z.eqb_spec (ija left pl) i); [contradiction|reflexivity].
    + exact S6.
    + exact Hnl1.
    + exact Hnr1.
    + cbn [ew_next_right ew_next_left da_index]. exact S3.
    + cbn [ew_next_right ew_next_left d_ija]. exact S4.
    + cbn [ew_next_right ew_next_left d_a]. exact S5.
  - right. split; [exact Hrun|exact Hshort].
Qed.

(** The merge of the two sides of row [i]. *)
Lemma ew_merge_or (i : Z) (fuel : nat) : forall st,
  0 <= i < rows -> inv i st ->
  (ija left (i + 1) - (rows + 1 + la_index st))
  + (ija right (i + 1) - (rows + 1 + ra_index st)) < Z.of_nat fuel ->
  (exists st',
     ew_merge ew_op_switch fuel op left right dcap rows (rows + 1)
       (ija left (i + 1) - (rows + 1)) (ija right (i + 1) - (rows + 1)) st
     = Ok st' /\
     inv i st' /\
     (rows + 1 + la_index st' = ija left (i + 1) \/
      rows + 1 + ra_index st' = ija right (i + 1))) \/
  (ew_merge ew_op_switch fuel op left right dcap rows (rows + 1)
     (ija left (i + 1) - (rows + 1)) (ija right (i + 1) - (rows + 1)) st
   = Fault /\ short).
Proof.
  induction fuel as [|fuel IH]; intros st Hi Hinv Hfuel.
  - destruct Hinv as [I1 [I2 _]]. lia.
  - pose proof Hinv as [I1 [I2 _]].
    assert (Hir' : 0 <= i < shape0 right) by lia.
    pose proof (wf_row_bounds left Wl i Hi) as [Rl1 [Rl2 Rl3]].
    pose proof (wf_row_bounds right Wr i Hir') as [Rr1 [Rr2 Rr3]].
    remember (ew_merge ew_op_switch (S fuel) op left right dcap rows (rows + 1)
                (ija left (i + 1) - (rows + 1)) (ija right (i + 1) - (rows + 1)) st)
      as run eqn:Erun.
    cbn [ew_merge] in Erun.
    destruct (Z.ltb_spec (la_index st) (ija left (i + 1) - (rows + 1))) as [Hl|Hl];
      [destruct (Z.ltb_spec (ra_index st) (ija right (i + 1) - (rows + 1)))
         as [Hr|Hr]|]; cbn [andb] in Erun.
    + rewrite (rd_ija_as_same _ _ _ Hkind) in Erun.
      unfold rd_ija in Erun at 1 2. rewrite Hs0 in Erun.
      rewrite !rd_ok in Erun by lia. cbn [bind] in Erun.
      destruct (col_at_bounds right i _ Wr Hir' I2) as [_ [Br2 _]].
      destruct (Br2 ltac:(lia)) as [Cr1 _].
      destruct (col_at_bounds left i _ Wl Hi I1) as [_ [Bl2 _]].
      destruct (Bl2 ltac:(lia)) as [Cl1 _].
      destruct (Z.eqb_spec (ija left (rows + 1 + la_index st))
                           (ija right (rows + 1 + ra_index st))) as [Heq|Hne].
      * unfold rd_a in Erun. rewrite !rd_ok in Erun by lia. cbn [bind] in Erun.
        destruct (ew_step_both i st Hi Hinv ltac:(lia) ltac:(lia) Heq)
          as [[st1 [Hrun [Hinv1 [L1 R1]]]]|[Hrun Hshort]];
          rewrite Hrun in Erun; cbn [bind] in Erun; subst run.
        -- apply IH; [exact Hi|exact Hinv1|lia].
        -- right. split; [reflexivity|exact Hshort].
      * destruct (Z.ltb_spec (ija left (rows + 1 + la_index st))
                             (ija right (rows + 1 + ra_index st))) as [Hlt|Hge].
        -- destruct (ew_step_left i st Hi Hinv ltac:(lia) ltac:(lia))
             as [[st1 [Hrun [Hinv1 [L1 R1]]]]|[Hrun Hshort]];
             rewrite Hrun in Erun; cbn [bind] in Erun; subst run.
           ++ apply IH; [exact Hi|exact Hinv1|lia].
           ++ right. split; [reflexivity|exact Hshort].
        -- destruct (ew_step_right i st Hi Hinv ltac:(lia) ltac:(lia))
             as [[st1 [Hrun [Hinv1 [L1 R1]]]]|[Hrun Hshort]];
             rewrite Hrun in Erun; cbn [bind] in Erun; subst run.
           ++ apply IH; [exact Hi|exact Hinv1|lia].
           ++ right. split; [reflexivity|exact Hshort].
    + subst run. left. exists st. split; [reflexivity|]. split; [exact Hinv|].
      right. lia.
    + subst run. left. exists st. split; [reflexivity|]. split; [exact Hinv|].
      left. lia.
Qed.

(** The entries the left side has left. *)
Lemma ew_rest_left_or (i : Z) (fuel : nat) : forall st,
  0 <= i < rows -> inv i st ->
  is_EW_MUL op = false ->
  rows + 1 + la_index st = ija left (i + 1) \/
  rows + 1 + ra_index st = ija right (i + 1) ->
  ija left (i + 1) - (rows + 1 + la_index st) < Z.of_nat fuel ->
  (exists st',
     ew_rest_left ew_op_switch fuel op left dcap rows (rows + 1)
       (ija left (i + 1) - (rows + 1)) st = Ok st' /\
     inv i st' /\
     rows + 1 + la_index st' = ija left (i + 1) /\
     ra_index st' = ra_index st) \/
  (ew_rest_left ew_op_switch fuel op left dcap rows (rows + 1)
     (ija left (i + 1) - (rows + 1)) st = Fault /\ short).
Proof.
  induction fuel as [|fuel IH]; intros st Hi Hinv Emul Hend Hfuel.
  - destruct Hinv as [I1 _]. lia.
  - pose proof Hinv as [I1 [I2 _]].
    assert (Hir' : 0 <= i < shape0 right) by lia.
    remember (ew_rest_left ew_op_switch (S fuel) op left dcap rows (rows + 1)
                (ija left (i + 1) - (rows + 1)) st) as run eqn:Erun.
    cbn [ew_rest_left] in Erun.
    destruct (Z.ltb_spec (la_index st) (ija left (i + 1) - (rows + 1))) as [Hl|Hl].
    + assert (Hr : rows + 1 + ra_index st = ija right (i + 1)) by lia.
      destruct (col_at_bounds right i _ Wr Hir' I2) as [_ [_ Br3]].
      destruct (wf_col left Wl i (rows + 1 + la_index st) Hi ltac:(lia)) as [Cl0 _].
      pose proof (ew_step_left i st Hi Hinv ltac:(lia)
                    ltac:(rewrite (Br3 Hr); lia)) as Hstep.
      rewrite Emul in Hstep. cbn [negb] in Hstep.
      destruct Hstep as [[st1 [Hrun [Hinv1 [L1 R1]]]]|[Hrun Hshort]];
        rewrite Hrun in Erun; cbn [bind] in Erun; subst run.
      * destruct (IH (ew_next_left st1) Hi Hinv1 Emul ltac:(right; lia) ltac:(lia))
          as [[st' [Hrun' [Hinv' [L' R']]]]|Hf].
        -- left. exists st'. split; [exact Hrun'|]. split; [exact Hinv'|].
           split; [exact L'|lia].
        -- right. exact Hf.
      * right. split; [reflexivity|exact Hshort].
    + subst run. left. exists st. split; [reflexivity|]. split; [exact Hinv|].
      split; [lia|reflexivity].
Qed.

(** The entries the right side has left. *)
Lemma ew_rest_right_or (i : Z) (fuel : nat) : forall st,
  0 <= i < rows -> inv i st ->
  is_EW_MUL op = false ->
  rows + 1 + la_index st = ija left (i + 1) ->
  ija right (i + 1) - (rows + 1 + ra_index st) < Z.of_nat fuel ->
  (exists st',
     ew_rest_right ew_op_switch fuel op (itype left) right dcap rows (rows + 1)
       (ija right (i + 1) - (rows + 1)) st = Ok st' /\
     inv i st' /\
     rows + 1 + ra_index st' = ija right (i + 1) /\
     la_index st' = la_index st) \/
  (ew_rest_right ew_op_switch fuel op (itype left) right dcap rows (rows + 1)
     (ija right (i + 1) - (rows + 1)) st = Fault /\ short).
Proof.
  induction fuel as [|fuel IH]; intros st Hi Hinv Emul Hend Hfuel.
  - destruct Hinv as [_ [I2 _]]. lia.
  - pose proof Hinv as [I1 [I2 _]].
    assert (Hir' : 0 <= i < shape0 right) by lia.
    remember (ew_rest_right ew_op_switch (S fuel) op (itype left) right dcap rows (rows + 1)
                (ija right (i + 1) - (rows + 1)) st) as run eqn:Erun.
    cbn [ew_rest_right] in Erun.
    destruct (Z.ltb_spec (ra_index st) (ija right (i + 1) - (rows + 1))) as [Hr|Hr].
    + destruct (col_at_bounds left i _ Wl Hi I1) as [_ [_ Bl3]].
      destruct (wf_col right Wr i (rows + 1 + ra_index st) Hir' ltac:(lia))
        as [Cr0 _].
      pose proof (ew_step_right i st Hi Hinv ltac:(lia)
                    ltac:(rewrite (Bl3 Hend); lia)) as Hstep.
      rewrite Emul in Hstep. cbn [negb] in Hstep.
      destruct Hstep as [[st1 [Hrun [Hinv1 [L1 R1]]]]|[Hrun Hshort]];
        rewrite Hrun in Erun; cbn [bind] in Erun; subst run.
      * destruct (IH (ew_next_right st1) Hi Hinv1 Emul ltac:(lia) ltac:(lia))
          as [[st' [Hrun' [Hinv' [R' L']]]]|Hf].
        -- left. exists st'. split; [exact Hrun'|]. split; [exact Hinv'|].
           split; [exact R'|lia].
        -- right. exact Hf.
      * right. split; [reflexivity|exact Hshort].
    + subst run. left. exists st. split; [reflexivity|]. split; [exact Hinv|].
      split; [lia|reflexivity].
Qed.

(** The start of row [i]: the row pointer is written. *)
Lemma ew_row_start (i : Z) (st : ew_state) (v : Z) :
  0 <= i < rows -> between i st ->
  v = rows + 1 + da_index st ->
  inv i (mkEw (la_index st) (ra_index st) (da_index st)
              (upd (d_ija st) i v) (d_a st)).
Proof.
  intros Hi [B1 [B2 [B3 [B4 [B5 [B6 [B7 B8]]]]]]] Hv.
  assert (Hir' : 0 <= i < shape0 right) by lia.
  pose proof (wf_row_bounds left Wl i Hi) as [Rl1 [Rl2 Rl3]].
  pose proof (wf_row_bounds right Wr i Hir') as [Rr1 [Rr2 Rr3]].
  pose proof (wf_cols left Wl) as Hcols.
  unfold ew_inv. cbn [la_index ra_index da_index d_ija d_a].
  set (st0 := mkEw (la_index st) (ra_index st) (da_index st)
                   (upd (d_ija st) i v) (d_a st)).
  set (c := ew_frontier left right i st0).
  assert (Hc : c = Z.min (col_at left i (ija left i)) (col_at right i (ija right i))).
  { unfold c, ew_frontier, st0. cbn [la_index ra_index]. rewrite B1, B2. reflexivity. }
  destruct (col_at_bounds left i (ija left i) Wl Hi ltac:(lia)) as [Bl1 _].
  destruct (col_at_bounds right i (ija right i) Wr Hir' ltac:(lia)) as [Br1 _].
  assert (Hnone : forall j, 0 <= j < c -> E i j = false).
  { intros j Hj. apply ew_emits_none.
    - apply (nd_found_none left i j (ija left i) Wl Hi); [lia|intros q Hq; lia|lia].
    - apply (nd_found_none right i j (ija right i) Wr Hir'); [lia|intros q Hq; lia|lia]. }
  assert (Hslot : emit_slot E rows cols i c = rows + 1 + emit_before E cols i).
  { unfold emit_slot.
    rewrite (count_range_false_tail (E i) 0 c) by (try lia; exact Hnone).
    rewrite count_range_empty by lia. lia. }
  split; [lia|]. split; [lia|].
  split; [intros q Hq; lia|]. split; [intros q Hq; lia|].
  split; [exact B3|]. split; [rewrite Hslot; lia|]. split; [exact B5|].
  split.
  { intros k Hk. destruct (Z.eq_dec k i) as [->|Hne].
    - rewrite upd_same. lia.
    - rewrite upd_other by exact Hne. apply B6. lia. }
  split.
  { intros i' j' Hi' Hj' Hord He.
    destruct Hord as [Hlt|[-> Hlt]].
    - pose proof (ew_slot_low i' j' Hi' ltac:(lia)).
      pose proof (emit_before_le E cols Hcols 0 i' ltac:(lia) ltac:(lia)) as Hb0.
      rewrite emit_before_0 in Hb0.
      rewrite upd_other by lia. apply B7; try lia. exact He.
    - rewrite Hnone in He by lia. discriminate. }
  exact B8.
Qed.

(** The end of row [i]: both sides are set to the ends of their rows. *)
Lemma ew_row_end (i : Z) (st : ew_state) :
  0 <= i < rows -> inv i st ->
  (is_EW_MUL op = true /\
   (rows + 1 + la_index st = ija left (i + 1) \/
    rows + 1 + ra_index st = ija right (i + 1))) \/
  (rows + 1 + la_index st = ija left (i + 1) /\
   rows + 1 + ra_index st = ija right (i + 1)) ->
  between (i + 1)
    (mkEw (ija left (i + 1) - (rows + 1)) (ija right (i + 1) - (rows + 1))
          (da_index st) (d_ija st) (d_a st)).
Proof.
  intros Hi [I1 [I2 [I3 [I4 [I5 [I6 [I7 [I8 [I9 I10]]]]]]]]] Hend.
  assert (Hir' : 0 <= i < shape0 right) by lia.
  pose proof (wf_cols left Wl) as Hcols.
  set (c := ew_frontier left right i st) in *.
  destruct (col_at_bounds left i _ Wl Hi I1) as [Bl1 [_ Bl3]].
  destruct (col_at_bounds right i _ Wr Hir' I2) as [Br1 [_ Br3]].
  assert (Hc : 0 <= c <= cols) by (unfold c, ew_frontier; lia).
  assert (Hnone : forall j, c <= j < cols -> E i j = false).
  { intros j Hj.
    destruct Hend as [[Emul [Hl|Hr]]|[Hl Hr]].
    - assert (Fl : nd_found left i j = None).
      { apply (nd_found_none left i j _ Wl Hi I1).
        - intros q Hq. specialize (I3 q Hq). lia.
        - rewrite (Bl3 Hl). lia. }
      unfold ew_emits, ew_value. rewrite Fl, Emul.
      destruct (nd_found right i j); apply andb_false_r.
    - assert (Fr : nd_found right i j = None).
      { apply (nd_found_none right i j _ Wr Hir' I2).
        - intros q Hq. specialize (I4 q Hq). lia.
        - rewrite (Br3 Hr). lia. }
      unfold ew_emits, ew_value. rewrite Fr, Emul.
      destruct (nd_found left i j); apply andb_false_r.
    - exfalso. unfold c, ew_frontier in Hj. rewrite (Bl3 Hl), (Br3 Hr) in Hj. lia. }
  assert (Hslot : emit_slot E rows cols i c
                  = rows + 1 + emit_before E cols (i + 1)).
  { unfold emit_slot. rewrite emit_before_step by lia.
    rewrite (count_range_false_tail (E i) c cols) by (try lia; exact Hnone). lia. }
  unfold ew_between. cbn [la_index ra_index da_index d_ija d_a].
  split; [lia|]. split; [lia|]. split; [exact I5|]. split; [lia|].
  split; [exact I7|].
  split; [intros k Hk; apply I8; lia|].
  split; [|exact I10].
  intros i' j' Hi' Hj' He.
  apply I9; try lia; try exact He.
  destruct (Z.eq_dec i' i) as [->|Hne]; [|left; lia].
  right. split; [reflexivity|].
  destruct (Z.lt_ge_cases j' c) as [Hlt|Hge]; [exact Hlt|].
  rewrite Hnone in He by lia. discriminate.
Qed.

(** One pass of the row loop. *)
Lemma ew_row_or (fuel : nat) (dit : itype_t) (i : Z) (st : ew_state) :
  0 <= i < rows ->
  dcap < IMOD dit ->
  capacity left + capacity right < Z.of_nat fuel ->
  between i st ->
  (exists st',
     ew_row ew_op_switch fuel op left right dit dcap rows (rows + 1) i st = Ok st' /\
     between (i + 1) st') \/
  (ew_row ew_op_switch fuel op left right dit dcap rows (rows + 1) i st = Fault /\
   short).
Proof.
  intros Hi Hdi Hfuel Hb.
  pose proof Hb as [B1 [B2 [B3 [B4 [B5 _]]]]].
  assert (Hir' : 0 <= i < shape0 right) by lia.
  pose proof (wf_row_bounds left Wl i Hi) as [Rl1 [Rl2 Rl3]].
  pose proof (wf_row_bounds right Wr i Hir') as [Rr1 [Rr2 Rr3]].
  rewrite Hs0 in Rr1.
  remember (ew_row ew_op_switch fuel op left right dit dcap rows (rows + 1) i st)
    as run eqn:Erun.
  unfold ew_row in Erun. rewrite (rd_ija_as_same _ _ _ Hkind) in Erun.
  unfold rd_ija in Erun.
  rewrite !rd_ok in Erun by lia. cbn [bind] in Erun.
  rewrite !to_uint_small in Erun by lia.
  rewrite to_itype_small in Erun by lia.
  rewrite wr_ok in Erun by lia. cbn [bind] in Erun.
  pose proof (ew_row_start i st (da_index st + (rows + 1)) Hi Hb ltac:(lia)) as Hinv0.
  destruct (ew_merge_or i fuel _ Hi Hinv0) as [[st1 [Hrun1 [Hinv1 Hend1]]]|[Hrun1 Hsh]];
    [cbn [la_index ra_index]; lia| |].
  - rewrite Hrun1 in Erun. cbn [bind] in Erun.
    pose proof Hinv1 as [J1 [J2 _]].
    destruct (is_EW_MUL op) eqn:Emul; cbn [negb] in Erun.
    + cbn [bind] in Erun. subst run. left. eexists. split; [reflexivity|].
      apply ew_row_end; [exact Hi|exact Hinv1|]. left. split; [exact Emul|exact Hend1].
    + destruct (ew_rest_left_or i fuel st1 Hi Hinv1 Emul Hend1 ltac:(lia))
        as [[st2 [Hrun2 [Hinv2 [L2 R2]]]]|[Hrun2 Hsh]].
      * rewrite Hrun2 in Erun. cbn [bind] in Erun.
        pose proof Hinv2 as [K1 [K2 _]].
        destruct (ew_rest_right_or i fuel st2 Hi Hinv2 Emul L2 ltac:(lia))
          as [[st3 [Hrun3 [Hinv3 [R3 L3]]]]|[Hrun3 Hsh]].
        -- rewrite Hrun3 in Erun. cbn [bind] in Erun. subst run.
           left. eexists. split; [reflexivity|].
           apply ew_row_end; [exact Hi|exact Hinv3|]. right. split; [lia|exact R3].
        -- rewrite Hrun3 in Erun. cbn [bind] in Erun. subst run.
           right. split; [reflexivity|exact Hsh].
      * rewrite Hrun2 in Erun. cbn [bind] in Erun. subst run.
        right. split; [reflexivity|exact Hsh].
  - rewrite Hrun1 in Erun. cbn [bind] in Erun. subst run.
    right. split; [reflexivity|exact Hsh].
Qed.

End ElementwiseAll.

(** The two ways a run of ew_op ends on well-formed operands of the same
    shape: with the destination laid out by the cells it emits, when the
    block that nm_yale_storage_create hands out has room for them, or in a
    write beyond the block. *)
Lemma ew_op_outcome (itype_by_shape : Z -> Z -> itype_t)
  (NM_YALE_MINIMUM : YALE_STORAGE -> Z) (junk_ija junk_a : array)
  (ew_op_switch : ewop_t -> Z -> Z -> Z) (fuel : nat) (op : ewop_t)
  (left right : YALE_STORAGE) (dt : dtype_t) (dest0 : YALE_STORAGE) :
  wf_facts left -> wf_facts right ->
  shape0 right = shape0 left -> shape1 right = shape1 left ->
  itype right = itype left ->
  capacity left < 2 ^ 31 -> capacity right < 2 ^ 31 ->
  nm_yale_storage_create itype_by_shape NM_YALE_MINIMUM junk_ija junk_a
    dt (shape0 left) (shape1 left) 2
    (Z.min (to_size_t (to_size_t (ndnz left + ndnz right) + shape0 left))
           (to_size_t (shape0 left * shape1 left)))
    (itype left) = Ok dest0 ->
  capacity dest0 < 2 ^ 31 ->
  capacity dest0 < IMOD (itype dest0) ->
  capacity left + capacity right < Z.of_nat fuel ->
  (shape0 left + 1
   + emit_before (ew_emits ew_op_switch op left right) (shape1 left) (shape0 left)
   <= capacity dest0 /\
   exists dest,
     ew_op itype_by_shape NM_YALE_MINIMUM junk_ija junk_a ew_op_switch
       fuel op left right dt = Ok dest /\
     emitted_layout (ew_emits ew_op_switch op left right)
       (ew_cell ew_op_switch op left right) (shape0 left) (shape1 left) dest /\
     dtype dest = dt /\ itype dest = itype dest0 /\
     ndnz dest = emit_before (ew_emits ew_op_switch op left right)
                   (shape1 left) (shape0 left) /\
     capacity dest = shape0 left + ndnz dest + 1 /\
     (forall k, 0 <= k < shape0 left ->
        a dest k = ew_op_switch op (a left k) (a right k)) /\
     a dest (shape0 left) = 0) \/
  (capacity dest0
   < shape0 left + 1
     + emit_before (ew_emits ew_op_switch op left right) (shape1 left) (shape0 left) /\
   ew_op itype_by_shape NM_YALE_MINIMUM junk_ija junk_a ew_op_switch
     fuel op left right dt = Fault).
Proof.
  intros Wl Wr Hs0 Hs1 Hkind Hil Hir Hcreate Hd31 Hdi Hfuel.
  set (rows := shape0 left) in *. set (cols := shape1 left) in *.
  set (E := ew_emits ew_op_switch op left right).
  set (N := emit_before E cols rows).
  set (dcap := capacity dest0) in *.
  pose proof (wf_rows left Wl) as Hrows. fold rows in Hrows.
  pose proof (wf_cols left Wl) as Hcols. fold cols in Hcols.
  pose proof (wf_ija0 left Wl) as Hl0. pose proof (wf_ija0 right Wr) as Hr0.
  fold rows in Hl0. rewrite Hs0 in Hr0.
  pose proof (wf_size left Wl) as Hsz. pose proof (wf_size right Wr) as Hszr.
  fold rows in Hsz. rewrite Hs0 in Hszr.
  pose proof (wf_mono_le left Wl 0 rows ltac:(lia) ltac:(lia) ltac:(unfold rows; lia))
    as Hml.
  pose proof (wf_mono_le right Wr 0 rows ltac:(lia) ltac:(lia) ltac:(lia)) as Hmr.
  pose proof (emit_before_le E cols Hcols 0 rows ltac:(lia) ltac:(lia)) as HN.
  rewrite emit_before_0 in HN. fold N in HN.
  remember (ew_op itype_by_shape NM_YALE_MINIMUM junk_ija junk_a ew_op_switch
              fuel op left right dt) as run eqn:Erun.
  unfold ew_op in Erun. fold rows in Erun. fold cols in Erun.
  rewrite Hcreate in Erun. cbn [bind] in Erun. fold dcap in Erun.
  (* the diagonal *)
  destruct (for_range_or
              (fun k (da : array) =>
                 forall x, 0 <= x < k ->
                   da x = ew_op_switch op (a left x) (a right x))
              (dcap < rows + 1 + N)
              (fun k da =>
                 lv <- rd_a left k ;;
                 rv <- rd_a right k ;;
                 wr dcap da k (ew_op_switch op lv rv))
              0 rows (a dest0)) as [[da0 [Hda0 Hdiag]]|[Hda0 Hsh]].
  { lia. }
  { intros x Hx. lia. }
  { intros k da Hk Hd. unfold rd_a. rewrite !rd_ok by lia. cbn [bind].
    destruct (Z.lt_ge_cases k dcap) as [Hlt|Hge].
    - left. rewrite wr_ok by lia. eexists. split; [reflexivity|].
      intros x Hx. destruct (Z.eq_dec x k) as [->|Hne].
      + apply upd_same.
      + rewrite upd_other by exact Hne. apply Hd. lia.
    - right. rewrite wr_fault by lia. split; [reflexivity|lia]. }
  2:{ rewrite Hda0 in Erun. cbn [bind] in Erun. subst run.
      right. split; [exact Hsh|reflexivity]. }
  rewrite Hda0 in Erun. cbn [bind] in Erun.
  (* the zero slot *)
  destruct (Z.lt_ge_cases rows dcap) as [Hroom|Hnoroom].
  2:{ rewrite wr_fault in Erun by lia. cbn [bind] in Erun. subst run.
      right. split; [lia|reflexivity]. }
  rewrite wr_ok in Erun by lia. cbn [bind] in Erun.
  rewrite (to_uint_small (rows + 1)) in Erun by lia.
  (* the rows *)
  destruct (for_range_or
              (ew_between ew_op_switch op left right dcap (upd da0 rows 0))
              (dcap < rows + 1 + N)
              (ew_row ew_op_switch fuel op left right (itype dest0) dcap rows
                 (rows + 1))
              0 rows (mkEw 0 0 0 (ija dest0) (upd da0 rows 0)))
    as [[st [Hst Hb]]|[Hst Hsh]].
  { lia. }
  { unfold ew_between. cbn [la_index ra_index da_index d_ija d_a]. fold rows.
    split; [lia|]. split; [lia|]. split; [lia|].
    split; [reflexivity|]. split; [lia|].
    split; [intros k Hk; lia|]. split; [intros i' j' Hi'; lia|].
    intros k Hk. reflexivity. }
  { intros k st0 Hk Hb0.
    apply (ew_row_or ew_op_switch op left right dcap (upd da0 rows 0) Wl Wr Hs0 Hs1
             Hil Hir Hd31 Hkind fuel (itype dest0) k st0 Hk Hdi Hfuel Hb0). }
  2:{ rewrite Hst in Erun. cbn [bind] in Erun. subst run.
      right. split; [exact Hsh|reflexivity]. }
  rewrite Hst in Erun. cbn [bind] in Erun.
  destruct Hb as [B1 [B2 [B3 [B4 [B5 [B6 [B7 B8]]]]]]].
  fold rows in B1, B2, B3, B4, B5, B6, B7, B8. fold cols in B4, B6, B7.
  fold E in B4, B6, B7. fold N in B4.
  rewrite to_uint_small in Erun by lia.
  rewrite to_itype_small in Erun by lia.
  rewrite wr_ok in Erun by lia. cbn [bind] in Erun. subst run.
  left. split; [lia|]. eexists. split; [reflexivity|].
  cbn [dtype itype ndnz capacity a ija shape0 shape1].
  split.
  { split; [reflexivity|]. split; [reflexivity|]. cbn [ija a]. split.
    - intros i Hi. destruct (Z.eq_dec i rows) as [->|Hne].
      + rewrite upd_same. fold N. lia.
      + rewrite upd_other by exact Hne. apply B6. lia.
    - intros i j Hi Hj He.
      pose proof (emit_before_le E cols Hcols 0 i ltac:(lia) ltac:(lia)) as Hb0.
      rewrite emit_before_0 in Hb0.
      assert (Hlow : rows + 1 <= emit_slot E rows cols i j).
      { unfold emit_slot.
        pose proof (count_range_mono 0 (E i) 0 j ltac:(lia) ltac:(lia)). lia. }
      rewrite upd_other by lia. apply B7; assumption. }
  split; [reflexivity|]. split; [reflexivity|]. split; [exact B4|].
  split; [reflexivity|].
  split.
  { intros k Hk. rewrite B8 by lia. rewrite upd_other by lia. apply Hdiag. exact Hk. }
  rewrite B8 by lia. apply upd_same.
Qed.

(** A cell off the diagonal reads as the value its row stores for the
    column, or as the zero slot. *)
Lemma ref_value_nd (fuel : nat) (s : YALE_STORAGE) (i j : Z) :
  wf_facts s -> capacity s < 2 ^ 31 -> capacity s < Z.of_nat fuel ->
  0 <= i < shape0 s -> 0 <= j < shape1 s -> i <> j ->
  ref_value fuel s (mkSlice i j true)
  = Ok (match nd_found s i j with Some v => v | None => a s (shape0 s) end).
Proof.
  intros W Hint Hfuel Hi Hj Hne.
  destruct (ref_value_cases fuel s i j W Hint Hi Hj Hfuel) as [p [Hv Hcases]].
  rewrite Hv. f_equal. unfold nd_found.
  destruct Hcases as [[He _]|[[_ [Hp Hc]]|[_ [Hp Hno]]]]; [contradiction| |].
  - destruct (scan_n _ _ _ j) as [q|] eqn:Es.
    + apply scan_n_Some in Es. destruct Es as [Hq Hkq].
      f_equal. apply (stored_at_unique s i j p q W Hi); split; try assumption; lia.
    + exfalso. apply (scan_n_None _ _ _ _ Es p); [lia|exact Hc].
  - destruct (scan_n _ _ _ j) as [q|] eqn:Es.
    + exfalso. apply scan_n_Some in Es. destruct Es as [Hq Hkq].
      apply (Hno q). split; [lia|exact Hkq].
    + subst p. reflexivity.
Qed.

(** What the cells of the result of ew_op read as. *)
Lemma ew_op_reads_cells (itype_by_shape : Z -> Z -> itype_t)
  (NM_YALE_MINIMUM : YALE_STORAGE -> Z) (junk_ija junk_a : array)
  (ew_op_switch : ewop_t -> Z -> Z -> Z) (fuel : nat) (op : ewop_t)
  (left right : YALE_STORAGE) (dt : dtype_t) (dest0 : YALE_STORAGE) :
  well_formed left = true -> well_formed right = true ->
  shape0 right = shape0 left -> shape1 right = shape1 left ->
  itype right = itype left ->
  positions_fit_int left -> positions_fit_int right ->
  nm_yale_storage_create itype_by_shape NM_YALE_MINIMUM junk_ija junk_a
    dt (shape0 left) (shape1 left) 2
    (Z.min (to_size_t (to_size_t (ndnz left + ndnz right) + shape0 left))
           (to_size_t (shape0 left * shape1 left)))
    (itype left) = Ok dest0 ->
  shape0 left + 1
  + emit_before (ew_emits ew_op_switch op left right) (shape1 left) (shape0 left)
  <= capacity dest0 ->
  capacity dest0 < 2 ^ 31 ->
  capacity dest0 < IMOD (itype dest0) ->
  capacity left + capacity right < Z.of_nat fuel ->
  capacity dest0 < Z.of_nat fuel ->
  exists dest,
    ew_op itype_by_shape NM_YALE_MINIMUM junk_ija junk_a ew_op_switch
      fuel op left right dt = Ok dest /\
    well_formed dest = true /\
    shape0 dest = shape0 left /\ shape1 dest = shape1 left /\ dtype dest = dt /\
    ndnz dest = emit_before (ew_emits ew_op_switch op left right)
                  (shape1 left) (shape0 left) /\
    ija dest (shape0 dest) = shape0 left + ndnz dest + 1 /\
    capacity dest = shape0 left + ndnz dest + 1 /\
    forall i j, 0 <= i < shape0 left -> 0 <= j < shape1 left ->
      ref_value fuel dest (mkSlice i j true)
      = Ok (if i =? j then ew_op_switch op (a left i) (a right i)
            else ew_cell ew_op_switch op left right i j).
Proof.
  intros Hwl Hwr Hs0 Hs1 Hkind Hil Hir Hcreate Hroom Hd31 Hdi Hfuel Hfuel'.
  pose proof (well_formed_facts left Hwl) as Wl.
  pose proof (well_formed_facts right Hwr) as Wr.
  unfold positions_fit_int in Hil, Hir.
  destruct (ew_op_outcome itype_by_shape NM_YALE_MINIMUM junk_ija junk_a
              ew_op_switch fuel op left right dt dest0 Wl Wr Hs0 Hs1 Hkind Hil Hir
              Hcreate Hd31 Hdi Hfuel)
    as [[_ [dest [Hrun [L [Hdt [Hit [Hnd [Hcap [Hdiag Hzero]]]]]]]]]|[Hshort _]];
    [|lia].
  set (E := ew_emits ew_op_switch op left right) in *.
  set (V := ew_cell ew_op_switch op left right) in *.
  pose proof (wf_rows left Wl) as Hrows. pose proof (wf_cols left Wl) as Hcols.
  assert (Hdiag0 : forall i, E i i = false).
  { intros i. unfold E, ew_emits. rewrite Z.eqb_refl. reflexivity. }
  assert (Hci : capacity dest < IMOD (itype dest)) by (rewrite Hit, Hcap, Hnd; lia).
  assert (Hcc : shape1 left < IMOD (itype dest)).
  { rewrite Hit. unfold nm_yale_storage_create in Hcreate. simpl in Hcreate.
    inversion Hcreate. simpl.
    pose proof (wf_cols_itype left Wl) as Hc.
    destruct (itype_rank (itype_by_shape (shape0 left) (shape1 left))
              <? itype_rank (itype left)) eqn:Er.
    - exact Hc.
    - apply Z.ltb_ge in Er. pose proof (itype_rank_IMOD _ _ Er). lia. }
  assert (Hsz : shape0 left + 1 + emit_before E (shape1 left) (shape0 left)
                <= capacity dest) by (rewrite Hcap, Hnd; lia).
  pose proof (emitted_wf E V (shape0 left) (shape1 left) Hrows Hcols Hdiag0 dest L
                Hsz Hci Hcc) as Wd.
  pose proof L as [L0 [L1 [Lp _]]].
  exists dest. split; [exact Hrun|].
  split; [apply facts_well_formed; exact Wd|].
  split; [exact L0|]. split; [exact L1|]. split; [exact Hdt|].
  split; [exact Hnd|].
  split; [rewrite L0, Lp by lia; rewrite Hnd; lia|].
  split; [exact Hcap|].
  intros i j Hi Hj.
  rewrite (emitted_read E V (shape0 left) (shape1 left) Hrows Hcols Hdiag0 fuel
             dest i j L Hsz Hci Hcc) by (try assumption; rewrite Hcap, Hnd; lia).
  f_equal.
  destruct (Z.eqb_spec i j) as [He|Hne]; [apply Hdiag; exact Hi|].
  destruct (E i j) eqn:Ee; [reflexivity|].
  rewrite Hzero. unfold E, ew_emits in Ee. unfold V, ew_cell.
  destruct (Z.eqb_spec j i) as [?|_]; [congruence|]. cbn [negb andb] in Ee.
  destruct (ew_value ew_op_switch op left right i j) as [v|]; [|reflexivity].
  apply negb_false_iff, Z.eqb_eq in Ee. congruence.
Qed.




(** ** Insertion of several entries into a row *)

(** The layout after [n] sorted columns are put into row [row] at [pos]. *)
Lemma inserted_n_wf (s s' : YALE_STORAGE) (row pos n : Z) (col : Z -> Z) :
  wf_facts s ->
  0 <= row < shape0 s -> 1 <= n ->
  ija s row <= pos <= ija s (row + 1) ->
  (forall k, 0 <= k < n -> 0 <= col k < shape1 s /\ col k <> row) ->
  (forall k, 0 <= k -> k + 1 < n -> col k < col (k + 1)) ->
  (forall q, ija s row <= q < pos -> ija s q < col 0) ->
  (forall q, pos <= q < ija s (row + 1) -> col (n - 1) < ija s q) ->
  shape0 s' = shape0 s -> shape1 s' = shape1 s ->
  itype s' = itype s -> capacity s' = capacity s ->
  ija s (shape0 s) + n <= capacity s ->
  (forall k, 0 <= k <= row -> ija s' k = ija s k) ->
  (forall k, row < k <= shape0 s -> ija s' k = ija s k + n) ->
  (forall q, shape0 s < q < pos -> ija s' q = ija s q) ->
  (forall k, 0 <= k < n -> ija s' (pos + k) = col k) ->
  (forall q, pos <= q < ija s (shape0 s) -> ija s' (q + n) = ija s q) ->
  wf_facts s'.
Proof.
  intros W Hrow Hn Hpos Hcol Hsorted Hbefore Hafter E0 E1 Ei Ec Hroom F1 F2 F3 F4 F5.
  pose proof (wf_rows s W) as Hrows. pose proof (wf_cols s W) as Hcols.
  pose proof (wf_mono_le s W) as Hmono.
  assert (Hptr : forall k, 0 <= k <= shape0 s ->
            ija s' k = if k <=? row then ija s k else ija s k + n).
  { intros k Hk. destruct (k <=? row) eqn:E.
    - apply Z.leb_le in E. apply F1. lia.
    - apply Z.leb_gt in E. apply F2. lia. }
  assert (Hlow : forall k, 0 <= k <= shape0 s ->
            shape0 s + 1 <= ija s k <= ija s (shape0 s)).
  { intros k Hk. pose proof (Hmono 0 k). pose proof (Hmono k (shape0 s)).
    pose proof (wf_ija0 s W). lia. }
  assert (Hshift : forall q, pos + n <= q < ija s (shape0 s) + n ->
            ija s' q = ija s (q - n)).
  { intros q Hq. replace q with (q - n + n) at 1 by lia. apply F5. lia. }
  assert (Hnew : forall q, pos <= q < pos + n -> ija s' q = col (q - pos)).
  { intros q Hq. replace q with (pos + (q - pos)) at 1 by lia. apply F4. lia. }
  pose proof (Hlow row ltac:(lia)) as Lr. pose proof (Hlow (row + 1) ltac:(lia)) as Lr1.
  constructor; rewrite ?E0, ?E1, ?Ec, ?Ei.
  - exact Hrows.
  - exact Hcols.
  - rewrite F1 by lia. apply (wf_ija0 s W).
  - intros i Hi. rewrite !Hptr by lia. pose proof (wf_mono s W i Hi).
    destruct (Z.leb_spec i row); destruct (Z.leb_spec (i + 1) row); lia.
  - intros i p Hi Hp. rewrite !Hptr in Hp by lia.
    pose proof (Hlow i ltac:(lia)) as Li. pose proof (Hlow (i + 1) ltac:(lia)) as Li1.
    pose proof (Hmono (i + 1) row) as M1. pose proof (Hmono (row + 1) i) as M2.
    pose proof (wf_mono s W i Hi) as Mi.
    destruct (Z.lt_trichotomy i row) as [Hlt|[Heq|Hgt]].
    + destruct (Z.leb_spec i row); destruct (Z.leb_spec (i + 1) row); try lia.
      rewrite F3 by lia. apply (wf_col s W i p Hi). lia.
    + subst i.
      destruct (Z.leb_spec row row); destruct (Z.leb_spec (row + 1) row); try lia.
      destruct (Z.lt_ge_cases p pos) as [Hb|Hb].
      * rewrite F3 by lia. apply (wf_col s W row p Hi). lia.
      * destruct (Z.lt_ge_cases p (pos + n)) as [Hc|Hc].
        -- rewrite Hnew by lia. apply Hcol. lia.
        -- rewrite Hshift by lia. apply (wf_col s W row (p - n) Hi). lia.
    + destruct (Z.leb_spec i row); destruct (Z.leb_spec (i + 1) row); try lia.
      rewrite Hshift by lia. apply (wf_col s W i (p - n) Hi). lia.
  - intros i p Hi Hp1 Hp2. rewrite !Hptr in Hp1, Hp2 by lia.
    pose proof (Hlow i ltac:(lia)) as Li. pose proof (Hlow (i + 1) ltac:(lia)) as Li1.
    pose proof (Hmono (i + 1) row) as M1. pose proof (Hmono (row + 1) i) as M2.
    pose proof (wf_mono s W i Hi) as Mi.
    destruct (Z.lt_trichotomy i row) as [Hlt|[Heq|Hgt]].
    + destruct (Z.leb_spec i row); destruct (Z.leb_spec (i + 1) row); try lia.
      rewrite !F3 by lia. apply (wf_next s W i p Hi); lia.
    + subst i.
      destruct (Z.leb_spec row row); destruct (Z.leb_spec (row + 1) row); try lia.
      destruct (Z.lt_ge_cases (p + 1) pos) as [Hb|Hb].
      * rewrite !F3 by lia. apply (wf_next s W row p Hi); lia.
      * destruct (Z.eq_dec (p + 1) pos) as [Hq|Hq].
        -- rewrite F3 by lia. rewrite (Hnew (p + 1)) by lia.
           replace (p + 1 - pos) with 0 by lia. apply Hbefore. lia.
        -- destruct (Z.lt_ge_cases (p + 1) (pos + n)) as [Hc|Hc].
           ++ rewrite !Hnew by lia.
              replace (p + 1 - pos) with (p - pos + 1) by lia.
              apply Hsorted; lia.
           ++ destruct (Z.eq_dec (p + 1) (pos + n)) as [Hq'|Hq'].
              ** rewrite Hnew by lia. rewrite Hshift by lia.
                 replace (p - pos) with (n - 1) by lia.
                 apply Hafter. lia.
              ** rewrite !Hshift by lia.
                 replace (p + 1 - n) with (p - n + 1) by lia.
                 apply (wf_next s W row (p - n) Hi); lia.
    + destruct (Z.leb_spec i row); destruct (Z.leb_spec (i + 1) row); try lia.
      rewrite !Hshift by lia.
      replace (p + 1 - n) with (p - n + 1) by lia.
      apply (wf_next s W i (p - n) Hi); lia.
  - rewrite Hptr by lia. destruct (Z.leb_spec (shape0 s) row); lia.
  - apply (wf_cap_itype s W).
  - apply (wf_cols_itype s W).
Qed.

(** What the cells read after [n] entries are put into row [row]. *)
Lemma inserted_n_read (fuel : nat) (s s' : YALE_STORAGE) (row pos n : Z)
  (col val : Z -> Z) :
  wf_facts s -> wf_facts s' ->
  capacity s < 2 ^ 31 -> capacity s < Z.of_nat fuel ->
  0 <= row < shape0 s -> 1 <= n ->
  ija s row <= pos <= ija s (row + 1) ->
  (forall k, 0 <= k < n -> 0 <= col k < shape1 s /\ col k <> row) ->
  shape0 s' = shape0 s -> shape1 s' = shape1 s -> capacity s' = capacity s ->
  (forall k, 0 <= k <= row -> ija s' k = ija s k) ->
  (forall k, row < k <= shape0 s -> ija s' k = ija s k + n) ->
  (forall q, shape0 s < q < pos -> ija s' q = ija s q) ->
  (forall k, 0 <= k < n -> ija s' (pos + k) = col k) ->
  (forall q, pos <= q < ija s (shape0 s) -> ija s' (q + n) = ija s q) ->
  (forall q, 0 <= q < pos -> a s' q = a s q) ->
  (forall k, 0 <= k < n -> a s' (pos + k) = val k) ->
  (forall q, pos <= q < ija s (shape0 s) -> a s' (q + n) = a s q) ->
  (forall k, 0 <= k < n ->
     ref_value fuel s' (mkSlice row (col k) true) = Ok (val k)) /\
  (forall r c, 0 <= r < shape0 s -> 0 <= c < shape1 s ->
     (forall k, 0 <= k < n -> (r, c) <> (row, col k)) ->
     ref_value fuel s' (mkSlice r c true) = ref_value fuel s (mkSlice r c true)).
Proof.
  intros W W' Hint Hfuel Hrow Hn Hpos Hcol E0 E1 Ec F1 F2 F3 F4 F5 A1 A2 A3.
  pose proof (wf_rows s W) as Hrows.
  pose proof (wf_mono_le s W) as Hmono.
  assert (Hint' : positions_fit_int s') by (unfold positions_fit_int; lia).
  assert (Hptr : forall k, 0 <= k <= shape0 s ->
            ija s' k = if k <=? row then ija s k else ija s k + n).
  { intros k Hk. destruct (k <=? row) eqn:E.
    - apply Z.leb_le in E. apply F1. lia.
    - apply Z.leb_gt in E. apply F2. lia. }
  assert (Hlow : forall k, 0 <= k <= shape0 s ->
            shape0 s + 1 <= ija s k <= ija s (shape0 s)).
  { intros k Hk. pose proof (Hmono 0 k). pose proof (Hmono k (shape0 s)).
    pose proof (wf_ija0 s W). lia. }
  assert (Hshift : forall q, pos + n <= q < ija s (shape0 s) + n ->
            ija s' q = ija s (q - n)).
  { intros q Hq. replace q with (q - n + n) at 1 by lia. apply F5. lia. }
  assert (Hnew : forall q, pos <= q < pos + n -> ija s' q = col (q - pos)).
  { intros q Hq. replace q with (pos + (q - pos)) at 1 by lia. apply F4. lia. }
  pose proof (Hlow row ltac:(lia)) as Lr. pose proof (Hlow (row + 1) ltac:(lia)) as Lr1.
  split.
  - intros k Hk. destruct (Hcol k Hk) as [C1 C2].
    rewrite <- (A2 k Hk).
    apply (ref_value_at fuel s' row (col k) (pos + k) W' Hint');
      rewrite ?E0, ?E1, ?Ec; [lia|lia|lia|].
    right. left. split; [lia|]. split; [|apply F4; exact Hk].
    rewrite !Hptr by lia.
    destruct (Z.leb_spec row row); destruct (Z.leb_spec (row + 1) row); lia.
  - intros r c Hr Hc Hnot.
    pose proof (Hlow r ltac:(lia)) as Li. pose proof (Hlow (r + 1) ltac:(lia)) as Li1.
    pose proof (Hmono (r + 1) row) as M1. pose proof (Hmono (row + 1) r) as M2.
    pose proof (wf_mono s W r Hr) as Mi.
    destruct (ref_value_cases fuel s r c W Hint Hr Hc Hfuel) as [p [Hv Hcases]].
    rewrite Hv.
    destruct Hcases as [[He Hp]|[[Hne [Hp Hk]]|[Hne [Hp Hno]]]].
    + (* the diagonal *)
      subst c p. rewrite <- (A1 r) by lia.
      apply (ref_value_at fuel s' r r r W' Hint'); rewrite ?E0, ?E1, ?Ec; [lia|lia|lia|].
      left. split; reflexivity.
    + (* a stored entry *)
      destruct (Z.lt_ge_cases p pos) as [Hb|Hb].
      * rewrite <- (A1 p) by lia.
        apply (ref_value_at fuel s' r c p W' Hint'); rewrite ?E0, ?E1, ?Ec; [lia|lia|lia|].
        right. left. split; [exact Hne|]. split; [|rewrite F3 by lia; exact Hk].
        rewrite !Hptr by lia.
        destruct (Z.leb_spec r row); destruct (Z.leb_spec (r + 1) row); lia.
      * rewrite <- (A3 p) by lia.
        apply (ref_value_at fuel s' r c (p + n) W' Hint');
          rewrite ?E0, ?E1, ?Ec; [lia|lia|lia|].
        right. left. split; [exact Hne|]. split; [|rewrite F5 by lia; exact Hk].
        rewrite !Hptr by lia.
        destruct (Z.leb_spec r row); destruct (Z.leb_spec (r + 1) row); lia.
    + (* no entry *)
      subst p. rewrite <- (A1 (shape0 s)) by lia. rewrite <- E0.
      apply (ref_value_at fuel s' r c (shape0 s') W' Hint');
        rewrite ?E0, ?E1, ?Ec; [lia|lia|lia|].
      right. right. split; [exact Hne|]. split; [reflexivity|].
      intros p' [Hp' Hk']. rewrite !Hptr in Hp' by lia.
      assert (Hp'' : (r < row /\ ija s r <= p' < ija s (r + 1)) \/
                     (r = row /\ ija s r <= p' < ija s (r + 1) + n) \/
                     (row < r /\ ija s r + n <= p' < ija s (r + 1) + n)).
      { destruct (Z.leb_spec r row); destruct (Z.leb_spec (r + 1) row); lia. }
      clear Hp'.
      destruct Hp'' as [[H1 H2]|[[H1 H2]|[H1 H2]]]; [|subst r|];
      destruct (Z.lt_ge_cases p' pos) as [Hb|Hb].
      * apply (Hno p'). split; [lia|rewrite <- F3 by lia; exact Hk'].
      * lia.
      * apply (Hno p'). split; [lia|rewrite <- F3 by lia; exact Hk'].
      * destruct (Z.lt_ge_cases p' (pos + n)) as [Hc'|Hc'].
        -- rewrite Hnew in Hk' by lia.
           apply (Hnot (p' - pos)); [lia|]. rewrite Hk'. reflexivity.
        -- apply (Hno (p' - n)). split; [lia|rewrite <- Hshift by lia; exact Hk'].
      * lia.
      * apply (Hno (p' - n)). split; [lia|rewrite <- Hshift by lia; exact Hk'].
Qed.


(** ** The arrays handed to Ruby *)

Lemma zrange_app (lo : Z) (n m : nat) :
  zrange lo (n + m) = zrange lo n ++ zrange (lo + Z.of_nat n) m.
Proof.
  revert lo. induction n as [|n IH]; intros lo.
  - simpl. replace (lo + 0) with lo by lia. reflexivity.
  - cbn [Nat.add zrange app]. rewrite IH. f_equal. f_equal. f_equal. lia.
Qed.

Lemma flat_map_single {X Y : Type} (f : X -> Y) (l : list X) :
  flat_map (fun k => [f k]) l = map f l.
Proof. induction l as [|x l IH]; simpl; [|rewrite IH]; reflexivity. Qed.

Lemma flat_map_const {X Y : Type} (y : Y) (l : list X) :
  flat_map (fun _ => [y]) l = repeat y (length l).
Proof. induction l as [|x l IH]; simpl; [|rewrite IH]; reflexivity. Qed.

Lemma map_zrange_shift {Y : Type} (F : Z -> Y) (b lo : Z) (n : nat) :
  map (fun i => F (b + i)) (zrange lo n) = map F (zrange (b + lo) n).
Proof.
  revert lo. induction n as [|n IH]; intros lo; simpl; [reflexivity|].
  rewrite IH. f_equal. f_equal. f_equal. lia.
Qed.

(** A loop that reads the cells [g lo .. g (hi - 1)] of a block and pushes
    their conversions. *)
Lemma for_range_read_push {Y : Type} (len : Z) (m : array) (g : Z -> Z)
  (f : Z -> Y) (lo hi : Z) (acc : list Y) :
  (forall i, lo <= i < hi -> 0 <= g i < len) ->
  for_range lo hi (fun i vals => v <- rd len m (g i) ;; Ok (vals ++ [f v])) acc
  = Ok (acc ++ map (fun i => f (m (g i))) (zrange lo (Z.to_nat (hi - lo)))).
Proof.
  intros Hb.
  rewrite (for_range_collect (fun i => [f (m (g i))])).
  - rewrite flat_map_single. reflexivity.
  - intros k acc' Hk. rewrite rd_ok by (apply Hb; exact Hk). reflexivity.
Qed.

Section RubyArrays.

Variable VALUE : Type.
Variable Qnil : VALUE.
Variable FIX2INT : VALUE -> Z.
Variable rubyobj_from_cval : Z -> dtype_t -> VALUE.
Variable rubyobj_from_cval_by_itype : Z -> itype_t -> VALUE.

Lemma push_nils_spec (s : YALE_STORAGE) (size : Z) (vals : list VALUE) :
  push_nils VALUE Qnil s size vals
  = Ok (vals ++ repeat Qnil (Z.to_nat (capacity s - size))).
Proof.
  unfold push_nils.
  rewrite (for_range_collect (fun _ => [Qnil])) by reflexivity.
  rewrite flat_map_const, zrange_length. reflexivity.
Qed.

End RubyArrays.

(** The arrays of the Ruby methods on a well-formed storage: yale_d holds
    the converted diagonal; yale_lu the converted values of the used slots
    after the zero slot, then one nil for every unused slot of the blocks;
    yale_a is yale_d, the zero slot and yale_lu one after the other, so it
    has one element for every slot of the capacity; yale_ia, yale_ja and
    yale_ija relate in the same way on IJA, without an element between
    them; yale_size is the converted size. *)
Theorem yale_arrays_compose (VALUE : Type) (Qnil : VALUE) (FIX2INT : VALUE -> Z)
  (rubyobj_from_cval : Z -> dtype_t -> VALUE)
  (rubyobj_from_cval_by_itype : Z -> itype_t -> VALUE) (s : YALE_STORAGE) :
  well_formed s = true ->
  exists d lu ia ja,
    d = map (fun k => rubyobj_from_cval (a s k) (dtype s))
            (zrange 0 (Z.to_nat (shape0 s))) /\
    lu = map (fun k => rubyobj_from_cval (a s k) (dtype s))
             (zrange (shape0 s + 1) (Z.to_nat (ija s (shape0 s) - shape0 s - 1)))
         ++ repeat Qnil (Z.to_nat (capacity s - ija s (shape0 s))) /\
    ia = map (fun k => rubyobj_from_cval_by_itype (ija s k) (itype s))
             (zrange 0 (Z.to_nat (shape0 s + 1))) /\
    ja = map (fun k => rubyobj_from_cval_by_itype (ija s k) (itype s))
             (zrange (shape0 s + 1) (Z.to_nat (ija s (shape0 s) - shape0 s - 1)))
         ++ repeat Qnil (Z.to_nat (capacity s - ija s (shape0 s))) /\
    nm_d VALUE FIX2INT rubyobj_from_cval s None = Ok (RbArray d) /\
    nm_lu VALUE Qnil rubyobj_from_cval s = Ok (RbArray lu) /\
    nm_a VALUE Qnil FIX2INT rubyobj_from_cval s None
    = Ok (RbArray (d ++ [rubyobj_from_cval (a s (shape0 s)) (dtype s)] ++ lu)) /\
    nm_ia VALUE rubyobj_from_cval_by_itype s = Ok (RbArray ia) /\
    nm_ja VALUE Qnil rubyobj_from_cval_by_itype s = Ok (RbArray ja) /\
    nm_ija VALUE Qnil FIX2INT rubyobj_from_cval_by_itype s None
    = Ok (RbArray (ia ++ ja)) /\
    nm_size VALUE rubyobj_from_cval_by_itype s
    = Ok (rubyobj_from_cval_by_itype (ija s (shape0 s)) (itype s)) /\
    Z.of_nat (length (d ++ [rubyobj_from_cval (a s (shape0 s)) (dtype s)] ++ lu))
    = capacity s /\
    Z.of_nat (length (ia ++ ja)) = capacity s.
Proof.
  intros Hwf. pose proof (well_formed_facts s Hwf) as W.
  pose proof (wf_rows s W) as Hrows.
  pose proof (wf_size s W) as Hsz.
  pose proof (wf_mono_le s W 0 (shape0 s) ltac:(lia) ltac:(lia) ltac:(lia)) as Hm.
  rewrite (wf_ija0 s W) in Hm.
  pose proof (wf_cap_itype s W) as Hci. pose proof (IMOD_le (itype s)) as H64.
  set (rows := shape0 s) in *. set (size := ija s rows) in *.
  assert (Hsplit : zrange 0 (Z.to_nat size)
                   = zrange 0 (Z.to_nat rows) ++ [rows]
                     ++ zrange (rows + 1) (Z.to_nat (size - rows - 1))).
  { replace (Z.to_nat size)
      with (Z.to_nat rows + (1 + Z.to_nat (size - rows - 1)))%nat by lia.
    rewrite zrange_app. f_equal. rewrite Z2Nat.id by lia. rewrite Z.add_0_l.
    cbn [Nat.add zrange app]. reflexivity. }
  assert (Hsplit' : zrange 0 (Z.to_nat size)
                    = zrange 0 (Z.to_nat (rows + 1))
                      ++ zrange (rows + 1) (Z.to_nat (size - rows - 1))).
  { replace (Z.to_nat size)
      with (Z.to_nat (rows + 1) + Z.to_nat (size - rows - 1))%nat by lia.
    rewrite zrange_app. f_equal. rewrite Z2Nat.id by lia. rewrite Z.add_0_l.
    reflexivity. }
  eexists. eexists. eexists. eexists.
  split; [reflexivity|]. split; [reflexivity|].
  split; [reflexivity|]. split; [reflexivity|].
  split.
  { unfold nm_d. fold rows. unfold rd_a.
    rewrite (for_range_read_push (capacity s) (a s) (fun i => i)
               (fun v => rubyobj_from_cval v (dtype s))) by (intros i Hi; lia).
    cbn [bind app]. rewrite Z.sub_0_r. reflexivity. }
  split.
  { unfold nm_lu, get_size, rd_ija. fold rows. rewrite rd_ok by lia. cbn [bind].
    fold size. rewrite to_size_t_small by lia. unfold rd_a.
    rewrite (for_range_read_push (capacity s) (a s) (fun i => rows + 1 + i)
               (fun v => rubyobj_from_cval v (dtype s))) by (intros i Hi; lia).
    cbn [bind app]. rewrite push_nils_spec. cbn [bind]. rewrite Z.sub_0_r.
    rewrite (map_zrange_shift (fun k => rubyobj_from_cval (a s k) (dtype s))
               (rows + 1) 0).
    rewrite Z.add_0_r. reflexivity. }
  split.
  { unfold nm_a, get_size, rd_ija. fold rows. rewrite rd_ok by lia. cbn [bind].
    fold size. unfold rd_a.
    rewrite (for_range_read_push (capacity s) (a s) (fun i => i)
               (fun v => rubyobj_from_cval v (dtype s))) by (intros i Hi; lia).
    cbn [bind app]. rewrite push_nils_spec. cbn [bind]. rewrite Z.sub_0_r.
    rewrite Hsplit. rewrite !map_app. cbn [map]. rewrite <- !app_assoc.
    reflexivity. }
  split.
  { unfold nm_ia. fold rows. unfold rd_ija.
    rewrite (for_range_read_push (capacity s) (ija s) (fun i => i)
               (fun v => rubyobj_from_cval_by_itype v (itype s)))
      by (intros i Hi; lia).
    cbn [bind app]. rewrite Z.sub_0_r. reflexivity. }
  split.
  { unfold nm_ja, get_size, rd_ija. fold rows. rewrite rd_ok by lia. cbn [bind].
    fold size. rewrite to_size_t_small by lia.
    rewrite (for_range_read_push (capacity s) (ija s) (fun i => rows + 1 + i)
               (fun v => rubyobj_from_cval_by_itype v (itype s)))
      by (intros i Hi; lia).
    cbn [bind app]. rewrite push_nils_spec. cbn [bind]. rewrite Z.sub_0_r.
    rewrite (map_zrange_shift
               (fun k => rubyobj_from_cval_by_itype (ija s k) (itype s))
               (rows + 1) 0).
    rewrite Z.add_0_r. reflexivity. }
  split.
  { unfold nm_ija, get_size, rd_ija. fold rows. rewrite rd_ok by lia. cbn [bind].
    fold size.
    rewrite (for_range_read_push (capacity s) (ija s) (fun i => i)
               (fun v => rubyobj_from_cval_by_itype v (itype s)))
      by (intros i Hi; lia).
    cbn [bind app]. rewrite push_nils_spec. cbn [bind]. rewrite Z.sub_0_r.
    rewrite Hsplit'. rewrite !map_app. rewrite <- !app_assoc. reflexivity. }
  split.
  { unfold nm_size, rd_ija. fold rows. rewrite rd_ok by lia. reflexivity. }
  split.
  - rewrite !length_app, !length_map, !zrange_length, repeat_length.
    cbn [length]. lia.
  - rewrite !length_app, !length_map, !zrange_length, repeat_length. lia.
Qed.

(** A copy compares equal to its source: cast_copy of a well-formed storage
    to its own value kind gives a storage for which eqeq returns true, with
    the copy on either side. *)
Theorem cast_copy_same_kind_eqeq (junk_ija junk_a : array) (fuel : nat)
  (s : YALE_STORAGE) :
  well_formed s = true ->
  capacity s < Z.of_nat fuel ->
  exists c,
    cast_copy junk_ija junk_a s (dtype s) = Ok c /\
    well_formed c = true /\
    eqeq fuel s c = Ok true /\
    eqeq fuel c s = Ok true.
Proof.
  intros Hwf Hfuel. pose proof (well_formed_facts s Hwf) as W.
  destruct (cast_copy_layout junk_ija junk_a s (dtype s) W)
    as [c [Hc [E0 [E1 [Ei [_ [Ec [_ [Hija Ha]]]]]]]]].
  assert (Hd : dtype_eqb (dtype s) (dtype s) = true) by (destruct (dtype s); reflexivity).
  rewrite Hd in Ha.
  pose proof (wf_rows s W) as Hrows.
  pose proof (wf_size s W) as Hsz.
  pose proof (wf_mono_le s W 0 (shape0 s) ltac:(lia) ltac:(lia) ltac:(lia)) as Hm.
  rewrite (wf_ija0 s W) in Hm.
  assert (Wc : wf_facts c) by (apply (wf_facts_below s c); assumption).
  assert (Hwc : well_formed c = true) by (apply facts_well_formed; exact Wc).
  assert (Hsize : ija c (shape0 c) = ija s (shape0 s)) by (rewrite E0; apply Hija; lia).
  exists c. split; [exact Hc|]. split; [exact Hwc|].
  split.
  - destruct (eqeq_aligned fuel s c Hwf Ei Hfuel ltac:(lia) Hija)
      as [b [Hrun Hb]].
    rewrite Hrun. f_equal. apply Hb. intros q Hq _. symmetry. apply Ha. exact Hq.
  - destruct (eqeq_aligned fuel c s Hwc (eq_sym Ei) ltac:(lia) ltac:(lia))
      as [b [Hrun Hb]].
    { intros q Hq. rewrite Hsize in Hq. symmetry. apply Hija. exact Hq. }
    rewrite Hrun. f_equal. apply Hb. intros q Hq _. rewrite Hsize in Hq.
    apply Ha. exact Hq.
Qed.

(** * Part V: the further properties on concrete storages *)









(** The old-Yale triples of [[5 0 6] [7 0 0]]. *)
Lemma create_from_old_yale_well_formed_witness :
  exists s,
    create_from_old_yale ex_itype_by_shape zeros zeros INT32 2 3
      old_ir old_jr old_ar = Ok s /\
    well_formed s = true /\
    cells_typed s = true /\
    shape0 s = 2 /\ shape1 s = 3 /\ dtype s = INT32 /\
    itype s = ex_itype_by_shape 2 3 /\
    ndnz s = nd_before old_ir old_jr 2 /\
    ija s (shape0 s) = 2 + ndnz s + 1 /\
    capacity s = 2 + ndnz s + 1.
Proof.
  apply (create_from_old_yale_well_formed ex_itype_by_shape zeros zeros INT32 2 3
           old_ir old_jr old_ar).
  - reflexivity.
  - vm_compute. reflexivity.
  - vm_compute. reflexivity.
Defined.

(** The positions [3, 5) of [eqL]. *)
Lemma ndrow_is_empty_iff_zeros_witness :
  exists b,
    ndrow_is_empty eqL 3 5 = Ok b /\
    (b = true <-> forall p, 3 <= p < 5 -> a eqL p = 0).
Proof.
  apply (ndrow_is_empty_iff_zeros eqL 3 5).
  - lia.
  - simpl. lia.
Defined.


(** eqeq returns true on [eqL] and [eqR]. *)
Lemma eqeq_true_diagonals_agree_witness :
  eqeq 10 eqL eqR = Ok true /\
  forall k, 0 <= k < shape0 eqL -> a eqL k = a eqR k.
Proof.
  split; [reflexivity|].
  apply (eqeq_true_diagonals_agree 10 eqL eqR).
  reflexivity.
Defined.

(** The size 6 of [ex3] against its greatest size 10. *)
Lemma well_formed_size_within_max_witness :
  max_size ex3 = shape0 ex3 + 1 + shape0 ex3 * shape1 ex3
                 - Z.min (shape0 ex3) (shape1 ex3) /\
  ija ex3 (shape0 ex3) <= max_size ex3.
Proof.
  apply (well_formed_size_within_max ex3).
  - reflexivity.
  - vm_compute. reflexivity.
Defined.



(** [ex3] of INT32 against [ex3_narrow] of INT8. *)
Lemma nm_yale_storage_ew_op_left_kind_wider_witness :
  (forall s,
     nm_yale_storage_ew_op ex_itype_by_shape ex_yale_minimum zeros zeros
       ex_ew_op_switch ex_Upcast 10 (Noncomp EW_ADD) ex3 ex3_narrow <> Ok s) /\
  (forall op', Noncomp EW_ADD = Noncomp op' -> well_formed ex3_narrow = true ->
     nm_yale_storage_ew_op ex_itype_by_shape ex_yale_minimum zeros zeros
       ex_ew_op_switch ex_Upcast 10 (Noncomp EW_ADD) ex3 ex3_narrow = Fault).
Proof.
  apply (nm_yale_storage_ew_op_left_kind_wider ex_itype_by_shape ex_yale_minimum
           zeros zeros ex_ew_op_switch ex_Upcast 10 (Noncomp EW_ADD) ex3 ex3_narrow).
  - simpl. discriminate.
  - reflexivity.
Defined.







(** The arrays of [ex3_room], with Ruby values stood for by integers and
    nil by -1. *)
Lemma yale_arrays_compose_witness :
  exists d lu ia ja,
    d = map (fun k => a ex3_room k) (zrange 0 (Z.to_nat (shape0 ex3_room))) /\
    lu = map (fun k => a ex3_room k)
             (zrange (shape0 ex3_room + 1)
                (Z.to_nat (ija ex3_room (shape0 ex3_room) - shape0 ex3_room - 1)))
         ++ repeat (-1)
              (Z.to_nat (capacity ex3_room - ija ex3_room (shape0 ex3_room))) /\
    ia = map (fun k => ija ex3_room k)
             (zrange 0 (Z.to_nat (shape0 ex3_room + 1))) /\
    ja = map (fun k => ija ex3_room k)
             (zrange (shape0 ex3_room + 1)
                (Z.to_nat (ija ex3_room (shape0 ex3_room) - shape0 ex3_room - 1)))
         ++ repeat (-1)
              (Z.to_nat (capacity ex3_room - ija ex3_room (shape0 ex3_room))) /\
    nm_d Z (fun v => v) (fun x _ => x) ex3_room None = Ok (RbArray d) /\
    nm_lu Z (-1) (fun x _ => x) ex3_room = Ok (RbArray lu) /\
    nm_a Z (-1) (fun v => v) (fun x _ => x) ex3_room None
    = Ok (RbArray (d ++ [a ex3_room (shape0 ex3_room)] ++ lu)) /\
    nm_ia Z (fun x _ => x) ex3_room = Ok (RbArray ia) /\
    nm_ja Z (-1) (fun x _ => x) ex3_room = Ok (RbArray ja) /\
    nm_ija Z (-1) (fun v => v) (fun x _ => x) ex3_room None
    = Ok (RbArray (ia ++ ja)) /\
    nm_size Z (fun x _ => x) ex3_room = Ok (ija ex3_room (shape0 ex3_room)) /\
    Z.of_nat (length (d ++ [a ex3_room (shape0 ex3_room)] ++ lu))
    = capacity ex3_room /\
    Z.of_nat (length (ia ++ ja)) = capacity ex3_room.
Proof.
  apply (yale_arrays_compose Z (-1) (fun v => v) (fun x _ => x) (fun x _ => x)
           ex3_room).
  reflexivity.
Defined.

(** [ex3_room] and its copy. *)
Lemma cast_copy_same_kind_eqeq_witness :
  exists c,
    cast_copy zeros zeros ex3_room (dtype ex3_room) = Ok c /\
    well_formed c = true /\
    eqeq 10 ex3_room c = Ok true /\
    eqeq 10 c ex3_room = Ok true.
Proof.
  apply (cast_copy_same_kind_eqeq zeros zeros 10 ex3_room).
  - reflexivity.
  - simpl. lia.
Defined.
